(** * Merkle Patricia Trie and RLP headers: a shallow embedding

    The development follows the Go sources of the repository:
    - [trie/encoding.go] (key encodings: KEYBYTES, HEX, COMPACT),
    - [rlp/encode.go]    (list and string headers: [puthead], [putint]),
    - [trie/trie.go]     (the trie handle, [insert], [delete], [tryGet]),
    - [trie/hasher.go]   (folding a trie into its root hash).

    Bytes are integers in [0, 256); every Go [byte] operation that can
    overflow is written with its wrap-around.  A Go slice is a list; an
    index that Go would reject with a run-time panic makes the model
    return [None] (or a [Panic] result in the trie part). *)

From Stdlib Require Import ZArith Lia Bool.
From stdpp Require Import base tactics option numbers list strings gmap.

#[local] Set Warnings "-register-all".
Local Open Scope Z_scope.

(** ** Bytes *)

(** Conversion to Go's [byte] (uint8): truncation modulo 256. *)
Definition byte (z : Z) : Z := z mod 256.

Definition is_byte (z : Z) : Prop := 0 <= z < 256.
Definition is_nibble (z : Z) : Prop := 0 <= z < 16.

Definition is_byteb (z : Z) : bool := (0 <=? z) && (z <? 256).
Definition is_nibbleb (z : Z) : bool := (0 <=? z) && (z <? 16).

(** [a<<4 | b] on bytes. *)
Definition pack2 (a b : Z) : Z := Z.lor (byte (Z.shiftl a 4)) b.

Module Encoding.

(** [hasTerm] returns whether a hex key has the terminator flag. *)
Definition hasTerm (s : list Z) : bool :=
  (0 <? length s)%nat && (nth (length s - 1) s 0 =? 16).

(** [keybytesToHex]: every byte gives two nibbles, then the terminator 16. *)
Fixpoint keybytesToHex_nibbles (str : list Z) : list Z :=
  match str with
  | [] => []
  | b :: rest => b / 16 :: b mod 16 :: keybytesToHex_nibbles rest
  end.

Definition keybytesToHex (str : list Z) : list Z :=
  keybytesToHex_nibbles str ++ [16].

(** [decodeNibbles(nibbles, bytes)]: the loop
    [for bi, ni := 0, 0; ni < len(nibbles); bi, ni = bi+1, ni+2]
    writes [bytes[bi] = nibbles[ni]<<4 | nibbles[ni+1]].  The result is the
    buffer [bytes] after the loop; [None] is the index panic of Go (an odd
    number of nibbles, or a buffer that is too short). *)
Fixpoint decodeNibbles (nibbles bytes : list Z) : option (list Z) :=
  match nibbles with
  | [] => Some bytes
  | [_] => None
  | a :: b :: rest =>
      match bytes with
      | [] => None
      | _ :: bs =>
          match decodeNibbles rest bs with
          | Some bs' => Some (pack2 a b :: bs')
          | None => None
          end
      end
  end.

(** [hexToCompact]: HEX to COMPACT. [buf] is [make([]byte, len(hex)/2+1)];
    [buf[0]] is the flag byte and [decodeNibbles] fills [buf[1:]]. *)
Definition hexToCompact (hex : list Z) : option (list Z) :=
  let terminator := if hasTerm hex then 1 else 0 in
  let hex := if hasTerm hex then take (length hex - 1) hex else hex in
  let buf := replicate (length hex / 2 + 1) 0 in
  let buf0 := byte (Z.shiftl terminator 5) in
  let odd := Z.land (Z.of_nat (length hex)) 1 =? 1 in
  let buf0 := if odd then Z.lor (Z.lor buf0 (byte (Z.shiftl 1 4))) (nth 0 hex 0)
              else buf0 in
  let hex := if odd then drop 1 hex else hex in
  match decodeNibbles hex (drop 1 buf) with
  | Some rest => Some (buf0 :: rest)
  | None => None
  end.

(** The loop of [hexToCompactInPlace]:
    [for ; ni < hexLen; bi, ni = bi+1, ni+2 { hex[bi] = hex[ni]<<4 | hex[ni+1] }],
    reading and writing the same buffer.  [fuel] bounds the number of
    iterations; [hexLen] iterations are always enough. *)
Fixpoint inPlaceLoop (fuel : nat) (hexLen : nat) (hex : list Z) (bi ni : nat)
  : option (list Z) :=
  if (ni <? hexLen)%nat then
    match fuel with
    | O => None
    | S fuel' =>
        match hex !! ni, hex !! (ni + 1)%nat with
        | Some a, Some b =>
            if (bi <? length hex)%nat
            then inPlaceLoop fuel' hexLen (<[bi := pack2 a b]> hex)
                             (bi + 1)%nat (ni + 2)%nat
            else None
        | _, _ => None
        end
    end
  else Some hex.

(** [hexToCompactInPlace] places the compact key in the input buffer and
    returns the length needed for the representation.  The model returns
    the buffer after the call together with that length; [None] is an
    index panic. *)
Definition hexToCompactInPlace (hex : list Z) : option (list Z * nat) :=
  let hexLen := length hex in
  let firstByte := 0 in
  let term := (0 <? hexLen)%nat && (nth (hexLen - 1) hex 0 =? 16) in
  let firstByte := if term then byte (Z.shiftl 1 5) else firstByte in
  let hexLen := if term then (hexLen - 1)%nat else hexLen in
  let binLen := (hexLen / 2 + 1)%nat in
  let odd := Z.land (Z.of_nat hexLen) 1 =? 1 in
  (* hex[0] is read when the length is odd; hexLen >= 1 then *)
  let firstByte :=
    if odd then Z.lor (Z.lor firstByte (byte (Z.shiftl 1 4))) (nth 0 hex 0)
    else firstByte in
  let ni := if odd then 1%nat else 0%nat in
  match inPlaceLoop hexLen hexLen hex 1 ni with
  | Some hex' =>
      if (0 <? length hex')%nat
      then Some (<[0%nat := firstByte]> hex', binLen)
      else None
  | None => None
  end.

(** [compactToHex]: COMPACT to HEX. *)
Definition compactToHex (compact : list Z) : list Z :=
  if (length compact =? 0)%nat then compact
  else
    let base := keybytesToHex compact in
    let base := if nth 0 base 0 <? 2 then take (length base - 1) base else base in
    let chop := 2 - Z.land (nth 0 base 0) 1 in
    drop (Z.to_nat chop) base.

(** [hexToKeybytes] turns hex nibbles into key bytes.  This can only be
    used for keys of even length: [None] is the panic on an odd number of
    nibbles (or the index panic of [decodeNibbles]). *)
Definition hexToKeybytes (hex : list Z) : option (list Z) :=
  let hex := if hasTerm hex then take (length hex - 1) hex else hex in
  if negb (Z.land (Z.of_nat (length hex)) 1 =? 0) then None
  else decodeNibbles hex (replicate (length hex / 2) 0).

(** [prefixLen] returns the length of the common prefix of [a] and [b]. *)
Fixpoint prefixLen (a b : list Z) : nat :=
  match a, b with
  | x :: a', y :: b' => if x =? y then S (prefixLen a' b') else O
  | _, _ => O
  end.

(** A valid HEX key: nibbles below 16, optionally followed by one
    terminator 16. *)
Definition validHex (h : list Z) : bool :=
  forallb is_nibbleb (if hasTerm h then take (length h - 1) h else h).

End Encoding.

Import Encoding.


(** ** RLP headers ([rlp/encode.go]) *)

Module Rlp.

(** [b[k] = v] on a slice: an index panic when [k] is out of range. *)
Definition store (b : list Z) (k : nat) (v : Z) : option (list Z) :=
  if (k <? length b)%nat then Some (<[k := v]> b) else None.

(** [putint] writes [i] to the beginning of [b] in big endian byte order,
    using the least number of bytes needed to represent [i].  [i] is a
    uint64.  The result is the buffer after the writes and the size. *)
Definition putint (b : list Z) (i : Z) : option (list Z * nat) :=
  if i <? 2 ^ 8 then
    b ← store b 0 (byte i);
    Some (b, 1%nat)
  else if i <? 2 ^ 16 then
    b ← store b 0 (byte (i ≫ 8));
    b ← store b 1 (byte i);
    Some (b, 2%nat)
  else if i <? 2 ^ 24 then
    b ← store b 0 (byte (i ≫ 16));
    b ← store b 1 (byte (i ≫ 8));
    b ← store b 2 (byte i);
    Some (b, 3%nat)
  else if i <? 2 ^ 32 then
    b ← store b 0 (byte (i ≫ 24));
    b ← store b 1 (byte (i ≫ 16));
    b ← store b 2 (byte (i ≫ 8));
    b ← store b 3 (byte i);
    Some (b, 4%nat)
  else if i <? 2 ^ 40 then
    b ← store b 0 (byte (i ≫ 32));
    b ← store b 1 (byte (i ≫ 24));
    b ← store b 2 (byte (i ≫ 16));
    b ← store b 3 (byte (i ≫ 8));
    b ← store b 4 (byte i);
    Some (b, 5%nat)
  else if i <? 2 ^ 48 then
    b ← store b 0 (byte (i ≫ 40));
    b ← store b 1 (byte (i ≫ 32));
    b ← store b 2 (byte (i ≫ 24));
    b ← store b 3 (byte (i ≫ 16));
    b ← store b 4 (byte (i ≫ 8));
    b ← store b 5 (byte i);
    Some (b, 6%nat)
  else if i <? 2 ^ 56 then
    b ← store b 0 (byte (i ≫ 48));
    b ← store b 1 (byte (i ≫ 40));
    b ← store b 2 (byte (i ≫ 32));
    b ← store b 3 (byte (i ≫ 24));
    b ← store b 4 (byte (i ≫ 16));
    b ← store b 5 (byte (i ≫ 8));
    b ← store b 6 (byte i);
    Some (b, 7%nat)
  else
    b ← store b 0 (byte (i ≫ 56));
    b ← store b 1 (byte (i ≫ 48));
    b ← store b 2 (byte (i ≫ 40));
    b ← store b 3 (byte (i ≫ 32));
    b ← store b 4 (byte (i ≫ 24));
    b ← store b 5 (byte (i ≫ 16));
    b ← store b 6 (byte (i ≫ 8));
    b ← store b 7 (byte i);
    Some (b, 8%nat).

(** [puthead] writes a list or string header to [buf] and returns the
    number of bytes written; [buf[1:]] shares its storage with [buf]. *)
Definition puthead (buf : list Z) (smalltag largetag : Z) (size : Z)
  : option (list Z * nat) :=
  if size <? 56 then
    buf ← store buf 0 (byte (smalltag + byte size));
    Some (buf, 1%nat)
  else
    if (length buf <? 1)%nat then None
    else
      '(tail, sizesize) ← putint (drop 1 buf) size;
      buf ← store (take 1 buf ++ tail) 0 (byte (largetag + byte (Z.of_nat sizesize)));
      Some (buf, (sizesize + 1)%nat).

(** The loop of [intsize]: [for size = 1; ; size++ { if i >>= 8; i == 0 { return size } }]. *)
Fixpoint intsizeLoop (fuel : nat) (i : Z) (size : nat) : option nat :=
  match fuel with
  | O => None
  | S fuel' =>
      let i := i ≫ 8 in
      if i =? 0 then Some size else intsizeLoop fuel' i (S size)
  end.

(** [intsize] computes the minimum number of bytes required to store [i]
    (a uint64: eight iterations at most). *)
Definition intsize (i : Z) : option nat := intsizeLoop 8 i 1.

(** [headsize] returns the size of a list or string header for a value of
    the given size. *)
Definition headsize (size : Z) : option nat :=
  if size <? 56 then Some 1%nat
  else n ← intsize size; Some (1 + n)%nat.

(** [listhead]: the index of a list header in the string data and the total
    size of the encoded data. *)
Record listhead := { offset : Z; size : Z }.

(** [encode] writes [head] to the given buffer, which must be at least 9
    bytes long, and returns the encoded bytes; [uint64(head.size)] wraps
    an [int] to 64 bits. *)
Definition listhead_encode (head : listhead) (buf : list Z) : option (list Z) :=
  '(buf, n) ← puthead buf 0xC0 0xF7 (size head mod 2 ^ 64);
  Some (take n buf).

(** *** The wire format as the specification words it

    The size in big-endian with no leading zero byte. *)
Fixpoint bigEndianAux (fuel : nat) (n : Z) (acc : list Z) : list Z :=
  match fuel with
  | O => acc
  | S fuel' => if n =? 0 then acc else bigEndianAux fuel' (n / 256) (n mod 256 :: acc)
  end.

Definition bigEndian (n : Z) : list Z := bigEndianAux (S (Z.to_nat (Z.log2 n))) n [].

(** The value of a big-endian byte string. *)
Definition fromBigEndian (bs : list Z) : Z := fold_left (fun acc b => acc * 256 + b) bs 0.

(** Header of a payload of [size] bytes: a single byte [smalltag + size]
    when [size <= 55], otherwise [largetag + len(size_BE)] followed by
    [size_BE]. *)
Definition header (smalltag largetag : Z) (size : Z) : list Z :=
  if size <=? 55 then [smalltag + size]
  else largetag + Z.of_nat (length (bigEndian size)) :: bigEndian size.

(** Modelled from the spec: the encoder buffer of [rlp/encbuffer.go] is not
    among the sources.  Section 4.1: a single byte [b <= 0x7f] is its own
    encoding; a string of length [L] is the header ([0x80 + L], or
    [0xB7 + len(L_BE)] and [L_BE]) followed by the bytes. *)
Definition encodeString (b : list Z) : list Z :=
  match b with
  | [x] => if x <=? 0x7f then [x] else header 0x80 0xB7 1 ++ b
  | _ => header 0x80 0xB7 (Z.of_nat (length b)) ++ b
  end.

(** Modelled from the spec: a list whose child encodings have total length
    [P] is the header ([0xC0 + P], or [0xF7 + len(P_BE)] and [P_BE])
    followed by the child encodings (section 4.1). *)
Definition encodeList (payload : list Z) : list Z :=
  header 0xC0 0xF7 (Z.of_nat (length payload)) ++ payload.

End Rlp.

(** ** Keccak-256

    [sha3.NewLegacyKeccak256] of golang.org/x/crypto, which the hasher
    calls, is outside the repository.  The definition below is the Keccak
    sponge of the reference: rate 136 bytes, capacity 512 bits, the
    original padding byte [0x01], 24 rounds over 25 lanes of 64 bits. *)

Module Keccak.

Definition mask64 : Z := 2 ^ 64 - 1.

Definition rotl64 (x : Z) (n : Z) : Z :=
  Z.lor (Z.land (Z.shiftl x n) mask64) (Z.shiftr x (64 - n)).

(** Lane [(x, y)] of the state sits at index [x + 5 y]. *)
Definition lane (st : list Z) (x y : nat) : Z := nth (x mod 5 + 5 * y)%nat st 0.

Definition RC : list Z :=
  [0x0000000000000001; 0x0000000000008082; 0x800000000000808A; 0x8000000080008000;
   0x000000000000808B; 0x0000000080000001; 0x8000000080008081; 0x8000000000008009;
   0x000000000000008A; 0x0000000000000088; 0x0000000080008009; 0x000000008000000A;
   0x000000008000808B; 0x800000000000008B; 0x8000000000008089; 0x8000000000008003;
   0x8000000000008002; 0x8000000000000080; 0x000000000000800A; 0x800000008000000A;
   0x8000000080008081; 0x8000000000008080; 0x0000000080000001; 0x8000000080008008].

Definition ROT : list Z :=
  [ 0;  1; 62; 28; 27;
   36; 44;  6; 55; 20;
    3; 10; 43; 25; 39;
   41; 45; 15; 21;  8;
   18;  2; 61; 56; 14].

Definition coords : list (nat * nat) :=
  flat_map (fun y => map (fun x => (x, y)) (seq 0 5)) (seq 0 5).

Definition theta (st : list Z) : list Z :=
  let C := map (fun x => fold_left Z.lxor (map (fun y => lane st x y) (seq 0 5)) 0) (seq 0 5) in
  let D := map (fun x => Z.lxor (nth ((x + 4) mod 5)%nat C 0)
                                (rotl64 (nth ((x + 1) mod 5)%nat C 0) 1)) (seq 0 5) in
  map (fun '(x, y) => Z.lxor (lane st x y) (nth x D 0)) coords.

(** rho and pi: the lane at [(X, Y)] comes from [(x, y)] with [y = X] and
    [x = X + 3 Y mod 5], rotated by the offset of [(x, y)]. *)
Definition rhopi (st : list Z) : list Z :=
  map (fun '(X, Y) =>
         let x := ((X + 3 * Y) mod 5)%nat in
         let y := X in
         rotl64 (lane st x y) (nth (x + 5 * y)%nat ROT 0)) coords.

Definition chi (st : list Z) : list Z :=
  map (fun '(x, y) =>
         Z.lxor (lane st x y)
                (Z.land (Z.lxor (lane st (x + 1) y) mask64) (lane st (x + 2) y))) coords.

Definition iota (rc : Z) (st : list Z) : list Z :=
  match st with
  | a :: rest => Z.lxor a rc :: rest
  | [] => []
  end.

Definition round (st : list Z) (rc : Z) : list Z := iota rc (chi (rhopi (theta st))).

Definition keccakF (st : list Z) : list Z := fold_left round RC st.

Definition rate : nat := 136.

Fixpoint le64 (bs : list Z) : Z :=
  match bs with
  | [] => 0
  | b :: rest => b + 256 * le64 rest
  end.

Fixpoint lanes_of (n : nat) (bs : list Z) : list Z :=
  match n with
  | O => []
  | S n' => le64 (take 8 bs) :: lanes_of n' (drop 8 bs)
  end.

Fixpoint xor_lanes (st blk : list Z) : list Z :=
  match st, blk with
  | s :: st', b :: blk' => Z.lxor s b :: xor_lanes st' blk'
  | _, _ => st
  end.

Definition absorbBlock (st : list Z) (blk : list Z) : list Z :=
  keccakF (xor_lanes st (lanes_of 17 blk)).

Fixpoint blocks (n : nat) (bs : list Z) : list (list Z) :=
  match n with
  | O => []
  | S n' => take rate bs :: blocks n' (drop rate bs)
  end.

Definition pad (msg : list Z) : list Z :=
  let q := (rate - length msg mod rate)%nat in
  if (q =? 1)%nat then msg ++ [0x81]
  else msg ++ [0x01] ++ replicate (q - 2) 0 ++ [0x80].

Fixpoint bytes_of_lane (n : nat) (l : Z) : list Z :=
  match n with
  | O => []
  | S n' => l mod 256 :: bytes_of_lane n' (l / 256)
  end.

Definition Keccak256 (msg : list Z) : list Z :=
  let p := pad msg in
  let st := fold_left absorbBlock (blocks (length p / rate) p) (replicate 25 0) in
  flat_map (bytes_of_lane 8) (take 4 st).

End Keccak.

(** ** Results of the trie operations

    A Go call either returns, returns a [MissingNodeError], or panics.  The
    recursive operations follow hash references into the node store, so the
    model bounds their depth by a [fuel] argument; [OutOfFuel] is the answer
    of a call that needs more. When an operation returns an error, none
    of its callers uses the other components of the result, so the model
    keeps the error only. *)

Record MissingNodeError := {
  Owner : list Z;      (* owner of the trie if it's 2-layered trie *)
  NodeHash : list Z;   (* hash of the missing node *)
  Path : list Z        (* hex-encoded path to the missing node *)
}.

Inductive result (A : Type) : Type :=
| Ok (a : A)
| Err (e : MissingNodeError)
| Panic (msg : string)
| OutOfFuel.

Arguments Ok {A} a.
Arguments Err {A} e.
Arguments Panic {A} msg.
Arguments OutOfFuel {A}.

#[global] Instance result_bind : MBind result :=
  fun A B (f : A -> result B) (r : result A) =>
    match r with
    | Ok a => f a
    | Err e => Err e
    | Panic m => Panic m
    | OutOfFuel => OutOfFuel
    end.

(** ** Nodes

    Modelled from the spec: the type declarations of [trie/node.go] are not
    among the sources.  Section 3.2: a node is a short node
    [{key, val, flags}], a full node [{children: [node; 17], flags}], a
    value node (opaque bytes), a hash node (a 32-byte reference) or nil;
    [flags] is [{hash?, dirty}].  The array of children is a list of 17
    nodes, read and written by index with Go's bounds check. *)

Record nodeFlag := {
  flagHash : option (list Z);   (* cached hash of the node (nil when unset) *)
  flagDirty : bool              (* whether the node has changes to be written *)
}.

Inductive node : Type :=
| nilNode
| valueNode (v : list Z)
| hashNode (h : list Z)
| shortNode (Key : list Z) (Val : node) (flags : nodeFlag)
| fullNode (Children : list node) (flags : nodeFlag).

Definition isNil (n : node) : bool :=
  match n with nilNode => true | _ => false end.

(** [nilValueNode] is the value node with no content. *)
Definition nilValueNode : node := valueNode [].

(** The zero value of [[17]node]. *)
Definition emptyChildren : list node := replicate 17 nilNode.

(** [bytes.Equal] *)
Definition bytesEqual (a b : list Z) : bool := bool_decide (a = b).

(** [s[i]] *)
Definition index (s : list Z) (i : nat) : result Z :=
  match s !! i with
  | Some x => Ok x
  | None => Panic "index out of range"
  end.

(** [n.Children[i]] for a byte [i]: the array has 17 entries. *)
Definition child (ch : list node) (i : Z) : result node :=
  if (i <? 0) || (17 <=? i) then Panic "index out of range"
  else match ch !! Z.to_nat i with
       | Some c => Ok c
       | None => Panic "index out of range"
       end.

(** [n.Children[i] = x] *)
Definition setChild (ch : list node) (i : Z) (x : node) : result (list node) :=
  if (i <? 0) || (17 <=? i) then Panic "index out of range"
  else if (Z.to_nat i <? length ch)%nat then Ok (<[Z.to_nat i := x]> ch)
  else Panic "index out of range".

(** Modelled from the spec: [cache] of [trie/node.go] returns the cached
    hash and the dirty flag of a short or full node (section 4.5, step 1);
    value and hash nodes have none (step 4). *)
Definition cache (n : node) : option (list Z) * bool :=
  match n with
  | shortNode _ _ fl | fullNode _ fl => (flagHash fl, flagDirty fl)
  | _ => (None, true)
  end.

(** Modelled from the spec: the node encoders of [trie/node_enc.go] are not
    among the sources.  Section 4.4: a value node is the RLP string of its
    content; a short node is the RLP list of its key and the encoding of
    its value; a full node is the RLP list of its 17 entries, the empty
    string for nil; a reference is the RLP string of the 32-byte hash.  The
    hasher has replaced the key by its compact form and every large child
    by its hash before it encodes. *)
Fixpoint encode (n : node) : list Z :=
  match n with
  | nilNode => [0x80]
  | valueNode v => Rlp.encodeString v
  | hashNode h => Rlp.encodeString h
  | shortNode k v _ => Rlp.encodeList (Rlp.encodeString k ++ encode v)
  | fullNode ch _ => Rlp.encodeList (flat_map encode ch)
  end.

(** ** The trie handle ([trie/trie.go]) *)

(** The node store: [db.node(hash)] gives the decoded node stored under a
    hash, or nil.  [trie/database.go] is outside the sources; the trie only
    reads the store through this function. *)
Record Database := { dbNode : list Z -> option node }.

(** [db] is a pointer and may be nil.  The tracer of the handle is never
    allocated ([newTrie] leaves the field nil) and is left out. *)
Record Trie := {
  db : option Database;
  root : node;
  owner : list Z;
  unhashed : Z
}.

Definition setRoot (t : Trie) (n : node) : Trie :=
  {| db := db t; root := n; owner := owner t; unhashed := unhashed t |}.

Definition setUnhashed (t : Trie) (u : Z) : Trie :=
  {| db := db t; root := root t; owner := owner t; unhashed := u |}.

(** [common.Hash{}] *)
Definition zeroHash : list Z := replicate 32 0.

(** [emptyRoot] is the known root hash of an empty trie:
    [common.HexToHash("56e81f171bcc55a6ff8345e692c0f86e5b48e01b996cadc001622fb5e363b421")]. *)
Definition emptyRoot : list Z :=
  [0x56; 0xe8; 0x1f; 0x17; 0x1b; 0xcc; 0x55; 0xa6; 0xff; 0x83; 0x45; 0xe6; 0x92; 0xc0; 0xf8; 0x6e;
   0x5b; 0x48; 0xe0; 0x1b; 0x99; 0x6c; 0xad; 0xc0; 0x01; 0x62; 0x2f; 0xb5; 0xe3; 0x63; 0xb4; 0x21].

(** [common.BytesToHash] (go-ethereum's [common] package): the last 32
    bytes of [b], padded with zero bytes on the left. *)
Definition BytesToHash (b : list Z) : list Z :=
  let b := if (32 <? length b)%nat then drop (length b - 32) b else b in
  replicate (32 - length b) 0 ++ b.

(** [newFlag] returns the cache flag value for a newly created node. *)
Definition newFlag (t : Trie) : nodeFlag := {| flagHash := None; flagDirty := true |}.

(** [concat] always creates a new slice. *)
Definition concat (s1 s2 : list Z) : list Z := s1 ++ s2.

Definition resolveHash (t : Trie) (n : list Z) (prefix : list Z) : result node :=
  let hash := BytesToHash n in
  match db t with
  | None => Panic "invalid memory address or nil pointer dereference"
  | Some d =>
      match dbNode d hash with
      | Some nilNode | None =>
          Err {| Owner := owner t; NodeHash := hash; Path := prefix |}
      | Some node => Ok node
      end
  end.

Definition resolve (t : Trie) (n : node) (prefix : list Z) : result node :=
  match n with
  | hashNode h => resolveHash t h prefix
  | _ => Ok n
  end.

(** [newTrie] is the internal function used to construct the trie with
    given parameters. *)
Definition newTrie (owner root : list Z) (db : option Database) : result Trie :=
  match db with
  | None => Panic "trie.New called without a database"
  | Some d =>
      let trie := {| db := Some d; root := nilNode; owner := owner; unhashed := 0 |} in
      if negb (bytesEqual root zeroHash) && negb (bytesEqual root emptyRoot) then
        rootnode ← resolveHash trie root [];
        Ok (setRoot trie rootnode)
      else Ok trie
  end.

(** [New] creates a trie with an existing root node from db and an assigned
    owner for storage proximity. *)
Definition New (owner root : list Z) (db : option Database) : result Trie :=
  newTrie owner root db.

(** [tryGet]: the result is [(value, newnode, didResolve)]; the value is
    [None] for Go's nil. *)
Fixpoint tryGet (fuel : nat) (t : Trie) (origNode : node) (key : list Z) (pos : nat)
  : result (option (list Z) * node * bool) :=
  match fuel with
  | O => OutOfFuel
  | S fuel =>
      match origNode with
      | nilNode => Ok (None, nilNode, false)
      | valueNode v => Ok (Some v, origNode, false)
      | shortNode nKey nVal fl =>
          if (Z.of_nat (length key) - Z.of_nat pos <? Z.of_nat (length nKey))
             || negb (bytesEqual nKey (take (length nKey) (drop pos key)))
          then Ok (None, origNode, false)
          else
            '(value, newnode, didResolve) ← tryGet fuel t nVal key (pos + length nKey)%nat;
            Ok (value, if didResolve : bool then shortNode nKey newnode fl else origNode, didResolve)
      | fullNode ch fl =>
          k ← index key pos;
          c ← child ch k;
          '(value, newnode, didResolve) ← tryGet fuel t c key (pos + 1)%nat;
          if didResolve : bool then
            ch' ← setChild ch k newnode;
            Ok (value, fullNode ch' fl, didResolve)
          else Ok (value, origNode, didResolve)
      | hashNode h =>
          c ← resolveHash t h (take pos key);
          '(value, newnode, _) ← tryGet fuel t c key pos;
          Ok (value, newnode, true)
      end
  end.

(** [TryGet] returns the value for key stored in the trie. *)
Definition TryGet (fuel : nat) (t : Trie) (key : list Z) : result (option (list Z) * Trie) :=
  '(value, newroot, didResolve) ← tryGet fuel t (root t) (keybytesToHex key) 0;
  Ok (value, if didResolve : bool then setRoot t newroot else t).

(** [Get] logs an error of [TryGet] and returns its value (nil then). *)
Definition Get (fuel : nat) (t : Trie) (key : list Z) : result (option (list Z) * Trie) :=
  match TryGet fuel t key with
  | Err _ => Ok (None, t)
  | r => r
  end.

(** [insert]: the result is [(dirty, newnode)]. *)
Fixpoint insert (fuel : nat) (t : Trie) (n : node) (prefix key : list Z) (value : node)
  : result (bool * node) :=
  match fuel with
  | O => OutOfFuel
  | S fuel =>
      if (length key =? 0)%nat then
        match n with
        | valueNode v =>
            match value with
            | valueNode w => Ok (negb (bytesEqual v w), value)
            | _ => Panic "interface conversion: node is not valueNode"
            end
        | _ => Ok (true, value)
        end
      else
        match n with
        | shortNode nKey nVal fl =>
            let matchlen := prefixLen key nKey in
            if (matchlen =? length nKey)%nat then
              '(dirty, nn) ← insert fuel t nVal (prefix ++ take matchlen key)
                                    (drop matchlen key) value;
              if negb (dirty : bool) then Ok (false, n)
              else Ok (true, shortNode nKey nn (newFlag t))
            else
              let branch := emptyChildren in
              i1 ← index nKey matchlen;
              '(_, c1) ← insert fuel t nilNode (prefix ++ take (matchlen + 1) nKey)
                                (drop (matchlen + 1) nKey) nVal;
              branch ← setChild branch i1 c1;
              i2 ← index key matchlen;
              '(_, c2) ← insert fuel t nilNode (prefix ++ take (matchlen + 1) key)
                                (drop (matchlen + 1) key) value;
              branch ← setChild branch i2 c2;
              if (matchlen =? 0)%nat then Ok (true, fullNode branch (newFlag t))
              else Ok (true, shortNode (take matchlen key)
                                       (fullNode branch (newFlag t)) (newFlag t))
        | fullNode ch fl =>
            k ← index key 0;
            c ← child ch k;
            '(dirty, nn) ← insert fuel t c (prefix ++ [k]) (drop 1 key) value;
            if negb (dirty : bool) then Ok (false, n)
            else
              ch' ← setChild ch k nn;
              Ok (true, fullNode ch' (newFlag t))
        | nilNode => Ok (true, shortNode key value (newFlag t))
        | hashNode h =>
            rn ← resolveHash t h prefix;
            '(dirty, nn) ← insert fuel t rn prefix key value;
            if negb (dirty : bool) then Ok (false, rn)
            else Ok (true, nn)
        | valueNode _ => Panic "invalid node"
        end
  end.

(** The loop of [delete] over the children of a full node: [pos] ends as
    the index of the single non-nil entry, or -2 when there are at least
    two, or -1 when there is none. *)
Fixpoint remainingPos (ch : list node) (i : Z) (pos : Z) : Z :=
  match ch with
  | [] => pos
  | cld :: rest =>
      if isNil cld then remainingPos rest (i + 1) pos
      else if pos =? -1 then remainingPos rest (i + 1) i
      else -2
  end.

(** [delete] returns the new root of the trie with key deleted.  It reduces
    the trie to minimal form by simplifying nodes on the way up after
    deleting recursively. *)
Fixpoint delete (fuel : nat) (t : Trie) (n : node) (prefix key : list Z)
  : result (bool * node) :=
  match fuel with
  | O => OutOfFuel
  | S fuel =>
      match n with
      | shortNode nKey nVal fl =>
          let matchlen := prefixLen key nKey in
          if (matchlen <? length nKey)%nat then Ok (false, n)
          else if (matchlen =? length key)%nat then Ok (true, nilNode)
          else
            '(dirty, c) ← delete fuel t nVal (prefix ++ take (length nKey) key)
                                 (drop (length nKey) key);
            if negb (dirty : bool) then Ok (false, n)
            else
              match c with
              | shortNode cKey cVal _ =>
                  Ok (true, shortNode (concat nKey cKey) cVal (newFlag t))
              | _ => Ok (true, shortNode nKey c (newFlag t))
              end
      | fullNode ch fl =>
          k ← index key 0;
          c ← child ch k;
          '(dirty, nn) ← delete fuel t c (prefix ++ [k]) (drop 1 key);
          if negb (dirty : bool) then Ok (false, n)
          else
            ch ← setChild ch k nn;
            if negb (isNil nn) then Ok (true, fullNode ch (newFlag t))
            else
              let pos := remainingPos ch 0 (-1) in
              if 0 <=? pos then
                c ← child ch pos;
                cnode ← (if negb (pos =? 16) then resolve t c prefix else Ok nilNode);
                match negb (pos =? 16), cnode with
                | true, shortNode cKey cVal _ =>
                    Ok (true, shortNode (byte pos :: cKey) cVal (newFlag t))
                | _, _ => Ok (true, shortNode [byte pos] c (newFlag t))
                end
              else Ok (true, fullNode ch (newFlag t))
      | valueNode _ => Ok (true, nilNode)
      | nilNode => Ok (false, nilNode)
      | hashNode h =>
          rn ← resolveHash t h prefix;
          '(dirty, nn) ← delete fuel t rn prefix key;
          if negb (dirty : bool) then Ok (false, rn)
          else Ok (true, nn)
      end
  end.

(** [TryUpdate] associates key with value in the trie; a value of length
    zero deletes the key. *)
Definition TryUpdate (fuel : nat) (t : Trie) (key value : list Z) : result Trie :=
  let t := setUnhashed t (unhashed t + 1) in
  let k := keybytesToHex key in
  if negb (length value =? 0)%nat then
    '(_, n) ← insert fuel t (root t) [] k (valueNode value);
    Ok (setRoot t n)
  else
    '(_, n) ← delete fuel t (root t) [] k;
    Ok (setRoot t n).

(** [TryDelete] removes any existing value for key from the trie. *)
Definition TryDelete (fuel : nat) (t : Trie) (key : list Z) : result Trie :=
  let t := setUnhashed t (unhashed t + 1) in
  let k := keybytesToHex key in
  '(_, n) ← delete fuel t (root t) [] k;
  Ok (setRoot t n).

(** ** The hasher ([trie/hasher.go]) *)

(** A hasher holds scratch buffers and the flag [parallel]; the buffers
    carry nothing from one call to the next. *)
Record hasher := { parallel : bool }.

Definition newHasher (parallel : bool) : hasher := {| parallel := parallel |}.

Definition setFlagHash (n : node) (h : option (list Z)) : node :=
  match n with
  | shortNode k v fl => shortNode k v {| flagHash := h; flagDirty := flagDirty fl |}
  | fullNode ch fl => fullNode ch {| flagHash := h; flagDirty := flagDirty fl |}
  | _ => n
  end.

(** [hashData] hashes the provided data: 32 bytes are read from the sponge. *)
Definition hashData (data : list Z) : node := hashNode (take 32 (Keccak.Keccak256 data)).

(** [shortnodeToHash] creates a hashNode from a shortNode; the node itself
    is returned when its RLP data is smaller than 32 bytes. *)
Definition shortnodeToHash (h : hasher) (n : node) (force : bool) : node :=
  let enc := encode n in
  if (length enc <? 32)%nat && negb force then n
  else hashData enc.

(** [fullnodeToHash] creates a hashNode from a full node whose children are
    hash nodes (or embedded nodes, or nil values). *)
Definition fullnodeToHash (h : hasher) (n : node) (force : bool) : node :=
  let enc := encode n in
  if (length enc <? 32)%nat && negb force then n
  else hashData enc.

(** [hashShortNodeChildren] collapses the short node [{k, v, fl}]: the key
    takes its compact form and a short or full child is hashed.  [hash] is
    the hasher's [hash] with [force = false]. *)
Definition hashShortNodeChildrenWith (hash : node -> result (node * node))
    (k : list Z) (v : node) (fl : nodeFlag) : result (node * node) :=
  match hexToCompact k with
  | None => Panic "index out of range"
  | Some ck =>
      match v with
      | fullNode _ _ | shortNode _ _ _ =>
          '(collapsedVal, cachedVal) ← hash v;
          Ok (shortNode ck collapsedVal fl, shortNode k cachedVal fl)
      | _ => Ok (shortNode ck v fl, shortNode k v fl)
      end
  end.

(** The loop of [hashFullNodeChildren] over the first 16 children, from
    index [i] on: a nil child collapses to [nilValueNode], every other one
    is hashed; the value slot (index 16) is left as it is.  With
    [parallel] set the source computes the 16 entries in goroutines, each
    with a hasher of its own and writing its own slot: the entries are the
    same. *)
Definition hashChildrenWith (hash : node -> result (node * node))
  : nat -> list node -> result (list node * list node) :=
  fix go (i : nat) (ch : list node) : result (list node * list node) :=
    match ch with
    | [] => Ok ([], [])
    | c :: rest =>
        '(col, cac) ← (if (i <? 16)%nat
                        then if isNil c then Ok (nilValueNode, c) else hash c
                        else Ok (c, c));
        '(cols, cacs) ← go (S i) rest;
        Ok (col :: cols, cac :: cacs)
    end.

Definition hashFullNodeChildrenWith (hash : node -> result (node * node))
    (ch : list node) (fl : nodeFlag) : result (node * node) :=
  if (length ch <? 16)%nat then Panic "index out of range"
  else
    '(cols, cacs) ← hashChildrenWith hash 0 ch;
    Ok (fullNode cols fl, fullNode cacs fl).

(** [hash] collapses a node down into a hash node, also returning a copy of
    the original node initialized with the computed hash to replace the
    original one.  The source calls [n.cache()] first, which dereferences
    [n]: a nil node panics. *)
Fixpoint hash (h : hasher) (n : node) (force : bool) {struct n} : result (node * node) :=
  match n with
  | nilNode => Panic "invalid memory address or nil pointer dereference"
  | shortNode k v fl =>
      match flagHash fl with
      | Some hn => Ok (hashNode hn, n)
      | None =>
          '(collapsed, cached) ← hashShortNodeChildrenWith (fun c => hash h c false) k v fl;
          let hashed := shortnodeToHash h collapsed force in
          match hashed with
          | hashNode hn => Ok (hashed, setFlagHash cached (Some hn))
          | _ => Ok (hashed, setFlagHash cached None)
          end
      end
  | fullNode ch fl =>
      match flagHash fl with
      | Some hn => Ok (hashNode hn, n)
      | None =>
          '(collapsed, cached) ← hashFullNodeChildrenWith (fun c => hash h c false) ch fl;
          let hashed := fullnodeToHash h collapsed force in
          match hashed with
          | hashNode hn => Ok (hashed, setFlagHash cached (Some hn))
          | _ => Ok (hashed, setFlagHash cached None)
          end
      end
  | valueNode _ | hashNode _ => Ok (n, n)
  end.

Definition hashShortNodeChildren (h : hasher) (k : list Z) (v : node) (fl : nodeFlag)
  : result (node * node) :=
  hashShortNodeChildrenWith (fun c => hash h c false) k v fl.

Definition hashFullNodeChildren (h : hasher) (ch : list node) (fl : nodeFlag)
  : result (node * node) :=
  hashFullNodeChildrenWith (fun c => hash h c false) ch fl.

(** [proofHash] is used to construct trie proofs, and returns the
    collapsed node (for later RLP encoding) as well as the hashed node,
    unless the node is smaller than 32 bytes, in which case it is returned
    as is.  It does nothing on value and hash nodes (nor on nil). *)
Definition proofHash (h : hasher) (original : node) : result (node * node) :=
  match original with
  | shortNode k v fl =>
      '(sn, _) ← hashShortNodeChildren h k v fl;
      Ok (sn, shortnodeToHash h sn false)
  | fullNode ch fl =>
      '(fn, _) ← hashFullNodeChildren h ch fl;
      Ok (fn, fullnodeToHash h fn false)
  | _ => Ok (original, original)
  end.

(** [hashRoot] calculates the root hash of the given trie. *)
Definition hashRoot (t : Trie) : result (node * node * Trie) :=
  if isNil (root t) then Ok (hashNode emptyRoot, nilNode, t)
  else
    let h := newHasher (100 <=? unhashed t) in
    '(hashed, cached) ← hash h (root t) true;
    Ok (hashed, cached, setUnhashed t 0).

(** [Hash] returns the root hash of the trie. *)
Definition Hash (t : Trie) : result (list Z * Trie) :=
  '(hashed, cached, t) ← hashRoot t;
  let t := setRoot t cached in
  match hashed with
  | hashNode hn => Ok (BytesToHash hn, t)
  | _ => Panic "interface conversion: node is not hashNode"
  end.

(** The empty store and the empty trie on it. *)
Definition emptyDatabase : Database := {| dbNode := fun _ => None |}.

Definition emptyTrie : Trie :=
  {| db := Some emptyDatabase; root := nilNode; owner := zeroHash; unhashed := 0 |}.

(** ** Auxiliary definitions of the proofs *)

(** The bytes [decodeNibbles] writes for an even number of nibbles. *)
Fixpoint packNibbles (ns : list Z) : list Z :=
  match ns with
  | a :: b :: rest => pack2 a b :: packNibbles rest
  | _ => []
  end.

(** A canonical COMPACT key: a flag byte whose high nibble is 0 to 3 and
    whose low nibble is zero when the odd flag is clear, followed by
    bytes. *)
Definition validCompact (c : list Z) : bool :=
  match c with
  | [] => false
  | f :: body =>
      is_byteb f && (f / 16 <? 4) && (Z.odd (f / 16) || (f mod 16 =? 0)) &&
      forallb is_byteb body
  end.

(** The two steps of [hexToCompact] after the terminator is stripped. *)
Definition compactBody (terminator : Z) (hex : list Z) : option (list Z) :=
  let buf := replicate (length hex / 2 + 1) 0 in
  let buf0 := byte (Z.shiftl terminator 5) in
  let odd := Z.land (Z.of_nat (length hex)) 1 =? 1 in
  let buf0 := if odd then Z.lor (Z.lor buf0 (byte (Z.shiftl 1 4))) (nth 0 hex 0)
              else buf0 in
  let hex := if odd then drop 1 hex else hex in
  match decodeNibbles hex (drop 1 buf) with
  | Some rest => Some (buf0 :: rest)
  | None => None
  end.

(** A store with a single node, kept under the hash [storedHash]. *)
Definition storedHash : list Z := replicate 32 1.

Definition storedNode : node :=
  shortNode [1; 16] (valueNode [7]) {| flagHash := Some storedHash; flagDirty := false |}.

Definition oneNodeDatabase : Database :=
  {| dbNode := fun k => if bytesEqual k storedHash then Some storedNode else None |}.

(** [resolves dbo h n]: the store holds the node [n] under the hash [h]. *)
Definition resolves (dbo : option Database) (h : list Z) (n : node) : Prop :=
  exists d, dbo = Some d /\ dbNode d (BytesToHash h) = Some n /\ n <> nilNode.

(** [HasPath dbo n key v]: following the hex key [key] from the node [n],
    through short nodes, the children of full nodes and the references the
    store resolves, ends exactly at the value [v]. *)
Inductive HasPath (dbo : option Database) : node -> list Z -> list Z -> Prop :=
| path_value (v : list Z) :
    HasPath dbo (valueNode v) [] v
| path_short (k : list Z) (c : node) (fl : nodeFlag) (rest v : list Z) :
    HasPath dbo c rest v ->
    HasPath dbo (shortNode k c fl) (k ++ rest) v
| path_full (ch : list node) (fl : nodeFlag) (i : Z) (c : node) (rest v : list Z) :
    0 <= i < 17 ->
    ch !! Z.to_nat i = Some c ->
    HasPath dbo c rest v ->
    HasPath dbo (fullNode ch fl) (i :: rest) v
| path_hash (h : list Z) (n : node) (key v : list Z) :
    resolves dbo h n ->
    HasPath dbo n key v ->
    HasPath dbo (hashNode h) key v.

(** Two hex keys neither of which is a prefix of the other. *)
Definition incomparable (a b : list Z) : Prop :=
  (prefixLen a b < length a)%nat /\ (prefixLen a b < length b)%nat.

(** Operations of the API on a trie handle: [TryUpdate], [TryDelete],
    [Get] and [Hash]. *)
Inductive operation : Type :=
| OpUpdate (key value : list Z)
| OpDelete (key : list Z)
| OpGet (key : list Z)
| OpHash.

(** The key an operation names ([Hash] names none). *)
Definition opKey (o : operation) : list Z :=
  match o with
  | OpUpdate key _ => key
  | OpDelete key => key
  | OpGet key => key
  | OpHash => []
  end.

(** The operations that change what the trie holds. *)
Definition opWrites (o : operation) : bool :=
  match o with
  | OpGet _ | OpHash => false
  | _ => true
  end.

Definition applyOp (fuel : nat) (t : Trie) (o : operation) : result Trie :=
  match o with
  | OpUpdate key value => TryUpdate fuel t key value
  | OpDelete key => TryDelete fuel t key
  | OpGet key => '(_, t') ← Get fuel t key; Ok t'
  | OpHash => '(_, t') ← Hash t; Ok t'
  end.

Fixpoint applyOps (fuel : nat) (t : Trie) (ops : list operation) : result Trie :=
  match ops with
  | [] => Ok t
  | o :: rest => t' ← applyOp fuel t o; applyOps fuel t' rest
  end.

Definition isShortOrFull (n : node) : bool :=
  match n with
  | shortNode _ _ _ | fullNode _ _ => true
  | _ => false
  end.

(** *** The invariants of the node graph (section 3.2) *)

Definition isShort (n : node) : bool :=
  match n with shortNode _ _ _ => true | _ => false end.

Definition isFull (n : node) : bool :=
  match n with fullNode _ _ => true | _ => false end.

Definition isValue (n : node) : bool :=
  match n with valueNode _ => true | _ => false end.

Fixpoint countNonNil (ch : list node) : nat :=
  match ch with
  | [] => 0
  | c :: rest => (if isNil c then 0 else 1) + countNonNil rest
  end.

(** Invariant 1: no short node has a short node as direct child. *)
Fixpoint noShortShort (n : node) : bool :=
  match n with
  | shortNode _ c _ => negb (isShort c) && noShortShort c
  | fullNode ch _ => forallb noShortShort ch
  | _ => true
  end.

(** Invariant 2: no full node has fewer than two non-nil children. *)
Fixpoint noUnderfull (n : node) : bool :=
  match n with
  | shortNode _ c _ => noUnderfull c
  | fullNode ch _ => (2 <=? countNonNil ch)%nat && forallb noUnderfull ch
  | _ => true
  end.

(** A hex key that designates a value: nibbles, then the terminator. *)
Definition hexTerm (k : list Z) : Prop :=
  exists body, k = body ++ [16] /\ Forall is_nibble body.

(** A hex key of an extension: nibbles only. *)
Definition hexBody (k : list Z) : Prop := Forall is_nibble k.

(** The child of an extension is a full node, in memory or in the store. *)
Definition isBranch (dbo : option Database) (c : node) : Prop :=
  match c with
  | fullNode _ _ => True
  | hashNode h => forall rn, resolves dbo h rn -> isFull rn = true
  | _ => False
  end.

(** The canonical form of the nodes that stand where a sub-trie is
    expected.  A leaf is a short node with a terminated key and a value;
    an extension has a key of nibbles and a full node below it; every slot
    of a full node is nil, or a value in the slot of the terminator, or a
    canonical node in the slot of a nibble, and two slots at least are
    taken.  Invariants 1 and 2 follow; what is added is the shape of the
    keys, which the operations need in order to keep the two. *)
Inductive Canon (dbo : option Database) : node -> Prop :=
| canon_hash (h : list Z) :
    Canon dbo (hashNode h)
| canon_leaf (k v : list Z) (fl : nodeFlag) :
    hexTerm k ->
    Canon dbo (shortNode k (valueNode v) fl)
| canon_ext (k : list Z) (c : node) (fl : nodeFlag) :
    hexBody k -> isBranch dbo c -> Canon dbo c ->
    Canon dbo (shortNode k c fl)
| canon_full (ch : list node) (fl : nodeFlag) :
    length ch = 17%nat ->
    (forall (i : nat) (c : node), ch !! i = Some c ->
       isNil c = true \/
       (i = 16%nat /\ isValue c = true) \/
       (i <> 16%nat /\ Canon dbo c)) ->
    (2 <= countNonNil ch)%nat ->
    Canon dbo (fullNode ch fl).

(** The root of a trie: nil (the empty trie) or a canonical node. *)
Definition CanonRoot (dbo : option Database) (n : node) : Prop :=
  isNil n = true \/ Canon dbo n.

(** A store of canonical nodes: what it holds under a hash is a short or a
    full node in canonical form. *)
Definition dbCanon (dbo : option Database) : Prop :=
  forall h n, resolves dbo h n -> isShortOrFull n = true /\ Canon dbo n.

(** What may fill the slot [i] of a full node. *)
Definition slotFill (dbo : option Database) (i : Z) (c : node) : Prop :=
  (i = 16 /\ isValue c = true) \/ (i <> 16 /\ Canon dbo c).

(** *** Insertion followed by deletion *)

(** [Sim dbo n' n]: the node [n'] is the node [n], except that short and
    full nodes may have been built anew, with no cached hash, and that
    references of [n] may be held resolved in [n']. *)
Inductive Sim (dbo : option Database) : node -> node -> Prop :=
| sim_refl (n : node) : Sim dbo n n
| sim_short (k : list Z) (c' c : node) (fl' fl : nodeFlag) :
    flagHash fl' = None ->
    Sim dbo c' c ->
    Sim dbo (shortNode k c' fl') (shortNode k c fl)
| sim_full (ch' ch : list node) (fl' fl : nodeFlag) :
    flagHash fl' = None ->
    Forall2 (Sim dbo) ch' ch ->
    Sim dbo (fullNode ch' fl') (fullNode ch fl)
| sim_resolved (h : list Z) (rn n' : node) :
    resolves dbo h rn ->
    Sim dbo n' rn ->
    Sim dbo n' (hashNode h).

(** The key designates no value below the node. *)
Definition Absent (dbo : option Database) (n : node) (key : list Z) : Prop :=
  forall v, ~ HasPath dbo n key v.

(** [Miss dbo n key]: following the hex key [key] from the node [n],
    through short nodes, the children of full nodes and the references the
    store resolves, ends at nil or at a short node whose key the rest of
    the key does not start with: the lookup finds nothing, and no
    reference on its way is missing from the store. *)
Inductive Miss (dbo : option Database) : node -> list Z -> Prop :=
| miss_nil (key : list Z) :
    Miss dbo nilNode key
| miss_diverge (k : list Z) (c : node) (fl : nodeFlag) (key : list Z) :
    take (length k) key <> k ->
    Miss dbo (shortNode k c fl) key
| miss_short (k : list Z) (c : node) (fl : nodeFlag) (rest : list Z) :
    Miss dbo c rest ->
    Miss dbo (shortNode k c fl) (k ++ rest)
| miss_full (ch : list node) (fl : nodeFlag) (i : Z) (c : node) (rest : list Z) :
    0 <= i < 17 ->
    ch !! Z.to_nat i = Some c ->
    Miss dbo c rest ->
    Miss dbo (fullNode ch fl) (i :: rest)
| miss_hash (h : list Z) (n : node) (key : list Z) :
    resolves dbo h n ->
    Miss dbo n key ->
    Miss dbo (hashNode h) key.

(** [Finds dbo n key r]: the lookup of the hex key [key] from the node [n]
    ends with the result [r], a value or nil, and no reference on its way
    is missing from the store. *)
Definition Finds (dbo : option Database) (n : node) (key : list Z)
    (r : option (list Z)) : Prop :=
  match r with
  | Some v => HasPath dbo n key v
  | None => Miss dbo n key
  end.

(** *** Cached hashes *)

Definition isHash (n : node) : bool :=
  match n with hashNode _ => true | _ => false end.

(** What [hash] returns in place of the node. *)
Definition digest (force : bool) (n : node) : result node :=
  '(hashed, _) ← hash (newHasher false) n force; Ok hashed.

(** The cached hashes of a node are those [hash] computes: the hash a
    short or full node caches is what [hash] gives for the node without
    it, and so below; a reference is a hash of 32 bytes.  [force] is set
    for the root of a trie only. *)
Inductive CacheOK : bool -> node -> Prop :=
| cache_nil (force : bool) : CacheOK force nilNode
| cache_value (force : bool) (v : list Z) : CacheOK force (valueNode v)
| cache_hash (force : bool) (h : list Z) :
    length h = 32%nat -> CacheOK force (hashNode h)
| cache_short (force : bool) (k : list Z) (c : node) (fl : nodeFlag) :
    CacheOK false c ->
    (forall hn, flagHash fl = Some hn ->
       digest force (setFlagHash (shortNode k c fl) None) = Ok (hashNode hn)) ->
    CacheOK force (shortNode k c fl)
| cache_full (force : bool) (ch : list node) (fl : nodeFlag) :
    Forall (CacheOK false) ch ->
    (forall hn, flagHash fl = Some hn ->
       digest force (setFlagHash (fullNode ch fl) None) = Ok (hashNode hn)) ->
    CacheOK force (fullNode ch fl).

(** The references of a node lead to nodes that hash to them: what the
    store holds under a reference has consistent cached hashes, [hash]
    gives the reference for it, and so below.  [force] is set for the root
    of a trie only: the reference to a root is its forced hash, also when
    the root encodes in less than 32 bytes, while a reference below a node
    is the hash of a node that [hash] does not embed. *)
Inductive RefsOK (dbo : option Database) : bool -> node -> Prop :=
| refs_nil (force : bool) : RefsOK dbo force nilNode
| refs_value (force : bool) (v : list Z) : RefsOK dbo force (valueNode v)
| refs_hash (force : bool) (h : list Z) :
    (forall rn, resolves dbo h rn -> CacheOK force rn) ->
    (forall rn, resolves dbo h rn -> digest force rn = Ok (hashNode h)) ->
    (forall rn, resolves dbo h rn -> RefsOK dbo force rn) ->
    RefsOK dbo force (hashNode h)
| refs_short (force : bool) (k : list Z) (c : node) (fl : nodeFlag) :
    RefsOK dbo false c -> RefsOK dbo force (shortNode k c fl)
| refs_full (force : bool) (ch : list node) (fl : nodeFlag) :
    Forall (RefsOK dbo false) ch -> RefsOK dbo force (fullNode ch fl).

(** The hashes of a node are consistent: those it caches and those it
    refers to. *)
Definition HashOK (dbo : option Database) (force : bool) (n : node) : Prop :=
  CacheOK force n /\ RefsOK dbo force n.

(** The store keeps a node under its root hash: the hash [hashRoot] gives
    for it, forced at the node itself (a root that encodes in less than 32
    bytes is kept under the hash of its encoding) and not forced below. *)
Definition dbHashOK (dbo : option Database) : Prop :=
  forall h n, length h = 32%nat -> resolves dbo h n ->
    HashOK dbo true n /\ digest true n = Ok (hashNode h).

(** Two results of [hash] that stand for the same node: their encodings
    are equal, and they are equal when one of them is a hash. *)
Definition sameDigest (a b : node) : Prop :=
  encode a = encode b /\ (isHash a || isHash b = true -> a = b).

(** A well-formed trie: the node graph and the store are in canonical
    form, and the hashes the nodes cache and refer to are those of the
    nodes.  [New] gives such a trie over a store that keeps its nodes under
    their hashes, and every operation keeps it so. *)
Definition wellFormed (t : Trie) : Prop :=
  dbCanon (db t) /\ CanonRoot (db t) (root t) /\ HashOK (db t) true (root t).

(** What [hashShortNodeChildren] puts in place of the child of a short
    node, and [hashFullNodeChildren] in place of the children of a full
    node from index [i] on. *)
Definition digestShortChild (c : node) : result node :=
  match c with
  | fullNode _ _ | shortNode _ _ _ => digest false c
  | _ => Ok c
  end.

Fixpoint digestChildren (i : nat) (ch : list node) : result (list node) :=
  match ch with
  | [] => Ok []
  | c :: rest =>
      col ← (if (i <? 16)%nat
              then if isNil c then Ok nilValueNode else digest false c
              else Ok c);
      cols ← digestChildren (S i) rest;
      Ok (col :: cols)
  end.

(** A call that returns to its caller: with a result or with a
    missing-node error; it neither panics nor needs more fuel. *)
Definition returns {A : Type} (r : result A) : Prop :=
  match r with
  | Ok _ | Err _ => True
  | Panic _ | OutOfFuel => False
  end.

(** The collapsed form of a short or full node: what the hasher encodes. *)
Definition collapse (h : hasher) (n : node) : result node :=
  match n with
  | shortNode k v fl => '(collapsed, _) ← hashShortNodeChildren h k v fl; Ok collapsed
  | fullNode ch fl => '(collapsed, _) ← hashFullNodeChildren h ch fl; Ok collapsed
  | _ => Ok n
  end.


Definition ascii_bytes (s : string) : list Z :=
  map (fun c => Z.of_nat (Ascii.nat_of_ascii c)) (String.list_ascii_of_string s).

(** Scenario (a) of the specification: four insertions into an empty trie. *)
Definition scenario_a : result (list Z) :=
  t ← TryUpdate 100 emptyTrie (ascii_bytes "do") (ascii_bytes "verb");
  t ← TryUpdate 100 t (ascii_bytes "dog") (ascii_bytes "puppy");
  t ← TryUpdate 100 t (ascii_bytes "doge") (ascii_bytes "coin");
  t ← TryUpdate 100 t (ascii_bytes "horse") (ascii_bytes "stallion");
  '(h, _) ← Hash t;
  Ok h.

(** The trie of the single pair ("key", "v"): its root is a short node
    that encodes in 7 bytes.  [smallRootHash] is the root hash [Hash] gives
    for it, [smallRoot] the root as a store hands it out, its hash cached,
    and [smallRootDatabase] a store that keeps the root under that hash. *)
Definition smallRootHash : list Z :=
  Eval vm_compute in
    match (t ← TryUpdate 10 emptyTrie (ascii_bytes "key") (ascii_bytes "v");
           '(h, _) ← Hash t;
           Ok h) with
    | Ok h => h
    | _ => []
    end.

Definition smallRoot : node :=
  shortNode (keybytesToHex (ascii_bytes "key")) (valueNode (ascii_bytes "v"))
            {| flagHash := Some smallRootHash; flagDirty := false |}.

Definition smallRootDatabase : Database :=
  {| dbNode := fun k => if bytesEqual k smallRootHash then Some smallRoot else None |}.

(** The trie [New] opens over that store at that root hash. *)
Definition smallRootTrie : Trie :=
  {| db := Some smallRootDatabase; root := smallRoot; owner := zeroHash; unhashed := 0 |}.

(* ===================================================================== *)
(** * Theorems *)
(* ===================================================================== *)

(** ** Checks of the model on the test inputs of the repository *)

Example hexToCompact_test :
  hexToCompact [0; 1; 0; 2; 0; 3; 0; 4; 16] = Some [32; 1; 2; 3; 4].
Proof. reflexivity. Qed.

Example hexToCompact_odd : hexToCompact [1; 2; 3] = Some [17; 35].
Proof. reflexivity. Qed.

Example keybytesToHex_test : keybytesToHex [1; 2; 3; 4] = [0; 1; 0; 2; 0; 3; 0; 4; 16].
Proof. reflexivity. Qed.

Example hexToCompactInPlace_test :
  hexToCompactInPlace [0; 1; 0; 2; 0; 3; 0; 4; 16]
  = Some ([32; 1; 2; 3; 4; 3; 0; 4; 16], 5%nat).
Proof. reflexivity. Qed.

Example compactToHex_test : compactToHex [32; 1; 2; 3; 4] = [0; 1; 0; 2; 0; 3; 0; 4; 16].
Proof. reflexivity. Qed.

Example Keccak256_empty :
  Keccak.Keccak256 [] =
  [0xc5; 0xd2; 0x46; 0x01; 0x86; 0xf7; 0x23; 0x3c; 0x92; 0x7e; 0x7d; 0xb2; 0xdc; 0xc7; 0x03; 0xc0;
   0xe5; 0x00; 0xb6; 0x53; 0xca; 0x82; 0x27; 0x3b; 0x7b; 0xfa; 0xd8; 0x04; 0x5d; 0x85; 0xa4; 0x70].
Proof. vm_compute. reflexivity. Qed.

Example Keccak256_abc :
  Keccak.Keccak256 (ascii_bytes "abc") =
  [0x4e; 0x03; 0x65; 0x7a; 0xea; 0x45; 0xa9; 0x4f; 0xc7; 0xd4; 0x7b; 0xa8; 0x26; 0xc8; 0xd6; 0x67;
   0xc0; 0xd1; 0xe6; 0xe3; 0x3a; 0x64; 0xa0; 0x36; 0xec; 0x44; 0xf5; 0x8f; 0xa1; 0x2d; 0x6c; 0x45].
Proof. vm_compute. reflexivity. Qed.

(** Scenario (a): the root of do/dog/doge/horse is [5991bb8c...ac84]. *)
Example scenario_a_root :
  scenario_a =
  Ok [0x59; 0x91; 0xbb; 0x8c; 0x65; 0x14; 0x14; 0x8a; 0x29; 0xdb; 0x67; 0x6a; 0x14; 0xac; 0x50; 0x6c;
      0xd2; 0xcd; 0x57; 0x75; 0xac; 0xe6; 0x3c; 0x30; 0xa4; 0xfe; 0x45; 0x77; 0x15; 0xe9; 0xac; 0x84].
Proof. vm_compute. reflexivity. Qed.

(** Scenarios (b) and (c): ["dog"] and [["cat","dog"]]. *)
Example scenario_b : Rlp.encodeString (ascii_bytes "dog") = [0x83; 0x64; 0x6f; 0x67].
Proof. reflexivity. Qed.

Example scenario_c :
  Rlp.encodeList (Rlp.encodeString (ascii_bytes "cat") ++ Rlp.encodeString (ascii_bytes "dog"))
  = [0xC8; 0x83; 0x63; 0x61; 0x74; 0x83; 0x64; 0x6f; 0x67].
Proof. reflexivity. Qed.

(** ** Key encodings *)

Lemma list_pair_ind {A} (P : list A -> Prop) :
  P [] -> (forall a, P [a]) -> (forall a b l, P l -> P (a :: b :: l)) ->
  forall l, P l.
Proof.
  intros H0 H1 H2 l.
  enough (P l /\ forall a, P (a :: l)) by tauto.
  induction l as [|x l [IH1 IH2]]; split; auto.
Qed.

Lemma nibble_cases (a : Z) :
  is_nibble a ->
  a = 0 \/ a = 1 \/ a = 2 \/ a = 3 \/ a = 4 \/ a = 5 \/ a = 6 \/ a = 7 \/
  a = 8 \/ a = 9 \/ a = 10 \/ a = 11 \/ a = 12 \/ a = 13 \/ a = 14 \/ a = 15.
Proof. unfold is_nibble. lia. Qed.

Lemma pack2_div (a b : Z) : is_nibble a -> is_nibble b -> pack2 a b / 16 = a.
Proof.
  intros Ha Hb. apply nibble_cases in Ha, Hb.
  repeat (destruct Ha as [-> | Ha]); try subst a;
    repeat (destruct Hb as [-> | Hb]); try subst b; reflexivity.
Qed.

Lemma pack2_mod (a b : Z) : is_nibble a -> is_nibble b -> pack2 a b mod 16 = b.
Proof.
  intros Ha Hb. apply nibble_cases in Ha, Hb.
  repeat (destruct Ha as [-> | Ha]); try subst a;
    repeat (destruct Hb as [-> | Hb]); try subst b; reflexivity.
Qed.

Lemma is_nibbleb_spec (a : Z) : is_nibbleb a = true <-> is_nibble a.
Proof. unfold is_nibbleb, is_nibble. rewrite andb_true_iff. lia. Qed.

Lemma land1_SS (n : nat) : Z.land (Z.of_nat (S (S n))) 1 = Z.land (Z.of_nat n) 1.
Proof.
  change 1 with (Z.ones 1). rewrite !Z.land_ones by lia. change (2 ^ 1) with 2.
  replace (Z.of_nat (S (S n))) with (Z.of_nat n + 1 * 2) by lia.
  apply Z_mod_plus_full.
Qed.

Lemma odd_flag (n : nat) : (Z.land (Z.of_nat n) 1 =? 1) = negb (Nat.even n).
Proof.
  enough (H : ((Z.land (Z.of_nat n) 1 =? 1) = negb (Nat.even n)) /\
              ((Z.land (Z.of_nat (S n)) 1 =? 1) = negb (Nat.even (S n)))) by tauto.
  induction n as [|n [IH1 IH2]]; split; try reflexivity; try assumption.
  rewrite land1_SS. exact IH1.
Qed.

Lemma div2_SS (n : nat) : (S (S n) / 2 = S (n / 2))%nat.
Proof.
  replace (S (S n)) with (n + 1 * 2)%nat by lia.
  rewrite Nat.div_add by lia. lia.
Qed.

(** [decodeNibbles] on an even number of nibbles and a buffer that is long
    enough overwrites the first [len/2] bytes. *)
Lemma decodeNibbles_even (ns : list Z) :
  Nat.even (length ns) = true ->
  forall buf, (length ns / 2 <= length buf)%nat ->
  decodeNibbles ns buf = Some (packNibbles ns ++ drop (length ns / 2) buf).
Proof.
  induction ns as [|a|a b ns IH] using list_pair_ind; intros He buf Hl.
  - reflexivity.
  - discriminate.
  - cbn [length] in *. rewrite div2_SS in *.
    destruct buf as [|x buf]; [cbn [length] in Hl; lia|].
    cbn [decodeNibbles packNibbles]. rewrite IH; [reflexivity| exact He | cbn [length] in Hl; lia].
Qed.

Lemma packNibbles_length (ns : list Z) :
  Nat.even (length ns) = true -> length (packNibbles ns) = (length ns / 2)%nat.
Proof.
  induction ns as [|a|a b ns IH] using list_pair_ind; intros He.
  - reflexivity.
  - discriminate.
  - cbn [length packNibbles] in *. rewrite div2_SS. f_equal. auto.
Qed.

Lemma keybytesToHex_packNibbles (ns : list Z) :
  Nat.even (length ns) = true -> Forall is_nibble ns ->
  keybytesToHex_nibbles (packNibbles ns) = ns.
Proof.
  induction ns as [|a|a b ns IH] using list_pair_ind; intros He Hn.
  - reflexivity.
  - discriminate.
  - inversion Hn as [|? ? Ha Hn']; subst. inversion Hn' as [|? ? Hb Hn'']; subst.
    cbn [packNibbles keybytesToHex_nibbles].
    rewrite pack2_div, pack2_mod by assumption. f_equal. f_equal. auto.
Qed.

Lemma hexToCompact_unfold (hex : list Z) :
  hexToCompact hex =
  if hasTerm hex then compactBody 1 (take (length hex - 1) hex) else compactBody 0 hex.
Proof. unfold hexToCompact, compactBody. destruct (hasTerm hex); reflexivity. Qed.

Lemma compactBody_even (term : Z) (hex : list Z) :
  Nat.even (length hex) = true ->
  compactBody term hex = Some (byte (Z.shiftl term 5) :: packNibbles hex).
Proof.
  intros He. unfold compactBody. rewrite odd_flag, He. cbn [negb].
  rewrite decodeNibbles_even; [|assumption|].
  - rewrite Nat.add_1_r. cbn [replicate drop]. rewrite drop_0.
    rewrite drop_ge by (rewrite length_replicate; lia).
    rewrite app_nil_r. reflexivity.
  - rewrite length_drop, length_replicate. lia.
Qed.

Lemma compactBody_odd (term : Z) (x : Z) (hex : list Z) :
  Nat.even (length hex) = true ->
  compactBody term (x :: hex)
  = Some (Z.lor (Z.lor (byte (Z.shiftl term 5)) (byte (Z.shiftl 1 4))) x :: packNibbles hex).
Proof.
  intros He. unfold compactBody. rewrite odd_flag. cbn [length].
  assert (Ho : Nat.even (S (length hex)) = false).
  { rewrite Nat.even_succ. rewrite <- Nat.negb_even, He. reflexivity. }
  rewrite Ho. cbn [negb nth drop]. rewrite drop_0.
  rewrite decodeNibbles_even; [|assumption|].
  - rewrite drop_ge.
    + rewrite app_nil_r. reflexivity.
    + rewrite length_drop, length_replicate.
      assert (S (length hex) / 2 = length hex / 2)%nat; [|lia].
      clear -He. revert He. generalize (length hex). intros n.
      enough (H : (Nat.even n = true -> (S n / 2 = n / 2)%nat) /\
                  (Nat.even (S n) = true -> (S (S n) / 2 = S n / 2)%nat -> True)) by tauto.
      split; [|auto]. intros He.
      apply Nat.even_spec in He. destruct He as [k ->].
      replace (S (2 * k)) with (1 + k * 2)%nat by lia.
      rewrite Nat.div_add by lia. replace (2 * k)%nat with (0 + k * 2)%nat by lia.
      rewrite Nat.div_add by lia. reflexivity.
  - rewrite length_drop, length_replicate.
    assert (length hex / 2 <= S (length hex) / 2)%nat; [|lia].
    apply Nat.Div0.div_le_mono. lia.
Qed.

(** [hexToCompact] never panics. *)
Lemma compactBody_total (term : Z) (hex : list Z) : is_Some (compactBody term hex).
Proof.
  destruct (Nat.even (length hex)) eqn:He.
  - rewrite compactBody_even by assumption. eauto.
  - destruct hex as [|x hex]; [discriminate|].
    rewrite compactBody_odd; [eauto|].
    cbn [length] in He. rewrite Nat.even_succ in He.
    rewrite <- Nat.negb_odd. rewrite He. reflexivity.
Qed.

Lemma hexToCompact_total (hex : list Z) : is_Some (hexToCompact hex).
Proof. rewrite hexToCompact_unfold. destruct (hasTerm hex); apply compactBody_total. Qed.

Lemma flag_odd_div (t x : Z) :
  (t = 0 \/ t = 1) -> is_nibble x ->
  Z.lor (Z.lor (byte (Z.shiftl t 5)) (byte (Z.shiftl 1 4))) x / 16 = 2 * t + 1 /\
  Z.lor (Z.lor (byte (Z.shiftl t 5)) (byte (Z.shiftl 1 4))) x mod 16 = x.
Proof.
  intros Ht Hx. apply nibble_cases in Hx.
  destruct Ht as [-> | ->];
    repeat (destruct Hx as [-> | Hx]); try subst x; split; reflexivity.
Qed.

Lemma hasTerm_snoc (l : list Z) (x : Z) : hasTerm (l ++ [x]) = (x =? 16).
Proof.
  unfold hasTerm. rewrite length_app. cbn [length].
  replace (length l + 1 - 1)%nat with (length l) by lia.
  rewrite app_nth2 by lia. rewrite Nat.sub_diag. cbn [nth].
  destruct (Nat.ltb_spec 0 (length l + 1)); [reflexivity | lia].
Qed.

Lemma take_snoc (l : list Z) (x : Z) : take (length (l ++ [x]) - 1) (l ++ [x]) = l.
Proof.
  rewrite length_app. cbn [length].
  replace (length l + 1 - 1)%nat with (length l) by lia.
  rewrite take_app_length. reflexivity.
Qed.

Lemma hasTerm_split (h : list Z) :
  hasTerm h = true -> h = take (length h - 1) h ++ [16].
Proof.
  destruct h as [|x l _] using rev_ind; [discriminate|].
  rewrite hasTerm_snoc, take_snoc. intros ->%Z.eqb_eq. reflexivity.
Qed.

(** [compactToHex] undoes a flag byte followed by packed nibbles. *)
Lemma compactToHex_even (t : Z) (ns : list Z) :
  (t = 0 \/ t = 1) -> Nat.even (length ns) = true -> Forall is_nibble ns ->
  compactToHex (byte (Z.shiftl t 5) :: packNibbles ns)
  = if t =? 1 then ns ++ [16] else ns.
Proof.
  intros Ht He Hn. unfold compactToHex, keybytesToHex.
  cbn [length Nat.eqb keybytesToHex_nibbles].
  rewrite keybytesToHex_packNibbles by assumption.
  destruct Ht as [-> | ->].
  - change (byte (Z.shiftl 0 5)) with 0. change (0 `div` 16) with 0.
    change (0 `mod` 16) with 0. change (0 <? 2) with true. cbv iota.
    change (0 :: 0 :: ns ++ [16]) with ((0 :: 0 :: ns) ++ [16]).
    rewrite take_snoc. reflexivity.
  - change (byte (Z.shiftl 1 5)) with 32. change (32 `div` 16) with 2.
    change (32 `mod` 16) with 0. change (2 <? 2) with false. cbv iota.
    reflexivity.
Qed.

Lemma compactToHex_odd (t x : Z) (ns : list Z) :
  (t = 0 \/ t = 1) -> is_nibble x -> Nat.even (length ns) = true -> Forall is_nibble ns ->
  compactToHex (Z.lor (Z.lor (byte (Z.shiftl t 5)) (byte (Z.shiftl 1 4))) x :: packNibbles ns)
  = if t =? 1 then x :: ns ++ [16] else x :: ns.
Proof.
  intros Ht Hx He Hn. unfold compactToHex, keybytesToHex.
  cbn [length Nat.eqb keybytesToHex_nibbles].
  rewrite keybytesToHex_packNibbles by assumption.
  destruct (flag_odd_div t x Ht Hx) as [-> ->].
  destruct Ht as [-> | ->].
  - change (2 * 0 + 1) with 1. change (1 <? 2) with true. cbv iota.
    change (1 :: x :: ns ++ [16]) with ((1 :: x :: ns) ++ [16]).
    rewrite take_snoc. reflexivity.
  - change (2 * 1 + 1) with 3. change (3 <? 2) with false. cbv iota.
    reflexivity.
Qed.

Lemma compactBody_roundtrip (t : Z) (ns : list Z) :
  (t = 0 \/ t = 1) -> Forall is_nibble ns ->
  exists c, compactBody t ns = Some c /\
            compactToHex c = if t =? 1 then ns ++ [16] else ns.
Proof.
  intros Ht Hn. destruct (Nat.even (length ns)) eqn:He.
  - eexists. split; [apply compactBody_even; assumption|].
    apply compactToHex_even; assumption.
  - destruct ns as [|x ns]; [discriminate|].
    assert (He' : Nat.even (length ns) = true).
    { cbn [length] in He. rewrite Nat.even_succ in He.
      rewrite <- Nat.negb_odd, He. reflexivity. }
    inversion Hn; subst.
    eexists. split; [apply compactBody_odd; assumption|].
    apply compactToHex_odd; assumption.
Qed.

(** C4. Key encoding round trip: for every valid hex key [h] (nibbles
    below 16, optionally followed by one terminator 16), [hexToCompact]
    returns a compact key and [compactToHex] gives [h] back. *)
Theorem compactToHex_hexToCompact (h : list Z) :
  validHex h = true ->
  exists c, hexToCompact h = Some c /\ compactToHex c = h.
Proof.
  unfold validHex. rewrite hexToCompact_unfold. intros Hv.
  destruct (hasTerm h) eqn:Ht.
  - assert (Hn : Forall is_nibble (take (length h - 1) h)).
    { apply List.Forall_forall. intros x Hx. apply is_nibbleb_spec.
      rewrite forallb_forall in Hv. auto. }
    destruct (compactBody_roundtrip 1 _ (or_intror eq_refl) Hn) as (c & Hc & Hr).
    exists c. split; [exact Hc|]. rewrite Hr. cbn. symmetry. apply hasTerm_split, Ht.
  - assert (Hn : Forall is_nibble h).
    { apply List.Forall_forall. intros x Hx. apply is_nibbleb_spec.
      rewrite forallb_forall in Hv. auto. }
    destruct (compactBody_roundtrip 0 _ (or_introl eq_refl) Hn) as (c & Hc & Hr).
    exists c. split; [exact Hc|]. exact Hr.
Qed.

Lemma compactToHex_hexToCompact_witness :
  validHex [0; 15; 1; 12; 11; 8; 16] = true /\
  exists c, hexToCompact [0; 15; 1; 12; 11; 8; 16] = Some c /\
            compactToHex c = [0; 15; 1; 12; 11; 8; 16].
Proof.
  split; [reflexivity|].
  apply (compactToHex_hexToCompact [0; 15; 1; 12; 11; 8; 16]). reflexivity.
Defined.

(** *** The in-place variant *)

Lemma take_S_insert (l : list Z) (i : nat) (v : Z) :
  (i < length l)%nat -> take (S i) (<[i := v]> l) = take i l ++ [v].
Proof.
  intros Hi. rewrite (take_S_r _ i v).
  - rewrite take_insert_ge by lia. reflexivity.
  - apply list_lookup_insert_eq. exact Hi.
Qed.

(** The loop invariant: [pre] is what lies before index [ni], [body] the
    nibbles still to pack, [bi <= ni + 1] the next byte to write. *)
Lemma inPlaceLoop_spec (body : list Z) :
  Nat.even (length body) = true ->
  forall fuel pre tl bi,
    (bi <= length pre + 1)%nat -> (length body <= fuel)%nat ->
    exists hex',
      inPlaceLoop fuel (length pre + length body) (pre ++ body ++ tl) bi (length pre)
      = Some hex' /\
      length hex' = length (pre ++ body ++ tl) /\
      take (bi + length body / 2) hex' = take bi (pre ++ body ++ tl) ++ packNibbles body.
Proof.
  induction body as [|a|a b body IH] using list_pair_ind; intros He fuel pre tl bi Hbi Hfuel.
  - exists (pre ++ tl). cbn [length app packNibbles].
    rewrite Nat.add_0_r, app_nil_r. change (0 / 2)%nat with 0%nat.
    rewrite Nat.add_0_r.
    destruct fuel; cbn [inPlaceLoop]; rewrite Nat.ltb_irrefl; auto.
  - discriminate.
  - destruct fuel as [|fuel]; [cbn [length] in Hfuel; lia|].
    cbn [inPlaceLoop].
    destruct (Nat.ltb_spec (length pre) (length pre + length (a :: b :: body)));
      [|cbn [length] in *; lia].
    change ((a :: b :: body) ++ tl) with (a :: b :: body ++ tl).
    rewrite (list_lookup_middle pre (b :: body ++ tl) a (length pre) eq_refl).
    replace (pre ++ a :: b :: body ++ tl) with ((pre ++ [a]) ++ b :: body ++ tl)
      by (rewrite <- app_assoc; reflexivity).
    rewrite (list_lookup_middle (pre ++ [a]) (body ++ tl) b (length pre + 1))
      by (rewrite length_app; reflexivity).
    replace ((pre ++ [a]) ++ b :: body ++ tl) with ((pre ++ [a; b]) ++ body ++ tl)
      by (rewrite <- !app_assoc; reflexivity).
    assert (Hlt : (bi < length (pre ++ [a; b]))%nat)
      by (rewrite length_app; cbn [length]; lia).
    destruct (Nat.ltb_spec bi (length ((pre ++ [a; b]) ++ body ++ tl))) as [Hlt2|Hge];
      [|rewrite length_app in Hge; lia].
    rewrite insert_app_l by exact Hlt.
    set (pre1 := <[bi := pack2 a b]> (pre ++ [a; b])).
    assert (Hl1 : length pre1 = (length pre + 2)%nat).
    { unfold pre1. rewrite length_insert, length_app. reflexivity. }
    destruct (IH He fuel pre1 tl (bi + 1)%nat) as (hex' & Hloop & Hlen & Htake).
    { lia. }
    { cbn [length] in Hfuel. lia. }
    exists hex'. split; [|split].
    + rewrite <- Hloop. f_equal; [cbn [length]; lia | lia].
    + rewrite Hlen, !length_app, Hl1. cbn [length]. lia.
    + cbn [length packNibbles]. rewrite div2_SS.
      replace (bi + S (length body / 2))%nat with (bi + 1 + length body / 2)%nat by lia.
      rewrite Htake.
      replace (bi + 1)%nat with (S bi) by lia.
      unfold pre1. rewrite <- insert_app_l by exact Hlt.
      rewrite take_S_insert by assumption.
      rewrite <- app_assoc. reflexivity.
Qed.

Lemma even_div2_pre (p n : nat) :
  (p <= 1)%nat -> Nat.even n = true -> ((p + n) / 2 = n / 2)%nat.
Proof.
  intros Hp He. apply Nat.even_spec in He. destruct He as [k ->].
  destruct p as [|[|p]]; [reflexivity| |lia].
  replace (1 + 2 * k)%nat with (1 + k * 2)%nat by lia.
  rewrite Nat.div_add by lia.
  replace (2 * k)%nat with (0 + k * 2)%nat by lia.
  rewrite Nat.div_add by lia. reflexivity.
Qed.

Lemma inPlace_core (fb : Z) (pre body tl : list Z) :
  Nat.even (length body) = true -> (length pre <= 1)%nat -> pre ++ body ++ tl <> [] ->
  exists hex',
    inPlaceLoop (length pre + length body) (length pre + length body)
                (pre ++ body ++ tl) 1 (length pre) = Some hex' /\
    (0 <? length hex')%nat = true /\
    take ((length pre + length body) / 2 + 1) (<[0%nat := fb]> hex') = fb :: packNibbles body.
Proof.
  intros He Hp Hne.
  destruct (inPlaceLoop_spec body He (length pre + length body) pre tl 1)
    as (hex' & Hloop & Hlen & Htake); [lia | lia |].
  exists hex'. split; [exact Hloop|].
  assert (Hpos : (0 < length hex')%nat).
  { rewrite Hlen. destruct (pre ++ body ++ tl); [congruence | cbn [length]; lia]. }
  split; [apply Nat.ltb_lt, Hpos|].
  rewrite even_div2_pre by assumption.
  destruct hex' as [|y rest]; [cbn [length] in Hpos; lia|].
  rewrite Nat.add_1_r. cbn [take]. change (<[0%nat:=fb]> (y :: rest)) with (fb :: rest).
  cbn [take]. f_equal.
  change (1 + length body / 2)%nat with (S (length body / 2)) in Htake.
  cbn [take] in Htake.
  destruct (pre ++ body ++ tl) as [|z zs]; [congruence|].
  cbn [take app] in Htake. rewrite take_0 in Htake. cbn [app] in Htake. congruence.
Qed.

Lemma hexToCompactInPlace_body (t : bool) (h body : list Z) (tl : list Z) :
  h = body ++ tl -> h <> [] ->
  exists hex',
    (let hexLen := length body in
     let firstByte := if t then byte (Z.shiftl 1 5) else 0 in
     let odd := Z.land (Z.of_nat hexLen) 1 =? 1 in
     let firstByte :=
       if odd then Z.lor (Z.lor firstByte (byte (Z.shiftl 1 4))) (nth 0 h 0)
       else firstByte in
     let ni := if odd then 1%nat else 0%nat in
     match inPlaceLoop hexLen hexLen h 1 ni with
     | Some hex' =>
         if (0 <? length hex')%nat
         then Some (<[0%nat := firstByte]> hex', (hexLen / 2 + 1)%nat)
         else None
     | None => None
     end) = Some (hex', (length body / 2 + 1)%nat) /\
    Some (take (length body / 2 + 1) hex') = compactBody (if t then 1 else 0) body.
Proof.
  intros -> Hne. cbv zeta. rewrite odd_flag.
  destruct (Nat.even (length body)) eqn:He; cbn [negb].
  - destruct (inPlace_core (if t then byte (Z.shiftl 1 5) else 0) [] body tl He)
      as (hex' & Hloop & Hpos & Htake); [cbn [length]; lia | exact Hne |].
    cbn [length app Nat.add] in Hloop, Htake. rewrite Hloop, Hpos.
    eexists. split; [reflexivity|]. rewrite Htake.
    rewrite compactBody_even by assumption. destruct t; reflexivity.
  - destruct body as [|x body]; [discriminate|].
    assert (He' : Nat.even (length body) = true).
    { cbn [length] in He. rewrite Nat.even_succ in He.
      rewrite <- Nat.negb_odd, He. reflexivity. }
    destruct (inPlace_core
                (Z.lor (Z.lor (if t then byte (Z.shiftl 1 5) else 0) (byte (Z.shiftl 1 4))) x)
                [x] body tl He') as (hex' & Hloop & Hpos & Htake);
      [cbn [length]; lia | discriminate |].
    cbn [length app Nat.add] in Hloop, Htake.
    change ((x :: body) ++ tl) with (x :: body ++ tl). cbn [length nth].
    rewrite Hloop, Hpos.
    eexists. split; [reflexivity|]. rewrite Htake.
    rewrite compactBody_odd by assumption. destruct t; reflexivity.
Qed.

(** C5 (as amended). For every non-empty hex key [h], [hexToCompactInPlace]
    returns a length [n] and leaves in the first [n] bytes of the buffer
    exactly the output of [hexToCompact h]. *)
Theorem hexToCompactInPlace_hexToCompact (h : list Z) :
  h <> [] ->
  exists buf n c,
    hexToCompactInPlace h = Some (buf, n) /\
    hexToCompact h = Some c /\
    take n buf = c.
Proof.
  intros Hne. rewrite hexToCompact_unfold. unfold hexToCompactInPlace.
  change ((0 <? length h)%nat && (nth (length h - 1) h 0 =? 16)) with (hasTerm h).
  destruct (hasTerm h) eqn:Ht.
  - pose proof (hasTerm_split h Ht) as Hs.
    assert (Hlen : (length h - 1)%nat = length (take (length h - 1) h)).
    { rewrite length_take. lia. }
    destruct (hexToCompactInPlace_body true h (take (length h - 1) h) [16] Hs Hne)
      as (hex' & Hrun & Hc).
    cbv zeta in Hrun. rewrite <- Hlen in Hrun, Hc.
    cbv zeta. rewrite Hrun.
    exists hex', (((length h - 1) / 2) + 1)%nat, (take ((length h - 1) `div` 2 + 1) hex').
    split; [reflexivity|]. split; [symmetry; exact Hc | reflexivity].
  - destruct (hexToCompactInPlace_body false h h [] (eq_sym (app_nil_r h)) Hne)
      as (hex' & Hrun & Hc).
    cbv zeta in Hrun. cbv zeta. rewrite Hrun.
    exists hex', ((length h / 2) + 1)%nat, (take (length h `div` 2 + 1) hex').
    split; [reflexivity|]. split; [symmetry; exact Hc | reflexivity].
Qed.

Lemma hexToCompactInPlace_hexToCompact_witness :
  [0; 1; 0; 2; 0; 3; 0; 4; 16] <> [] /\
  exists buf n c,
    hexToCompactInPlace [0; 1; 0; 2; 0; 3; 0; 4; 16] = Some (buf, n) /\
    hexToCompact [0; 1; 0; 2; 0; 3; 0; 4; 16] = Some c /\
    take n buf = c.
Proof.
  split; [discriminate|].
  apply (hexToCompactInPlace_hexToCompact [0; 1; 0; 2; 0; 3; 0; 4; 16]). discriminate.
Defined.

(** C5, the claim as stated fails on the empty key: [hexToCompact] returns
    the one-byte key [0x00], and the in-place variant has no byte to write
    the flag in ([hex[0] = firstByte] is out of range). *)
Lemma hexToCompactInPlace_empty_counterexample :
  hexToCompact [] = Some [0] /\ hexToCompactInPlace [] = None.
Proof. split; reflexivity. Qed.

(** ** RLP headers *)

Lemma bigEndianAux_fuel (f : nat) : forall n acc k,
  0 <= n < 256 ^ Z.of_nat f ->
  Rlp.bigEndianAux (f + k) n acc = Rlp.bigEndianAux f n acc.
Proof.
  induction f as [|f IH]; intros n acc k Hn.
  - change (256 ^ Z.of_nat 0) with 1 in Hn. assert (n = 0) by lia. subst n.
    destruct k; reflexivity.
  - cbn [Nat.add Rlp.bigEndianAux]. destruct (n =? 0); [reflexivity|].
    apply IH. rewrite Nat2Z.inj_succ, Z.pow_succ_r in Hn by lia.
    split; [apply Z.div_pos; lia|]. apply Z.div_lt_upper_bound; lia.
Qed.

Lemma bigEndianAux_app (f : nat) : forall n acc,
  Rlp.bigEndianAux f n acc = Rlp.bigEndianAux f n [] ++ acc.
Proof.
  induction f as [|f IH]; intros n acc; [reflexivity|].
  cbn [Rlp.bigEndianAux]. destruct (n =? 0); [reflexivity|].
  rewrite IH. rewrite (IH _ [n mod 256]). rewrite <- app_assoc. reflexivity.
Qed.

Lemma log2_fuel (n : Z) : 0 <= n -> n < 256 ^ Z.of_nat (S (Z.to_nat (Z.log2 n))).
Proof.
  intros Hn. destruct (Z.eq_dec n 0) as [-> | Hz]; [reflexivity|].
  assert (Hl := Z.log2_nonneg n).
  rewrite Nat2Z.inj_succ, Z2Nat.id by lia.
  pose proof (Z.log2_spec n ltac:(lia)) as [_ Hup].
  eapply Z.lt_le_trans; [exact Hup|].
  change 256 with (2 ^ 8). rewrite <- Z.pow_mul_r by lia.
  apply Z.pow_le_mono_r; lia.
Qed.

Lemma bigEndianAux_zero (f : nat) (acc : list Z) : Rlp.bigEndianAux f 0 acc = acc.
Proof. destruct f; reflexivity. Qed.

Lemma log2_div256 (n : Z) : 256 <= n -> Z.log2 (n / 256) + 8 <= Z.log2 n.
Proof.
  intros Hn.
  assert (Hq : 0 < n / 256) by (apply Z.div_str_pos; lia).
  destruct (Z.log2_spec (n / 256) Hq) as [Hlo _].
  apply Z.log2_le_pow2; [lia|].
  rewrite Z.pow_add_r by (try apply Z.log2_nonneg; lia).
  change (2 ^ 8) with 256.
  pose proof (Z.mul_div_le n 256 ltac:(lia)). nia.
Qed.

(** The defining equations of the big-endian form. *)
Lemma bigEndian_0 : Rlp.bigEndian 0 = [].
Proof. reflexivity. Qed.

Lemma bigEndian_step (n : Z) :
  0 < n -> Rlp.bigEndian n = Rlp.bigEndian (n / 256) ++ [n mod 256].
Proof.
  intros Hn. unfold Rlp.bigEndian.
  cbn [Rlp.bigEndianAux]. destruct (Z.eqb_spec n 0) as [|_]; [lia|].
  rewrite bigEndianAux_app. f_equal.
  destruct (Z_lt_le_dec n 256) as [Hs | Hb].
  - rewrite Z.div_small by lia. rewrite !bigEndianAux_zero. reflexivity.
  - pose proof (log2_div256 n Hb) as Hl.
    pose proof (Z.log2_nonneg (n / 256)) as Hq.
    replace (Z.to_nat (Z.log2 n))
      with (S (Z.to_nat (Z.log2 (n / 256))) + (Z.to_nat (Z.log2 n) - S (Z.to_nat (Z.log2 (n / 256)))))%nat
      by lia.
    apply bigEndianAux_fuel. split; [apply Z.div_pos; lia|].
    apply log2_fuel. apply Z.div_pos; lia.
Qed.

Lemma bigEndian_small (n : Z) : 0 < n < 256 -> Rlp.bigEndian n = [n].
Proof.
  intros Hn. rewrite bigEndian_step by lia.
  rewrite Z.div_small, Z.mod_small by lia. reflexivity.
Qed.

(** The big-endian form denotes the number. *)
Lemma fromBigEndian_snoc (bs : list Z) (b : Z) :
  Rlp.fromBigEndian (bs ++ [b]) = Rlp.fromBigEndian bs * 256 + b.
Proof. unfold Rlp.fromBigEndian. rewrite fold_left_app. reflexivity. Qed.

Lemma fromBigEndian_bigEndian (n : Z) : 0 <= n -> Rlp.fromBigEndian (Rlp.bigEndian n) = n.
Proof.
  intros Hn. generalize Hn. pattern n. apply Z_lt_induction; [|lia].
  clear n Hn. intros n IH Hn.
  destruct (Z.eq_dec n 0) as [-> | Hz]; [reflexivity|].
  rewrite bigEndian_step by lia. rewrite fromBigEndian_snoc.
  rewrite IH.
  - pose proof (Z.div_mod n 256 ltac:(lia)). lia.
  - split; [apply Z.div_pos; lia|]. apply Z.div_lt; lia.
  - apply Z.div_pos; lia.
Qed.

(** It has no leading zero byte, every byte is a byte, and a number below
    [256 ^ k] takes [k] bytes at most. *)
Lemma bigEndian_head (n : Z) :
  0 < n -> exists b bs, Rlp.bigEndian n = b :: bs /\ 0 < b < 256.
Proof.
  intros Hn. generalize Hn. pattern n. apply Z_lt_induction; [|lia].
  clear n Hn. intros n IH Hn.
  destruct (Z_lt_le_dec n 256) as [Hs | Hb].
  - exists n, []. rewrite bigEndian_small by lia. split; [reflexivity | lia].
  - destruct (IH (n / 256)) as (b & bs & Hbs & Hb0).
    + split; [apply Z.div_pos; lia | apply Z.div_lt; lia].
    + apply Z.div_str_pos; lia.
    + exists b, (bs ++ [n mod 256]). rewrite bigEndian_step by lia.
      rewrite Hbs. split; [reflexivity | exact Hb0].
Qed.

Lemma bigEndian_bytes (n : Z) : 0 <= n -> Forall is_byte (Rlp.bigEndian n).
Proof.
  intros Hn. generalize Hn. pattern n. apply Z_lt_induction; [|lia].
  clear n Hn. intros n IH Hn.
  destruct (Z.eq_dec n 0) as [-> | Hz]; [constructor|].
  rewrite bigEndian_step by lia. apply Forall_app. split.
  - apply IH; [|apply Z.div_pos; lia]. split; [apply Z.div_pos; lia | apply Z.div_lt; lia].
  - repeat constructor; apply Z.mod_pos_bound; lia.
Qed.

Lemma bigEndian_shift (i s : Z) :
  0 <= s -> 0 < i ≫ s ->
  Rlp.bigEndian (i ≫ s) = Rlp.bigEndian (i ≫ (s + 8)) ++ [byte (i ≫ s)].
Proof.
  intros Hs Hi. rewrite bigEndian_step by exact Hi. unfold byte.
  f_equal. f_equal. rewrite <- Z.shiftr_shiftr by lia.
  rewrite (Z.shiftr_div_pow2 (i ≫ s) 8) by lia. reflexivity.
Qed.

Lemma shiftr_pos (i s : Z) : 0 <= s -> 2 ^ s <= i -> 0 < i ≫ s.
Proof.
  intros Hs Hi. rewrite Z.shiftr_div_pow2 by lia.
  apply Z.div_str_pos. split; [apply Z.pow_pos_nonneg; lia | exact Hi].
Qed.

Lemma shiftr_zero (i s : Z) : 0 <= s -> 0 <= i < 2 ^ s -> i ≫ s = 0.
Proof. intros Hs Hi. rewrite Z.shiftr_div_pow2 by lia. apply Z.div_small, Hi. Qed.

Ltac norm_pow :=
  repeat match goal with
         | H : context [2 ^ ?n] |- _ =>
             let v := eval vm_compute in (2 ^ n) in change (2 ^ n) with v in H
         | |- context [2 ^ ?n] =>
             let v := eval vm_compute in (2 ^ n) in change (2 ^ n) with v
         end.

Ltac be_side := try lia; first [apply shiftr_pos; norm_pow; lia | norm_pow; lia].

Ltac be_unfold :=
  repeat (rewrite bigEndian_shift by be_side; cbn [Z.add Pos.add Pos.succ]);
  match goal with
  | |- context [Rlp.bigEndian (?x ≫ ?s)] => rewrite (shiftr_zero x s) by be_side
  end;
  rewrite bigEndian_0; rewrite ?Z.shiftr_0_r.

(** [putint] writes the big-endian form of [i] at the beginning of [b] and
    leaves the rest of [b] as it was. *)
Lemma putint_spec (b : list Z) (i : Z) :
  0 < i < 2 ^ 64 -> (8 <= length b)%nat ->
  exists b' k,
    Rlp.putint b i = Some (b', k) /\
    take k b' = Rlp.bigEndian i /\
    drop k b' = drop k b /\
    k = length (Rlp.bigEndian i) /\
    (1 <= k <= 8)%nat.
Proof.
  intros Hi Hb.
  destruct b as [|b0 [|b1 [|b2 [|b3 [|b4 [|b5 [|b6 [|b7 rest]]]]]]]];
    try (cbn [length] in Hb; lia).
  replace (Rlp.bigEndian i) with (Rlp.bigEndian (i ≫ 0)) by (rewrite Z.shiftr_0_r; reflexivity).
  unfold Rlp.putint.
  repeat match goal with
         | |- context [?a <? ?c] => destruct (Z.ltb_spec a c)
         end.
  all: cbn -[Z.shiftr byte Rlp.bigEndian Z.pow].
  all: eexists _, _; split; [reflexivity|].
  all: be_unfold; cbn -[Z.shiftr byte Z.pow].
  all: repeat split; lia.
Qed.

(** C8. The header [puthead] emits for a payload of [size] bytes (a
    uint64), with the tags of strings ([0x80], [0xB7]) or of lists ([0xC0],
    [0xF7]): a single byte [smalltag + size] when [size <= 55]; otherwise
    the byte [largetag + len(size_BE)] followed by [size_BE], the size in
    big-endian with no leading zero byte.  The buffer after the header is
    untouched. *)
Theorem puthead_header (buf : list Z) (smalltag largetag size : Z) :
  (9 <= length buf)%nat ->
  0 <= size < 2 ^ 64 ->
  (smalltag = 0x80 /\ largetag = 0xB7) \/ (smalltag = 0xC0 /\ largetag = 0xF7) ->
  exists buf' n,
    Rlp.puthead buf smalltag largetag size = Some (buf', n) /\
    take n buf' = Rlp.header smalltag largetag size /\
    drop n buf' = drop n buf /\
    (size <= 55 -> take n buf' = [smalltag + size]) /\
    (55 < size ->
     exists b bs,
       take n buf' = largetag + Z.of_nat (length (b :: bs)) :: b :: bs /\
       Rlp.fromBigEndian (b :: bs) = size /\
       0 < b /\
       Forall is_byte (b :: bs) /\
       (length (b :: bs) <= 8)%nat).
Proof.
  intros Hb Hs Htags.
  assert (Hst : 0 <= smalltag <= 0xC0 /\ 0 <= largetag <= 0xF7) by lia.
  destruct buf as [|b0 tl]; [cbn [length] in Hb; lia|].
  unfold Rlp.puthead, Rlp.header.
  destruct (Z.ltb_spec size 56) as [Hlt | Hge].
  - destruct (Z.leb_spec size 55) as [_|]; [|lia].
    assert (Hbyte : byte (smalltag + byte size) = smalltag + size).
    { unfold byte. rewrite (Z.mod_small size) by lia. apply Z.mod_small. lia. }
    cbn -[byte]. rewrite Hbyte.
    eexists _, _. split; [reflexivity|]. cbn.
    repeat split; try reflexivity. lia.
  - destruct (Z.leb_spec size 55) as [|_]; [lia|].
    cbn [length Nat.ltb Nat.leb drop take]. rewrite drop_0, take_0.
    destruct (putint_spec tl size) as (tl' & k & Hput & Htake & Hdrop & Hk & Hk8);
      [lia | cbn [length] in Hb; lia |].
    rewrite Hput. cbn -[byte].
    assert (Hbyte : byte (largetag + byte (Z.of_nat k)) = largetag + Z.of_nat k).
    { unfold byte. rewrite (Z.mod_small (Z.of_nat k)) by lia. apply Z.mod_small. lia. }
    rewrite Hbyte.
    eexists _, _. split; [reflexivity|].
    replace (k + 1)%nat with (S k) by lia. cbn [take drop].
    rewrite Htake, Hdrop, Hk.
    repeat split; try reflexivity; try lia.
    intros _.
    destruct (bigEndian_head size) as (b & bs & Hbe & Hb0); [lia|].
    exists b, bs.
    split; [rewrite Hbe; reflexivity|].
    pose proof (fromBigEndian_bigEndian size ltac:(lia)) as Hf.
    pose proof (bigEndian_bytes size ltac:(lia)) as Hy.
    rewrite Hbe in Hf, Hy, Hk.
    split; [exact Hf|]. split; [lia|]. split; [exact Hy | cbn [length] in *; lia].
Qed.

Lemma puthead_header_witness :
  (9 <= length (replicate 9 0))%nat /\ 0 <= 1024 < 2 ^ 64 /\
  exists buf' n,
    Rlp.puthead (replicate 9 0) 0x80 0xB7 1024 = Some (buf', n) /\
    take n buf' = [0xB9; 0x04; 0x00].
Proof.
  split; [cbn; lia|]. split; [lia|].
  destruct (puthead_header (replicate 9 0) 0x80 0xB7 1024) as (buf' & n & Hp & Ht & _);
    [cbn; lia | lia | left; split; reflexivity |].
  exists buf', n. split; [exact Hp|]. rewrite Ht. reflexivity.
Defined.

(** ** The trie handle *)

Lemma bytesEqual_true (a b : list Z) : bytesEqual a b = true <-> a = b.
Proof. unfold bytesEqual. apply bool_decide_eq_true. Qed.

Lemma bytesEqual_false (a b : list Z) : bytesEqual a b = false <-> a <> b.
Proof. unfold bytesEqual. apply bool_decide_eq_false. Qed.

Lemma bytesEqual_refl (a : list Z) : bytesEqual a a = true.
Proof. apply bytesEqual_true. reflexivity. Qed.

Lemma BytesToHash_32 (h : list Z) : length h = 32%nat -> BytesToHash h = h.
Proof.
  intros Hl. unfold BytesToHash. rewrite Hl.
  change (32 <? 32)%nat with false. cbv iota. rewrite Hl. reflexivity.
Qed.

Lemma setRoot_root (t : Trie) : setRoot t (root t) = t.
Proof. destruct t; reflexivity. Qed.

(** C3. [Hash] on an empty trie (nil root) returns the constant
    [emptyRoot] = 0x56e8...b421 and leaves the trie as it is; the constant
    is the Keccak-256 of the byte 0x80, the RLP encoding of the empty
    string. *)
Theorem Hash_empty_trie (t : Trie) :
  root t = nilNode ->
  Hash t = Ok (emptyRoot, t) /\
  emptyRoot = Keccak.Keccak256 [0x80] /\
  Rlp.encodeString [] = [0x80] /\
  length emptyRoot = 32%nat.
Proof.
  intros Hr. split; [|split; [vm_compute; reflexivity | split; reflexivity]].
  unfold Hash, hashRoot. rewrite Hr. cbn [isNil mbind result_bind].
  rewrite <- Hr, setRoot_root. reflexivity.
Qed.

Lemma Hash_empty_trie_witness :
  root emptyTrie = nilNode /\ Hash emptyTrie = Ok (emptyRoot, emptyTrie).
Proof.
  split; [reflexivity|]. apply (Hash_empty_trie emptyTrie). reflexivity.
Defined.

(** C10. [New] without a database panics, whatever the owner and the root
    hash (the zero hash and [emptyRoot] included): no trie and no error is
    returned. *)
Theorem New_nil_database_panics (owner root : list Z) :
  New owner root None = Panic "trie.New called without a database".
Proof. reflexivity. Qed.

(** C9 (as amended). For a root hash other than the zero hash and
    [emptyRoot], [New] reads the node store before it returns: the root of
    the trie is the node stored under the hash, and a hash the store does
    not hold makes [New] return a [MissingNodeError] with the owner, the
    hash and the empty path. *)
Theorem New_resolves_root (owner rootHash : list Z) (d : Database) :
  length rootHash = 32%nat -> rootHash <> zeroHash -> rootHash <> emptyRoot ->
  New owner rootHash (Some d) =
  match dbNode d rootHash with
  | Some nilNode | None => Err {| Owner := owner; NodeHash := rootHash; Path := [] |}
  | Some n => Ok {| db := Some d; root := n; owner := owner; unhashed := 0 |}
  end.
Proof.
  intros Hl Hz He. unfold New, newTrie.
  apply bytesEqual_false in Hz, He. rewrite Hz, He. cbn [negb andb].
  unfold resolveHash. cbn [db]. rewrite BytesToHash_32 by exact Hl.
  destruct (dbNode d rootHash) as [[]|]; reflexivity.
Qed.

Lemma New_resolves_root_witness :
  length storedHash = 32%nat /\ storedHash <> zeroHash /\ storedHash <> emptyRoot /\
  New zeroHash storedHash (Some oneNodeDatabase) =
  Ok {| db := Some oneNodeDatabase; root := storedNode; owner := zeroHash; unhashed := 0 |}.
Proof.
  split; [reflexivity|]. split; [discriminate|]. split; [discriminate|].
  apply (New_resolves_root zeroHash storedHash oneNodeDatabase);
    [reflexivity | discriminate | discriminate].
Defined.

(** C9, the claim as stated fails: with the hash [storedHash] (neither
    zero nor [emptyRoot]) the root of the new trie is the stored short
    node, not a hash node, and on the empty store [New] returns an error:
    the store has been read. *)
Lemma New_lazy_root_counterexample :
  storedHash <> zeroHash /\ storedHash <> emptyRoot /\
  (exists t, New zeroHash storedHash (Some oneNodeDatabase) = Ok t /\
             root t = storedNode /\ root t <> hashNode storedHash) /\
  New zeroHash storedHash (Some emptyDatabase) =
  Err {| Owner := zeroHash; NodeHash := storedHash; Path := [] |}.
Proof.
  split; [discriminate|]. split; [discriminate|]. split.
  - eexists. split; [reflexivity|]. split; [reflexivity | discriminate].
  - reflexivity.
Qed.

(** ** Results and nodes *)

Lemma bind_Ok {A B} (r : result A) (f : A -> result B) (b : B) :
  r ≫= f = Ok b -> exists a, r = Ok a /\ f a = Ok b.
Proof. destruct r; cbn; try discriminate. eauto. Qed.

(** Inversion of a successful sequence of calls. *)
Tactic Notation "inv_bind" hyp(H) "as" simple_intropattern(x) ident(Hx) :=
  apply bind_Ok in H; destruct H as (x & Hx & H); cbn beta iota in H.

(** Induction on nodes, through the children of full nodes. *)

Section node_induction.
Variable P : node -> Prop.
Hypothesis Hnil : P nilNode.
Hypothesis Hvalue : forall v, P (valueNode v).
Hypothesis Hhash : forall h, P (hashNode h).
Hypothesis Hshort : forall k c fl, P c -> P (shortNode k c fl).
Hypothesis Hfull : forall ch fl, Forall P ch -> P (fullNode ch fl).

Fixpoint node_induction (n : node) : P n :=
  match n with
  | nilNode => Hnil
  | valueNode v => Hvalue v
  | hashNode h => Hhash h
  | shortNode k c fl => Hshort k c fl (node_induction c)
  | fullNode ch fl =>
      Hfull ch fl
        ((fix children (l : list node) : Forall P l :=
            match l with
            | [] => List.Forall_nil P
            | c :: l' => List.Forall_cons P c l' (node_induction c) (children l')
            end) ch)
  end.
End node_induction.

(** ** The hasher *)

Lemma coords_length : length Keccak.coords = 25%nat.
Proof. reflexivity. Qed.

Lemma round_length (st : list Z) (rc : Z) : length (Keccak.round st rc) = 25%nat.
Proof.
  unfold Keccak.round, Keccak.chi.
  destruct (map _ Keccak.coords) as [|a rest] eqn:E.
  - apply (f_equal length) in E. rewrite length_map, coords_length in E. discriminate.
  - cbn [Keccak.iota length]. apply (f_equal length) in E.
    rewrite length_map, coords_length in E. cbn [length] in E. symmetry. exact E.
Qed.

Lemma fold_round_length (rcs : list Z) : forall st,
  length st = 25%nat -> length (fold_left Keccak.round rcs st) = 25%nat.
Proof.
  induction rcs as [|rc rcs IH]; intros st Hst; [exact Hst|].
  cbn [fold_left]. apply IH, round_length.
Qed.

Lemma keccakF_length (st : list Z) : length (Keccak.keccakF st) = 25%nat.
Proof.
  unfold Keccak.keccakF, Keccak.RC. cbn [fold_left].
  repeat first [apply round_length | apply fold_round_length].
Qed.

Lemma absorb_length (blks : list (list Z)) : forall st,
  length st = 25%nat -> length (fold_left Keccak.absorbBlock blks st) = 25%nat.
Proof.
  induction blks as [|b blks IH]; intros st Hst; [exact Hst|].
  cbn [fold_left]. apply IH. apply keccakF_length.
Qed.

Lemma bytes_of_lane_length (n : nat) : forall l, length (Keccak.bytes_of_lane n l) = n.
Proof. induction n as [|n IH]; intros l; cbn [Keccak.bytes_of_lane length]; auto. Qed.

(** The digest has 32 bytes. *)
Lemma Keccak256_length (msg : list Z) : length (Keccak.Keccak256 msg) = 32%nat.
Proof.
  unfold Keccak.Keccak256.
  match goal with |- context [fold_left ?f ?b ?s] => pose proof (absorb_length b s eq_refl) as Hl;
    destruct (fold_left f b s) as [|l0 [|l1 [|l2 [|l3 rest]]]] end;
    try (cbn [length] in Hl; lia).
  cbn [take flat_map]. rewrite !length_app, !bytes_of_lane_length. reflexivity.
Qed.

Lemma hashData_length (data : list Z) :
  hashData data = hashNode (Keccak.Keccak256 data).
Proof.
  unfold hashData. rewrite take_ge; [reflexivity|]. rewrite Keccak256_length. lia.
Qed.

(** The decision of [shortnodeToHash] and [fullnodeToHash]. *)
Lemma shortnodeToHash_spec (h : hasher) (n : node) (force : bool) :
  isShortOrFull n = true ->
  (shortnodeToHash h n force = n <-> (length (encode n) < 32)%nat /\ force = false) /\
  (shortnodeToHash h n force <> n ->
   shortnodeToHash h n force = hashNode (Keccak.Keccak256 (encode n))).
Proof.
  intros Hn. unfold shortnodeToHash.
  destruct (Nat.ltb_spec (length (encode n)) 32) as [Hlt | Hge];
    destruct force; cbn [andb negb]; rewrite ?hashData_length.
  all: split; [split|]; try tauto; try congruence; try lia.
  all: try (intros Heq; destruct n; discriminate).
  all: try (intros [? ?]; first [lia | discriminate]).
Qed.

Lemma fullnodeToHash_spec (h : hasher) (n : node) (force : bool) :
  isShortOrFull n = true ->
  (fullnodeToHash h n force = n <-> (length (encode n) < 32)%nat /\ force = false) /\
  (fullnodeToHash h n force <> n ->
   fullnodeToHash h n force = hashNode (Keccak.Keccak256 (encode n))).
Proof. exact (shortnodeToHash_spec h n force). Qed.

Lemma hashShortNodeChildrenWith_short (f : node -> result (node * node))
    (k : list Z) (v : node) (fl : nodeFlag) (c d : node) :
  hashShortNodeChildrenWith f k v fl = Ok (c, d) -> isShortOrFull c = true.
Proof.
  unfold hashShortNodeChildrenWith. destruct (hexToCompact k); [|discriminate].
  destruct v; try (intros [= <- <-]; reflexivity).
  all: destruct (f _) as [[? ?]| | |]; try discriminate; intros [= <- <-]; reflexivity.
Qed.

Lemma hashFullNodeChildrenWith_full (f : node -> result (node * node))
    (ch : list node) (fl : nodeFlag) (c d : node) :
  hashFullNodeChildrenWith f ch fl = Ok (c, d) -> isShortOrFull c = true.
Proof.
  unfold hashFullNodeChildrenWith. destruct (length ch <? 16)%nat; [discriminate|].
  destruct (hashChildrenWith f 0 ch) as [[? ?]| | |]; try discriminate.
  intros [= <- <-]. reflexivity.
Qed.

(** A short or full node with no cached hash: [hash n force] returns the
    node itself, in its collapsed form, if and only if the RLP encoding of
    that form is shorter than 32 bytes and [force] is false; otherwise it
    returns the hash node of the Keccak-256 digest of the encoding. *)
Lemma hash_uncached_embedded_iff_small (h : hasher) (n : node) (force : bool)
    (hashed cached : node) :
  isShortOrFull n = true ->
  fst (cache n) = None ->
  hash h n force = Ok (hashed, cached) ->
  exists collapsed,
    collapse h n = Ok collapsed /\
    (hashed = collapsed <-> (length (encode collapsed) < 32)%nat /\ force = false) /\
    (hashed <> collapsed ->
     hashed = hashNode (Keccak.Keccak256 (encode collapsed)) /\
     length (Keccak.Keccak256 (encode collapsed)) = 32%nat) /\
    (force = true -> exists hn, hashed = hashNode hn /\ length hn = 32%nat).
Proof.
  intros Hn Hc Hh.
  assert (Hgen : forall collapsed toHash,
    isShortOrFull collapsed = true ->
    toHash = shortnodeToHash h collapsed force ->
    hashed = toHash ->
    (hashed = collapsed <-> (length (encode collapsed) < 32)%nat /\ force = false) /\
    (hashed <> collapsed ->
     hashed = hashNode (Keccak.Keccak256 (encode collapsed)) /\
     length (Keccak.Keccak256 (encode collapsed)) = 32%nat) /\
    (force = true -> exists hn, hashed = hashNode hn /\ length hn = 32%nat)).
  { intros collapsed toHash Hs -> ->.
    destruct (shortnodeToHash_spec h collapsed force Hs) as [Hiff Hne].
    split; [exact Hiff|]. split.
    - intros Hd. split; [apply Hne, Hd | apply Keccak256_length].
    - intros ->. eexists. split; [apply Hne|apply Keccak256_length].
      intros Heq. apply Hiff in Heq. destruct Heq; discriminate. }
  destruct n as [| | |k v fl|ch fl]; try discriminate; cbn [cache fst] in Hc;
    cbn [hash] in Hh; rewrite Hc in Hh; cbn [collapse].
  - unfold hashShortNodeChildren.
    destruct (hashShortNodeChildrenWith _ k v fl) as [[collapsed cached0]| | |] eqn:Hch;
      try discriminate.
    cbn [mbind result_bind] in Hh |- *.
    exists collapsed. split; [reflexivity|].
    apply (Hgen collapsed (shortnodeToHash h collapsed force));
      [eapply hashShortNodeChildrenWith_short; exact Hch | reflexivity |].
    destruct (shortnodeToHash h collapsed force); congruence.
  - unfold hashFullNodeChildren.
    destruct (hashFullNodeChildrenWith _ ch fl) as [[collapsed cached0]| | |] eqn:Hch;
      try discriminate.
    cbn [mbind result_bind] in Hh |- *.
    exists collapsed. split; [reflexivity|].
    apply (Hgen collapsed (fullnodeToHash h collapsed force));
      [eapply hashFullNodeChildrenWith_full; exact Hch | reflexivity |].
    destruct (fullnodeToHash h collapsed force); congruence.
Qed.

(** *** [digest] by cases *)

Lemma digest_value (b : bool) (v : list Z) : digest b (valueNode v) = Ok (valueNode v).
Proof. reflexivity. Qed.

Lemma digest_hash (b : bool) (h : list Z) : digest b (hashNode h) = Ok (hashNode h).
Proof. reflexivity. Qed.

Lemma digest_short (b : bool) (k : list Z) (c : node) (fl : nodeFlag) :
  digest b (shortNode k c fl) =
  match flagHash fl with
  | Some hn => Ok (hashNode hn)
  | None =>
      match hexToCompact k with
      | None => Panic "index out of range"
      | Some ck =>
          cv ← digestShortChild c;
          Ok (shortnodeToHash (newHasher false) (shortNode ck cv fl) b)
      end
  end.
Proof.
  unfold digest. cbn [hash]. destruct (flagHash fl); [reflexivity|].
  unfold hashShortNodeChildrenWith. destruct (hexToCompact k); [|reflexivity].
  destruct c; cbn [digestShortChild mbind result_bind];
    try (destruct (shortnodeToHash _ _ _); reflexivity).
  all: unfold digest;
    match goal with
    | |- context [hash ?h ?n false] => destruct (hash h n false) as [[cv cc]| | |]
    end;
    cbn [mbind result_bind]; try reflexivity;
    destruct (shortnodeToHash _ _ _); reflexivity.
Qed.

Lemma digestChildren_hashChildrenWith (ch : list node) : forall i,
  ('(cols, _) ← hashChildrenWith (fun c => hash (newHasher false) c false) i ch; Ok cols)
  = digestChildren i ch.
Proof.
  induction ch as [|c ch IH]; intros i; [reflexivity|].
  cbn [hashChildrenWith digestChildren]. rewrite <- IH.
  destruct (i <? 16)%nat; [destruct (isNil c)|]; cbn [mbind result_bind].
  1,3: destruct (hashChildrenWith _ (S i) ch) as [[cols cacs]| | |]; reflexivity.
  unfold digest. destruct (hash (newHasher false) c false) as [[col cac]| | |];
    cbn [mbind result_bind]; try reflexivity.
  destruct (hashChildrenWith _ (S i) ch) as [[cols cacs]| | |]; reflexivity.
Qed.

Lemma digest_full (b : bool) (ch : list node) (fl : nodeFlag) :
  digest b (fullNode ch fl) =
  match flagHash fl with
  | Some hn => Ok (hashNode hn)
  | None =>
      if (length ch <? 16)%nat then Panic "index out of range"
      else
        cols ← digestChildren 0 ch;
        Ok (fullnodeToHash (newHasher false) (fullNode cols fl) b)
  end.
Proof.
  unfold digest. cbn [hash]. destruct (flagHash fl); [reflexivity|].
  unfold hashFullNodeChildrenWith. destruct (length ch <? 16)%nat; [reflexivity|].
  rewrite <- digestChildren_hashChildrenWith.
  destruct (hashChildrenWith _ 0 ch) as [[cols cacs]| | |]; cbn [mbind result_bind];
    try reflexivity.
  destruct (fullnodeToHash _ _ _); reflexivity.
Qed.

Lemma digestShortChild_digest (c : node) :
  isNil c = false -> digestShortChild c = digest false c.
Proof. destruct c; try reflexivity. discriminate. Qed.

(** The hasher carries nothing that [hash] depends on. *)
Lemma hash_hasher (h h' : hasher) (n : node) : forall force,
  hash h n force = hash h' n force.
Proof.
  induction n as [| v | hn | k c fl IH | ch fl IH] using node_induction; intros force;
    try reflexivity; cbn [hash]; destruct (flagHash fl); try reflexivity.
  - assert (E : hashShortNodeChildrenWith (fun c => hash h c false) k c fl
              = hashShortNodeChildrenWith (fun c => hash h' c false) k c fl).
    { unfold hashShortNodeChildrenWith. destruct (hexToCompact k); [|reflexivity].
      destruct c; try reflexivity; rewrite IH; reflexivity. }
    rewrite E. reflexivity.
  - assert (E : forall i, hashChildrenWith (fun c => hash h c false) i ch
              = hashChildrenWith (fun c => hash h' c false) i ch).
    { induction IH as [|c ch Hc _ IHch]; intros i; [reflexivity|].
      cbn [hashChildrenWith]. rewrite Hc, IHch. reflexivity. }
    unfold hashFullNodeChildrenWith. rewrite E. reflexivity.
Qed.

Lemma digest_hash_Ok (h : hasher) (n : node) (force : bool) (hd : node) :
  digest force n = Ok hd <-> exists cached, hash h n force = Ok (hd, cached).
Proof.
  unfold digest. rewrite (hash_hasher (newHasher false) h). split.
  - intros H. inv_bind H as [hd' cached] Hh. injection H as <-. eauto.
  - intros [cached ->]. reflexivity.
Qed.

(** *** The embedding rule *)


Lemma collapse_kind (h : hasher) (n c : node) :
  isShortOrFull n = true -> collapse h n = Ok c -> isShortOrFull c = true.
Proof.
  destruct n as [| v | x | k v fl | ch fl]; try discriminate; intros _ H; cbn [collapse] in H;
    inv_bind H as [col cac] Hc; injection H as <-.
  - eapply hashShortNodeChildrenWith_short; eauto.
  - eapply hashFullNodeChildrenWith_full; eauto.
Qed.

(** The collapsed form does not depend on the cached hash, but for the
    flags it carries. *)
Lemma collapse_uncached (h : hasher) (n c0 : node) :
  collapse h (setFlagHash n None) = Ok c0 ->
  exists c, collapse h n = Ok c /\ encode c = encode c0.
Proof.
  destruct n as [| v | x | k c fl | ch fl]; cbn [setFlagHash collapse];
    try (intros [= <-]; eexists; split; reflexivity).
  - unfold hashShortNodeChildren, hashShortNodeChildrenWith.
    destruct (hexToCompact k); [|discriminate].
    destruct c; cbn [mbind result_bind];
      try (intros [= <-]; eexists; split; reflexivity).
    all: match goal with |- context [hash ?h ?n false] =>
           destruct (hash h n false) as [[cv cc]| | |] end;
      cbn [mbind result_bind]; try discriminate;
      intros [= <-]; eexists; split; reflexivity.
  - unfold hashFullNodeChildren, hashFullNodeChildrenWith.
    destruct (length ch <? 16)%nat; [discriminate|].
    destruct (hashChildrenWith _ 0 ch) as [[cols cacs]| | |]; cbn [mbind result_bind];
      try discriminate.
    intros [= <-]. eexists. split; reflexivity.
Qed.

(** A short or full node that carries a cached hash is answered with that
    hash, whatever [force] and the length of its encoding. *)
Lemma hash_cached_hash (h : hasher) (n : node) (force : bool) (hn : list Z) :
  fst (cache n) = Some hn -> hash h n force = Ok (hashNode hn, n).
Proof.
  destruct n as [| | |k v fl|ch fl]; try discriminate; cbn [cache fst hash];
    intros ->; reflexivity.
Qed.

(** C7, the claim as stated fails for a node that carries a cached hash:
    the pair ("key", "v") is inserted into the empty trie and [Hash] is
    called; it leaves the root, a short node whose collapsed form encodes in
    7 bytes, with its root hash cached.  [hash] of that node with [force]
    not set returns the cached hash, although the encoding is shorter than
    32 bytes and [force] is false: the node is not returned embedded. *)
Lemma hash_cached_small_counterexample :
  exists t h0 th collapsed,
    TryUpdate 10 emptyTrie (ascii_bytes "key") (ascii_bytes "v") = Ok t /\
    Hash t = Ok (h0, th) /\
    isShortOrFull (root th) = true /\
    collapse (newHasher false) (root th) = Ok collapsed /\
    length (encode collapsed) = 7%nat /\
    hash (newHasher false) (root th) false = Ok (hashNode h0, root th) /\
    hashNode h0 <> collapsed.
Proof.
  eexists _, _, _, _.
  split; [vm_compute; reflexivity|].
  split; [vm_compute; reflexivity|].
  split; [reflexivity|].
  split; [vm_compute; reflexivity|].
  split; [vm_compute; reflexivity|].
  split; [vm_compute; reflexivity|].
  discriminate.
Qed.

(** The cached hash of a node whose cached hashes are consistent is the
    hash computed for the node without it. *)
Lemma CacheOK_cached (force : bool) (n : node) (hn : list Z) :
  CacheOK force n -> fst (cache n) = Some hn ->
  digest force (setFlagHash n None) = Ok (hashNode hn).
Proof. intros Hc Hn. inversion Hc; subst; cbn [cache fst] in Hn; try discriminate; auto. Qed.

(** C7, amended.  For every short or full node [n] that carries no cached
    hash, or whose cached hash is the hash computed for the node without it
    (so are the nodes the operations build and the nodes [hash] returns):
    [hash n force] returns the node itself, in its collapsed form
    (embedded: no hash), if and only if the RLP encoding of that form is
    shorter than 32 bytes and [force] is false; otherwise it returns the
    hash node of the 32-byte Keccak-256 digest of the encoding.  With
    [force] set (the root) the result is always a hash node. *)
Theorem hash_embedded_iff_small (h : hasher) (n : node) (force : bool)
    (hashed cached : node) :
  isShortOrFull n = true ->
  (forall hn, fst (cache n) = Some hn ->
     digest force (setFlagHash n None) = Ok (hashNode hn)) ->
  hash h n force = Ok (hashed, cached) ->
  exists collapsed,
    collapse h n = Ok collapsed /\
    (hashed = collapsed <-> (length (encode collapsed) < 32)%nat /\ force = false) /\
    (hashed <> collapsed ->
     hashed = hashNode (Keccak.Keccak256 (encode collapsed)) /\
     length (Keccak.Keccak256 (encode collapsed)) = 32%nat) /\
    (force = true -> exists hn, hashed = hashNode hn /\ length hn = 32%nat).
Proof.
  intros Hn Hc Hh. destruct (fst (cache n)) as [hn|] eqn:Hcache.
  - assert (Hhd : hashed = hashNode hn).
    { destruct n as [| | |k v fl|ch fl]; try discriminate; cbn [cache fst] in Hcache;
        cbn [hash] in Hh; rewrite Hcache in Hh; congruence. }
    subst hashed. specialize (Hc hn eq_refl).
    apply (digest_hash_Ok h) in Hc. destruct Hc as [cached0 Hh0].
    assert (Hn0 : isShortOrFull (setFlagHash n None) = true)
      by (destruct n; try discriminate; reflexivity).
    assert (Hc0 : fst (cache (setFlagHash n None)) = None)
      by (destruct n; try discriminate; reflexivity).
    destruct (hash_uncached_embedded_iff_small h _ force _ _ Hn0 Hc0 Hh0)
      as (c0 & Hcol0 & Hiff & Hne & Hf).
    destruct (collapse_uncached _ _ _ Hcol0) as (c & Hcol & Henc).
    pose proof (collapse_kind _ _ _ Hn0 Hcol0) as Hk0.
    pose proof (collapse_kind _ _ _ Hn Hcol) as Hk.
    exists c. split; [exact Hcol|]. rewrite Henc.
    assert (Hd0 : hashNode hn <> c0) by (intros <-; discriminate).
    split; [|split; [intros _; apply Hne, Hd0 | exact Hf]].
    split.
    + intros <-. discriminate.
    + intros Hs. apply Hiff in Hs. contradiction.
  - eapply hash_uncached_embedded_iff_small; eauto.
Qed.

(** With [force] not set: a short node with no cached hash whose collapsed
    form encodes in 3 bytes is returned embedded; a short node that caches
    the hash of its collapsed form, of 36 bytes, is answered with the
    hash. *)
Lemma hash_embedded_iff_small_witness :
  let fl := {| flagHash := None; flagDirty := true |} in
  let small := shortNode [1; 16] (valueNode [7]) fl in
  let hn := Keccak.Keccak256 (encode (shortNode [49] (valueNode (replicate 32 7)) fl)) in
  let large := shortNode [1; 16] (valueNode (replicate 32 7))
                         {| flagHash := Some hn; flagDirty := false |} in
  (hash (newHasher false) small false = Ok (shortNode [49] (valueNode [7]) fl, small) /\
   exists collapsed,
     collapse (newHasher false) small = Ok collapsed /\
     (shortNode [49] (valueNode [7]) fl = collapsed <->
      (length (encode collapsed) < 32)%nat /\ false = false) /\
     (shortNode [49] (valueNode [7]) fl <> collapsed ->
      shortNode [49] (valueNode [7]) fl = hashNode (Keccak.Keccak256 (encode collapsed)) /\
      length (Keccak.Keccak256 (encode collapsed)) = 32%nat) /\
     (false = true ->
      exists x, shortNode [49] (valueNode [7]) fl = hashNode x /\ length x = 32%nat)) /\
  (hash (newHasher false) large false = Ok (hashNode hn, large) /\
   exists collapsed,
     collapse (newHasher false) large = Ok collapsed /\
     (hashNode hn = collapsed <-> (length (encode collapsed) < 32)%nat /\ false = false) /\
     (hashNode hn <> collapsed ->
      hashNode hn = hashNode (Keccak.Keccak256 (encode collapsed)) /\
      length (Keccak.Keccak256 (encode collapsed)) = 32%nat) /\
     (false = true -> exists x, hashNode hn = hashNode x /\ length x = 32%nat)).
Proof.
  cbv zeta. split.
  - split; [reflexivity|].
    eapply (hash_embedded_iff_small (newHasher false) _ false);
      [reflexivity | intros x Hx; discriminate | reflexivity].
  - split; [reflexivity|].
    eapply (hash_embedded_iff_small (newHasher false) _ false);
      [reflexivity | | reflexivity].
    intros x Hx. cbn [cache fst flagHash] in Hx. injection Hx as <-.
    vm_compute. reflexivity.
Defined.

(** *** The node [hash] returns with the hashes cached *)

(** The flags of the node [hash] returns: the hash is cached when the node
    was hashed. *)
Lemma hash_short_inv (h : hasher) (k : list Z) (c : node) (fl : nodeFlag) (b : bool)
    (hd cached : node) :
  flagHash fl = None ->
  hash h (shortNode k c fl) b = Ok (hd, cached) ->
  exists ck cv cc,
    hexToCompact k = Some ck /\
    (if isShortOrFull c then hash h c false = Ok (cv, cc) else cv = c /\ cc = c) /\
    hd = shortnodeToHash h (shortNode ck cv fl) b /\
    cached = shortNode k cc {| flagHash := match hd with hashNode hn => Some hn | _ => None end;
                               flagDirty := flagDirty fl |}.
Proof.
  intros Hfl H. cbn [hash] in H. rewrite Hfl in H.
  inv_bind H as [collapsed cached0] Hc.
  unfold hashShortNodeChildrenWith in Hc. destruct (hexToCompact k) as [ck|]; [|discriminate].
  assert (Hch : exists cv cc,
    (if isShortOrFull c then hash h c false = Ok (cv, cc) else cv = c /\ cc = c) /\
    collapsed = shortNode ck cv fl /\ cached0 = shortNode k cc fl).
  { destruct c; cbn [isShortOrFull];
      try (injection Hc as <- <-; eexists _, _; repeat split; reflexivity).
    all: inv_bind Hc as [cv cc] Hcv; injection Hc as <- <-;
      exists cv, cc; repeat split; assumption. }
  destruct Hch as (cv & cc & Hcv & -> & ->).
  exists ck, cv, cc. split; [reflexivity|]. split; [exact Hcv|].
  destruct (shortnodeToHash h (shortNode ck cv fl) b) eqn:E; injection H as <- <-;
    split; reflexivity.
Qed.

Lemma hash_full_inv (h : hasher) (ch : list node) (fl : nodeFlag) (b : bool)
    (hd cached : node) :
  flagHash fl = None ->
  hash h (fullNode ch fl) b = Ok (hd, cached) ->
  exists cols cacs,
    (16 <= length ch)%nat /\
    hashChildrenWith (fun c => hash h c false) 0 ch = Ok (cols, cacs) /\
    hd = fullnodeToHash h (fullNode cols fl) b /\
    cached = fullNode cacs {| flagHash := match hd with hashNode hn => Some hn | _ => None end;
                              flagDirty := flagDirty fl |}.
Proof.
  intros Hfl H. cbn [hash] in H. rewrite Hfl in H.
  inv_bind H as [collapsed cached0] Hc.
  unfold hashFullNodeChildrenWith in Hc.
  destruct (Nat.ltb_spec (length ch) 16) as [|Hlen]; [discriminate|].
  inv_bind Hc as [cols cacs] Hcs. injection Hc as <- <-.
  exists cols, cacs. split; [exact Hlen|]. split; [exact Hcs|].
  destruct (fullnodeToHash h (fullNode cols fl) b) eqn:E; injection H as <- <-;
    split; reflexivity.
Qed.

(** The children [hashFullNodeChildren] returns, one by one. *)
Lemma hashChildrenWith_inv (f : node -> result (node * node)) (ch : list node) :
  forall i cols cacs,
  hashChildrenWith f i ch = Ok (cols, cacs) ->
  length cacs = length ch /\
  forall (j : nat) (c : node), ch !! j = Some c ->
    exists col cac, cols !! j = Some col /\ cacs !! j = Some cac /\
      (if (i + j <? 16)%nat
       then if isNil c then col = nilValueNode /\ cac = c else f c = Ok (col, cac)
       else col = c /\ cac = c).
Proof.
  induction ch as [|c0 ch IH]; intros i cols cacs H.
  - injection H as <- <-. split; [reflexivity | intros j c Hj; discriminate].
  - cbn [hashChildrenWith] in H. fold (hashChildrenWith f) in H.
    inv_bind H as [col0 cac0] H0. inv_bind H as [cols' cacs'] Hrest. injection H as <- <-.
    destruct (IH _ _ _ Hrest) as [Hlen Hall]. split; [cbn [length]; lia|].
    intros [|j] c Hj.
    + cbn in Hj. injection Hj as <-. exists col0, cac0. split; [reflexivity|].
      split; [reflexivity|]. rewrite Nat.add_0_r.
      destruct (i <? 16)%nat; [destruct (isNil c0)|]; try exact H0.
      all: injection H0 as <- <-; split; reflexivity.
    + cbn in Hj. destruct (Hall j c Hj) as (col & cac & Hc1 & Hc2 & Hc3).
      exists col, cac. split; [exact Hc1|]. split; [exact Hc2|].
      replace (i + S j)%nat with (S i + j)%nat by lia. exact Hc3.
Qed.

Lemma flag_None_eta (fl : nodeFlag) :
  flagHash fl = None -> {| flagHash := None; flagDirty := flagDirty fl |} = fl.
Proof. destruct fl; cbn. intros ->. reflexivity. Qed.

Lemma digestChildren_lookup (cacs : list node) : forall (i : nat) (cols : list node),
  length cols = length cacs ->
  (forall (j : nat) (cac : node), cacs !! j = Some cac ->
     exists col, cols !! j = Some col /\
       (if (i + j <? 16)%nat then if isNil cac then Ok nilValueNode else digest false cac
        else Ok cac) = Ok col) ->
  digestChildren i cacs = Ok cols.
Proof.
  induction cacs as [|cac cacs IH]; intros i cols Hlen Hall.
  - destruct cols; [reflexivity | discriminate].
  - destruct cols as [|col cols]; [discriminate|]. cbn [digestChildren].
    destruct (Hall 0%nat cac eq_refl) as (col' & Hc & Hd). cbn in Hc. injection Hc as <-.
    rewrite Nat.add_0_r in Hd. rewrite Hd. cbn [mbind result_bind].
    rewrite (IH (S i) cols); [reflexivity | cbn [length] in Hlen; lia |].
    intros j c Hj. destruct (Hall (S j) c Hj) as (col' & Hc & Hd').
    exists col'. split; [exact Hc|].
    replace (S i + j)%nat with (i + S j)%nat by lia. exact Hd'.
Qed.

(** [hash] returns a node of the same kind, on which [hash] gives the same
    result, and whose cached hashes are consistent when those of the node
    were. *)
Lemma hash_cached (n : node) : forall b hd cached,
  hash (newHasher false) n b = Ok (hd, cached) ->
  isNil cached = false /\
  isShortOrFull cached = isShortOrFull n /\
  isFull cached = isFull n /\
  digest b cached = Ok hd /\
  (CacheOK b n -> CacheOK b cached).
Proof.
  induction n as [| v | x | k c fl IH | ch fl IH] using node_induction;
    intros b hd cached H.
  - discriminate.
  - injection H as <- <-. do 3 (split; [reflexivity|]). split; [reflexivity | auto].
  - injection H as <- <-. do 3 (split; [reflexivity|]). split; [reflexivity | auto].
  - destruct (flagHash fl) as [hn|] eqn:Hfl.
    { cbn [hash] in H. rewrite Hfl in H. injection H as <- <-.
      do 3 (split; [reflexivity|]). split; [|auto].
      rewrite digest_short, Hfl. reflexivity. }
    destruct (hash_short_inv _ _ _ _ _ _ _ Hfl H) as (ck & cv & cc & Hck & Hcv & Hhd & ->).
    assert (Hchild : digestShortChild cc = Ok cv /\ (CacheOK false c -> CacheOK false cc)).
    { destruct (isShortOrFull c) eqn:Hsf.
      - destruct (IH _ _ _ Hcv) as (Hn & _ & _ & Hd & Hca).
        rewrite digestShortChild_digest by exact Hn. auto.
      - destruct Hcv as [-> ->]. split; [|auto]. destruct c; try discriminate; reflexivity. }
    destruct Hchild as [Hdc Hcc].
    assert (Hplain : digest b (shortNode k cc {| flagHash := None; flagDirty := flagDirty fl |})
                     = Ok hd).
    { rewrite digest_short. cbn [flagHash]. rewrite Hck, Hdc. cbn [mbind result_bind].
      rewrite flag_None_eta by exact Hfl. rewrite Hhd. reflexivity. }
    do 3 (split; [reflexivity|]). split.
    + destruct hd; try exact Hplain. rewrite digest_short. reflexivity.
    + intros Hca. assert (Hc0 : CacheOK false c) by (inversion Hca; assumption).
      apply cache_short; [auto|].
      cbn [flagHash setFlagHash flagDirty]. intros hn Hhn.
      destruct hd; try discriminate. injection Hhn as <-. exact Hplain.
  - destruct (flagHash fl) as [hn|] eqn:Hfl.
    { cbn [hash] in H. rewrite Hfl in H. injection H as <- <-.
      do 3 (split; [reflexivity|]). split; [|auto].
      rewrite digest_full, Hfl. reflexivity. }
    destruct (hash_full_inv _ _ _ _ _ _ Hfl H) as (cols & cacs & Hlen & Hcs & Hhd & ->).
    destruct (hashChildrenWith_inv _ _ _ _ _ Hcs) as [Hlc Hall].
    assert (Hlcols : length cols = length ch).
    { clear -Hcs. revert cols cacs Hcs. generalize 0%nat.
      induction ch as [|c0 ch IHc]; intros i cols cacs H.
      - injection H as <- <-. reflexivity.
      - cbn [hashChildrenWith] in H.
        fold (hashChildrenWith (fun c => hash (newHasher false) c false)) in H.
        inv_bind H as [col0 cac0] H0. inv_bind H as [cols' cacs'] Hrest.
        injection H as <- <-. cbn [length]. f_equal. eapply IHc; eauto. }
    assert (Hdc : digestChildren 0 cacs = Ok cols).
    { apply digestChildren_lookup; [lia|]. intros j cac Hj.
      assert (Hlt : (j < length ch)%nat) by (apply lookup_lt_Some in Hj; lia).
      destruct (lookup_lt_is_Some_2 ch j Hlt) as [c Hc].
      destruct (Hall j c Hc) as (col & cac' & Hcol & Hcac & Hrel).
      rewrite Hj in Hcac. injection Hcac as <-. exists col. split; [exact Hcol|].
      cbn [Nat.add] in Hrel |- *. destruct (j <? 16)%nat.
      - destruct (isNil c) eqn:Hn.
        + destruct Hrel as [-> ->]. rewrite Hn. reflexivity.
        + rewrite Forall_lookup in IH. destruct (IH j c Hc _ _ _ Hrel) as (Hnc & _ & _ & Hd & _).
          rewrite Hnc. exact Hd.
      - destruct Hrel as [-> ->]. reflexivity. }
    assert (Hplain : digest b (fullNode cacs {| flagHash := None; flagDirty := flagDirty fl |})
                     = Ok hd).
    { rewrite digest_full. cbn [flagHash]. rewrite Hlc.
      destruct (Nat.ltb_spec (length ch) 16) as [|_]; [lia|].
      rewrite Hdc. cbn [mbind result_bind].
      rewrite flag_None_eta by exact Hfl. rewrite Hhd. reflexivity. }
    do 3 (split; [reflexivity|]). split.
    + destruct hd; try exact Hplain. rewrite digest_full. reflexivity.
    + intros Hca. assert (Hchildren : Forall (CacheOK false) ch)
        by (inversion Hca; assumption).
      apply cache_full.
      * apply Forall_lookup. intros j cac Hj.
        assert (Hlt : (j < length ch)%nat) by (apply lookup_lt_Some in Hj; lia).
        destruct (lookup_lt_is_Some_2 ch j Hlt) as [c Hc].
        destruct (Hall j c Hc) as (col & cac' & Hcol & Hcac & Hrel).
        rewrite Hj in Hcac. injection Hcac as <-.
        rewrite Forall_lookup in Hchildren. specialize (Hchildren j c Hc).
        cbn [Nat.add] in Hrel. destruct (j <? 16)%nat.
        -- destruct (isNil c) eqn:Hn.
           ++ destruct Hrel as [_ ->]. exact Hchildren.
           ++ rewrite Forall_lookup in IH. apply (IH j c Hc _ _ _ Hrel). exact Hchildren.
        -- destruct Hrel as [_ ->]. exact Hchildren.
      * cbn [flagHash setFlagHash flagDirty]. intros hn Hhn.
        destruct hd; try discriminate. injection Hhn as <-. exact Hplain.
Qed.

(** A value found below the node [hash] returns was below the node. *)
Lemma hash_HasPath (dbo : option Database) (n : node) : forall b hd cached key v,
  hash (newHasher false) n b = Ok (hd, cached) ->
  HasPath dbo cached key v -> HasPath dbo n key v.
Proof.
  induction n as [| v0 | x | k c fl IH | ch fl IH] using node_induction;
    intros b hd cached key v H Hp.
  - discriminate.
  - injection H as <- <-. exact Hp.
  - injection H as <- <-. exact Hp.
  - destruct (flagHash fl) as [hn|] eqn:Hfl.
    { cbn [hash] in H. rewrite Hfl in H. injection H as <- <-. exact Hp. }
    destruct (hash_short_inv _ _ _ _ _ _ _ Hfl H) as (ck & cv & cc & Hck & Hcv & Hhd & ->).
    inversion Hp as [| ? ? ? rest ? Hpc | |]; subst. apply path_short.
    destruct (isShortOrFull c).
    + eapply IH; eauto.
    + destruct Hcv as [_ ->]. exact Hpc.
  - destruct (flagHash fl) as [hn|] eqn:Hfl.
    { cbn [hash] in H. rewrite Hfl in H. injection H as <- <-. exact Hp. }
    destruct (hash_full_inv _ _ _ _ _ _ Hfl H) as (cols & cacs & Hlen & Hcs & Hhd & ->).
    destruct (hashChildrenWith_inv _ _ _ _ _ Hcs) as [Hlc Hall].
    inversion Hp as [| | ? ? i cac rest ? Hi Hjc Hpc |]; subst.
    assert (Hlt : (Z.to_nat i < length ch)%nat) by (apply lookup_lt_Some in Hjc; lia).
    destruct (lookup_lt_is_Some_2 ch _ Hlt) as [c Hj].
    destruct (Hall _ c Hj) as (col & cac' & _ & Hcac & Hr).
    rewrite Hjc in Hcac. injection Hcac as <-. cbn [Nat.add] in Hr.
    apply (path_full _ _ _ _ c); [exact Hi | exact Hj |].
    destruct (Z.to_nat i <? 16)%nat.
    + destruct (isNil c).
      * destruct Hr as [_ ->]. exact Hpc.
      * rewrite Forall_lookup in IH. eapply IH; eauto.
    + destruct Hr as [_ ->]. exact Hpc.
Qed.

(** A value below the node is below the node [hash] returns. *)
Lemma hash_HasPath_cached (dbo : option Database) (n : node) : forall b hd cached key v,
  hash (newHasher false) n b = Ok (hd, cached) ->
  HasPath dbo n key v -> HasPath dbo cached key v.
Proof.
  induction n as [| v0 | x | k c fl IH | ch fl IH] using node_induction;
    intros b hd cached key v H Hp.
  - discriminate.
  - injection H as <- <-. exact Hp.
  - injection H as <- <-. exact Hp.
  - destruct (flagHash fl) as [hn|] eqn:Hfl.
    { cbn [hash] in H. rewrite Hfl in H. injection H as <- <-. exact Hp. }
    destruct (hash_short_inv _ _ _ _ _ _ _ Hfl H) as (ck & cv & cc & Hck & Hcv & Hhd & ->).
    inversion Hp as [| ? ? ? rest ? Hpc | |]; subst. apply path_short.
    destruct (isShortOrFull c).
    + eapply IH; eauto.
    + destruct Hcv as [_ ->]. exact Hpc.
  - destruct (flagHash fl) as [hn|] eqn:Hfl.
    { cbn [hash] in H. rewrite Hfl in H. injection H as <- <-. exact Hp. }
    destruct (hash_full_inv _ _ _ _ _ _ Hfl H) as (cols & cacs & Hlen & Hcs & Hhd & ->).
    destruct (hashChildrenWith_inv _ _ _ _ _ Hcs) as [Hlc Hall].
    inversion Hp as [| | ? ? i c rest ? Hi Hj Hpc |]; subst.
    destruct (Hall _ c Hj) as (col & cac & _ & Hcac & Hr). cbn [Nat.add] in Hr.
    apply (path_full _ _ _ _ cac); [exact Hi | exact Hcac |].
    destruct (Z.to_nat i <? 16)%nat.
    + destruct (isNil c).
      * destruct Hr as [_ ->]. exact Hpc.
      * rewrite Forall_lookup in IH. eapply IH; eauto.
    + destruct Hr as [_ ->]. exact Hpc.
Qed.

(** ** Lookup after insertion *)

Lemma resolveHash_Ok (t : Trie) (h prefix : list Z) (n : node) :
  resolveHash t h prefix = Ok n <-> resolves (db t) h n.
Proof.
  unfold resolveHash, resolves. split.
  - destruct (db t) as [d|]; [|discriminate].
    destruct (dbNode d (BytesToHash h)) as [[]|] eqn:E; try discriminate;
      intros [= <-]; exists d; repeat split; try assumption; discriminate.
  - intros (d & -> & -> & Hn). destruct n; try reflexivity. congruence.
Qed.

Lemma resolves_fun (dbo : option Database) (h : list Z) (n n' : node) :
  resolves dbo h n -> resolves dbo h n' -> n = n'.
Proof. intros (d & -> & E & _) (d' & [= <-] & E' & _). congruence. Qed.

Lemma index_Ok (s : list Z) (i : nat) (x : Z) : index s i = Ok x <-> s !! i = Some x.
Proof. unfold index. destruct (s !! i); split; congruence. Qed.

Lemma child_Ok (ch : list node) (i : Z) (c : node) :
  child ch i = Ok c <-> 0 <= i < 17 /\ ch !! Z.to_nat i = Some c.
Proof.
  unfold child. destruct (Z.ltb_spec i 0); destruct (Z.leb_spec 17 i); cbn [orb].
  1-3: split; [discriminate | lia].
  destruct (ch !! Z.to_nat i); split; try congruence; try (intros [_ ?]; congruence).
  intros [= ->]. split; [lia | reflexivity].
Qed.

Lemma setChild_Ok (ch : list node) (i : Z) (x : node) (ch' : list node) :
  setChild ch i x = Ok ch' <->
  0 <= i < 17 /\ (Z.to_nat i < length ch)%nat /\ ch' = <[Z.to_nat i := x]> ch.
Proof.
  unfold setChild. destruct (Z.ltb_spec i 0); destruct (Z.leb_spec 17 i); cbn [orb].
  1-3: split; [discriminate | lia].
  destruct (Nat.ltb_spec (Z.to_nat i) (length ch)); split; try discriminate.
  - intros [= <-]. repeat split; lia.
  - intros (_ & _ & ->). reflexivity.
  - lia.
Qed.

(** [prefixLen] *)
Lemma prefixLen_le_l (a b : list Z) : (prefixLen a b <= length a)%nat.
Proof.
  revert b. induction a as [|x a IH]; intros [|y b]; cbn [prefixLen length]; try lia.
  destruct (x =? y); [specialize (IH b)|]; lia.
Qed.

Lemma prefixLen_le_r (a b : list Z) : (prefixLen a b <= length b)%nat.
Proof.
  revert b. induction a as [|x a IH]; intros [|y b]; cbn [prefixLen length]; try lia.
  destruct (x =? y); [specialize (IH b)|]; lia.
Qed.

Lemma prefixLen_take (a b : list Z) :
  take (prefixLen a b) a = take (prefixLen a b) b.
Proof.
  revert b. induction a as [|x a IH]; intros [|y b]; cbn [prefixLen]; try reflexivity.
  destruct (Z.eqb_spec x y) as [->|]; [|reflexivity].
  cbn [take]. f_equal. apply IH.
Qed.

Lemma prefixLen_full_r (a b : list Z) :
  prefixLen a b = length b -> a = b ++ drop (length b) a.
Proof.
  intros H. pose proof (prefixLen_take a b) as Ht. rewrite H in Ht.
  rewrite (take_ge b) in Ht by lia.
  rewrite <- Ht at 1. symmetry. apply take_drop.
Qed.

Lemma prefixLen_app (k a b : list Z) :
  prefixLen (k ++ a) (k ++ b) = (length k + prefixLen a b)%nat.
Proof.
  induction k as [|x k IH]; [reflexivity|].
  cbn [app prefixLen length]. rewrite Z.eqb_refl, IH. reflexivity.
Qed.

Lemma prefixLen_refl (a : list Z) : prefixLen a a = length a.
Proof.
  induction a as [|x a IH]; [reflexivity|].
  cbn [prefixLen length]. rewrite Z.eqb_refl, IH. reflexivity.
Qed.

Lemma prefixLen_differ (a b : list Z) (x y : Z) :
  a !! prefixLen a b = Some x -> b !! prefixLen a b = Some y -> x <> y.
Proof.
  revert b. induction a as [|z a IH]; intros [|w b]; cbn [prefixLen]; try discriminate.
  destruct (Z.eqb_spec z w) as [->|Hne].
  - cbn. apply IH.
  - cbn. congruence.
Qed.

Lemma key_split (key : list Z) (m : nat) (x : Z) :
  key !! m = Some x -> key = take m key ++ x :: drop (S m) key.
Proof.
  intros H. rewrite <- (take_drop m key) at 1. f_equal.
  apply drop_S in H. exact H.
Qed.

Lemma HasPath_nil_insert (dbo : option Database) (key v : list Z) (fl : nodeFlag) :
  HasPath dbo (shortNode key (valueNode v) fl) key v.
Proof.
  rewrite <- (app_nil_r key) at 2. apply path_short, path_value.
Qed.

(** After [insert] the key leads to the value; when [insert] reports no
    change it already did. *)
Lemma insert_HasPath (fuel : nat) : forall t n prefix key v d nn,
  insert fuel t n prefix key (valueNode v) = Ok (d, nn) ->
  HasPath (db t) nn key v /\ (d = false -> HasPath (db t) n key v).
Proof.
  induction fuel as [|fuel IH]; intros t n prefix key v d nn H; [discriminate|].
  cbn [insert] in H.
  destruct key as [|k0 key'].
  - (* the key is consumed *)
    cbn [length Nat.eqb] in H.
    destruct n; try (injection H as <- <-; split; [constructor | discriminate]).
    injection H as <- <-. split; [constructor|].
    intros Heq. apply negb_false_iff, bytesEqual_true in Heq. subst. constructor.
  - cbn [length Nat.eqb] in H.
    destruct n as [| w | h | nKey nVal fl | ch fl].
    + (* nil *)
      injection H as <- <-. split; [apply HasPath_nil_insert | discriminate].
    + discriminate.
    + (* hash node *)
      inv_bind H as rn Hres. apply resolveHash_Ok in Hres.
      inv_bind H as [dirty nn'] Hins.
      apply IH in Hins. destruct Hins as [Hnn Hold].
      destruct dirty; cbn [negb] in H; injection H as <- <-.
      * split; [exact Hnn | discriminate].
      * split; [auto|]. intros _. eapply path_hash; eauto.
    + (* short node *)
      cbv zeta in H.
      destruct (Nat.eqb_spec (prefixLen (k0 :: key') nKey) (length nKey)) as [Hm | Hm].
      * inv_bind H as [dirty nn'] Hins.
        apply IH in Hins. destruct Hins as [Hnn Hold].
        pose proof (prefixLen_full_r _ _ Hm) as Hkey.
        rewrite Hm in Hnn, Hold.
        destruct dirty; cbn [negb] in H; injection H as <- <-.
        -- split; [|discriminate]. rewrite Hkey. apply path_short, Hnn.
        -- split; intros; rewrite Hkey; apply path_short; auto.
      * inv_bind H as i1 Hi1. inv_bind H as [d1 c1] Hc1. inv_bind H as br1 Hbr1.
        inv_bind H as i2 Hi2. inv_bind H as [d2 c2] Hc2. inv_bind H as br2 Hbr2.
        apply index_Ok in Hi1, Hi2.
        apply setChild_Ok in Hbr1, Hbr2.
        destruct Hbr1 as (Hr1 & Hl1 & ->). destruct Hbr2 as (Hr2 & Hl2 & ->).
        apply IH in Hc2. destruct Hc2 as [Hc2 _].
        assert (Hfull : forall fl, HasPath (db t)
                  (fullNode (<[Z.to_nat i2 := c2]> (<[Z.to_nat i1 := c1]> emptyChildren)) fl)
                  (i2 :: drop (prefixLen (k0 :: key') nKey + 1) (k0 :: key')) v).
        { intros fl'. eapply path_full; [exact Hr2 | | exact Hc2].
          apply list_lookup_insert_eq. exact Hl2. }
        pose proof (key_split _ _ _ Hi2) as Hkey.
        rewrite Nat.add_1_r in Hfull.
        destruct (prefixLen (k0 :: key') nKey =? 0)%nat eqn:Hz;
          injection H as <- <-; (split; [|discriminate]).
        -- apply Nat.eqb_eq in Hz. rewrite Hz in *. rewrite Hkey. apply Hfull.
        -- rewrite Hkey at 2. apply path_short, Hfull.
    + (* full node *)
      inv_bind H as k Hk. inv_bind H as c Hc. inv_bind H as [dirty nn'] Hins.
      apply index_Ok in Hk. cbn in Hk. injection Hk as <-.
      apply child_Ok in Hc. destruct Hc as [Hi Hc].
      apply IH in Hins. destruct Hins as [Hnn Hold]. cbn [drop] in Hnn, Hold.
      rewrite drop_0 in Hnn, Hold.
      destruct dirty; cbn [negb] in H.
      * inv_bind H as ch' Hset. injection H as <- <-.
        apply setChild_Ok in Hset. destruct Hset as (_ & Hl & ->).
        split; [|discriminate].
        eapply path_full; [exact Hi | | exact Hnn]. apply list_lookup_insert_eq, Hl.
      * injection H as <- <-. split; intros; eapply path_full; eauto.
Qed.

Lemma drop_cons_lookup (key : list Z) (pos : nat) (i : Z) (rest : list Z) :
  drop pos key = i :: rest -> key !! pos = Some i /\ drop (pos + 1) key = rest.
Proof.
  intros H. split.
  - rewrite <- (Nat.add_0_r pos). rewrite <- lookup_drop. rewrite H. reflexivity.
  - rewrite <- drop_drop, H. reflexivity.
Qed.

Lemma drop_length_eq (key : list Z) (pos : nat) (rest : list Z) :
  (pos <= length key)%nat -> drop pos key = rest ->
  length key = (pos + length rest)%nat.
Proof. intros Hp <-. rewrite length_drop. lia. Qed.

(** A path is what [tryGet] follows: with enough fuel it returns the value,
    and the node it hands back (references resolved) has the same path. *)
Lemma tryGet_HasPath (dbo : option Database) (n : node) (rest v : list Z) :
  HasPath dbo n rest v ->
  forall t key pos, db t = dbo -> (pos <= length key)%nat -> drop pos key = rest ->
  exists fuel0, forall fuel, (fuel0 <= fuel)%nat ->
    exists newnode didResolve,
      tryGet fuel t n key pos = Ok (Some v, newnode, didResolve) /\
      HasPath dbo newnode rest v.
Proof.
  induction 1 as [v | k c fl rest v Hp IH | ch fl i c rest v Hi Hc Hp IH | h n key0 v Hr Hp IH];
    intros t key pos Hdb Hpos Hdrop.
  - exists 1%nat. intros [|fuel] Hf; [lia|]. cbn [tryGet].
    eexists _, _. split; [reflexivity | constructor].
  - pose proof (drop_length_eq _ _ _ Hpos Hdrop) as Hlen. rewrite length_app in Hlen.
    destruct (IH t key (pos + length k)%nat Hdb) as (fuel0 & Hget); [lia| |].
    { rewrite <- drop_drop, Hdrop. apply drop_app_length. }
    exists (S fuel0). intros [|fuel] Hf; [lia|]. cbn [tryGet].
    destruct (Z.ltb_spec (Z.of_nat (length key) - Z.of_nat pos) (Z.of_nat (length k)));
      [lia|].
    rewrite Hdrop, take_app_length, bytesEqual_refl. cbn [orb negb].
    destruct (Hget fuel ltac:(lia)) as (newnode & didResolve & -> & Hnew).
    cbn [mbind result_bind].
    eexists _, _. split; [reflexivity|].
    destruct didResolve; apply path_short; assumption.
  - destruct (drop_cons_lookup _ _ _ _ Hdrop) as [Hk Hd].
    pose proof (drop_length_eq _ _ _ Hpos Hdrop) as Hlen. cbn [length] in Hlen.
    destruct (IH t key (pos + 1)%nat Hdb) as (fuel0 & Hget); [lia | exact Hd |].
    exists (S fuel0). intros [|fuel] Hf; [lia|]. cbn [tryGet].
    apply index_Ok in Hk. rewrite Hk. cbn [mbind result_bind].
    pose proof (proj2 (child_Ok ch i c) (conj Hi Hc)) as Hch. rewrite Hch.
    cbn [mbind result_bind].
    destruct (Hget fuel ltac:(lia)) as (newnode & didResolve & -> & Hnew).
    cbn [mbind result_bind].
    destruct didResolve.
    + assert (Hl : (Z.to_nat i < length ch)%nat) by (eapply lookup_lt_Some; eauto).
      rewrite (proj2 (setChild_Ok ch i newnode _) (conj Hi (conj Hl eq_refl))).
      cbn [mbind result_bind].
      eexists _, _. split; [reflexivity|].
      eapply path_full; [exact Hi | | exact Hnew]. apply list_lookup_insert_eq, Hl.
    + eexists _, _. split; [reflexivity|]. eapply path_full; eauto.
  - destruct (IH t key pos Hdb Hpos Hdrop) as (fuel0 & Hget).
    exists (S fuel0). intros [|fuel] Hf; [lia|]. cbn [tryGet].
    subst dbo.
    rewrite (proj2 (resolveHash_Ok t h (take pos key) n) Hr). cbn [mbind result_bind].
    destruct (Hget fuel ltac:(lia)) as (newnode & didResolve & -> & Hnew).
    cbn [mbind result_bind].
    eexists _, _. split; [reflexivity | exact Hnew].
Qed.

(** C1 for the lookup that follows the update at once. *)
Lemma Get_after_TryUpdate (fuel : nat) (t t' : Trie) (k v : list Z) :
  v <> [] ->
  TryUpdate fuel t k v = Ok t' ->
  HasPath (db t') (root t') (keybytesToHex k) v.
Proof.
  intros Hv H. unfold TryUpdate in H.
  destruct v as [|v0 v']; [congruence|]. cbn [length Nat.eqb negb] in H.
  inv_bind H as [d n] Hins. injection H as <-.
  apply insert_HasPath in Hins. apply Hins.
Qed.

(** *** Operations on other keys keep the path *)

Lemma incomparable_nil_r (a : list Z) : ~ incomparable a [].
Proof. intros [_ H]. cbn [length] in H. lia. Qed.

Lemma incomparable_nil_l (a : list Z) : ~ incomparable [] a.
Proof. intros [H _]. cbn [length] in H. lia. Qed.

Lemma incomparable_app (k a b : list Z) :
  incomparable (k ++ a) (k ++ b) -> incomparable a b.
Proof. unfold incomparable. rewrite prefixLen_app, !length_app. lia. Qed.

Lemma incomparable_cons (x : Z) (a b : list Z) :
  incomparable (x :: a) (x :: b) -> incomparable a b.
Proof. apply (incomparable_app [x]). Qed.

Lemma incomparable_sym (a b : list Z) : incomparable a b -> incomparable b a.
Proof.
  assert (Hs : forall a b, prefixLen a b = prefixLen b a).
  { clear. induction a as [|x a IH]; intros [|y b]; cbn [prefixLen]; try reflexivity.
    rewrite (Z.eqb_sym y x). destruct (x =? y); [f_equal; apply IH | reflexivity]. }
  unfold incomparable. rewrite (Hs b a). tauto.
Qed.

(** [insert] into nil. *)
Lemma insert_nil (fuel : nat) (t : Trie) (prefix key : list Z) (value : node) (d : bool)
    (nn : node) :
  insert fuel t nilNode prefix key value = Ok (d, nn) ->
  nn = match key with [] => value | _ => shortNode key value (newFlag t) end.
Proof.
  destruct fuel; [discriminate|]. cbn [insert].
  destruct key; cbn [length Nat.eqb]; intros [= _ <-]; reflexivity.
Qed.

Lemma insert_nil_HasPath (fuel : nat) (t : Trie) (prefix key rest v : list Z) (c : node)
    (d : bool) (nn : node) :
  insert fuel t nilNode prefix key c = Ok (d, nn) ->
  HasPath (db t) c rest v -> HasPath (db t) nn (key ++ rest) v.
Proof.
  intros H%insert_nil Hp. subst nn. destruct key; [exact Hp|]. apply path_short, Hp.
Qed.

Lemma emptyChildren_length : length emptyChildren = 17%nat.
Proof. reflexivity. Qed.

Lemma insert_frame (fuel : nat) : forall t n prefix key' value d nn key v,
  insert fuel t n prefix key' value = Ok (d, nn) ->
  HasPath (db t) n key v -> incomparable key key' ->
  HasPath (db t) nn key v.
Proof.
  induction fuel as [|fuel IH]; intros t n prefix key' value d nn key v H Hp Hinc;
    [discriminate|].
  cbn [insert] in H.
  destruct key' as [|k0 key'']; [exfalso; eapply incomparable_nil_r; eauto|].
  cbn [length Nat.eqb] in H.
  inversion Hp as [v0 | nKey c fl rest v0 Hc | ch fl i c rest v0 Hi Hl Hc | h rn key0 v0 Hr Hc];
    subst; clear Hp.
  - exfalso. eapply incomparable_nil_l; eauto.
  - (* short node *)
    cbv zeta in H.
    destruct (Nat.eqb_spec (prefixLen (k0 :: key'') nKey) (length nKey)) as [Hm | Hm].
    + inv_bind H as [dirty nn'] Hins.
      pose proof (prefixLen_full_r _ _ Hm) as Hkey. rewrite Hm in Hins.
      rewrite Hkey in Hinc. apply incomparable_app in Hinc.
      eapply IH in Hins; [|exact Hc|exact Hinc].
      destruct dirty; cbn [negb] in H; injection H as <- <-; apply path_short; assumption.
    + inv_bind H as i1 Hi1. inv_bind H as [d1 c1] Hc1. inv_bind H as br1 Hbr1.
      inv_bind H as i2 Hi2. inv_bind H as [d2 c2] Hc2. inv_bind H as br2 Hbr2.
      apply index_Ok in Hi1, Hi2.
      apply setChild_Ok in Hbr1, Hbr2.
      destruct Hbr1 as (Hr1 & Hl1 & ->). destruct Hbr2 as (Hr2 & Hl2 & ->).
      pose proof (prefixLen_differ _ _ _ _ Hi2 Hi1) as Hne.
      eapply insert_nil_HasPath in Hc1; [|exact Hc].
      assert (Hfull : forall fl, HasPath (db t)
                (fullNode (<[Z.to_nat i2 := c2]> (<[Z.to_nat i1 := c1]> emptyChildren)) fl)
                (i1 :: drop (prefixLen (k0 :: key'') nKey + 1) nKey ++ rest) v).
      { intros fl'. eapply path_full; [exact Hr1 | | exact Hc1].
        rewrite list_lookup_insert_ne by lia.
        apply list_lookup_insert_eq. exact Hl1. }
      pose proof (key_split _ _ _ Hi1) as Hkey. rewrite Nat.add_1_r in Hfull.
      assert (Hk : nKey ++ rest =
                   take (prefixLen (k0 :: key'') nKey) (k0 :: key'') ++
                   i1 :: drop (S (prefixLen (k0 :: key'') nKey)) nKey ++ rest).
      { rewrite prefixLen_take. rewrite Hkey at 1. rewrite <- app_assoc. reflexivity. }
      destruct (prefixLen (k0 :: key'') nKey =? 0)%nat eqn:Hz; injection H as <- <-.
      * apply Nat.eqb_eq in Hz. rewrite Hk. rewrite Hz in *. apply Hfull.
      * rewrite Hk. apply path_short, Hfull.
  - (* full node *)
    inv_bind H as k Hk. inv_bind H as c' Hc'. inv_bind H as [dirty nn'] Hins.
    apply index_Ok in Hk. cbn in Hk. injection Hk as <-.
    apply child_Ok in Hc'. destruct Hc' as [Hi' Hc'].
    cbn [drop] in Hins. rewrite drop_0 in Hins.
    destruct dirty; cbn [negb] in H.
    + inv_bind H as ch' Hset. injection H as <- <-.
      apply setChild_Ok in Hset. destruct Hset as (_ & Hlen & ->).
      destruct (Z.eq_dec k0 i) as [-> | Hne].
      * apply incomparable_cons in Hinc.
        assert (c' = c) by congruence. subst c'.
        eapply IH in Hins; [|exact Hc|exact Hinc].
        eapply path_full; [exact Hi | | exact Hins]. apply list_lookup_insert_eq, Hlen.
      * eapply path_full; [exact Hi | | exact Hc].
        rewrite list_lookup_insert_ne by lia. exact Hl.
    + injection H as <- <-. eapply path_full; eauto.
  - (* hash node *)
    inv_bind H as rn' Hres. apply resolveHash_Ok in Hres.
    pose proof (resolves_fun _ _ _ _ Hr Hres) as <-.
    inv_bind H as [dirty nn'] Hins.
    destruct dirty; cbn [negb] in H; injection H as <- <-.
    + eapply IH; eauto.
    + exact Hc.
Qed.

(** The loop over the children: once a non-nil entry has been seen at
    [pos >= 0], the result is [pos] when the rest is nil and -2 otherwise. *)
Lemma remainingPos_seen (ch : list node) : forall base pos,
  0 <= pos ->
  (remainingPos ch base pos = pos /\ Forall (fun c => isNil c = true) ch) \/
  (remainingPos ch base pos = -2 /\ Exists (fun c => isNil c = false) ch).
Proof.
  induction ch as [|c ch IH]; intros base pos Hpos; [left; split; [reflexivity|constructor]|].
  cbn [remainingPos]. destruct (isNil c) eqn:Hc.
  - destruct (IH (base + 1) pos Hpos) as [[-> Hall] | [-> Hex]].
    + left. split; [reflexivity|]. constructor; assumption.
    + right. split; [reflexivity|]. apply Exists_cons_tl, Hex.
  - destruct (Z.eqb_spec pos (-1)); [lia|].
    right. split; [reflexivity|]. apply Exists_cons_hd, Hc.
Qed.

(** A result [>= 0] is the index of the only non-nil entry. *)
Lemma remainingPos_single (ch : list node) : forall base,
  0 <= base -> 0 <= remainingPos ch base (-1) ->
  exists j c,
    remainingPos ch base (-1) = base + Z.of_nat j /\
    ch !! j = Some c /\ isNil c = false /\
    forall j' c', ch !! j' = Some c' -> isNil c' = false -> j' = j.
Proof.
  induction ch as [|c ch IH]; intros base Hbase Hr; [cbn in Hr; lia|].
  cbn [remainingPos] in *. destruct (isNil c) eqn:Hc.
  - destruct (IH (base + 1) ltac:(lia) Hr) as (j & c0 & Heq & Hj & Hn & Huniq).
    exists (S j), c0. split; [lia|]. split; [exact Hj|]. split; [exact Hn|].
    intros [|j'] c' Hj' Hc'; cbn in Hj'.
    + congruence.
    + f_equal. eapply Huniq; eauto.
  - change (-1 =? -1) with true in *. cbv iota in *.
    destruct (remainingPos_seen ch (base + 1) base Hbase) as [[Heq Hall] | [Heq _]];
      [|lia].
    exists 0%nat, c. split; [lia|]. split; [reflexivity|]. split; [exact Hc|].
    intros [|j'] c' Hj' Hc'; [reflexivity|]. cbn in Hj'.
    rewrite Forall_lookup in Hall. specialize (Hall _ _ Hj'). congruence.
Qed.

Lemma HasPath_not_nil (dbo : option Database) (n : node) (key v : list Z) :
  HasPath dbo n key v -> isNil n = false.
Proof. destruct 1; reflexivity. Qed.

Lemma byte_small (i : Z) : 0 <= i < 17 -> byte i = i.
Proof. intros H. unfold byte. apply Z.mod_small. lia. Qed.

Lemma delete_frame (fuel : nat) : forall t n prefix key' d nn key v,
  delete fuel t n prefix key' = Ok (d, nn) ->
  HasPath (db t) n key v -> incomparable key key' ->
  HasPath (db t) nn key v.
Proof.
  induction fuel as [|fuel IH]; intros t n prefix key' d nn key v H Hp Hinc;
    [discriminate|].
  cbn [delete] in H.
  inversion Hp as [v0 | nKey c fl rest v0 Hc | ch fl i c rest v0 Hi Hl Hc | h rn key0 v0 Hr Hc];
    subst; clear Hp.
  - exfalso. eapply incomparable_nil_l; eauto.
  - (* short node *)
    cbv zeta in H.
    destruct (Nat.ltb_spec (prefixLen key' nKey) (length nKey)) as [Hlt | Hge].
    { injection H as <- <-. apply path_short, Hc. }
    assert (Hm : prefixLen key' nKey = length nKey)
      by (pose proof (prefixLen_le_r key' nKey); lia).
    pose proof (prefixLen_full_r _ _ Hm) as Hkey.
    rewrite Hkey in Hinc. apply incomparable_app in Hinc.
    destruct (Nat.eqb_spec (prefixLen key' nKey) (length key')) as [He | Hne].
    { exfalso. assert (Hd : drop (length nKey) key' = []) by (apply drop_ge; lia).
      rewrite Hd in Hinc. eapply incomparable_nil_r; eauto. }
    inv_bind H as [dirty c'] Hdel.
    destruct dirty; cbn [negb] in H.
    + eapply IH in Hdel; [|exact Hc|exact Hinc].
      destruct c'; injection H as <- <-; try (apply path_short; assumption).
      inversion Hdel; subst. unfold concat. rewrite app_assoc.
      apply path_short. assumption.
    + injection H as <- <-. apply path_short, Hc.
  - (* full node *)
    destruct key' as [|k0 key'']; [exfalso; eapply incomparable_nil_r; eauto|].
    inv_bind H as k Hk. inv_bind H as c' Hc'. inv_bind H as [dirty nn'] Hdel.
    apply index_Ok in Hk. cbn in Hk. injection Hk as <-.
    apply child_Ok in Hc'. destruct Hc' as [Hi' Hc'].
    cbn [drop] in Hdel. rewrite drop_0 in Hdel.
    destruct dirty; cbn [negb] in H; [|injection H as <- <-; eapply path_full; eauto].
    inv_bind H as ch' Hset.
    apply setChild_Ok in Hset. destruct Hset as (_ & Hlen & ->).
    assert (Hpath : forall fl', HasPath (db t) (fullNode (<[Z.to_nat k0 := nn']> ch) fl')
                                  (i :: rest) v /\
                           exists c1, <[Z.to_nat k0 := nn']> ch !! Z.to_nat i = Some c1 /\
                                      HasPath (db t) c1 rest v).
    { intros fl'. destruct (Z.eq_dec k0 i) as [-> | Hne].
      - apply incomparable_cons in Hinc.
        assert (c' = c) by congruence. subst c'.
        eapply IH in Hdel; [|exact Hc|exact Hinc].
        assert (Hlk : <[Z.to_nat i := nn']> ch !! Z.to_nat i = Some nn')
          by (apply list_lookup_insert_eq, Hlen).
        split; [eapply path_full; eauto | eauto].
      - assert (Hlk : <[Z.to_nat k0 := nn']> ch !! Z.to_nat i = Some c)
          by (rewrite list_lookup_insert_ne by lia; exact Hl).
        split; [eapply path_full; eauto | eauto]. }
    destruct (isNil nn') eqn:Hnil; cbn [negb] in H;
      [|injection H as <- <-; apply Hpath].
    cbv zeta in H.
    destruct (Z.leb_spec 0 (remainingPos (<[Z.to_nat k0:=nn']> ch) 0 (-1))) as [Hpos | Hneg];
      [|injection H as <- <-; apply Hpath].
    destruct (Hpath fl) as [_ (c1 & Hlk & Hc1)].
    destruct (remainingPos_single _ 0 ltac:(lia) Hpos) as (j & cj & Heq & Hj & Hnn & Huniq).
    pose proof (Huniq _ _ Hlk (HasPath_not_nil _ _ _ _ Hc1)) as Hji.
    rewrite Heq in H. replace (0 + Z.of_nat j) with i in H by lia.
    inv_bind H as cp Hcp. apply child_Ok in Hcp. destruct Hcp as [_ Hcp].
    assert (cp = c1) by congruence. subst cp.
    inv_bind H as cnode Hcn. rewrite byte_small in H by exact Hi.
    destruct (negb (i =? 16)) eqn:H16.
    + (* the remaining child is looked at, through its reference if need be *)
      assert (Hcnode : HasPath (db t) cnode rest v).
      { destruct c1; cbn [resolve] in Hcn; try (injection Hcn as <-; exact Hc1).
        apply resolveHash_Ok in Hcn. inversion Hc1; subst.
        erewrite (resolves_fun _ _ cnode); eauto. }
      destruct cnode; injection H as <- <-;
        try (change (i :: rest) with ([i] ++ rest); apply path_short, Hc1).
      inversion Hcnode; subst.
      change (i :: Key ++ rest0) with ((i :: Key) ++ rest0). apply path_short. assumption.
    + injection H as <- <-. change (i :: rest) with ([i] ++ rest). apply path_short, Hc1.
  - (* hash node *)
    inv_bind H as rn' Hres. apply resolveHash_Ok in Hres.
    pose proof (resolves_fun _ _ _ _ Hr Hres) as <-.
    inv_bind H as [dirty nn'] Hdel.
    destruct dirty; cbn [negb] in H; injection H as <- <-.
    + eapply IH; eauto.
    + exact Hc.
Qed.

Lemma tryGet_frame (fuel : nat) : forall t n key' pos val newnode did key v,
  tryGet fuel t n key' pos = Ok (val, newnode, did) ->
  HasPath (db t) n key v ->
  HasPath (db t) newnode key v.
Proof.
  induction fuel as [|fuel IH]; intros t n key' pos val newnode did key v H Hp;
    [discriminate|].
  cbn [tryGet] in H.
  inversion Hp as [v0 | nKey c fl rest v0 Hc | ch fl i c rest v0 Hi Hl Hc | h rn key0 v0 Hr Hc];
    subst; clear Hp.
  - injection H as <- <- <-. constructor.
  - destruct (_ || _); [injection H as <- <- <-; apply path_short, Hc|].
    inv_bind H as [[val' newnode'] did'] Hget. injection H as <- <- <-.
    eapply IH in Hget; [|exact Hc].
    destruct did'; apply path_short; assumption.
  - inv_bind H as k Hk. inv_bind H as c' Hc'. inv_bind H as [[val' newnode'] did'] Hget.
    apply child_Ok in Hc'. destruct Hc' as [Hi' Hc'].
    destruct did'; [|injection H as <- <- <-; eapply path_full; eauto].
    inv_bind H as ch' Hset. injection H as <- <- <-.
    apply setChild_Ok in Hset. destruct Hset as (_ & Hlen & ->).
    destruct (Z.eq_dec k i) as [-> | Hne].
    + assert (c' = c) by congruence. subst c'.
      eapply IH in Hget; [|exact Hc].
      eapply path_full; [exact Hi | | exact Hget]. apply list_lookup_insert_eq, Hlen.
    + eapply path_full; [exact Hi | | exact Hc].
      rewrite list_lookup_insert_ne by lia. exact Hl.
  - inv_bind H as rn' Hres. apply resolveHash_Ok in Hres.
    pose proof (resolves_fun _ _ _ _ Hr Hres) as <-.
    inv_bind H as [[val' newnode'] did'] Hget. injection H as <- <- <-.
    eapply IH; eauto.
Qed.

(** *** Hex keys of byte strings *)

Lemma byte_nibbles (b : Z) : is_byte b -> is_nibble (b / 16) /\ is_nibble (b mod 16).
Proof.
  unfold is_byte, is_nibble. intros Hb. split.
  - split; [apply Z.div_pos; lia | apply Z.div_lt_upper_bound; lia].
  - apply Z.mod_pos_bound. lia.
Qed.

Lemma incomparable_cons_iff (x : Z) (a b : list Z) :
  incomparable (x :: a) (x :: b) <-> incomparable a b.
Proof.
  unfold incomparable. cbn [prefixLen length]. rewrite Z.eqb_refl. lia.
Qed.

Lemma incomparable_head (x y : Z) (a b : list Z) :
  x <> y -> incomparable (x :: a) (y :: b).
Proof.
  intros Hne. unfold incomparable. cbn [prefixLen length].
  destruct (Z.eqb_spec x y); [contradiction|lia].
Qed.

Lemma keybytesToHex_incomparable (k k' : list Z) :
  Forall is_byte k -> Forall is_byte k' -> k <> k' ->
  incomparable (keybytesToHex k) (keybytesToHex k').
Proof.
  unfold keybytesToHex. revert k'.
  induction k as [|a k IH]; intros [|b k'] Hk Hk' Hne.
  - congruence.
  - cbn. inversion Hk' as [|? ? Hb _]; subst.
    apply incomparable_head. destruct (byte_nibbles b Hb) as [[_ ?] _]. lia.
  - cbn. inversion Hk as [|? ? Ha _]; subst.
    apply incomparable_head. destruct (byte_nibbles a Ha) as [[_ ?] _]. lia.
  - cbn [keybytesToHex_nibbles app].
    inversion Hk as [|? ? Ha Hk1]; inversion Hk' as [|? ? Hb Hk1']; subst.
    destruct (Z.eq_dec (a / 16) (b / 16)) as [Hd | Hd]; [|apply incomparable_head, Hd].
    rewrite Hd. apply incomparable_cons_iff.
    destruct (Z.eq_dec (a mod 16) (b mod 16)) as [Hm | Hm]; [|apply incomparable_head, Hm].
    rewrite Hm. apply incomparable_cons_iff.
    apply IH; try assumption.
    assert (a = b).
    { rewrite (Z.div_mod a 16), (Z.div_mod b 16) by lia. congruence. }
    congruence.
Qed.

(** *** The operations keep the store and the paths of other keys *)

Lemma TryGet_db (fuel : nat) (t t' : Trie) (key : list Z) (val : option (list Z)) :
  TryGet fuel t key = Ok (val, t') -> db t' = db t.
Proof.
  unfold TryGet. intros H. inv_bind H as [[v n] did] Hg. injection H as _ <-.
  destruct did; reflexivity.
Qed.

Lemma Hash_db (t t' : Trie) (h : list Z) : Hash t = Ok (h, t') -> db t' = db t.
Proof.
  unfold Hash, hashRoot. destruct (isNil (root t)).
  - cbn. intros [= _ <-]. reflexivity.
  - intros H. inv_bind H as [[hashed cached] t3] Hh. inv_bind Hh as [hashed' cached'] Hh'.
    injection Hh as _ _ <-. destruct hashed; try discriminate. injection H as _ <-.
    reflexivity.
Qed.

Lemma Hash_HasPath (t t' : Trie) (h key v : list Z) :
  Hash t = Ok (h, t') ->
  HasPath (db t) (root t) key v -> HasPath (db t) (root t') key v.
Proof.
  unfold Hash, hashRoot. destruct (isNil (root t)) eqn:Hnil.
  - cbn. intros [= _ <-]. cbn [root setRoot]. destruct (root t); try discriminate. auto.
  - intros H Hp. inv_bind H as [[hashed cached] t3] Hh. inv_bind Hh as [hashed' cached'] Hh'.
    injection Hh as -> -> <-. destruct hashed; try discriminate. injection H as _ <-.
    cbn [root setRoot setUnhashed].
    rewrite (hash_hasher _ (newHasher false)) in Hh'.
    eapply hash_HasPath_cached; eauto.
Qed.

Lemma applyOp_db (fuel : nat) (t t' : Trie) (o : operation) :
  applyOp fuel t o = Ok t' -> db t' = db t.
Proof.
  destruct o as [key value | key | key |]; cbn [applyOp]; unfold TryUpdate, TryDelete, Get.
  - destruct (negb _); intros H; inv_bind H as [d n] Hc; injection H as <-; reflexivity.
  - intros H; inv_bind H as [d n] Hc; injection H as <-; reflexivity.
  - intros H. inv_bind H as [v t1] Hg. injection H as <-.
    destruct (TryGet fuel t key) as [[v' t2]| | |] eqn:E; try discriminate.
    + injection Hg as _ <-. eapply TryGet_db; eauto.
    + injection Hg as _ <-. reflexivity.
  - intros H. inv_bind H as [h t1] Hh. injection H as <-. eapply Hash_db; eauto.
Qed.

Lemma applyOp_frame (fuel : nat) (t t' : Trie) (o : operation) (k v : list Z) :
  applyOp fuel t o = Ok t' ->
  Forall is_byte k ->
  (opWrites o = true -> Forall is_byte (opKey o) /\ opKey o <> k) ->
  HasPath (db t) (root t) (keybytesToHex k) v ->
  HasPath (db t') (root t') (keybytesToHex k) v.
Proof.
  intros H Hk Ho Hp. pose proof (applyOp_db _ _ _ _ H) as Hdb. rewrite Hdb.
  destruct o as [key value | key | key |]; cbn [applyOp opKey opWrites] in *.
  - destruct (Ho eq_refl) as [Hb Hne].
    assert (Hinc : incomparable (keybytesToHex k) (keybytesToHex key))
      by (apply keybytesToHex_incomparable; auto).
    unfold TryUpdate in H.
    destruct (negb _); inv_bind H as [d n] Hc; injection H as <-; cbn [root setRoot].
    + eapply insert_frame in Hc; [exact Hc | exact Hp | exact Hinc].
    + eapply delete_frame in Hc; [exact Hc | exact Hp | exact Hinc].
  - destruct (Ho eq_refl) as [Hb Hne].
    assert (Hinc : incomparable (keybytesToHex k) (keybytesToHex key))
      by (apply keybytesToHex_incomparable; auto).
    unfold TryDelete in H. inv_bind H as [d n] Hc; injection H as <-; cbn [root setRoot].
    eapply delete_frame in Hc; [exact Hc | exact Hp | exact Hinc].
  - inv_bind H as [v1 t1] Hg. injection H as <-. unfold Get in Hg.
    destruct (TryGet fuel t key) as [[v' t2]| | |] eqn:E; try discriminate.
    + injection Hg as _ <-. unfold TryGet in E.
      inv_bind E as [[v2 n] did] Hget. injection E as _ <-.
      destruct did; [|exact Hp]. cbn [root setRoot].
      eapply tryGet_frame in Hget; [exact Hget | exact Hp].
    + injection Hg as _ <-. exact Hp.
  - inv_bind H as [h t1] Hh. injection H as <-. eapply Hash_HasPath; eauto.
Qed.

Lemma applyOps_frame (fuel : nat) (ops : list operation) : forall (t t' : Trie) (k v : list Z),
  applyOps fuel t ops = Ok t' ->
  Forall is_byte k ->
  Forall (fun o => opWrites o = true -> Forall is_byte (opKey o) /\ opKey o <> k) ops ->
  HasPath (db t) (root t) (keybytesToHex k) v ->
  HasPath (db t') (root t') (keybytesToHex k) v.
Proof.
  induction ops as [|o ops IH]; intros t t' k v H Hk Hops Hp.
  - injection H as <-. exact Hp.
  - cbn [applyOps] in H. inv_bind H as t1 Ho.
    inversion Hops; subst.
    eapply IH; [exact H | exact Hk | assumption |].
    eapply applyOp_frame; eauto.
Qed.

(** C1. Get after Insert: when [TryUpdate k v] with a non-empty value
    succeeds and the operations that follow (updates and deletions of
    other keys, lookups of any key, calls of [Hash]) succeed, [Get k]
    returns exactly [v], for every amount of fuel from some bound on. *)
Theorem Get_after_TryUpdate_returns (fuel fuel' : nat) (t t1 t2 : Trie) (k v : list Z)
    (ops : list operation) :
  v <> [] ->
  Forall is_byte k ->
  Forall (fun o => opWrites o = true -> Forall is_byte (opKey o) /\ opKey o <> k) ops ->
  TryUpdate fuel t k v = Ok t1 ->
  applyOps fuel' t1 ops = Ok t2 ->
  exists fuel0, forall f, (fuel0 <= f)%nat ->
    exists t3, Get f t2 k = Ok (Some v, t3).
Proof.
  intros Hv Hk Hops Hup Hrun.
  pose proof (Get_after_TryUpdate _ _ _ _ _ Hv Hup) as Hp.
  pose proof (applyOps_frame _ _ _ _ _ _ Hrun Hk Hops Hp) as Hp2.
  destruct (tryGet_HasPath _ _ _ _ Hp2 t2 (keybytesToHex k) 0 eq_refl ltac:(lia) eq_refl)
    as (fuel0 & Hget).
  exists fuel0. intros f Hf.
  destruct (Hget f Hf) as (newnode & did & Hg & _).
  unfold Get, TryGet. rewrite Hg. cbn [mbind result_bind]. eauto.
Qed.

Lemma Get_after_TryUpdate_returns_witness :
  exists t1 t2,
    TryUpdate 10 emptyTrie (ascii_bytes "do") (ascii_bytes "verb") = Ok t1 /\
    applyOps 10 t1 [OpUpdate (ascii_bytes "dog") (ascii_bytes "puppy");
                    OpHash;
                    OpGet (ascii_bytes "horse");
                    OpDelete (ascii_bytes "dog")] = Ok t2 /\
    exists fuel0, forall f, (fuel0 <= f)%nat ->
      exists t3, Get f t2 (ascii_bytes "do") = Ok (Some (ascii_bytes "verb"), t3).
Proof.
  eexists _, _. split; [vm_compute; reflexivity|]. split; [vm_compute; reflexivity|].
  eapply (Get_after_TryUpdate_returns 10 10 emptyTrie _ _
           (ascii_bytes "do") (ascii_bytes "verb")
           [OpUpdate (ascii_bytes "dog") (ascii_bytes "puppy");
            OpHash;
            OpGet (ascii_bytes "horse");
            OpDelete (ascii_bytes "dog")]).
  - discriminate.
  - repeat constructor; vm_compute; congruence.
  - repeat constructor; try (vm_compute; congruence); try discriminate.
  - vm_compute. reflexivity.
  - vm_compute. reflexivity.
Defined.

(** ** The invariants of the node graph *)

(** *** Hex keys *)

Lemma is_nibble_not16 (x : Z) : is_nibble x -> x <> 16.
Proof. unfold is_nibble. lia. Qed.

Lemma hexTerm_not_nil : ~ hexTerm [].
Proof. intros (body & H & _). destruct body; discriminate. Qed.

Lemma hexTerm_cons (x : Z) (k : list Z) :
  hexTerm (x :: k) <-> (x = 16 /\ k = []) \/ (is_nibble x /\ hexTerm k).
Proof.
  split.
  - intros (body & H & Hb). destruct body as [|y body]; cbn in H.
    + injection H as -> ->. left. split; reflexivity.
    + injection H as -> ->. inversion Hb; subst. right.
      split; [assumption|]. exists body. split; [reflexivity | assumption].
  - intros [[-> ->] | [Hx (body & -> & Hb)]].
    + exists []. split; [reflexivity | constructor].
    + exists (x :: body). split; [reflexivity | constructor; assumption].
Qed.

Lemma hexTerm_app_body (k1 k2 : list Z) :
  hexBody k1 -> hexTerm (k1 ++ k2) -> hexTerm k2.
Proof.
  induction k1 as [|x k1 IH]; intros Hb Ht; [exact Ht|].
  inversion Hb as [|? ? Hx Hb']; subst. cbn [app] in Ht.
  apply hexTerm_cons in Ht. destruct Ht as [[-> _] | [_ Ht]].
  - exfalso. eapply is_nibble_not16; eauto.
  - apply IH; assumption.
Qed.

Lemma hexTerm_app_term (k1 k2 : list Z) :
  hexTerm k1 -> hexTerm (k1 ++ k2) -> k2 = [].
Proof.
  revert k2. induction k1 as [|x k1 IH]; intros k2 H1 H2.
  - exfalso. apply hexTerm_not_nil, H1.
  - cbn [app] in H2. apply hexTerm_cons in H1, H2.
    destruct H1 as [[-> ->] | [Hx H1]].
    + destruct H2 as [[_ H2] | [Hn _]]; [exact H2|].
      exfalso. eapply is_nibble_not16; eauto.
    + destruct H2 as [[-> _] | [_ H2]].
      * exfalso. eapply is_nibble_not16; eauto.
      * apply IH; assumption.
Qed.

Lemma hexBody_hexTerm_app (k1 k2 : list Z) : hexBody k1 -> hexTerm k2 -> hexTerm (k1 ++ k2).
Proof.
  intros H1 (body & -> & Hb). exists (k1 ++ body).
  split; [apply app_assoc | apply Forall_app; split; assumption].
Qed.

Lemma hexBody_app (k1 k2 : list Z) : hexBody k1 -> hexBody k2 -> hexBody (k1 ++ k2).
Proof. intros. apply Forall_app. split; assumption. Qed.

Lemma hexBody_take (k : list Z) (m : nat) : hexBody k -> hexBody (take m k).
Proof. apply Forall_take. Qed.

Lemma hexBody_drop (k : list Z) (m : nat) : hexBody k -> hexBody (drop m k).
Proof. apply Forall_drop. Qed.

Lemma hexBody_lookup (k : list Z) (m : nat) (x : Z) :
  hexBody k -> k !! m = Some x -> is_nibble x.
Proof. intros H Hl. eapply Forall_lookup_1; eauto. Qed.

(** The element of a terminated key at index [m], and what is around it. *)
Lemma hexTerm_lookup (k : list Z) (m : nat) (x : Z) :
  hexTerm k -> k !! m = Some x ->
  hexBody (take m k) /\
  ((x = 16 /\ drop (S m) k = []) \/ (is_nibble x /\ hexTerm (drop (S m) k))).
Proof.
  revert m. induction k as [|y k IH]; intros m Ht Hl; [discriminate|].
  apply hexTerm_cons in Ht. destruct m as [|m].
  - cbn in Hl. injection Hl as ->. split; [constructor|].
    cbn [drop]. destruct Ht as [[-> ->] | [Hx Ht]]; [left | right]; auto.
  - cbn in Hl. destruct Ht as [[-> ->] | [Hy Ht]]; [discriminate|].
    destruct (IH m Ht Hl) as [Hb Hr]. split; [constructor; assumption | exact Hr].
Qed.

Lemma hexTerm_take_body (k : list Z) (m : nat) :
  hexTerm k -> (m < length k)%nat -> hexBody (take m k).
Proof.
  intros Ht Hm. destruct (lookup_lt_is_Some_2 k m Hm) as [x Hx].
  eapply hexTerm_lookup; eauto.
Qed.

Lemma keybytesToHex_hexTerm (k : list Z) : Forall is_byte k -> hexTerm (keybytesToHex k).
Proof.
  intros Hk. exists (keybytesToHex_nibbles k). split; [reflexivity|].
  induction Hk as [|b k Hb _ IH]; [constructor|].
  cbn [keybytesToHex_nibbles]. destruct (byte_nibbles b Hb).
  apply List.Forall_cons; [assumption|]. apply List.Forall_cons; assumption.
Qed.

(** *** Counting the children *)

Lemma countNonNil_insert (ch : list node) : forall (i : nat) (x old : node),
  ch !! i = Some old ->
  (countNonNil (<[i := x]> ch) + (if isNil old then 0 else 1)
   = countNonNil ch + (if isNil x then 0 else 1))%nat.
Proof.
  induction ch as [|c ch IH]; intros [|i] x old Hl; try discriminate.
  - cbn in Hl. injection Hl as ->. cbn [countNonNil]. cbn. lia.
  - cbn in Hl. cbn [countNonNil]. change (<[S i := x]> (c :: ch)) with (c :: <[i := x]> ch).
    cbn [countNonNil]. specialize (IH i x old Hl). lia.
Qed.

Lemma countNonNil_replicate (n : nat) : countNonNil (replicate n nilNode) = 0%nat.
Proof. induction n; cbn; auto. Qed.

Lemma countNonNil_zero (ch : list node) :
  countNonNil ch = 0%nat <-> Forall (fun c => isNil c = true) ch.
Proof.
  induction ch as [|c ch IH]; cbn [countNonNil]; [split; [constructor | reflexivity]|].
  destruct (isNil c) eqn:Hc; split.
  - intros H. constructor; [exact Hc | apply IH; lia].
  - intros H. inversion H; subst. apply IH in H3. lia.
  - lia.
  - intros H. inversion H; subst. congruence.
Qed.

Lemma countNonNil_pos (ch : list node) :
  (1 <= countNonNil ch)%nat <-> Exists (fun c => isNil c = false) ch.
Proof.
  induction ch as [|c ch IH]; cbn [countNonNil].
  - split; [lia | intros H; inversion H].
  - destruct (isNil c) eqn:Hc; split.
    + intros H. apply Exists_cons_tl, IH. lia.
    + intros H. inversion H; subst; [congruence|]. apply IH in H1. lia.
    + intros _. apply Exists_cons_hd, Hc.
    + lia.
Qed.

(** The loop of [delete] decides between no, one and several children. *)
Lemma remainingPos_count (ch : list node) : forall base,
  0 <= base ->
  (countNonNil ch = 0%nat -> remainingPos ch base (-1) = -1) /\
  (countNonNil ch = 1%nat -> 0 <= remainingPos ch base (-1)) /\
  ((2 <= countNonNil ch)%nat -> remainingPos ch base (-1) = -2).
Proof.
  induction ch as [|c ch IH]; intros base Hbase; cbn [countNonNil remainingPos].
  - repeat split; try lia.
  - destruct (isNil c) eqn:Hc.
    + cbn [Nat.add]. apply IH. lia.
    + change (-1 =? -1) with true. cbv iota.
      destruct (remainingPos_seen ch (base + 1) base Hbase) as [[Heq Hall] | [Heq Hex]].
      * apply countNonNil_zero in Hall. rewrite Heq, Hall. repeat split; lia.
      * apply countNonNil_pos in Hex. rewrite Heq. repeat split; lia.
Qed.

(** *** The canonical form gives the two invariants *)

Lemma isBranch_not_short (dbo : option Database) (c : node) : isBranch dbo c -> isShort c = false.
Proof. destruct c; cbn; tauto. Qed.

Lemma isBranch_not_nil (dbo : option Database) (c : node) : isBranch dbo c -> isNil c = false.
Proof. destruct c; cbn; tauto. Qed.

Lemma Canon_not_nil (dbo : option Database) (c : node) : Canon dbo c -> isNil c = false.
Proof. destruct 1; reflexivity. Qed.

Lemma Canon_not_value (dbo : option Database) (c : node) : Canon dbo c -> isValue c = false.
Proof. destruct 1; reflexivity. Qed.

Lemma Canon_invariants (dbo : option Database) (n : node) :
  Canon dbo n \/ isNil n = true \/ isValue n = true ->
  noShortShort n = true /\ noUnderfull n = true.
Proof.
  induction n as [| v | h | k c fl IH | ch fl IH] using node_induction; intros Hn;
    try (split; reflexivity).
  - destruct Hn as [Hc | [Hc | Hc]]; try discriminate.
    cbn [noShortShort noUnderfull].
    inversion Hc as [| ? ? ? Hk | ? ? ? Hk Hb Hcc |]; subst.
    + split; reflexivity.
    + rewrite (isBranch_not_short _ _ Hb). cbn [negb andb]. apply IH. left. exact Hcc.
  - destruct Hn as [Hc | [Hc | Hc]]; try discriminate.
    inversion Hc as [| | | ? ? Hlen Hslots Hcount]; subst.
    cbn [noShortShort noUnderfull].
    assert (Hall : Forall (fun c => noShortShort c = true /\ noUnderfull c = true) ch).
    { apply Forall_lookup. intros i c Hi.
      rewrite Forall_lookup in IH. apply (IH i c Hi).
      destruct (Hslots i c Hi) as [? | [[_ ?] | [_ ?]]]; auto. }
    split.
    + apply forallb_forall. intros c Hin. apply list_elem_of_In in Hin.
      rewrite Forall_forall in Hall. apply Hall, Hin.
    + apply andb_true_iff. split; [apply Nat.leb_le, Hcount|].
      apply forallb_forall. intros c Hin. apply list_elem_of_In in Hin.
      rewrite Forall_forall in Hall. apply Hall, Hin.
Qed.

(** *** Building full nodes *)

Lemma slotFill_not_nil (dbo : option Database) (i : Z) (c : node) :
  slotFill dbo i c -> isNil c = false.
Proof.
  intros [[_ H] | [_ H]]; [destruct c; try discriminate; reflexivity|].
  eapply Canon_not_nil; eauto.
Qed.

Lemma slotFill_slot (dbo : option Database) (i : Z) (c : node) :
  0 <= i < 17 -> slotFill dbo i c ->
  isNil c = true \/ (Z.to_nat i = 16%nat /\ isValue c = true) \/
  (Z.to_nat i <> 16%nat /\ Canon dbo c).
Proof. intros Hi [[-> H] | [Hne H]]; right; [left | right]; split; auto; lia. Qed.

Lemma full_insert_Canon (dbo : option Database) (ch : list node) (fl fl' : nodeFlag)
    (i : Z) (x : node) :
  Canon dbo (fullNode ch fl) -> 0 <= i < 17 -> slotFill dbo i x ->
  Canon dbo (fullNode (<[Z.to_nat i := x]> ch) fl').
Proof.
  intros Hc Hi Hx. inversion Hc as [| | | ? ? Hlen Hslots Hcount]; subst.
  assert (Hlt : (Z.to_nat i < length ch)%nat) by lia.
  destruct (lookup_lt_is_Some_2 ch _ Hlt) as [old Hold].
  apply canon_full.
  - rewrite length_insert. exact Hlen.
  - intros j c Hj. apply list_lookup_insert_Some in Hj.
    destruct Hj as [(<- & <- & _) | [Hne Hj]].
    + apply slotFill_slot; assumption.
    + apply Hslots, Hj.
  - pose proof (countNonNil_insert ch _ x old Hold) as Hcnt.
    rewrite (slotFill_not_nil _ _ _ Hx) in Hcnt. destruct (isNil old); lia.
Qed.

Lemma emptyChildren_lookup (j : nat) (c : node) : emptyChildren !! j = Some c -> c = nilNode.
Proof. unfold emptyChildren. intros H. apply lookup_replicate in H. tauto. Qed.

Lemma branch_Canon (dbo : option Database) (i1 i2 : Z) (c1 c2 : node) (fl : nodeFlag) :
  0 <= i1 < 17 -> 0 <= i2 < 17 -> i1 <> i2 ->
  slotFill dbo i1 c1 -> slotFill dbo i2 c2 ->
  Canon dbo (fullNode (<[Z.to_nat i2 := c2]> (<[Z.to_nat i1 := c1]> emptyChildren)) fl).
Proof.
  intros H1 H2 Hne Hc1 Hc2. apply canon_full.
  - rewrite !length_insert. reflexivity.
  - intros j c Hj. apply list_lookup_insert_Some in Hj.
    destruct Hj as [(<- & <- & _) | [Hn2 Hj]]; [apply slotFill_slot; assumption|].
    apply list_lookup_insert_Some in Hj.
    destruct Hj as [(<- & <- & _) | [Hn1 Hj]]; [apply slotFill_slot; assumption|].
    left. apply emptyChildren_lookup in Hj. subst. reflexivity.
  - assert (Hl1 : emptyChildren !! Z.to_nat i1 = Some nilNode).
    { apply lookup_replicate. split; [reflexivity | lia]. }
    pose proof (countNonNil_insert emptyChildren _ c1 _ Hl1) as Hcnt1.
    assert (Hl2 : <[Z.to_nat i1 := c1]> emptyChildren !! Z.to_nat i2 = Some nilNode).
    { rewrite list_lookup_insert_ne by lia. apply lookup_replicate.
      split; [reflexivity | lia]. }
    pose proof (countNonNil_insert _ _ c2 _ Hl2) as Hcnt2.
    rewrite (slotFill_not_nil _ _ _ Hc1) in Hcnt1.
    rewrite (slotFill_not_nil _ _ _ Hc2) in Hcnt2.
    unfold emptyChildren in Hcnt1 at 2. rewrite countNonNil_replicate in Hcnt1.
    cbn [isNil] in *. lia.
Qed.

(** The child that [insert] builds for the rest of the key of a leaf or
    of an extension fills the slot of the nibble that comes before it. *)
Lemma split_leaf_slot (dbo : option Database) (k : list Z) (m : nat) (x : Z) (v : list Z)
    (fl : nodeFlag) :
  hexTerm k -> k !! m = Some x ->
  slotFill dbo x (match drop (m + 1) k with
                  | [] => valueNode v
                  | _ => shortNode (drop (m + 1) k) (valueNode v) fl
                  end).
Proof.
  intros Ht Hl. rewrite Nat.add_1_r.
  destruct (hexTerm_lookup _ _ _ Ht Hl) as [_ [[-> ->] | [Hx Hd]]].
  - left. split; reflexivity.
  - right. split; [apply is_nibble_not16, Hx|].
    destruct (drop (S m) k) eqn:E; [exfalso; apply hexTerm_not_nil, Hd|].
    apply canon_leaf, Hd.
Qed.

Lemma split_ext_slot (dbo : option Database) (k : list Z) (m : nat) (x : Z) (c : node)
    (fl : nodeFlag) :
  hexBody k -> k !! m = Some x -> isBranch dbo c -> Canon dbo c ->
  slotFill dbo x (match drop (m + 1) k with
                  | [] => c
                  | _ => shortNode (drop (m + 1) k) c fl
                  end).
Proof.
  intros Hb Hl Hbr Hc. right. split; [eapply is_nibble_not16, hexBody_lookup; eauto|].
  destruct (drop (m + 1) k) eqn:E; [exact Hc|].
  rewrite <- E. apply canon_ext; [apply hexBody_drop, Hb | exact Hbr | exact Hc].
Qed.

(** *** [insert] keeps the canonical form *)

Lemma insert_value_slot (fuel : nat) (t : Trie) (c : node) (prefix v : list Z) (d : bool)
    (nn : node) :
  insert fuel t c prefix [] (valueNode v) = Ok (d, nn) -> nn = valueNode v.
Proof.
  destruct fuel; [discriminate|]. cbn [insert length Nat.eqb].
  destruct c; intros [= _ <-]; reflexivity.
Qed.

Lemma insert_Canon (fuel : nat) : forall t n prefix key v d nn,
  dbCanon (db t) -> CanonRoot (db t) n -> hexTerm key ->
  insert fuel t n prefix key (valueNode v) = Ok (d, nn) ->
  Canon (db t) nn /\ isShortOrFull nn = true /\ (isBranch (db t) n -> isFull nn = true).
Proof.
  induction fuel as [|fuel IH]; intros t n prefix key v d nn Hdb Hn Hkey H; [discriminate|].
  cbn [insert] in H.
  destruct key as [|k0 key']; [exfalso; apply hexTerm_not_nil, Hkey|].
  cbn [length Nat.eqb] in H.
  (* the split of a short node, for a leaf and for an extension alike *)
  assert (Hsplit : forall nKey nVal fl,
    n = shortNode nKey nVal fl ->
    prefixLen (k0 :: key') nKey <> length nKey ->
    (forall m x fl', nKey !! m = Some x ->
       slotFill (db t) x (match drop (m + 1) nKey with
                          | [] => nVal
                          | _ => shortNode (drop (m + 1) nKey) nVal fl'
                          end)) ->
    Canon (db t) nn /\ isShortOrFull nn = true /\ (isBranch (db t) n -> isFull nn = true)).
  { intros nKey nVal fl -> Hm Hslot. cbv zeta in H.
    destruct (Nat.eqb_spec (prefixLen (k0 :: key') nKey) (length nKey)) as [|_];
      [contradiction|].
    inv_bind H as i1 Hi1. inv_bind H as [d1 c1] Hc1. inv_bind H as br1 Hbr1.
    inv_bind H as i2 Hi2. inv_bind H as [d2 c2] Hc2. inv_bind H as br2 Hbr2.
    apply index_Ok in Hi1, Hi2.
    apply setChild_Ok in Hbr1, Hbr2.
    destruct Hbr1 as (Hr1 & Hl1 & ->). destruct Hbr2 as (Hr2 & Hl2 & ->).
    pose proof (prefixLen_differ _ _ _ _ Hi2 Hi1) as Hne.
    apply insert_nil in Hc1, Hc2.
    assert (Hfull : forall fl', Canon (db t)
              (fullNode (<[Z.to_nat i2 := c2]> (<[Z.to_nat i1 := c1]> emptyChildren)) fl')).
    { intros fl'. apply branch_Canon; try assumption; try congruence.
      - subst c1. apply Hslot, Hi1.
      - subst c2. apply split_leaf_slot; assumption. }
    destruct (prefixLen (k0 :: key') nKey =? 0)%nat eqn:Hz; injection H as <- <-.
    - split; [apply Hfull|]. split; [reflexivity|]. intros [].
    - split; [|split; [reflexivity | intros []]].
      apply canon_ext; [|exact I|apply Hfull].
      eapply hexTerm_take_body; [exact Hkey|]. eapply lookup_lt_Some; eauto. }
  destruct Hn as [Hnil | Hc].
  { destruct n; try discriminate. injection H as <- <-.
    split; [apply canon_leaf, Hkey|]. split; [reflexivity | intros []]. }
  inversion Hc as [h | nKey v0 fl Hk | nKey c fl Hk Hb Hcc | ch fl Hlen Hslots Hcount];
    subst.
  - (* hash node *)
    inv_bind H as rn Hres. apply resolveHash_Ok in Hres.
    destruct (Hdb _ _ Hres) as [Hsf Hrn].
    inv_bind H as [dirty nn'] Hins.
    eapply IH in Hins; [|exact Hdb|right; exact Hrn|exact Hkey].
    destruct Hins as (Hnn & Hsfn & Hbr).
    destruct dirty; cbn [negb] in H; injection H as <- <-.
    + split; [exact Hnn|]. split; [exact Hsfn|]. intros Hh. apply Hbr.
      specialize (Hh _ Hres). destruct rn; try discriminate. exact I.
    + split; [exact Hrn|]. split; [exact Hsf|]. intros Hh. apply Hh, Hres.
  - (* leaf *)
    destruct (Nat.eq_dec (prefixLen (k0 :: key') nKey) (length nKey)) as [Hm | Hm].
    + cbv zeta in H. rewrite Hm, Nat.eqb_refl in H.
      pose proof (prefixLen_full_r _ _ Hm) as Hkey'.
      rewrite Hkey' in Hkey. apply hexTerm_app_term in Hkey; [|exact Hk].
      rewrite Hkey in H.
      inv_bind H as [dirty nn'] Hins. apply insert_value_slot in Hins. subst nn'.
      destruct dirty; cbn [negb] in H; injection H as <- <-.
      * split; [apply canon_leaf, Hk|]. split; [reflexivity | intros []].
      * split; [exact Hc|]. split; [reflexivity | intros []].
    + eapply Hsplit; [reflexivity | exact Hm |].
      intros m x fl' Hx. apply split_leaf_slot; assumption.
  - (* extension *)
    destruct (Nat.eq_dec (prefixLen (k0 :: key') nKey) (length nKey)) as [Hm | Hm].
    + cbv zeta in H. rewrite Hm, Nat.eqb_refl in H.
      pose proof (prefixLen_full_r _ _ Hm) as Hkey'.
      rewrite Hkey' in Hkey. apply hexTerm_app_body in Hkey; [|exact Hk].
      inv_bind H as [dirty nn'] Hins.
      eapply IH in Hins; [|exact Hdb|right; exact Hcc|exact Hkey].
      destruct Hins as (Hnn & Hsfn & Hbr). specialize (Hbr Hb).
      destruct dirty; cbn [negb] in H; injection H as <- <-.
      * split; [|split; [reflexivity | intros []]].
        apply canon_ext; [exact Hk | | exact Hnn]. destruct nn'; try discriminate. exact I.
      * split; [exact Hc|]. split; [reflexivity | intros []].
    + eapply Hsplit; [reflexivity | exact Hm |].
      intros m x fl' Hx. apply split_ext_slot; assumption.
  - (* full node *)
    clear Hsplit.
    inv_bind H as k Hk. inv_bind H as c Hch. inv_bind H as [dirty nn'] Hins.
    apply index_Ok in Hk. cbn in Hk. injection Hk as <-.
    apply child_Ok in Hch. destruct Hch as [Hi Hch].
    cbn [drop] in Hins. rewrite drop_0 in Hins.
    assert (Hfill : slotFill (db t) k0 nn').
    { apply hexTerm_cons in Hkey. destruct Hkey as [[-> ->] | [Hx Hkey]].
      - apply insert_value_slot in Hins. subst nn'. left. split; reflexivity.
      - right. split; [apply is_nibble_not16, Hx|].
        eapply IH in Hins; [apply Hins | exact Hdb | | exact Hkey].
        destruct (Hslots _ _ Hch) as [Hnil | [[H16 _] | [_ Hcc]]];
          [left; exact Hnil | | right; exact Hcc].
        unfold is_nibble in Hx. lia. }
    destruct dirty; cbn [negb] in H.
    + inv_bind H as ch' Hset. injection H as <- <-.
      apply setChild_Ok in Hset. destruct Hset as (_ & _ & ->).
      split; [|split; [reflexivity | intros _; reflexivity]].
      eapply full_insert_Canon; eauto.
    + injection H as <- <-. split; [exact Hc|]. split; [reflexivity | intros _; reflexivity].
Qed.

(** *** [delete] keeps the canonical form *)

Lemma delete_value_slot (fuel : nat) (t : Trie) (c : node) (prefix : list Z) (d : bool)
    (nn : node) :
  isNil c = true \/ isValue c = true ->
  delete fuel t c prefix [] = Ok (d, nn) -> nn = nilNode.
Proof.
  destruct fuel; [discriminate|]. cbn [delete].
  intros [Hc | Hc]; destruct c; try discriminate; intros [= _ <-]; reflexivity.
Qed.

Lemma nibble_of_slot (i : Z) : 0 <= i < 17 -> i <> 16 -> is_nibble i.
Proof. unfold is_nibble. lia. Qed.

Lemma delete_Canon (fuel : nat) : forall t n prefix key d nn,
  dbCanon (db t) -> CanonRoot (db t) n -> hexTerm key ->
  delete fuel t n prefix key = Ok (d, nn) ->
  CanonRoot (db t) nn /\ (isBranch (db t) n -> isShortOrFull nn = true).
Proof.
  induction fuel as [|fuel IH]; intros t n prefix key d nn Hdb Hn Hkey H; [discriminate|].
  cbn [delete] in H.
  destruct Hn as [Hnil | Hc].
  { destruct n; try discriminate. injection H as <- <-.
    split; [left; reflexivity | intros []]. }
  inversion Hc as [h | nKey v0 fl Hk | nKey c fl Hk Hb Hcc | ch fl Hlen Hslots Hcount];
    subst.
  - (* hash node *)
    inv_bind H as rn Hres. apply resolveHash_Ok in Hres.
    destruct (Hdb _ _ Hres) as [Hsf Hrn].
    inv_bind H as [dirty nn'] Hdel.
    eapply IH in Hdel; [|exact Hdb|right; exact Hrn|exact Hkey].
    destruct Hdel as (Hnn & Hbr).
    destruct dirty; cbn [negb] in H; injection H as <- <-.
    + split; [exact Hnn|]. intros Hh. apply Hbr.
      specialize (Hh _ Hres). destruct rn; try discriminate. exact I.
    + split; [right; exact Hrn|]. intros _. exact Hsf.
  - (* leaf *)
    cbv zeta in H.
    destruct (Nat.ltb_spec (prefixLen key nKey) (length nKey)) as [Hlt | Hge].
    { injection H as <- <-. split; [right; exact Hc | intros []]. }
    assert (Hm : prefixLen key nKey = length nKey)
      by (pose proof (prefixLen_le_r key nKey); lia).
    pose proof (prefixLen_full_r _ _ Hm) as Hkey'.
    rewrite Hkey' in Hkey. apply hexTerm_app_term in Hkey; [|exact Hk].
    assert (Hlk : length key = length nKey).
    { rewrite Hkey' at 1. rewrite Hkey, app_nil_r. reflexivity. }
    rewrite Hm, Hlk, Nat.eqb_refl in H. injection H as <- <-.
    split; [left; reflexivity | intros []].
  - (* extension *)
    cbv zeta in H.
    destruct (Nat.ltb_spec (prefixLen key nKey) (length nKey)) as [Hlt | Hge].
    { injection H as <- <-. split; [right; exact Hc | intros []]. }
    assert (Hm : prefixLen key nKey = length nKey)
      by (pose proof (prefixLen_le_r key nKey); lia).
    pose proof (prefixLen_full_r _ _ Hm) as Hkey'.
    rewrite Hkey' in Hkey. apply hexTerm_app_body in Hkey; [|exact Hk].
    assert (Hlk : length key <> length nKey).
    { rewrite Hkey' at 1. rewrite length_app.
      destruct (drop (length nKey) key); [exfalso; apply hexTerm_not_nil, Hkey|].
      cbn [length]. lia. }
    destruct (Nat.eqb_spec (prefixLen key nKey) (length key)) as [|_]; [lia|].
    inv_bind H as [dirty c'] Hdel.
    eapply IH in Hdel; [|exact Hdb|right; exact Hcc|exact Hkey].
    destruct Hdel as (Hc' & Hbr). specialize (Hbr Hb).
    destruct dirty; cbn [negb] in H;
      [|injection H as <- <-; split; [right; exact Hc | intros []]].
    destruct Hc' as [Hnil | Hc']; [destruct c'; discriminate|].
    destruct c' as [| | | cKey cVal cfl | cch cfl]; try discriminate;
      injection H as <- <-; (split; [right | intros []]).
    + inversion Hc' as [| ? ? ? Hck | ? ? ? Hck Hcb Hccc |]; subst; unfold concat.
      * apply canon_leaf, hexBody_hexTerm_app; assumption.
      * apply canon_ext; [apply hexBody_app; assumption | assumption | assumption].
    + apply canon_ext; [exact Hk | exact I | exact Hc'].
  - (* full node *)
    destruct key as [|k0 key']; [exfalso; apply hexTerm_not_nil, Hkey|].
    inv_bind H as k Hk. inv_bind H as c Hch. inv_bind H as [dirty nn'] Hdel.
    apply index_Ok in Hk. cbn in Hk. injection Hk as <-.
    apply child_Ok in Hch. destruct Hch as [Hi Hch].
    cbn [drop] in Hdel. rewrite drop_0 in Hdel.
    destruct dirty; cbn [negb] in H;
      [|injection H as <- <-; split; [right; exact Hc | intros _; reflexivity]].
    inv_bind H as ch' Hset.
    apply setChild_Ok in Hset. destruct Hset as (_ & Hlt & ->).
    assert (Hnn : isNil nn' = true \/ (k0 <> 16 /\ Canon (db t) nn')).
    { apply hexTerm_cons in Hkey. destruct Hkey as [[-> ->] | [Hx Hkey]].
      - left. eapply delete_value_slot in Hdel; [subst; reflexivity|].
        destruct (Hslots _ _ Hch) as [? | [[_ ?] | [Hne _]]];
          [left; assumption | right; assumption | exfalso; apply Hne; reflexivity].
      - eapply IH in Hdel; [|exact Hdb| |exact Hkey].
        + destruct Hdel as [[Hnil | Hcn] _]; [left; exact Hnil|].
          right. split; [apply is_nibble_not16, Hx | exact Hcn].
        + destruct (Hslots _ _ Hch) as [Hnil | [[H16 _] | [_ Hcc]]];
            [left; exact Hnil | | right; exact Hcc].
          unfold is_nibble in Hx. lia. }
    destruct (isNil nn') eqn:Hnil; cbn [negb] in H.
    2: { injection H as <- <-. destruct Hnn as [|[Hne Hcn]]; [discriminate|].
         split; [right | intros _; reflexivity].
         eapply full_insert_Canon; [exact Hc | exact Hi | right; auto]. }
    (* the child is gone *)
    pose proof (countNonNil_insert ch _ nn' c Hch) as Hcnt. rewrite Hnil in Hcnt.
    assert (Hslots' : forall j cj, <[Z.to_nat k0 := nn']> ch !! j = Some cj ->
              isNil cj = true \/ (j = 16%nat /\ isValue cj = true) \/
              (j <> 16%nat /\ Canon (db t) cj)).
    { intros j cj Hj. apply list_lookup_insert_Some in Hj.
      destruct Hj as [(_ & <- & _) | [_ Hj]]; [left; exact Hnil | apply Hslots, Hj]. }
    cbv zeta in H.
    destruct (Z.leb_spec 0 (remainingPos (<[Z.to_nat k0:=nn']> ch) 0 (-1))) as [Hpos | Hneg].
    2: { injection H as <- <-. split; [right | intros _; reflexivity].
         apply canon_full; [rewrite length_insert; exact Hlen | exact Hslots' |].
         destruct (remainingPos_count (<[Z.to_nat k0:=nn']> ch) 0 ltac:(lia)) as (H0 & H1 & _).
         destruct (countNonNil (<[Z.to_nat k0:=nn']> ch)) as [|[|m]]; [|lia|lia].
         destruct (isNil c); lia. }
    destruct (remainingPos_single _ 0 ltac:(lia) Hpos) as (j & cj & Heq & Hj & Hnj & _).
    rewrite Heq in H. rewrite Z.add_0_l in H.
    inv_bind H as cp Hcp. apply child_Ok in Hcp. destruct Hcp as [Hjr Hcp].
    rewrite Nat2Z.id in Hcp. assert (cp = cj) by congruence. subst cp.
    inv_bind H as cnode Hcn. rewrite byte_small in H by exact Hjr.
    destruct (Hslots' _ _ Hj) as [Hn | [[-> Hv] | [Hne Hcj]]]; [congruence | |].
    + (* only the value is left *)
      change (negb (Z.of_nat 16 =? 16)) with false in H. injection H as <- <-.
      split; [right | intros _; reflexivity].
      destruct cj; try discriminate. apply canon_leaf.
      exists []. split; [reflexivity | constructor].
    + assert (Hne' : Z.of_nat j <> 16) by lia.
      destruct (Z.eqb_spec (Z.of_nat j) 16) as [|_]; [contradiction|]. cbn [negb] in H, Hcn.
      pose proof (nibble_of_slot _ Hjr Hne') as Hnib.
      assert (Hcnode : isShortOrFull cnode = true /\ Canon (db t) cnode /\
                       (isFull cnode = true -> isBranch (db t) cj)).
      { inversion Hcj; subst; cbn [resolve] in Hcn.
        - apply resolveHash_Ok in Hcn. destruct (Hdb _ _ Hcn) as [Hsf Hcc].
          split; [exact Hsf|]. split; [exact Hcc|]. intros Hf rn Hrn.
          rewrite (resolves_fun _ _ _ _ Hrn Hcn). exact Hf.
        - injection Hcn as <-. split; [reflexivity|]. split; [exact Hcj | discriminate].
        - injection Hcn as <-. split; [reflexivity|]. split; [exact Hcj | discriminate].
        - injection Hcn as <-. split; [reflexivity|]. split; [exact Hcj | intros _; exact I]. }
      destruct Hcnode as (Hsf & Hcc & Hbr).
      destruct cnode as [| | | cKey cVal cfl | cch cfl]; try discriminate;
        injection H as <- <-; (split; [right | intros _; reflexivity]).
      * inversion Hcc as [| ? ? ? Hck | ? ? ? Hck Hcb Hccc |]; subst.
        -- apply canon_leaf. apply hexTerm_cons. right. split; assumption.
        -- apply canon_ext; [constructor; assumption | assumption | assumption].
      * apply canon_ext; [repeat constructor; apply Hnib | apply Hbr; reflexivity | exact Hcj].
Qed.

(** *** [tryGet] keeps the canonical form *)

Lemma tryGet_Canon (fuel : nat) : forall t n key pos val newnode did,
  dbCanon (db t) ->
  tryGet fuel t n key pos = Ok (val, newnode, did) ->
  (isNil n = true -> isNil newnode = true) /\
  (isValue n = true -> isValue newnode = true) /\
  (Canon (db t) n -> Canon (db t) newnode) /\
  (isBranch (db t) n -> isBranch (db t) newnode).
Proof.
  induction fuel as [|fuel IH]; intros t n key pos val newnode did Hdb H; [discriminate|].
  cbn [tryGet] in H.
  destruct n as [| v | h | nKey nVal fl | ch fl].
  - injection H as <- <- <-. repeat split; auto.
  - injection H as <- <- <-. repeat split; auto.
  - inv_bind H as rn Hres. apply resolveHash_Ok in Hres.
    destruct (Hdb _ _ Hres) as [Hsf Hrn].
    inv_bind H as [[val' newnode'] did'] Hget. injection H as <- <- <-.
    eapply IH in Hget; [|exact Hdb]. destruct Hget as (_ & _ & Hc & Hb).
    split; [discriminate|]. split; [discriminate|]. split; [auto|].
    intros Hh. apply Hb. specialize (Hh _ Hres). destruct rn; try discriminate. exact I.
  - destruct (_ || _); [injection H as <- <- <-; repeat split; auto|].
    inv_bind H as [[val' newnode'] did'] Hget. injection H as <- <- <-.
    eapply IH in Hget; [|exact Hdb]. destruct Hget as (_ & Hv & Hc & Hb).
    split; [discriminate|]. split; [discriminate|]. split; [|intros []].
    intros Hcn. destruct did'; [|exact Hcn].
    inversion Hcn as [| ? ? ? Hk | ? ? ? Hk Hbr Hcc |]; subst.
    + specialize (Hv eq_refl). destruct newnode'; try discriminate.
      apply canon_leaf, Hk.
    + apply canon_ext; auto.
  - inv_bind H as k Hk. inv_bind H as c Hch. inv_bind H as [[val' newnode'] did'] Hget.
    apply child_Ok in Hch. destruct Hch as [Hi Hch].
    eapply IH in Hget; [|exact Hdb]. destruct Hget as (Hn & Hv & Hc & Hb).
    destruct did'; [|injection H as <- <- <-; repeat split; auto].
    inv_bind H as ch' Hset. injection H as <- <- <-.
    apply setChild_Ok in Hset. destruct Hset as (_ & Hlt & ->).
    split; [discriminate|]. split; [discriminate|]. split; [|intros _; exact I].
    intros Hcn. inversion Hcn as [| | | ? ? Hlen Hslots Hcount]; subst.
    apply canon_full.
    + rewrite length_insert. exact Hlen.
    + intros j cj Hj. apply list_lookup_insert_Some in Hj.
      destruct Hj as [(<- & <- & _) | [_ Hj]]; [|apply Hslots, Hj].
      destruct (Hslots _ _ Hch) as [? | [[? ?] | [? ?]]]; auto.
    + pose proof (countNonNil_insert ch _ newnode' c Hch) as Hcnt.
      destruct (isNil c) eqn:Hnc.
      * rewrite (Hn eq_refl) in Hcnt. lia.
      * assert (Hnn : isNil newnode' = false).
        { destruct (Hslots _ _ Hch) as [? | [[_ Hcv] | [_ Hcc]]]; [congruence | |].
          - specialize (Hv Hcv). destruct newnode'; try discriminate; reflexivity.
          - eapply Canon_not_nil; eauto. }
        rewrite Hnn in Hcnt. lia.
Qed.

(** *** [hash] keeps the canonical form *)

Lemma countNonNil_isNil (ch : list node) : forall cacs : list node,
  length cacs = length ch ->
  (forall (j : nat) (c cac : node), ch !! j = Some c -> cacs !! j = Some cac ->
     isNil cac = isNil c) ->
  countNonNil cacs = countNonNil ch.
Proof.
  induction ch as [|c ch IH]; intros [|cac cacs] Hlen Hall; try discriminate; [reflexivity|].
  cbn [countNonNil]. rewrite (Hall 0%nat c cac eq_refl eq_refl). f_equal.
  apply IH; [cbn [length] in Hlen; lia|].
  intros j x y Hx Hy. apply (Hall (S j) x y Hx Hy).
Qed.

(** [hash] keeps the canonical form. *)
Lemma hash_Canon (dbo : option Database) (n : node) : forall b hd cached,
  Canon dbo n ->
  hash (newHasher false) n b = Ok (hd, cached) ->
  Canon dbo cached.
Proof.
  induction n as [| v | x | k c fl IH | ch fl IH] using node_induction;
    intros b hd cached Hc H.
  - discriminate.
  - injection H as <- <-. exact Hc.
  - injection H as <- <-. exact Hc.
  - destruct (flagHash fl) as [hn|] eqn:Hfl.
    { cbn [hash] in H. rewrite Hfl in H. injection H as <- <-. exact Hc. }
    destruct (hash_short_inv _ _ _ _ _ _ _ Hfl H) as (ck & cv & cc & Hck & Hcv & Hhd & ->).
    inversion Hc as [| ? v ? Hk | ? ? ? Hk Hb Hcc |]; subst.
    + cbn [isShortOrFull] in Hcv. destruct Hcv as [_ ->]. apply canon_leaf, Hk.
    + destruct c; try contradiction; cbn [isShortOrFull] in Hcv.
      * destruct Hcv as [_ ->]. apply canon_ext; assumption.
      * destruct (hash_cached _ _ _ _ Hcv) as (_ & _ & Hf & _).
        apply canon_ext; [exact Hk | | eapply IH; eauto].
        destruct cc; try discriminate. exact I.
  - destruct (flagHash fl) as [hn|] eqn:Hfl.
    { cbn [hash] in H. rewrite Hfl in H. injection H as <- <-. exact Hc. }
    destruct (hash_full_inv _ _ _ _ _ _ Hfl H) as (cols & cacs & Hlen & Hcs & Hhd & ->).
    destruct (hashChildrenWith_inv _ _ _ _ _ Hcs) as [Hlc Hall].
    inversion Hc as [| | | ? ? Hl17 Hslots Hcount]; subst.
    assert (Hrel : forall (j : nat) (c cac : node), ch !! j = Some c -> cacs !! j = Some cac ->
              isNil cac = isNil c /\
              (cac = c \/
               (j < 16)%nat /\ exists col, hash (newHasher false) c false = Ok (col, cac))).
    { intros j c cac Hj Hjc. destruct (Hall j c Hj) as (col & cac' & _ & Hcac & Hr).
      rewrite Hjc in Hcac. injection Hcac as <-. cbn [Nat.add] in Hr.
      destruct (Nat.ltb_spec j 16).
      - destruct (isNil c) eqn:Hn.
        + destruct Hr as [_ ->]. auto.
        + destruct (hash_cached _ _ _ _ Hr) as (Hnc & _). split; [congruence|]. right. eauto.
      - destruct Hr as [_ ->]. auto. }
    apply canon_full.
    + congruence.
    + intros j cac Hjc.
      assert (Hlt : (j < length ch)%nat) by (apply lookup_lt_Some in Hjc; lia).
      destruct (lookup_lt_is_Some_2 ch j Hlt) as [c Hj].
      destruct (Hrel j c cac Hj Hjc) as [Hn [-> | [Hj16 [col Hh]]]]; [apply Hslots, Hj|].
      destruct (Hslots j c Hj) as [Hnil | [[H16 _] | [Hne Hcc]]].
      * left. congruence.
      * lia.
      * right. right. split; [exact Hne|]. rewrite Forall_lookup in IH. eapply IH; eauto.
    + rewrite (countNonNil_isNil ch cacs Hlc); [exact Hcount|].
      intros j c cac Hj Hjc. apply (Hrel j c cac Hj Hjc).
Qed.

(** [Hash] keeps what the trie needs: the store, the canonical form, the
    consistency of the cached hashes, and no key is added. *)
Lemma Hash_keeps (t th : Trie) (h0 : list Z) :
  Hash t = Ok (h0, th) ->
  db th = db t /\
  (CanonRoot (db t) (root t) -> CanonRoot (db t) (root th)) /\
  (CacheOK true (root t) -> CacheOK true (root th)) /\
  (forall key, Absent (db t) (root t) key -> Absent (db t) (root th) key).
Proof.
  unfold Hash, hashRoot. destruct (isNil (root t)) eqn:Hnil.
  - cbn. intros [= <- <-]. cbn [db root setRoot].
    destruct (root t); try discriminate. repeat split; auto.
  - intros H. inv_bind H as [[hashed cached] t3] Hh. inv_bind Hh as [hashed' cached'] Hh'.
    injection Hh as -> -> <-. destruct hashed; try discriminate. injection H as <- <-.
    cbn [db root setRoot setUnhashed].
    rewrite (hash_hasher _ (newHasher false)) in Hh'.
    destruct (hash_cached _ _ _ _ Hh') as (_ & _ & _ & _ & Hca).
    split; [reflexivity|]. split; [|split; [exact Hca|]].
    + intros [Hn | Hc]; [congruence|]. right. eapply hash_Canon; eauto.
    + intros key Habs v Hp. apply (Habs v). eapply hash_HasPath; eauto.
Qed.

(** *** Every operation keeps the canonical form *)

Lemma applyOp_Canon (fuel : nat) (t t' : Trie) (o : operation) :
  applyOp fuel t o = Ok t' ->
  dbCanon (db t) -> CanonRoot (db t) (root t) -> Forall is_byte (opKey o) ->
  CanonRoot (db t') (root t').
Proof.
  intros H Hdb Hroot Hk. pose proof (applyOp_db _ _ _ _ H) as Hdbeq. rewrite Hdbeq.
  pose proof (keybytesToHex_hexTerm _ Hk) as Hkey.
  destruct o as [key value | key | key |]; cbn [applyOp opKey] in *.
  4: { inv_bind H as [h t1] Hh. injection H as <-. apply (Hash_keeps _ _ _ Hh), Hroot. }
  - unfold TryUpdate in H.
    destruct (negb _); inv_bind H as [d n] Hc; injection H as <-; cbn [root setRoot].
    + eapply insert_Canon in Hc; [right; apply Hc | exact Hdb | exact Hroot | exact Hkey].
    + eapply delete_Canon in Hc; [apply Hc | exact Hdb | exact Hroot | exact Hkey].
  - unfold TryDelete in H. inv_bind H as [d n] Hc; injection H as <-; cbn [root setRoot].
    eapply delete_Canon in Hc; [apply Hc | exact Hdb | exact Hroot | exact Hkey].
  - inv_bind H as [v1 t1] Hg. injection H as <-. unfold Get in Hg.
    destruct (TryGet fuel t key) as [[v' t2]| | |] eqn:E; try discriminate.
    + injection Hg as _ <-. unfold TryGet in E.
      inv_bind E as [[v2 n] did] Hget. injection E as _ <-.
      destruct did; [|exact Hroot]. cbn [root setRoot].
      eapply tryGet_Canon in Hget; [|exact Hdb]. destruct Hget as (Hn & _ & Hc & _).
      destruct Hroot as [Hr | Hr]; [left | right]; auto.
    + injection Hg as _ <-. exact Hroot.
Qed.

Lemma applyOps_Canon (fuel : nat) (ops : list operation) : forall (t t' : Trie),
  applyOps fuel t ops = Ok t' ->
  dbCanon (db t) -> CanonRoot (db t) (root t) ->
  Forall (fun o => Forall is_byte (opKey o)) ops ->
  db t' = db t /\ CanonRoot (db t') (root t').
Proof.
  induction ops as [|o ops IH]; intros t t' H Hdb Hroot Hops.
  - injection H as <-. auto.
  - cbn [applyOps] in H. inv_bind H as t1 Ho. inversion Hops; subst.
    pose proof (applyOp_db _ _ _ _ Ho) as Hdb1.
    pose proof (applyOp_Canon _ _ _ _ Ho Hdb Hroot ltac:(assumption)) as Hr1.
    destruct (IH t1 t' H) as [Hdb' Hr']; [rewrite Hdb1; exact Hdb | exact Hr1 | assumption|].
    split; [congruence | exact Hr'].
Qed.

(** C6. Starting from a trie in canonical form on a store of canonical
    nodes (the empty trie on any store is one), after every sequence of
    operations on byte-string keys that succeed (insertions, deletions, and
    lookups and calls of [Hash] in between), the node graph in memory has
    no short node with a short node as direct child and no full node with
    fewer than two non-nil children. *)
Theorem invariants_after_operations (fuel : nat) (t t' : Trie) (ops : list operation) :
  dbCanon (db t) -> CanonRoot (db t) (root t) ->
  Forall (fun o => Forall is_byte (opKey o)) ops ->
  applyOps fuel t ops = Ok t' ->
  noShortShort (root t') = true /\ noUnderfull (root t') = true.
Proof.
  intros Hdb Hroot Hops H.
  destruct (applyOps_Canon _ _ _ _ H Hdb Hroot Hops) as [_ [Hn | Hc]].
  - apply (Canon_invariants (db t')). right. left. exact Hn.
  - apply (Canon_invariants (db t')). left. exact Hc.
Qed.

Lemma emptyDatabase_dbCanon : dbCanon (Some emptyDatabase).
Proof. intros h n (d & [= <-] & Hd & _). discriminate. Qed.

Lemma invariants_after_operations_witness :
  dbCanon (db emptyTrie) /\ CanonRoot (db emptyTrie) (root emptyTrie) /\
  exists t',
    applyOps 10 emptyTrie
      [OpUpdate (ascii_bytes "do") (ascii_bytes "verb");
       OpUpdate (ascii_bytes "dog") (ascii_bytes "puppy");
       OpUpdate (ascii_bytes "doge") (ascii_bytes "coin");
       OpGet (ascii_bytes "dog");
       OpHash;
       OpUpdate (ascii_bytes "horse") (ascii_bytes "stallion");
       OpDelete (ascii_bytes "dog")] = Ok t' /\
    noShortShort (root t') = true /\ noUnderfull (root t') = true.
Proof.
  split; [exact emptyDatabase_dbCanon|]. split; [left; reflexivity|].
  eexists. split; [vm_compute; reflexivity|].
  eapply (invariants_after_operations 10 emptyTrie _
            [OpUpdate (ascii_bytes "do") (ascii_bytes "verb");
             OpUpdate (ascii_bytes "dog") (ascii_bytes "puppy");
             OpUpdate (ascii_bytes "doge") (ascii_bytes "coin");
             OpGet (ascii_bytes "dog");
             OpHash;
             OpUpdate (ascii_bytes "horse") (ascii_bytes "stallion");
             OpDelete (ascii_bytes "dog")]).
  - exact emptyDatabase_dbCanon.
  - left. reflexivity.
  - repeat constructor; vm_compute; congruence.
  - vm_compute. reflexivity.
Defined.

(** ** Insertion followed by deletion *)

Lemma Sim_nil_inv (dbo : option Database) (n : node) :
  Sim dbo nilNode n -> n = nilNode.
Proof.
  intros H. remember nilNode as n' eqn:E.
  induction H as [| | |h rn n' Hr Hs IH]; try discriminate; try reflexivity.
  subst n'. specialize (IH eq_refl). subst rn.
  destruct Hr as (d & _ & _ & Hne). congruence.
Qed.

Lemma Sim_of_nil (dbo : option Database) (n' : node) : Sim dbo n' nilNode -> n' = nilNode.
Proof. inversion 1; reflexivity. Qed.

Lemma Sim_of_value (dbo : option Database) (n' : node) (v : list Z) :
  Sim dbo n' (valueNode v) -> n' = valueNode v.
Proof. inversion 1; reflexivity. Qed.

(** A node similar to the child of an extension is a full node or the
    same reference. *)
Lemma Sim_branch (dbo : option Database) (n' n : node) :
  Sim dbo n' n -> isBranch dbo n ->
  isBranch dbo n' /\ isShort n' = false /\ isNil n' = false.
Proof.
  induction 1 as [n | | |h rn n' Hr Hs IH]; cbn [isBranch isShort isNil]; intros Hb;
    try contradiction; try (repeat split; auto; fail).
  - destruct n; try contradiction; repeat split; auto.
  - apply IH. specialize (Hb _ Hr). destruct rn; try discriminate. exact I.
Qed.

Lemma Absent_short (dbo : option Database) (k rest : list Z) (c : node) (fl : nodeFlag) :
  Absent dbo (shortNode k c fl) (k ++ rest) -> Absent dbo c rest.
Proof. intros H v Hp. apply (H v). apply path_short, Hp. Qed.

Lemma Absent_full (dbo : option Database) (ch : list node) (fl : nodeFlag) (i : Z) (c : node)
    (rest : list Z) :
  0 <= i < 17 -> ch !! Z.to_nat i = Some c ->
  Absent dbo (fullNode ch fl) (i :: rest) -> Absent dbo c rest.
Proof. intros Hi Hc H v Hp. apply (H v). eapply path_full; eauto. Qed.

Lemma Absent_hash (dbo : option Database) (h : list Z) (rn : node) (key : list Z) :
  resolves dbo h rn -> Absent dbo (hashNode h) key -> Absent dbo rn key.
Proof. intros Hr H v Hp. apply (H v). eapply path_hash; eauto. Qed.

Lemma prefixLen_take_self (key : list Z) (m : nat) :
  (m <= length key)%nat -> prefixLen key (take m key) = m.
Proof.
  revert m. induction key as [|x key IH]; intros [|m] Hm; cbn in *; try lia; try reflexivity.
  rewrite Z.eqb_refl. f_equal. apply IH. lia.
Qed.

(** [delete] on the node [insert] made for a fresh key. *)
Lemma delete_fresh (fuel : nat) (t : Trie) (prefix key : list Z) (v : list Z) (d : bool)
    (nn : node) (fl : nodeFlag) :
  delete fuel t (match key with
                 | [] => valueNode v
                 | _ => shortNode key (valueNode v) fl
                 end) prefix key = Ok (d, nn) ->
  d = true /\ nn = nilNode.
Proof.
  destruct fuel; [discriminate|]. destruct key as [|x key]; cbn [delete].
  - intros [= <- <-]. auto.
  - cbv zeta. rewrite prefixLen_refl, Nat.ltb_irrefl, Nat.eqb_refl.
    intros [= <- <-]. auto.
Qed.

Lemma remainingPos_one (n : nat) : forall (i : nat) (c : node) base,
  isNil c = false -> (i < n)%nat ->
  remainingPos (<[i := c]> (replicate n nilNode)) base (-1) = base + Z.of_nat i.
Proof.
  induction n as [|n IH]; intros i c base Hc Hi; [lia|].
  destruct i as [|i]; cbn [replicate].
  - change (<[0%nat := c]> (nilNode :: replicate n nilNode)) with (c :: replicate n nilNode).
    cbn [remainingPos]. rewrite Hc. change (-1 =? -1) with true. cbv iota.
    assert (Hall : forall m b p, remainingPos (replicate m nilNode) b p = p).
    { clear. induction m; intros; cbn; auto. }
    rewrite Hall. lia.
  - change (<[S i := c]> (nilNode :: replicate n nilNode))
      with (nilNode :: <[i := c]> (replicate n nilNode)).
    cbn [remainingPos isNil]. rewrite IH by (auto; lia). lia.
Qed.

(** Deleting the fresh key from the full node of a split leaves the other
    child, which is made a short node again. *)
Lemma delete_split_full (fuel : nat) (t : Trie) (prefix key2 rest1 : list Z) (i1 i2 : Z)
    (nVal : node) (v : list Z) (fl1 fl2 flF : nodeFlag) (d : bool) (nn : node) :
  0 <= i1 < 17 -> 0 <= i2 < 17 -> i1 <> i2 ->
  isNil nVal = false ->
  (i1 = 16 -> rest1 = []) ->
  (rest1 = [] -> i1 = 16 \/ isBranch (db t) nVal) ->
  delete fuel t
    (fullNode (<[Z.to_nat i2 := match key2 with
                                | [] => valueNode v
                                | _ => shortNode key2 (valueNode v) fl2
                                end]>
               (<[Z.to_nat i1 := match rest1 with
                                 | [] => nVal
                                 | _ => shortNode rest1 nVal fl1
                                 end]> emptyChildren)) flF)
    prefix (i2 :: key2) = Ok (d, nn) ->
  d = true /\ nn = shortNode (i1 :: rest1) nVal (newFlag t).
Proof.
  intros H1 H2 Hne Hnil H16 Hbr H.
  set (c1 := match rest1 with [] => nVal | _ => shortNode rest1 nVal fl1 end) in *.
  set (c2 := match key2 with [] => valueNode v | _ => shortNode key2 (valueNode v) fl2 end) in *.
  assert (Hc1 : isNil c1 = false) by (subst c1; destruct rest1; auto).
  destruct fuel as [|fuel]; [discriminate|]. cbn [delete] in H.
  inv_bind H as k Hk. cbn in Hk. injection Hk as <-.
  inv_bind H as c Hc. apply child_Ok in Hc. destruct Hc as [_ Hc].
  rewrite list_lookup_insert_eq in Hc by (rewrite length_insert, emptyChildren_length; lia).
  injection Hc as <-.
  inv_bind H as [dirty nn'] Hdel. cbn [drop] in Hdel. rewrite drop_0 in Hdel.
  apply delete_fresh in Hdel. destruct Hdel as [-> ->]. cbn [negb] in H.
  inv_bind H as ch' Hset. apply setChild_Ok in Hset. destruct Hset as (_ & _ & ->).
  cbn [isNil negb] in H. cbv zeta in H.
  rewrite list_insert_insert_eq in H.
  rewrite (list_insert_id _ (Z.to_nat i2) nilNode) in H.
  2: { rewrite list_lookup_insert_ne by lia. apply lookup_replicate.
       split; [reflexivity | lia]. }
  unfold emptyChildren in H. rewrite remainingPos_one in H by (auto; lia).
  rewrite Z.add_0_l, Z2Nat.id in H by lia.
  destruct (Z.leb_spec 0 i1) as [_|]; [|lia].
  inv_bind H as cp Hcp. apply child_Ok in Hcp. destruct Hcp as [_ Hcp].
  rewrite list_lookup_insert_eq in Hcp by (rewrite length_replicate; lia).
  injection Hcp as <-.
  inv_bind H as cnode Hcn. rewrite byte_small in H by exact H1.
  destruct (Z.eqb_spec i1 16) as [E16 | N16]; cbn [negb] in H, Hcn.
  - subst c1. rewrite (H16 E16) in *. injection H as <- <-. auto.
  - subst c1. destruct rest1 as [|r rest1].
    + destruct (Hbr eq_refl) as [|Hb]; [contradiction|].
      destruct nVal; try contradiction; cbn [resolve] in Hcn.
      * apply resolveHash_Ok in Hcn. specialize (Hb _ Hcn).
        destruct cnode; try discriminate. injection H as <- <-. auto.
      * injection Hcn as <-. injection H as <- <-. auto.
    + cbn [resolve] in Hcn. injection Hcn as <-. injection H as <- <-. auto.
Qed.

(** Deleting the fresh key from the nodes of a split gives the short node
    back. *)
Lemma delete_split (fuel : nat) (t : Trie) (prefix key nKey : list Z) (i1 i2 : Z)
    (nVal : node) (v : list Z) (fl1 fl2 flF flS : nodeFlag) (d : bool) (nn : node) :
  nKey !! prefixLen key nKey = Some i1 -> key !! prefixLen key nKey = Some i2 ->
  0 <= i1 < 17 -> 0 <= i2 < 17 ->
  isNil nVal = false ->
  (i1 = 16 -> drop (prefixLen key nKey + 1) nKey = []) ->
  (drop (prefixLen key nKey + 1) nKey = [] -> i1 = 16 \/ isBranch (db t) nVal) ->
  delete fuel t
    (let branch :=
       fullNode (<[Z.to_nat i2 := match drop (prefixLen key nKey + 1) key with
                                   | [] => valueNode v
                                   | _ => shortNode (drop (prefixLen key nKey + 1) key)
                                                    (valueNode v) fl2
                                   end]>
                 (<[Z.to_nat i1 := match drop (prefixLen key nKey + 1) nKey with
                                   | [] => nVal
                                   | _ => shortNode (drop (prefixLen key nKey + 1) nKey)
                                                    nVal fl1
                                   end]> emptyChildren)) flF in
     if (prefixLen key nKey =? 0)%nat then branch
     else shortNode (take (prefixLen key nKey) key) branch flS)
    prefix key = Ok (d, nn) ->
  d = true /\ nn = shortNode nKey nVal (newFlag t).
Proof.
  intros Hi1 Hi2 H1 H2 Hnil H16 Hbr H. cbv zeta in H.
  pose proof (prefixLen_differ _ _ _ _ Hi2 Hi1) as Hne.
  pose proof (key_split _ _ _ Hi1) as HnKey.
  pose proof (key_split _ _ _ Hi2) as Hkey.
  pose proof (prefixLen_take key nKey) as Htake.
  set (m := prefixLen key nKey) in *.
  rewrite Nat.add_1_r in *.
  remember (drop (S m) key) as key2 eqn:Ek2.
  remember (drop (S m) nKey) as rest1 eqn:Er1.
  match type of H with delete _ _ ?X _ _ = _ => set (X0 := X) in H end.
  rewrite Hkey in H. subst X0.
  destruct (Nat.eqb_spec m 0) as [Hm | Hm].
  - rewrite Hm in *. cbn [take app] in *.
    apply delete_split_full in H; try assumption; try lia; try congruence.
    rewrite take_0 in HnKey. cbn [app] in HnKey. rewrite HnKey. exact H.
  - destruct fuel as [|fuel]; [discriminate|]. cbn [delete] in H.
    assert (Hlt : (m < length key)%nat) by (eapply lookup_lt_Some; eauto).
    rewrite <- Hkey in H.
    rewrite prefixLen_take_self in H by lia.
    rewrite length_take, Nat.min_l in H by lia.
    rewrite Nat.ltb_irrefl in H.
    destruct (Nat.eqb_spec m (length key)) as [|_]; [lia|].
    inv_bind H as [dirty c] Hdel.
    rewrite Hkey in Hdel at 2. rewrite drop_app_length' in Hdel by (rewrite length_take; lia).
    apply delete_split_full in Hdel; try assumption; try lia; try congruence.
    destruct Hdel as [-> ->]. cbn [negb] in H. injection H as <- <-.
    split; [reflexivity|]. unfold concat. rewrite Htake. congruence.
Qed.

Lemma Sim_not_nil (dbo : option Database) (n' n : node) :
  Sim dbo n' n -> isNil n = false -> isNil n' = false.
Proof.
  induction 1 as [| | |h rn n' Hr Hs IH]; cbn [isNil]; intros Hn; try congruence.
  apply IH. destruct Hr as (d & _ & _ & Hne). destruct rn; cbn; congruence.
Qed.

Lemma Sim_full_insert (dbo : option Database) (ch : list node) (fl fl' : nodeFlag) (i : nat)
    (c' c : node) :
  flagHash fl' = None -> ch !! i = Some c -> Sim dbo c' c ->
  Sim dbo (fullNode (<[i := c']> ch) fl') (fullNode ch fl).
Proof.
  intros Hfl Hc Hs. apply sim_full; [exact Hfl|].
  rewrite <- (list_insert_id ch i c Hc) at 2.
  apply Forall2_insert; [|exact Hs].
  apply Forall_Forall2_diag, Forall_forall. intros; apply sim_refl.
Qed.

(** Inserting a key that is not in the trie and deleting it again gives
    the node back, up to the flags and the references resolved on the
    way. *)
Lemma insert_delete_Sim (fuel : nat) : forall t n prefix key v d nn,
  dbCanon (db t) -> CanonRoot (db t) n -> hexTerm key -> Absent (db t) n key ->
  insert fuel t n prefix key (valueNode v) = Ok (d, nn) ->
  d = true /\
  forall fuel' prefix' d' nn', delete fuel' t nn prefix' key = Ok (d', nn') ->
    d' = true /\ Sim (db t) nn' n.
Proof.
  induction fuel as [|fuel IH]; intros t n prefix key v d nn Hdb Hn Hkey Habs H;
    [discriminate|].
  cbn [insert] in H.
  destruct key as [|k0 key'] eqn:Ekey; [exfalso; apply hexTerm_not_nil, Hkey|].
  rewrite <- Ekey in *.
  assert (Hlen0 : (length key =? 0)%nat = false) by (rewrite Ekey; reflexivity).
  rewrite Hlen0 in H.
  (* the split of a short node, for a leaf and for an extension alike *)
  assert (Hsplit : forall nKey nVal fl,
    n = shortNode nKey nVal fl ->
    prefixLen key nKey <> length nKey ->
    isNil nVal = false ->
    (forall i1, nKey !! prefixLen key nKey = Some i1 ->
       0 <= i1 < 17 /\
       (i1 = 16 -> drop (prefixLen key nKey + 1) nKey = []) /\
       (drop (prefixLen key nKey + 1) nKey = [] -> i1 = 16 \/ isBranch (db t) nVal)) ->
    d = true /\
    forall fuel' prefix' d' nn', delete fuel' t nn prefix' key = Ok (d', nn') ->
      d' = true /\ Sim (db t) nn' n).
  { intros nKey nVal fl -> Hm Hnil Hslot. cbv zeta in H.
    destruct (Nat.eqb_spec (prefixLen key nKey) (length nKey)) as [|_];
      [contradiction|].
    inv_bind H as i1 Hi1. inv_bind H as [d1 c1] Hc1. inv_bind H as br1 Hbr1.
    inv_bind H as i2 Hi2. inv_bind H as [d2 c2] Hc2. inv_bind H as br2 Hbr2.
    apply index_Ok in Hi1, Hi2.
    apply setChild_Ok in Hbr1, Hbr2.
    destruct Hbr1 as (Hr1 & Hl1 & ->). destruct Hbr2 as (Hr2 & Hl2 & ->).
    apply insert_nil in Hc1, Hc2. subst c1 c2.
    destruct (Hslot _ Hi1) as (_ & H16 & Hbr).
    assert (Hd : d = true) by (destruct (prefixLen key nKey =? 0)%nat; congruence).
    split; [exact Hd|]. intros fuel' prefix' d' nn' Hdel.
    assert (Hnn : nn = (let branch :=
       fullNode (<[Z.to_nat i2 := match drop (prefixLen key nKey + 1) key with
                                   | [] => valueNode v
                                   | _ => shortNode (drop (prefixLen key nKey + 1) key)
                                                    (valueNode v) (newFlag t)
                                   end]>
                 (<[Z.to_nat i1 := match drop (prefixLen key nKey + 1) nKey with
                                   | [] => nVal
                                   | _ => shortNode (drop (prefixLen key nKey + 1) nKey)
                                                    nVal (newFlag t)
                                   end]> emptyChildren)) (newFlag t) in
     if (prefixLen key nKey =? 0)%nat then branch
     else shortNode (take (prefixLen key nKey) key) branch (newFlag t))).
    { cbv zeta. destruct (prefixLen key nKey =? 0)%nat; congruence. }
    rewrite Hnn in Hdel. apply delete_split in Hdel; try assumption.
    destruct Hdel as [-> ->]. split; [reflexivity|].
    apply sim_short; [reflexivity | apply sim_refl]. }
  destruct Hn as [Hnil | Hc].
  { destruct n; try discriminate. rewrite Ekey in H. injection H as <- <-.
    split; [reflexivity|]. intros fuel' prefix' d' nn' Hdel.
    pose proof (delete_fresh fuel' t prefix' (k0 :: key') v d' nn' (newFlag t)) as Hf.
    cbv iota in Hf. rewrite <- Ekey in Hf, Hdel.
    destruct (Hf Hdel) as [-> ->]. split; [reflexivity | constructor]. }
  inversion Hc as [h | nKey v0 fl Hk | nKey c fl Hk Hb Hcc | ch fl Hlen Hslots Hcount];
    subst n.
  - (* hash node *)
    clear Hsplit.
    assert (H' : (rn ← resolveHash t h prefix;
                  '(dirty, nn) ← insert fuel t rn prefix key (valueNode v);
                  if negb (dirty : bool) then Ok (false, rn) else Ok (true, nn))
                 = Ok (d, nn)) by (rewrite Ekey in *; exact H).
    clear H. rename H' into H.
    inv_bind H as rn Hres. apply resolveHash_Ok in Hres.
    destruct (Hdb _ _ Hres) as [Hsf Hrn].
    inv_bind H as [dirty nn1] Hins.
    eapply IH in Hins; [|exact Hdb|right; exact Hrn|exact Hkey|
                        eapply Absent_hash; eauto].
    destruct Hins as [-> Hdel]. cbn [negb] in H. injection H as <- <-.
    split; [reflexivity|]. intros fuel' prefix' d' nn' Hd.
    destruct (Hdel _ _ _ _ Hd) as [-> Hs]. split; [reflexivity|].
    eapply sim_resolved; eauto.
  - (* leaf *)
    destruct (Nat.eq_dec (prefixLen key nKey) (length nKey)) as [Hm | Hm].
    + exfalso. pose proof (prefixLen_full_r _ _ Hm) as Hkey'.
      rewrite Hkey' in Hkey. apply hexTerm_app_term in Hkey; [|exact Hk].
      rewrite Hkey, app_nil_r in Hkey'. apply (Habs v0). rewrite Hkey'.
      apply HasPath_nil_insert.
    + eapply Hsplit; [rewrite Ekey in *; reflexivity | exact Hm | reflexivity |].
      intros i1 Hi1.
      destruct (hexTerm_lookup _ _ _ Hk Hi1) as [_ [[-> Hd] | [Hx Hd]]].
      * rewrite Nat.add_1_r. split; [lia|]. split; auto.
      * rewrite Nat.add_1_r. unfold is_nibble in Hx. split; [lia|].
        split; [lia|]. intros E. rewrite E in Hd. exfalso. apply hexTerm_not_nil, Hd.
  - (* extension *)
    destruct (Nat.eq_dec (prefixLen key nKey) (length nKey)) as [Hm | Hm].
    + clear Hsplit.
      assert (H' : ('(dirty, nn) ← insert fuel t c (prefix ++ take (prefixLen key nKey) key)
                                     (drop (prefixLen key nKey) key) (valueNode v);
                    if negb (dirty : bool) then Ok (false, shortNode nKey c fl)
                    else Ok (true, shortNode nKey nn (newFlag t))) = Ok (d, nn)).
      { rewrite Ekey in *. cbv zeta in H. rewrite Hm, Nat.eqb_refl in H.
        rewrite Hm. exact H. }
      clear H. rename H' into H. rewrite Hm in H.
      pose proof (prefixLen_full_r _ _ Hm) as Hkey'.
      assert (Hrest : hexTerm (drop (length nKey) key)).
      { rewrite Hkey' in Hkey. apply hexTerm_app_body in Hkey; [exact Hkey | exact Hk]. }
      inv_bind H as [dirty nn1] Hins.
      eapply IH in Hins; [|exact Hdb|right; exact Hcc|exact Hrest|
                          apply (Absent_short _ nKey _ _ fl); rewrite <- Hkey'; exact Habs].
      destruct Hins as [-> Hdel]. cbn [negb] in H. injection H as <- <-.
      split; [reflexivity|]. intros fuel' prefix' d' nn' Hd.
      destruct fuel' as [|fuel']; [discriminate|]. cbn [delete] in Hd. cbv zeta in Hd.
      rewrite Hm, Nat.ltb_irrefl in Hd.
      assert (Hlk : length key <> length nKey).
      { rewrite Hkey' at 1. rewrite length_app.
        destruct (drop (length nKey) key); [exfalso; apply hexTerm_not_nil, Hrest|].
        cbn [length]. lia. }
      destruct (Nat.eqb_spec (length nKey) (length key)) as [|_]; [lia|].
      inv_bind Hd as [dirty c'] Hd'.
      destruct (Hdel _ _ _ _ Hd') as [-> Hs]. cbn [negb] in Hd.
      destruct (Sim_branch _ _ _ Hs Hb) as (_ & Hns & _).
      destruct c'; try discriminate; injection Hd as <- <-;
        (split; [reflexivity | apply sim_short; [reflexivity | exact Hs]]).
    + eapply Hsplit; [rewrite Ekey in *; reflexivity | exact Hm |
                      eapply isBranch_not_nil; eauto |].
      intros i1 Hi1. pose proof (hexBody_lookup _ _ _ Hk Hi1) as Hx.
      unfold is_nibble in Hx. split; [lia|]. split; [lia|]. intros _. right. exact Hb.
  - (* full node *)
    clear Hsplit. rewrite Ekey in H, Habs, Hkey.
    inv_bind H as k Hk. inv_bind H as c Hch. inv_bind H as [dirty nn1] Hins.
    apply index_Ok in Hk. cbn in Hk. injection Hk as <-.
    apply child_Ok in Hch. destruct Hch as [Hi Hch].
    cbn [drop] in Hins. rewrite drop_0 in Hins.
    pose proof (Absent_full _ _ _ _ _ _ Hi Hch Habs) as Habs'.
    assert (Hrec : dirty = true /\
      forall fuel' prefix' d' nn', delete fuel' t nn1 prefix' key' = Ok (d', nn') ->
        d' = true /\ Sim (db t) nn' c).
    { apply hexTerm_cons in Hkey. destruct Hkey as [[-> ->] | [Hx Hkey]].
      - destruct (Hslots _ _ Hch) as [Hnil | [[_ Hv] | [Hne _]]]; [| |lia].
        + destruct c; try discriminate.
          destruct fuel; [discriminate|]. cbn in Hins. injection Hins as <- <-.
          split; [reflexivity|]. intros fuel' prefix' d' nn' Hd.
          destruct fuel'; [discriminate|]. cbn in Hd. injection Hd as <- <-.
          split; [reflexivity | constructor].
        + destruct c; try discriminate. exfalso. apply (Habs' v0). constructor.
      - eapply IH; [exact Hdb | | exact Hkey | exact Habs' | exact Hins].
        destruct (Hslots _ _ Hch) as [Hnil | [[H16 _] | [_ Hcc]]];
          [left; exact Hnil | | right; exact Hcc].
        unfold is_nibble in Hx. lia. }
    destruct Hrec as [-> Hdel]. cbn [negb] in H.
    inv_bind H as ch' Hset. injection H as <- <-.
    apply setChild_Ok in Hset. destruct Hset as (_ & Hlt & ->).
    split; [reflexivity|]. intros fuel' prefix' d' nn' Hd. subst key.
    destruct fuel' as [|fuel']; [discriminate|]. cbn [delete] in Hd.
    inv_bind Hd as k Hk. cbn in Hk. injection Hk as <-.
    inv_bind Hd as c1 Hc1. apply child_Ok in Hc1. destruct Hc1 as [_ Hc1].
    rewrite list_lookup_insert_eq in Hc1 by lia. injection Hc1 as <-.
    inv_bind Hd as [dirty c2] Hd'. cbn [drop] in Hd'. rewrite drop_0 in Hd'.
    destruct (Hdel _ _ _ _ Hd') as [-> Hs]. cbn [negb] in Hd.
    inv_bind Hd as ch2 Hset. apply setChild_Ok in Hset. destruct Hset as (_ & _ & ->).
    rewrite list_insert_insert_eq in Hd.
    destruct (isNil c2) eqn:Hc2; cbn [negb] in Hd.
    + destruct c2; try discriminate. apply Sim_nil_inv in Hs. subst c.
      rewrite (list_insert_id _ _ _ Hch) in Hd. cbv zeta in Hd.
      destruct (remainingPos_count ch 0 ltac:(lia)) as (_ & _ & Hpos).
      rewrite (Hpos Hcount) in Hd. cbn in Hd. injection Hd as <- <-.
      split; [reflexivity|]. apply sim_full; [reflexivity|].
      apply Forall_Forall2_diag, Forall_forall. intros; apply sim_refl.
    + injection Hd as <- <-. split; [reflexivity|].
      apply (Sim_full_insert _ _ _ _ _ _ c); [reflexivity | assumption | assumption].
Qed.

(** ** The hash after insertion and deletion *)

(** *** Results that stand for the same node *)

Lemma sameDigest_refl (a : node) : sameDigest a a.
Proof. split; auto. Qed.

Lemma sameDigest_hash (a : node) (h : list Z) : sameDigest a (hashNode h) -> a = hashNode h.
Proof. intros [_ H]. apply H. cbn. apply orb_true_r. Qed.

Lemma toHash_sameDigest (h : hasher) (a b : node) (force : bool) :
  encode a = encode b -> isHash a = false -> isHash b = false ->
  sameDigest (shortnodeToHash h a force) (shortnodeToHash h b force).
Proof.
  intros He Ha Hb. unfold shortnodeToHash. rewrite He.
  destruct (_ && _); [|apply sameDigest_refl].
  split; [exact He|]. rewrite Ha, Hb. discriminate.
Qed.

(** A node that is hashed without [force] is hashed the same with it. *)
Lemma toHash_force (h : hasher) (a : node) (x : list Z) :
  isHash a = false ->
  shortnodeToHash h a false = hashNode x -> shortnodeToHash h a true = hashNode x.
Proof.
  unfold shortnodeToHash. intros Ha. destruct (length (encode a) <? 32)%nat; cbn [andb negb].
  - intros ->. discriminate.
  - auto.
Qed.

Lemma digest_force (n : node) (x : list Z) :
  digest false n = Ok (hashNode x) -> digest true n = Ok (hashNode x).
Proof.
  destruct n as [| v | hn | k c fl | ch fl]; try (intros H; exact H).
  - rewrite !digest_short. destruct (flagHash fl); [auto|].
    destruct (hexToCompact k); [|discriminate].
    destruct (digestShortChild c); cbn [mbind result_bind]; try discriminate.
    intros [= H]. f_equal. apply toHash_force; [reflexivity | exact H].
  - rewrite !digest_full. destruct (flagHash fl); [auto|].
    destruct (length ch <? 16)%nat; [discriminate|].
    destruct (digestChildren 0 ch); cbn [mbind result_bind]; try discriminate.
    intros [= H]. f_equal. apply toHash_force; [reflexivity | exact H].
Qed.

Lemma CacheOK_force (n : node) : CacheOK false n -> CacheOK true n.
Proof.
  inversion 1; subst; constructor; try assumption; intros hn Hhn; apply digest_force; auto.
Qed.

Lemma setFlagHash_None_short (k : list Z) (c : node) (fl : nodeFlag) :
  flagHash fl = None -> setFlagHash (shortNode k c fl) None = shortNode k c fl.
Proof. destruct fl; cbn. intros ->. reflexivity. Qed.

Lemma setFlagHash_None_full (ch : list node) (fl : nodeFlag) :
  flagHash fl = None -> setFlagHash (fullNode ch fl) None = fullNode ch fl.
Proof. destruct fl; cbn. intros ->. reflexivity. Qed.

(** With consistent caches the cached hash is the one computed. *)
Lemma digest_uncached (b : bool) (n : node) (hd : node) :
  CacheOK b n -> digest b n = Ok hd -> digest b (setFlagHash n None) = Ok hd.
Proof.
  intros Hc Hd. inversion Hc as [| | |? k c fl Hcc Hfl|? ch fl Hcc Hfl]; subst; try exact Hd.
  - destruct (flagHash fl) as [hn|] eqn:E.
    + rewrite digest_short, E in Hd. injection Hd as <-. apply Hfl. reflexivity.
    + rewrite setFlagHash_None_short by exact E. exact Hd.
  - destruct (flagHash fl) as [hn|] eqn:E.
    + rewrite digest_full, E in Hd. injection Hd as <-. apply Hfl. reflexivity.
    + rewrite setFlagHash_None_full by exact E. exact Hd.
Qed.

(** *** Induction on [Sim] *)

Section Sim_induction.
Variable dbo : option Database.
Variable P : node -> node -> Prop.
Hypothesis Hrefl : forall n, P n n.
Hypothesis Hshort : forall k c' c fl' fl,
  flagHash fl' = None -> Sim dbo c' c -> P c' c ->
  P (shortNode k c' fl') (shortNode k c fl).
Hypothesis Hfull : forall ch' ch fl' fl,
  flagHash fl' = None -> Forall2 (fun a b => Sim dbo a b /\ P a b) ch' ch ->
  P (fullNode ch' fl') (fullNode ch fl).
Hypothesis Hresolved : forall h rn n',
  resolves dbo h rn -> Sim dbo n' rn -> P n' rn -> P n' (hashNode h).

Fixpoint Sim_induction (n' n : node) (H : Sim dbo n' n) {struct H} : P n' n :=
  match H with
  | sim_refl _ n => Hrefl n
  | sim_short _ k c' c fl' fl Hfl Hc => Hshort k c' c fl' fl Hfl Hc (Sim_induction c' c Hc)
  | sim_full _ ch' ch fl' fl Hfl Hch =>
      Hfull ch' ch fl' fl Hfl
        ((fix children (l' l : list node) (HF : Forall2 (Sim dbo) l' l) {struct HF}
            : Forall2 (fun a b => Sim dbo a b /\ P a b) l' l :=
            match HF with
            | @List.Forall2_nil _ _ _ => @List.Forall2_nil _ _ _
            | @List.Forall2_cons _ _ _ a b l1 l2 Hab HF' =>
                @List.Forall2_cons _ _ _ a b l1 l2 (conj Hab (Sim_induction a b Hab))
                                   (children l1 l2 HF')
            end) ch' ch Hch)
  | sim_resolved _ h rn n' Hr Hs => Hresolved h rn n' Hr Hs (Sim_induction n' rn Hs)
  end.
End Sim_induction.

(** *** Consistent hashes *)

Lemma CacheOK_any (b : bool) (n : node) : CacheOK false n -> CacheOK b n.
Proof. destruct b; [apply CacheOK_force | auto]. Qed.

Lemma RefsOK_any (dbo : option Database) (b : bool) (n : node) :
  RefsOK dbo false n -> RefsOK dbo b n.
Proof.
  destruct b; [|auto]. intros H. remember false as f eqn:Hf.
  induction H as [| |f h Hc Hd Hr IH| |]; subst; try (constructor; assumption).
  apply refs_hash.
  - intros rn Hres. apply CacheOK_force, Hc, Hres.
  - intros rn Hres. apply digest_force, Hd, Hres.
  - intros rn Hres. apply IH; auto.
Qed.

Lemma HashOK_nil (dbo : option Database) (b : bool) : HashOK dbo b nilNode.
Proof. split; constructor. Qed.

Lemma HashOK_value (dbo : option Database) (b : bool) (v : list Z) :
  HashOK dbo b (valueNode v).
Proof. split; constructor. Qed.

Lemma HashOK_any (dbo : option Database) (b : bool) (n : node) :
  HashOK dbo false n -> HashOK dbo b n.
Proof. intros [Hc Hr]. split; [apply CacheOK_any, Hc | apply RefsOK_any, Hr]. Qed.

Lemma HashOK_Forall (dbo : option Database) (ch : list node) :
  Forall (HashOK dbo false) ch <->
  Forall (CacheOK false) ch /\ Forall (RefsOK dbo false) ch.
Proof. unfold HashOK. apply Forall_and. Qed.

Lemma HashOK_short (dbo : option Database) (b : bool) (k : list Z) (c : node)
    (fl : nodeFlag) :
  HashOK dbo false c ->
  (forall hn, flagHash fl = Some hn ->
     digest b (setFlagHash (shortNode k c fl) None) = Ok (hashNode hn)) ->
  HashOK dbo b (shortNode k c fl).
Proof. intros [Hc Hr] Hfl. split; constructor; assumption. Qed.

Lemma HashOK_full (dbo : option Database) (b : bool) (ch : list node) (fl : nodeFlag) :
  Forall (HashOK dbo false) ch ->
  (forall hn, flagHash fl = Some hn ->
     digest b (setFlagHash (fullNode ch fl) None) = Ok (hashNode hn)) ->
  HashOK dbo b (fullNode ch fl).
Proof. intros [Hc Hr]%HashOK_Forall Hfl. split; constructor; assumption. Qed.

Lemma HashOK_fresh_short (dbo : option Database) (b : bool) (t : Trie) (k : list Z)
    (c : node) :
  HashOK dbo false c -> HashOK dbo b (shortNode k c (newFlag t)).
Proof. intros Hc. apply HashOK_short; [exact Hc | intros hn; discriminate]. Qed.

Lemma HashOK_fresh_full (dbo : option Database) (b : bool) (t : Trie) (ch : list node) :
  Forall (HashOK dbo false) ch -> HashOK dbo b (fullNode ch (newFlag t)).
Proof. intros Hc. apply HashOK_full; [exact Hc | intros hn; discriminate]. Qed.

Lemma HashOK_short_child (dbo : option Database) (b : bool) (k : list Z) (c : node)
    (fl : nodeFlag) :
  HashOK dbo b (shortNode k c fl) -> HashOK dbo false c.
Proof. intros [Hc Hr]. inversion Hc; inversion Hr; subst. split; assumption. Qed.

Lemma HashOK_full_children (dbo : option Database) (b : bool) (ch : list node)
    (fl : nodeFlag) :
  HashOK dbo b (fullNode ch fl) -> Forall (HashOK dbo false) ch.
Proof.
  intros [Hc Hr]. inversion Hc; inversion Hr; subst. apply HashOK_Forall. split; assumption.
Qed.

Lemma HashOK_short_flag (dbo : option Database) (b : bool) (k : list Z) (c : node)
    (fl : nodeFlag) (hn : list Z) :
  HashOK dbo b (shortNode k c fl) -> flagHash fl = Some hn ->
  digest b (setFlagHash (shortNode k c fl) None) = Ok (hashNode hn).
Proof. intros [Hc _]. inversion Hc; subst. auto. Qed.

Lemma HashOK_full_flag (dbo : option Database) (b : bool) (ch : list node)
    (fl : nodeFlag) (hn : list Z) :
  HashOK dbo b (fullNode ch fl) -> flagHash fl = Some hn ->
  digest b (setFlagHash (fullNode ch fl) None) = Ok (hashNode hn).
Proof. intros [Hc _]. inversion Hc; subst. auto. Qed.

(** What a reference resolves to. *)
Lemma HashOK_resolved (dbo : option Database) (b : bool) (h : list Z) (rn : node) :
  HashOK dbo b (hashNode h) -> resolves dbo h rn ->
  HashOK dbo b rn /\ digest b rn = Ok (hashNode h).
Proof. intros [_ Hr] Hres. inversion Hr; subst. repeat split; auto. Qed.

Lemma emptyChildren_HashOK (dbo : option Database) :
  Forall (HashOK dbo false) emptyChildren.
Proof. apply Forall_replicate. apply HashOK_nil. Qed.

(** *** [hash] on similar nodes *)

Lemma digestChildren_Sim (dbo : option Database) (P : node -> node -> Prop)
    (ch' ch : list node) :
  (forall a b, P a b -> Canon dbo b -> HashOK dbo false b ->
     forall hd, digest false b = Ok hd ->
       exists hd', digest false a = Ok hd' /\ sameDigest hd' hd) ->
  Forall2 (fun a b => Sim dbo a b /\ P a b) ch' ch ->
  forall i : nat,
  (forall (j : nat) (c : node), ch !! j = Some c ->
     isNil c = true \/
     ((i + j)%nat = 16%nat /\ isValue c = true) \/
     ((i + j)%nat <> 16%nat /\ Canon dbo c)) ->
  (i + length ch = 17)%nat ->
  Forall (HashOK dbo false) ch ->
  forall cols, digestChildren i ch = Ok cols ->
  exists cols', digestChildren i ch' = Ok cols' /\
                flat_map encode cols' = flat_map encode cols.
Proof.
  intros HP HF. induction HF as [|c' c ch' ch [Hs Hp] HF IH];
    intros i Hslots Hlen Hcache cols Hd.
  - injection Hd as <-. exists []. split; reflexivity.
  - cbn [digestChildren] in Hd |- *. cbn [length] in Hlen.
    inversion Hcache as [|? ? Hcc Hcache']; subst.
    inv_bind Hd as col Hcol. inv_bind Hd as cols0 Hcols. injection Hd as <-.
    destruct (IH (S i)) with (cols := cols0) as (cols0' & Hcols' & Henc);
      try assumption; try lia.
    { intros j x Hj. specialize (Hslots (S j) x Hj).
      rewrite <- Nat.add_succ_comm in Hslots. exact Hslots. }
    assert (Hcol' : exists col',
      (if (i <? 16)%nat then if isNil c' then Ok nilValueNode else digest false c'
       else Ok c') = Ok col' /\ encode col' = encode col).
    { specialize (Hslots 0%nat c eq_refl). rewrite Nat.add_0_r in Hslots.
      destruct Hslots as [Hnil | [[Hi Hv] | [Hi Hcan]]].
      - destruct c; try discriminate. apply Sim_of_nil in Hs. subst c'.
        exists col. split; [exact Hcol | reflexivity].
      - destruct c; try discriminate. apply Sim_of_value in Hs. subst c'.
        exists col. split; [exact Hcol | reflexivity].
      - destruct (Nat.ltb_spec i 16) as [_|]; [|lia].
        rewrite (Canon_not_nil _ _ Hcan) in Hcol.
        rewrite (Sim_not_nil _ _ _ Hs (Canon_not_nil _ _ Hcan)).
        destruct (HP _ _ Hp Hcan Hcc _ Hcol) as (col' & Hd' & Hsame & _).
        exists col'. split; assumption. }
    destruct Hcol' as (col' & -> & Hec). cbn [mbind result_bind].
    rewrite Hcols'. cbn [mbind result_bind]. eexists. split; [reflexivity|].
    cbn [flat_map]. rewrite Hec, Henc. reflexivity.
Qed.

(** [hash] gives the same result on similar nodes: the node that has a
    result has a similar node with the same one. *)
Lemma digest_Sim (dbo : option Database) (n' n : node) :
  dbCanon dbo -> Sim dbo n' n ->
  Canon dbo n -> forall b, HashOK dbo b n ->
  forall hd, digest b n = Ok hd ->
  exists hd', digest b n' = Ok hd' /\ sameDigest hd' hd.
Proof.
  intros Hdb Hs.
  induction Hs as [n | k c' c fl' fl Hfl Hs IH | ch' ch fl' fl Hfl HF | h rn n' Hr Hs IH]
    using Sim_induction; intros Hcan b Hcache hd Hd.
  - exists hd. split; [exact Hd | apply sameDigest_refl].
  - apply digest_uncached in Hd; [|apply Hcache]. cbn [setFlagHash] in Hd.
    rewrite digest_short in Hd |- *. cbn [flagHash] in Hd. rewrite Hfl.
    destruct (hexToCompact k) as [ck|]; [|discriminate].
    inv_bind Hd as cv Hcv. injection Hd as <-.
    assert (Hcv' : exists cv', digestShortChild c' = Ok cv' /\ encode cv' = encode cv).
    { inversion Hcan as [| ? v ? Hk | ? ? ? Hk Hb Hcc |]; subst.
      - apply Sim_of_value in Hs. subst c'. exists cv. split; [exact Hcv | reflexivity].
      - pose proof (isBranch_not_nil _ _ Hb) as Hnn.
        rewrite digestShortChild_digest in Hcv by exact Hnn.
        rewrite digestShortChild_digest by (eapply Sim_not_nil; eauto).
        apply HashOK_short_child in Hcache.
        destruct (IH Hcc false Hcache _ Hcv) as (cv' & Hd' & He & _).
        exists cv'. split; assumption. }
    destruct Hcv' as (cv' & -> & He). cbn [mbind result_bind].
    eexists. split; [reflexivity|]. apply toHash_sameDigest; try reflexivity.
    cbn [encode]. rewrite He. reflexivity.
  - apply digest_uncached in Hd; [|apply Hcache]. cbn [setFlagHash] in Hd.
    rewrite digest_full in Hd |- *. cbn [flagHash] in Hd. rewrite Hfl.
    inversion Hcan as [| | | ? ? Hlen Hslots Hcount]; subst.
    pose proof (Forall2_length _ _ _ HF) as Hlen'. rewrite Hlen' , Hlen in *.
    change (17 <? 16)%nat with false in *. cbv iota in Hd |- *.
    inv_bind Hd as cols Hcols. injection Hd as <-.
    apply HashOK_full_children in Hcache.
    destruct (digestChildren_Sim dbo
                (fun a b => Canon dbo b -> forall b0, HashOK dbo b0 b ->
                   forall hd, digest b0 b = Ok hd ->
                   exists hd', digest b0 a = Ok hd' /\ sameDigest hd' hd)
                ch' ch) with (i := 0%nat) (cols := cols) as (cols' & -> & He);
      try assumption; try (rewrite Hlen; reflexivity).
    { intros a b0 Hp Hc Hca hd Hd. apply (Hp Hc false Hca hd Hd). }
    cbn [mbind result_bind]. eexists. split; [reflexivity|].
    apply (toHash_sameDigest _ (fullNode cols' fl') (fullNode cols _)); try reflexivity.
    cbn [encode]. rewrite He. reflexivity.
  - rewrite digest_hash in Hd. injection Hd as <-.
    destruct (Hdb _ _ Hr) as [_ Hrc].
    destruct (HashOK_resolved _ _ _ _ Hcache Hr) as [Hrca Hrd].
    apply (IH Hrc b Hrca _ Hrd).
Qed.

(** *** Deleting a key that is not in the trie *)

Lemma delete_absent (fuel : nat) : forall t n prefix key d nn,
  dbCanon (db t) -> CanonRoot (db t) n -> hexTerm key -> Absent (db t) n key ->
  delete fuel t n prefix key = Ok (d, nn) ->
  d = false /\ (nn = n \/ exists h, n = hashNode h /\ resolves (db t) h nn).
Proof.
  induction fuel as [|fuel IH]; intros t n prefix key d nn Hdb Hn Hkey Habs H;
    [discriminate|].
  cbn [delete] in H.
  destruct Hn as [Hnil | Hc].
  { destruct n; try discriminate. injection H as <- <-. auto. }
  inversion Hc as [h | nKey v0 fl Hk | nKey c fl Hk Hb Hcc | ch fl Hlen Hslots Hcount];
    subst.
  - (* hash node *)
    inv_bind H as rn Hres. apply resolveHash_Ok in Hres.
    destruct (Hdb _ _ Hres) as [Hsf Hrn].
    inv_bind H as [dirty nn'] Hdel.
    eapply IH in Hdel; [|exact Hdb|right; exact Hrn|exact Hkey|eapply Absent_hash; eauto].
    destruct Hdel as [-> _]. cbn [negb] in H. injection H as <- <-.
    split; [reflexivity|]. right. eauto.
  - (* leaf *)
    cbv zeta in H.
    destruct (Nat.ltb_spec (prefixLen key nKey) (length nKey)) as [Hlt | Hge].
    { injection H as <- <-. auto. }
    exfalso.
    assert (Hm : prefixLen key nKey = length nKey)
      by (pose proof (prefixLen_le_r key nKey); lia).
    pose proof (prefixLen_full_r _ _ Hm) as Hkey'.
    rewrite Hkey' in Hkey. apply hexTerm_app_term in Hkey; [|exact Hk].
    rewrite Hkey, app_nil_r in Hkey'. apply (Habs v0). rewrite Hkey'.
    apply HasPath_nil_insert.
  - (* extension *)
    cbv zeta in H.
    destruct (Nat.ltb_spec (prefixLen key nKey) (length nKey)) as [Hlt | Hge].
    { injection H as <- <-. auto. }
    assert (Hm : prefixLen key nKey = length nKey)
      by (pose proof (prefixLen_le_r key nKey); lia).
    pose proof (prefixLen_full_r _ _ Hm) as Hkey'.
    assert (Hrest : hexTerm (drop (length nKey) key)).
    { rewrite Hkey' in Hkey. apply hexTerm_app_body in Hkey; [exact Hkey | exact Hk]. }
    assert (Hlk : length key <> length nKey).
    { rewrite Hkey' at 1. rewrite length_app.
      destruct (drop (length nKey) key); [exfalso; apply hexTerm_not_nil, Hrest|].
      cbn [length]. lia. }
    destruct (Nat.eqb_spec (prefixLen key nKey) (length key)) as [|_]; [lia|].
    inv_bind H as [dirty c'] Hdel.
    eapply IH in Hdel; [|exact Hdb|right; exact Hcc|exact Hrest|
                        apply (Absent_short _ nKey _ _ fl); rewrite <- Hkey'; exact Habs].
    destruct Hdel as [-> _]. cbn [negb] in H. injection H as <- <-. auto.
  - (* full node *)
    destruct key as [|k0 key']; [exfalso; apply hexTerm_not_nil, Hkey|].
    inv_bind H as k Hk. inv_bind H as c Hch. inv_bind H as [dirty nn1] Hdel.
    apply index_Ok in Hk. cbn in Hk. injection Hk as <-.
    apply child_Ok in Hch. destruct Hch as [Hi Hch].
    cbn [drop] in Hdel. rewrite drop_0 in Hdel.
    pose proof (Absent_full _ _ _ _ _ _ Hi Hch Habs) as Habs'.
    assert (Hrec : dirty = false).
    { apply hexTerm_cons in Hkey. destruct Hkey as [[-> ->] | [Hx Hkey]].
      - destruct (Hslots _ _ Hch) as [Hnil | [[_ Hv] | [Hne _]]]; [| |lia].
        + destruct c; try discriminate.
          destruct fuel; [discriminate|]. cbn in Hdel. congruence.
        + destruct c; try discriminate. exfalso. apply (Habs' v). constructor.
      - eapply IH; [exact Hdb | | exact Hkey | exact Habs' | exact Hdel].
        destruct (Hslots _ _ Hch) as [Hnil | [[H16 _] | [_ Hcc]]];
          [left; exact Hnil | | right; exact Hcc].
        unfold is_nibble in Hx. lia. }
    subst dirty. cbn [negb] in H. injection H as <- <-. auto.
Qed.

(** *** The handle: [insert] and [delete] read its store and its owner *)

Lemma resolveHash_handle (t t' : Trie) (h prefix : list Z) :
  db t = db t' -> owner t = owner t' -> resolveHash t h prefix = resolveHash t' h prefix.
Proof. unfold resolveHash. intros -> ->. reflexivity. Qed.

Lemma resolve_handle (t t' : Trie) (n : node) (prefix : list Z) :
  db t = db t' -> owner t = owner t' -> resolve t n prefix = resolve t' n prefix.
Proof. intros Hd Ho. destruct n; try reflexivity. apply resolveHash_handle; assumption. Qed.

Lemma delete_handle (t t' : Trie) (fuel : nat) :
  db t = db t' -> owner t = owner t' ->
  forall n prefix key, delete fuel t n prefix key = delete fuel t' n prefix key.
Proof.
  intros Hd Ho. induction fuel as [|fuel IH]; intros n prefix key; [reflexivity|].
  cbn [delete]. destruct n as [| v | h | nKey nVal fl | ch fl]; try reflexivity.
  - rewrite (resolveHash_handle t t') by assumption.
    destruct (resolveHash t' h prefix); try reflexivity. cbn [mbind result_bind].
    rewrite IH. reflexivity.
  - cbv zeta. rewrite IH. reflexivity.
  - destruct (index key 0); try reflexivity. cbn [mbind result_bind].
    destruct (child ch _); try reflexivity. cbn [mbind result_bind].
    rewrite IH. destruct (delete fuel t' _ _ _) as [[dirty nn]| | |]; try reflexivity.
    cbn [mbind result_bind]. destruct dirty; [|reflexivity]. cbn [negb].
    destruct (setChild ch _ nn); try reflexivity. cbn [mbind result_bind].
    destruct (negb (isNil nn)); [reflexivity|]. cbv zeta.
    destruct (0 <=? _); [|reflexivity].
    destruct (child _ _); try reflexivity. cbn [mbind result_bind].
    rewrite (resolve_handle t t') by assumption. reflexivity.
Qed.

(** *** A key that [TryGet] does not find *)

Lemma tryGet_fuel (fuel : nat) : forall t n key pos r,
  tryGet fuel t n key pos = Ok r ->
  forall fuel', (fuel <= fuel')%nat -> tryGet fuel' t n key pos = Ok r.
Proof.
  induction fuel as [|fuel IH]; intros t n key pos r H fuel' Hf; [discriminate|].
  destruct fuel' as [|fuel']; [lia|]. cbn [tryGet] in H |- *.
  destruct n as [| v | h | nKey nVal fl | ch fl]; try exact H.
  - inv_bind H as c Hc. rewrite Hc. cbn [mbind result_bind].
    inv_bind H as [[val nn] did] Hg. rewrite (IH _ _ _ _ _ Hg fuel') by lia. exact H.
  - destruct (_ || _); [exact H|].
    inv_bind H as [[val nn] did] Hg. rewrite (IH _ _ _ _ _ Hg fuel') by lia. exact H.
  - inv_bind H as k Hk. rewrite Hk. cbn [mbind result_bind].
    inv_bind H as c Hc. rewrite Hc. cbn [mbind result_bind].
    inv_bind H as [[val nn] did] Hg. rewrite (IH _ _ _ _ _ Hg fuel') by lia. exact H.
Qed.

Lemma TryGet_None_Absent (fuel : nat) (t t' : Trie) (key : list Z) :
  TryGet fuel t key = Ok (None, t') -> Absent (db t) (root t) (keybytesToHex key).
Proof.
  intros H v Hp.
  destruct (tryGet_HasPath _ _ _ _ Hp t (keybytesToHex key) 0%nat eq_refl ltac:(lia) eq_refl)
    as (fuel0 & Hget).
  destruct (Hget (Nat.max fuel fuel0) ltac:(lia)) as (nn & did & Hg & _).
  unfold TryGet in H. inv_bind H as [[val nroot] did'] Hg'. injection H as -> _.
  apply tryGet_fuel with (fuel' := Nat.max fuel fuel0) in Hg'; [|lia].
  congruence.
Qed.

(** *** The root hash of a similar root *)

Lemma Hash_Sim (t t2 : Trie) (h0 : list Z) (t0 : Trie) :
  db t2 = db t ->
  dbCanon (db t) ->
  CanonRoot (db t) (root t) -> HashOK (db t) true (root t) ->
  Sim (db t) (root t2) (root t) ->
  Hash t = Ok (h0, t0) ->
  exists t2', Hash t2 = Ok (h0, t2').
Proof.
  intros Hdb Hcan Hroot Hcache Hs H.
  unfold Hash, hashRoot in H |- *.
  destruct Hroot as [Hnil | Hc].
  - destruct (root t); try discriminate. apply Sim_of_nil in Hs. rewrite Hs.
    cbn in H |- *. injection H as <- _. eauto.
  - rewrite (Canon_not_nil _ _ Hc) in H.
    rewrite (Sim_not_nil _ _ _ Hs (Canon_not_nil _ _ Hc)).
    inv_bind H as [[hashed cached] t3] Hh. inv_bind Hh as [hashed' cached'] Hh'.
    injection Hh as -> -> <-.
    assert (Hd : digest true (root t) = Ok hashed) by (eapply digest_hash_Ok; eauto).
    destruct (digest_Sim _ _ _ Hcan Hs Hc true Hcache _ Hd) as (hd' & Hd' & Hsame).
    destruct hashed; try discriminate. injection H as <- _.
    apply sameDigest_hash in Hsame. subst hd'.
    apply (digest_hash_Ok (newHasher (100 <=? unhashed t2))) in Hd'.
    destruct Hd' as [c2 ->]. cbn. eauto.
Qed.

(** *** The root after [TryUpdate] and [TryDelete] of a key that was not in
    the trie *)

Lemma TryUpdate_TryDelete_Sim (fuel1 fuel2 : nat) (t t1 t2 : Trie) (k v : list Z) :
  dbCanon (db t) -> CanonRoot (db t) (root t) ->
  Forall is_byte k ->
  Absent (db t) (root t) (keybytesToHex k) ->
  TryUpdate fuel1 t k v = Ok t1 ->
  TryDelete fuel2 t1 k = Ok t2 ->
  db t2 = db t /\ Sim (db t) (root t2) (root t).
Proof.
  intros Hdb Hroot Hk Habs Hup Hdel.
  pose proof (keybytesToHex_hexTerm _ Hk) as Hkey.
  unfold TryUpdate in Hup. unfold TryDelete in Hdel.
  set (ta := setUnhashed t (unhashed t + 1)) in *.
  inv_bind Hdel as [d2 n2] Hd. injection Hdel as <-.
  destruct (negb (length v =? 0)%nat).
  - inv_bind Hup as [d1 n1] Hins. injection Hup as <-.
    cbn [root setRoot setUnhashed] in Hd.
    rewrite (delete_handle _ ta) in Hd by reflexivity.
    destruct (insert_delete_Sim _ ta _ _ _ _ _ _ Hdb Hroot Hkey Habs Hins) as [_ Hback].
    destruct (Hback _ _ _ _ Hd) as [_ Hs].
    split; [reflexivity | exact Hs].
  - inv_bind Hup as [d1 n1] Hd1. injection Hup as <-.
    cbn [root setRoot setUnhashed] in Hd.
    rewrite (delete_handle _ ta) in Hd by reflexivity.
    destruct (delete_absent _ ta _ _ _ _ _ Hdb Hroot Hkey Habs Hd1) as [_ Hn1].
    assert (Hs1 : Sim (db t) n1 (root t) /\ CanonRoot (db t) n1 /\
                  Absent (db t) n1 (keybytesToHex k) /\ isHash n1 = isHash n1).
    { destruct Hn1 as [-> | (h & Hh & Hr)].
      - repeat split; try assumption. apply sim_refl.
      - split; [rewrite Hh; eapply sim_resolved; [exact Hr | apply sim_refl]|].
        split; [right; apply (Hdb _ _ Hr)|]. split; [|reflexivity].
        eapply Absent_hash; [exact Hr|]. rewrite <- Hh. exact Habs. }
    destruct Hs1 as (Hs1 & Hc1 & Ha1 & _).
    destruct (delete_absent _ ta _ _ _ _ _ Hdb Hc1 Hkey Ha1 Hd) as [_ Hn2].
    split; [reflexivity|]. cbn [root setRoot setUnhashed].
    destruct Hn2 as [-> | (h & Hh & Hr)]; [exact Hs1|].
    subst n1. destruct Hn1 as [Hh | (h' & Hh & Hr')].
    + rewrite <- Hh. eapply sim_resolved; [exact Hr | apply sim_refl].
    + destruct (Hdb _ _ Hr') as [Hsf _]. discriminate.
Qed.

(** Scenario (e) of the specification: the pair (key, v) is inserted into
    the empty trie and deleted; the root hash is the empty-root constant. *)
Example scenario_e :
  (t ← TryUpdate 10 emptyTrie (ascii_bytes "key") (ascii_bytes "v");
   t ← TryDelete 10 t (ascii_bytes "key");
   '(h, _) ← Hash t;
   Ok h) = Ok emptyRoot.
Proof. vm_compute. reflexivity. Qed.

(** *** [Hash] called again *)

Lemma hash_again (h : hasher) (n : node) (hn : list Z) (cached : node) :
  hash h n true = Ok (hashNode hn, cached) ->
  isNil cached = false /\ forall h', hash h' cached true = Ok (hashNode hn, cached).
Proof.
  assert (Hset : forall (hashed c : node),
    isShortOrFull c = true ->
    match hashed with
    | hashNode hn0 => Ok (hashed, setFlagHash c (Some hn0))
    | _ => Ok (hashed, setFlagHash c None)
    end = Ok (hashNode hn, cached) ->
    isNil cached = false /\ forall h', hash h' cached true = Ok (hashNode hn, cached)).
  { intros hashed c Hc H. destruct hashed; try (injection H as H _; discriminate).
    injection H as -> <-. destruct c; try discriminate; cbn; auto. }
  destruct n as [| v | x | k c fl | ch fl]; cbn [hash]; try discriminate.
  - intros [= <- <-]. cbn. auto.
  - destruct (flagHash fl) eqn:E.
    + intros [= <- <-]. cbn [hash isNil]. rewrite E. auto.
    + intros H. inv_bind H as [collapsed cached0] Hc.
      apply (Hset (shortnodeToHash h collapsed true) cached0); [|exact H].
      unfold hashShortNodeChildrenWith in Hc. destruct (hexToCompact k); [|discriminate].
      destruct c; try (injection Hc as _ <-; reflexivity).
      all: inv_bind Hc as [cv cc] Hcv; injection Hc as _ <-; reflexivity.
  - destruct (flagHash fl) eqn:E.
    + intros [= <- <-]. cbn [hash isNil]. rewrite E. auto.
    + intros H. inv_bind H as [collapsed cached0] Hc.
      apply (Hset (fullnodeToHash h collapsed true) cached0); [|exact H].
      unfold hashFullNodeChildrenWith in Hc. destruct (length ch <? 16)%nat; [discriminate|].
      inv_bind Hc as [cols cacs] Hcs. injection Hc as _ <-. reflexivity.
Qed.

(** [Hash] leaves a trie on which it returns the same root hash. *)
Lemma Hash_again (t th : Trie) (h0 : list Z) :
  Hash t = Ok (h0, th) -> exists th', Hash th = Ok (h0, th').
Proof.
  unfold Hash, hashRoot. destruct (isNil (root t)) eqn:Hnil.
  - cbn. intros [= <- <-]. cbn. eauto.
  - intros H. inv_bind H as [[hashed cached] t3] Hh. inv_bind Hh as [hashed' cached'] Hh'.
    injection Hh as -> -> <-. destruct hashed; try discriminate. injection H as <- <-.
    apply hash_again in Hh'. destruct Hh' as [Hn Hagain].
    cbn [root setRoot setUnhashed]. rewrite Hn, Hagain. cbn. eauto.
Qed.

(** The root hash after [TryUpdate] and [TryDelete] is the root hash of the
    trie they started from. *)
Lemma Hash_TryUpdate_TryDelete (fuel1 fuel2 : nat) (t t1 t2 th : Trie) (k v h0 : list Z) :
  dbCanon (db t) ->
  CanonRoot (db t) (root t) -> HashOK (db t) true (root t) ->
  Forall is_byte k ->
  Absent (db t) (root t) (keybytesToHex k) ->
  Hash t = Ok (h0, th) ->
  TryUpdate fuel1 t k v = Ok t1 ->
  TryDelete fuel2 t1 k = Ok t2 ->
  exists t2', Hash t2 = Ok (h0, t2').
Proof.
  intros Hdb Hroot Hcache Hk Habs Hh Hup Hdel.
  destruct (TryUpdate_TryDelete_Sim _ _ _ _ _ _ _ Hdb Hroot Hk Habs Hup Hdel) as [Hdb2 Hs].
  eapply Hash_Sim; eauto.
Qed.

Lemma Hash_nil (t th : Trie) (h0 : list Z) :
  root t = nilNode -> Hash t = Ok (h0, th) -> h0 = emptyRoot.
Proof.
  intros Hnil Hh. unfold Hash, hashRoot in Hh. rewrite Hnil in Hh.
  cbn in Hh. injection Hh as <- _. reflexivity.
Qed.

Lemma emptyDatabase_dbHashOK : dbHashOK (Some emptyDatabase).
Proof. intros h n _ (d & [= <-] & Hd & _). discriminate. Qed.

(** ** Every operation keeps the hashes consistent *)

Local Ltac splits := repeat match goal with |- _ /\ _ => split end.

Lemma insert_HashOK (fuel : nat) : forall t n prefix key value b d nn,
  HashOK (db t) b n -> HashOK (db t) false value ->
  insert fuel t n prefix key value = Ok (d, nn) -> HashOK (db t) b nn.
Proof.
  induction fuel as [|fuel IH]; intros t n prefix key value b d nn Hn Hv H;
    [discriminate|].
  cbn [insert] in H. destruct (length key =? 0)%nat.
  { destruct n; try (injection H as _ <-; apply HashOK_any, Hv).
    destruct value; try discriminate. injection H as _ <-. apply HashOK_value. }
  destruct n as [| v | h | nKey nVal fl | ch fl]; try discriminate.
  - injection H as _ <-. apply HashOK_fresh_short, Hv.
  - inv_bind H as rn Hres. apply resolveHash_Ok in Hres.
    destruct (HashOK_resolved _ _ _ _ Hn Hres) as [Hrn _].
    inv_bind H as [dirty nn'] Hins.
    eapply IH in Hins; [|exact Hrn|exact Hv].
    destruct dirty; cbn [negb] in H; injection H as _ <-; [exact Hins | exact Hrn].
  - cbv zeta in H. pose proof (HashOK_short_child _ _ _ _ _ Hn) as Hc.
    destruct (_ =? _)%nat.
    + inv_bind H as [dirty nn'] Hins.
      eapply IH in Hins; [|exact Hc|exact Hv].
      destruct dirty; cbn [negb] in H; injection H as _ <-; [|exact Hn].
      apply HashOK_fresh_short, Hins.
    + inv_bind H as i1 Hi1. inv_bind H as [d1 c1] Hc1. inv_bind H as br1 Hbr1.
      inv_bind H as i2 Hi2. inv_bind H as [d2 c2] Hc2. inv_bind H as br2 Hbr2.
      apply setChild_Ok in Hbr1, Hbr2.
      destruct Hbr1 as (_ & _ & ->). destruct Hbr2 as (_ & _ & ->).
      eapply IH in Hc1; [|apply HashOK_nil|exact Hc].
      eapply IH in Hc2; [|apply HashOK_nil|exact Hv].
      assert (Hbr : Forall (HashOK (db t) false)
                (<[Z.to_nat i2 := c2]> (<[Z.to_nat i1 := c1]> emptyChildren))).
      { apply Forall_insert; [|exact Hc2]. apply Forall_insert; [|exact Hc1].
        apply emptyChildren_HashOK. }
      destruct (_ =? 0)%nat; injection H as _ <-.
      * apply HashOK_fresh_full, Hbr.
      * apply HashOK_fresh_short, (HashOK_fresh_full _ false), Hbr.
  - pose proof (HashOK_full_children _ _ _ _ Hn) as Hch.
    inv_bind H as k Hk. inv_bind H as c Hc. inv_bind H as [dirty nn'] Hins.
    apply child_Ok in Hc. destruct Hc as [_ Hc].
    eapply IH in Hins; [|eapply Forall_lookup_1; eauto|exact Hv].
    destruct dirty; cbn [negb] in H; [|injection H as _ <-; exact Hn].
    inv_bind H as ch' Hset. injection H as _ <-.
    apply setChild_Ok in Hset. destruct Hset as (_ & _ & ->).
    apply HashOK_fresh_full, Forall_insert; assumption.
Qed.

Lemma delete_HashOK (fuel : nat) : forall t n prefix key b d nn,
  HashOK (db t) b n ->
  delete fuel t n prefix key = Ok (d, nn) -> HashOK (db t) b nn.
Proof.
  induction fuel as [|fuel IH]; intros t n prefix key b d nn Hn H; [discriminate|].
  cbn [delete] in H.
  destruct n as [| v | h | nKey nVal fl | ch fl].
  - injection H as _ <-. apply HashOK_nil.
  - injection H as _ <-. apply HashOK_nil.
  - inv_bind H as rn Hres. apply resolveHash_Ok in Hres.
    destruct (HashOK_resolved _ _ _ _ Hn Hres) as [Hrn _].
    inv_bind H as [dirty nn'] Hdel.
    eapply IH in Hdel; [|exact Hrn].
    destruct dirty; cbn [negb] in H; injection H as _ <-; [exact Hdel | exact Hrn].
  - cbv zeta in H. pose proof (HashOK_short_child _ _ _ _ _ Hn) as Hc.
    destruct (_ <? _)%nat; [injection H as _ <-; exact Hn|].
    destruct (_ =? _)%nat; [injection H as _ <-; apply HashOK_nil|].
    inv_bind H as [dirty c'] Hdel.
    eapply IH in Hdel; [|exact Hc].
    destruct dirty; cbn [negb] in H; [|injection H as _ <-; exact Hn].
    destruct c'; injection H as _ <-; try (apply HashOK_fresh_short; exact Hdel).
    apply HashOK_fresh_short. eapply HashOK_short_child; eauto.
  - pose proof (HashOK_full_children _ _ _ _ Hn) as Hch.
    inv_bind H as k Hk. inv_bind H as c Hc. inv_bind H as [dirty nn'] Hdel.
    apply child_Ok in Hc. destruct Hc as [_ Hc].
    eapply IH in Hdel; [|eapply Forall_lookup_1; eauto].
    destruct dirty; cbn [negb] in H; [|injection H as _ <-; exact Hn].
    inv_bind H as ch' Hset.
    apply setChild_Ok in Hset. destruct Hset as (_ & _ & ->).
    assert (Hch' : Forall (HashOK (db t) false) (<[Z.to_nat k := nn']> ch))
      by (apply Forall_insert; assumption).
    destruct (negb (isNil nn')); [injection H as _ <-; apply HashOK_fresh_full, Hch'|].
    cbv zeta in H. destruct (0 <=? _); [|injection H as _ <-; apply HashOK_fresh_full, Hch'].
    inv_bind H as cp Hcp. apply child_Ok in Hcp. destruct Hcp as [_ Hcp].
    pose proof (Forall_lookup_1 _ _ _ _ Hch' Hcp) as Hcpc.
    inv_bind H as cnode Hcn.
    destruct (negb (_ =? 16)).
    + assert (Hcnc : HashOK (db t) false cnode).
      { destruct cp; cbn [resolve] in Hcn; try (injection Hcn as <-; exact Hcpc).
        apply resolveHash_Ok in Hcn. eapply HashOK_resolved; eauto. }
      destruct cnode; injection H as _ <-; try (apply HashOK_fresh_short; exact Hcpc).
      apply HashOK_fresh_short. eapply HashOK_short_child; eauto.
    + injection H as _ <-. apply HashOK_fresh_short; exact Hcpc.
Qed.

(** *** [tryGet] puts resolved nodes in place of references *)

Lemma digest_short_child (b : bool) (k : list Z) (c c' : node) (fl : nodeFlag) :
  isNil c = false -> isNil c' = false ->
  (forall hd, digest false c = Ok hd -> digest false c' = Ok hd) ->
  forall hd, digest b (shortNode k c fl) = Ok hd -> digest b (shortNode k c' fl) = Ok hd.
Proof.
  intros Hc Hc' Hch hd. rewrite !digest_short. destruct (flagHash fl); [auto|].
  destruct (hexToCompact k); [|discriminate].
  rewrite !digestShortChild_digest by assumption.
  intros H. inv_bind H as cv Hcv. rewrite (Hch _ Hcv). exact H.
Qed.

Lemma digestChildren_child (ch : list node) : forall (i j : nat) (c c' : node) cols,
  ch !! j = Some c -> (i + j < 16)%nat ->
  isNil c = false -> isNil c' = false ->
  (forall hd, digest false c = Ok hd -> digest false c' = Ok hd) ->
  digestChildren i ch = Ok cols -> digestChildren i (<[j := c']> ch) = Ok cols.
Proof.
  induction ch as [|c0 ch IH]; intros i j c c' cols Hj Hlt Hc Hc' Hch H; [discriminate|].
  destruct j as [|j].
  - cbn in Hj. injection Hj as ->.
    change (<[0%nat := c']> (c :: ch)) with (c' :: ch).
    cbn [digestChildren] in H |- *.
    destruct (Nat.ltb_spec i 16) as [_|]; [|lia]. rewrite Hc in H. rewrite Hc'.
    inv_bind H as col Hcol. rewrite (Hch _ Hcol). exact H.
  - cbn in Hj. change (<[S j := c']> (c0 :: ch)) with (c0 :: <[j := c']> ch).
    cbn [digestChildren] in H |- *.
    inv_bind H as col Hcol. rewrite Hcol. cbn [mbind result_bind].
    inv_bind H as cols' Hcols.
    rewrite (IH (S i) j c c' cols' Hj ltac:(lia) Hc Hc' Hch Hcols). exact H.
Qed.

Lemma digest_full_child (b : bool) (ch : list node) (j : nat) (c c' : node) (fl : nodeFlag) :
  ch !! j = Some c -> (j < 16)%nat ->
  isNil c = false -> isNil c' = false ->
  (forall hd, digest false c = Ok hd -> digest false c' = Ok hd) ->
  forall hd, digest b (fullNode ch fl) = Ok hd ->
             digest b (fullNode (<[j := c']> ch) fl) = Ok hd.
Proof.
  intros Hj Hlt Hc Hc' Hch hd. rewrite !digest_full. destruct (flagHash fl); [auto|].
  rewrite length_insert. destruct (length ch <? 16)%nat; [discriminate|].
  intros H. inv_bind H as cols Hcols.
  rewrite (digestChildren_child ch 0 j c c' cols Hj ltac:(lia) Hc Hc' Hch Hcols). exact H.
Qed.

Lemma tryGet_HashOK (fuel : nat) : forall t n key pos val newnode did b,
  dbCanon (db t) ->
  Canon (db t) n \/ isNil n = true \/ isValue n = true ->
  HashOK (db t) b n ->
  tryGet fuel t n key pos = Ok (val, newnode, did) ->
  (isNil n = true \/ isValue n = true -> did = false) /\
  (did = false -> newnode = n) /\
  (isNil n = false -> isNil newnode = false) /\
  HashOK (db t) b newnode /\
  (forall hd, digest b n = Ok hd -> digest b newnode = Ok hd).
Proof.
  induction fuel as [|fuel IH]; intros t n key pos val newnode did b Hdb Hshape Hn H;
    [discriminate|].
  cbn [tryGet] in H.
  destruct n as [| v | h | nKey nVal fl | ch fl].
  - injection H as <- <- <-. splits; auto.
  - injection H as <- <- <-. splits; auto.
  - inv_bind H as rn Hres. apply resolveHash_Ok in Hres.
    destruct (Hdb _ _ Hres) as [Hsf Hrn].
    destruct (HashOK_resolved _ _ _ _ Hn Hres) as [Hrc Hrd].
    inv_bind H as [[val' newnode'] did'] Hget. injection H as <- <- <-.
    eapply (IH _ _ _ _ _ _ _ b) in Hget;
      [|exact Hdb|left; exact Hrn|exact Hrc].
    destruct Hget as (_ & _ & Hnn & Hc & Hd).
    split; [intros [|]; discriminate|]. split; [discriminate|].
    split; [intros _; apply Hnn; eapply Canon_not_nil; eauto|].
    split; [exact Hc|]. intros hd Hhd. rewrite digest_hash in Hhd. injection Hhd as <-.
    apply Hd. exact Hrd.
  - destruct Hshape as [Hcn | [|]]; try discriminate.
    destruct (_ || _); [injection H as <- <- <-; splits; auto; intros [|]; discriminate|].
    inv_bind H as [[val' newnode'] did'] Hget. injection H as <- <- <-.
    pose proof (HashOK_short_child _ _ _ _ _ Hn) as Hcc.
    assert (Hsh : (Canon (db t) nVal \/ isNil nVal = true \/ isValue nVal = true) /\
                  isNil nVal = false).
    { inversion Hcn; subst; [split; [right; right|]; reflexivity|].
      split; [left; assumption | eapply Canon_not_nil; eauto]. }
    destruct Hsh as [Hsh Hnn].
    eapply (IH _ _ _ _ _ _ _ false) in Hget; [|exact Hdb|exact Hsh|exact Hcc].
    destruct Hget as (_ & Hsame & Hnn' & Hc' & Hd').
    split; [intros [|]; discriminate|].
    destruct did'; [|splits; auto].
    split; [discriminate|]. split; [reflexivity|].
    assert (Hdig : forall fl0 hd, digest b (shortNode nKey nVal fl0) = Ok hd ->
                                  digest b (shortNode nKey newnode' fl0) = Ok hd).
    { intros fl0. apply digest_short_child; auto. }
    split; [|apply Hdig].
    apply HashOK_short; [exact Hc'|]. intros hn Hhn. cbn [setFlagHash]. apply Hdig.
    apply (HashOK_short_flag _ _ _ _ _ _ Hn Hhn).
  - destruct Hshape as [Hcn | [|]]; try discriminate.
    inversion Hcn as [| | | ? ? Hlen Hslots Hcount]; subst.
    pose proof (HashOK_full_children _ _ _ _ Hn) as Hch.
    inv_bind H as k Hk. inv_bind H as c Hc. inv_bind H as [[val' newnode'] did'] Hget.
    apply child_Ok in Hc. destruct Hc as [Hi Hc].
    assert (Hsh : Canon (db t) c \/ isNil c = true \/ isValue c = true).
    { destruct (Hslots _ _ Hc) as [? | [[_ ?] | [_ ?]]]; auto. }
    eapply (IH _ _ _ _ _ _ _ false) in Hget;
      [|exact Hdb|exact Hsh|eapply Forall_lookup_1; eauto].
    destruct Hget as (Hplain & Hsame & Hnn' & Hc' & Hd').
    split; [intros [|]; discriminate|].
    destruct did'; [|injection H as <- <- <-; splits; auto].
    inv_bind H as ch' Hset. injection H as <- <- <-.
    apply setChild_Ok in Hset. destruct Hset as (_ & Hlt & ->).
    split; [discriminate|]. split; [reflexivity|].
    assert (Hslot : (Z.to_nat k < 16)%nat /\ isNil c = false).
    { destruct (Hslots _ _ Hc) as [Hnil | [[_ Hv] | [Hne Hcc]]].
      - specialize (Hplain (or_introl Hnil)). discriminate.
      - specialize (Hplain (or_intror Hv)). discriminate.
      - split; [lia | eapply Canon_not_nil; eauto]. }
    destruct Hslot as [Hk16 Hcn0].
    assert (Hdig : forall fl0 hd, digest b (fullNode ch fl0) = Ok hd ->
                                  digest b (fullNode (<[Z.to_nat k := newnode']> ch) fl0) = Ok hd).
    { intros fl0. apply (digest_full_child b ch _ c); auto. }
    split; [|apply Hdig].
    apply HashOK_full; [apply Forall_insert; assumption|].
    intros hn Hhn. cbn [setFlagHash]. apply Hdig.
    apply (HashOK_full_flag _ _ _ _ _ Hn Hhn).
Qed.

(** *** [hash] keeps the references *)

Lemma hash_RefsOK (dbo : option Database) (n : node) : forall b hd cached,
  hash (newHasher false) n b = Ok (hd, cached) ->
  RefsOK dbo b n -> RefsOK dbo b cached.
Proof.
  induction n as [| v | x | k c fl IH | ch fl IH] using node_induction;
    intros b hd cached H Hr.
  - discriminate.
  - injection H as <- <-. exact Hr.
  - injection H as <- <-. exact Hr.
  - destruct (flagHash fl) as [hn|] eqn:Hfl.
    { cbn [hash] in H. rewrite Hfl in H. injection H as <- <-. exact Hr. }
    destruct (hash_short_inv _ _ _ _ _ _ _ Hfl H) as (ck & cv & cc & Hck & Hcv & Hhd & ->).
    inversion Hr as [| | |? ? ? ? Hrc|]; subst. apply refs_short.
    destruct (isShortOrFull c).
    + eapply IH; eauto.
    + destruct Hcv as [_ ->]. exact Hrc.
  - destruct (flagHash fl) as [hn|] eqn:Hfl.
    { cbn [hash] in H. rewrite Hfl in H. injection H as <- <-. exact Hr. }
    destruct (hash_full_inv _ _ _ _ _ _ Hfl H) as (cols & cacs & Hlen & Hcs & Hhd & ->).
    destruct (hashChildrenWith_inv _ _ _ _ _ Hcs) as [Hlc Hall].
    inversion Hr as [| | | |? ? ? Hrch]; subst. apply refs_full.
    apply Forall_lookup. intros j cac Hjc.
    assert (Hlt : (j < length ch)%nat) by (apply lookup_lt_Some in Hjc; lia).
    destruct (lookup_lt_is_Some_2 ch j Hlt) as [c Hj].
    destruct (Hall j c Hj) as (col & cac' & _ & Hcac & Hrel).
    rewrite Hjc in Hcac. injection Hcac as <-.
    pose proof (Forall_lookup_1 _ _ _ _ Hrch Hj) as Hrc.
    destruct (0 + j <? 16)%nat.
    + destruct (isNil c).
      * destruct Hrel as [_ ->]. exact Hrc.
      * rewrite Forall_lookup in IH. eapply IH; eauto.
    + destruct Hrel as [_ ->]. exact Hrc.
Qed.

(** [Hash] keeps the hashes consistent. *)
Lemma Hash_HashOK (t th : Trie) (h0 : list Z) :
  Hash t = Ok (h0, th) ->
  HashOK (db t) true (root t) -> HashOK (db t) true (root th).
Proof.
  intros H [Hc Hr]. split; [apply (Hash_keeps _ _ _ H), Hc|].
  unfold Hash, hashRoot in H. destruct (isNil (root t)) eqn:Hnil.
  - cbn in H. injection H as _ <-. constructor.
  - inv_bind H as [[hashed cached] t3] Hh. inv_bind Hh as [hashed' cached'] Hh'.
    injection Hh as -> -> <-. destruct hashed; try discriminate. injection H as _ <-.
    cbn [db root setRoot setUnhashed].
    rewrite (hash_hasher _ (newHasher false)) in Hh'.
    eapply hash_RefsOK; eauto.
Qed.

(** *** Every operation keeps the trie well-formed *)

Lemma emptyTrie_wellFormed : wellFormed emptyTrie.
Proof.
  split; [apply emptyDatabase_dbCanon|].
  split; [left; reflexivity | apply HashOK_nil].
Qed.

(** [New] gives a well-formed trie over a store in canonical form that
    keeps its nodes under their hashes. *)
Lemma New_wellFormed (owner rootHash : list Z) (d : Database) (t : Trie) :
  dbCanon (Some d) -> dbHashOK (Some d) -> length rootHash = 32%nat ->
  New owner rootHash (Some d) = Ok t -> wellFormed t.
Proof.
  intros Hdb Hho Hlen. unfold New, newTrie.
  destruct (_ && _).
  - intros H. inv_bind H as rn Hres. injection H as <-.
    apply resolveHash_Ok in Hres. cbn [db] in Hres.
    unfold wellFormed. cbn [db root setRoot].
    split; [exact Hdb|].
    split; [right; apply (Hdb _ _ Hres) | apply (Hho _ _ Hlen Hres)].
  - intros [= <-]. unfold wellFormed. cbn [db root].
    split; [exact Hdb|]. split; [left; reflexivity | apply HashOK_nil].
Qed.

Lemma applyOp_wellFormed (fuel : nat) (t t' : Trie) (o : operation) :
  applyOp fuel t o = Ok t' -> Forall is_byte (opKey o) ->
  wellFormed t -> wellFormed t'.
Proof.
  intros H Hk (Hdb & Hroot & Hca).
  pose proof (applyOp_db _ _ _ _ H) as Hdbeq.
  pose proof (applyOp_Canon _ _ _ _ H Hdb Hroot Hk) as Hroot'.
  unfold wellFormed. rewrite Hdbeq.
  split; [exact Hdb|]. split; [rewrite <- Hdbeq; exact Hroot'|].
  destruct o as [key value | key | key |]; cbn [applyOp opKey] in *.
  4: { inv_bind H as [h t1] Hh. injection H as <-. apply (Hash_HashOK _ _ _ Hh), Hca. }
  - unfold TryUpdate in H.
    destruct (negb _); inv_bind H as [d n] Hc; injection H as <-; cbn [root setRoot].
    + eapply insert_HashOK in Hc; [exact Hc | exact Hca | apply HashOK_value].
    + eapply delete_HashOK in Hc; [exact Hc | exact Hca].
  - unfold TryDelete in H. inv_bind H as [d n] Hc; injection H as <-; cbn [root setRoot].
    eapply delete_HashOK in Hc; [exact Hc | exact Hca].
  - inv_bind H as [v1 t1] Hg. injection H as <-. unfold Get in Hg.
    destruct (TryGet fuel t key) as [[v' t2]| | |] eqn:E; try discriminate.
    + injection Hg as _ <-. unfold TryGet in E.
      inv_bind E as [[v2 n] did] Hget. injection E as _ <-.
      destruct did; [|exact Hca]. cbn [root setRoot].
      eapply tryGet_HashOK in Hget; [apply Hget | exact Hdb | | exact Hca].
      destruct Hroot; auto.
    + injection Hg as _ <-. exact Hca.
Qed.

Lemma applyOps_wellFormed (fuel : nat) (ops : list operation) : forall (t t' : Trie),
  applyOps fuel t ops = Ok t' ->
  Forall (fun o => Forall is_byte (opKey o)) ops ->
  wellFormed t -> wellFormed t'.
Proof.
  induction ops as [|o ops IH]; intros t t' H Hops Hwf.
  - injection H as <-. exact Hwf.
  - cbn [applyOps] in H. inv_bind H as t1 Ho. inversion Hops; subst.
    eapply IH; [exact H | assumption |]. eapply applyOp_wellFormed; eauto.
Qed.

Lemma Hash_wellFormed (t th : Trie) (h0 : list Z) :
  Hash t = Ok (h0, th) -> wellFormed t -> wellFormed th.
Proof.
  intros H (Hdb & Hroot & Hca).
  destruct (Hash_keeps _ _ _ H) as (Hdbeq & Hc & _ & _).
  unfold wellFormed. rewrite Hdbeq.
  split; [exact Hdb|]. split; [auto | eapply Hash_HashOK; eauto].
Qed.

(** *** A store that keeps a small root *)

(** The store [smallRootDatabase] keeps the root of the trie of the single
    pair ("key", "v") under its root hash: the root encodes in 7 bytes,
    and the store is in canonical form and keeps its node under its hash. *)
Lemma smallRoot_encoding :
  exists c, collapse (newHasher false) smallRoot = Ok c /\ length (encode c) = 7%nat.
Proof. eexists. split; vm_compute; reflexivity. Qed.

Lemma smallRootDatabase_resolves (h : list Z) (n : node) :
  resolves (Some smallRootDatabase) h n ->
  BytesToHash h = smallRootHash /\ n = smallRoot.
Proof.
  intros (d & [= <-] & Hd & _). cbn [dbNode smallRootDatabase] in Hd.
  destruct (bytesEqual (BytesToHash h) smallRootHash) eqn:E; [|discriminate].
  injection Hd as <-. split; [|reflexivity]. apply bytesEqual_true, E.
Qed.

Lemma smallRootDatabase_dbCanon : dbCanon (Some smallRootDatabase).
Proof.
  intros h n Hr. destruct (smallRootDatabase_resolves _ _ Hr) as [_ ->].
  split; [reflexivity|]. apply canon_leaf.
  apply keybytesToHex_hexTerm. repeat constructor; vm_compute; congruence.
Qed.

Lemma smallRoot_HashOK (dbo : option Database) : HashOK dbo true smallRoot.
Proof.
  apply HashOK_short; [apply HashOK_value|].
  intros hn [= <-]. vm_compute. reflexivity.
Qed.

Lemma smallRootDatabase_dbHashOK : dbHashOK (Some smallRootDatabase).
Proof.
  intros h n Hlen Hr. destruct (smallRootDatabase_resolves _ _ Hr) as [Hh ->].
  rewrite (BytesToHash_32 _ Hlen) in Hh. subst h.
  split; [apply smallRoot_HashOK | vm_compute; reflexivity].
Qed.

(** [New] opens a well-formed trie on the small root: its root is the
    stored node. *)
Lemma New_smallRootTrie :
  New zeroHash smallRootHash (Some smallRootDatabase) = Ok smallRootTrie.
Proof. vm_compute. reflexivity. Qed.

Lemma smallRootTrie_wellFormed : wellFormed smallRootTrie.
Proof.
  apply (New_wellFormed zeroHash smallRootHash smallRootDatabase).
  - apply smallRootDatabase_dbCanon.
  - apply smallRootDatabase_dbHashOK.
  - reflexivity.
  - apply New_smallRootTrie.
Qed.

Lemma smallRootTrie_CanonRoot : CanonRoot (db smallRootTrie) (root smallRootTrie).
Proof. apply smallRootTrie_wellFormed. Qed.

(** ** Delete inverse *)

(** C2, the claim as stated fails when the key is in the trie before the
    insert: the trie holds (key, w); [Hash] gives its root hash; (key, v) is
    inserted and key is deleted; the trie is empty, its hash is the
    empty-root constant and not the hash before the insert. *)
Lemma TryUpdate_TryDelete_present_counterexample :
  exists t h0 th t1 t2 h2 t2',
    TryUpdate 10 emptyTrie (ascii_bytes "key") (ascii_bytes "w") = Ok t /\
    Hash t = Ok (h0, th) /\
    TryUpdate 10 th (ascii_bytes "key") (ascii_bytes "v") = Ok t1 /\
    TryDelete 10 t1 (ascii_bytes "key") = Ok t2 /\
    Hash t2 = Ok (h2, t2') /\
    h2 = emptyRoot /\ h2 <> h0.
Proof.
  eexists _, _, _, _, _, _, _.
  split; [vm_compute; reflexivity|].
  split; [vm_compute; reflexivity|].
  split; [vm_compute; reflexivity|].
  split; [vm_compute; reflexivity|].
  split; [vm_compute; reflexivity|].
  split; [reflexivity|]. vm_compute. discriminate.
Qed.

(** The cached hashes have to be those of the nodes: the root of the trie
    of the pair ("key", "v") caches a hash that is not its own.  [Hash]
    returns the cached hash; ("dog", "puppy"), not in the trie, is inserted
    and deleted, which builds the root anew, and [Hash] returns the hash of
    the root, not the hash returned before. *)
Example TryUpdate_TryDelete_stale_cache :
  let t := {| db := Some emptyDatabase;
              root := shortNode (keybytesToHex (ascii_bytes "key"))
                                (valueNode (ascii_bytes "v"))
                                {| flagHash := Some storedHash; flagDirty := false |};
              owner := zeroHash; unhashed := 0 |} in
  exists t0 th t1 t2 h2 t2',
    TryGet 10 t (ascii_bytes "dog") = Ok (None, t0) /\
    Hash t = Ok (storedHash, th) /\
    TryUpdate 10 th (ascii_bytes "dog") (ascii_bytes "puppy") = Ok t1 /\
    TryDelete 10 t1 (ascii_bytes "dog") = Ok t2 /\
    Hash t2 = Ok (h2, t2') /\
    h2 = smallRootHash /\ h2 <> storedHash.
Proof.
  cbv zeta. eexists _, _, _, _, _, _.
  split; [vm_compute; reflexivity|].
  split; [vm_compute; reflexivity|].
  split; [vm_compute; reflexivity|].
  split; [vm_compute; reflexivity|].
  split; [vm_compute; reflexivity|].
  split; [reflexivity|]. vm_compute. discriminate.
Qed.

(** C2, amended.  The trie [t] is well-formed (canonical form, the hashes
    its nodes cache and refer to are those of the nodes: so is the empty
    trie, the trie [New] opens over a store that keeps its nodes under
    their hashes, also a root that encodes in less than 32 bytes, and the
    trie every operation leaves) and does not hold the key ([TryGet] finds
    nothing).  [Hash] is called and returns the root hash [h0].  The handle
    [tb] is the trie as that call left it (the hashes cached in the nodes),
    or as it was before the call.  When [TryUpdate k v] and then
    [TryDelete k] succeed on it, [Hash] returns [h0] again; for the empty
    trie [h0] is the empty-root constant. *)
Theorem Hash_after_TryUpdate_TryDelete (fuel0 fuel1 fuel2 : nat)
    (t th tb t0 t1 t2 : Trie) (k v h0 : list Z) :
  wellFormed t ->
  Forall is_byte k ->
  TryGet fuel0 t k = Ok (None, t0) ->
  Hash t = Ok (h0, th) ->
  tb = th \/ tb = t ->
  TryUpdate fuel1 tb k v = Ok t1 ->
  TryDelete fuel2 t1 k = Ok t2 ->
  (exists t2', Hash t2 = Ok (h0, t2')) /\
  (root t = nilNode -> h0 = emptyRoot).
Proof.
  intros (Hdb & Hroot & Hcache) Hk Hget Hh Htb Hup Hdel.
  pose proof (TryGet_None_Absent _ _ _ _ Hget) as Habs.
  split; [|intros Hnil; eapply Hash_nil; eauto].
  destruct Htb as [-> | ->].
  - destruct (Hash_again _ _ _ Hh) as [th' Hh'].
    destruct (Hash_keeps _ _ _ Hh) as (Hdbh & Hcanon & _ & Hab).
    pose proof (Hash_HashOK _ _ _ Hh Hcache) as Hoh.
    eapply (Hash_TryUpdate_TryDelete fuel1 fuel2 th); try rewrite Hdbh; eauto.
  - eapply Hash_TryUpdate_TryDelete; eauto.
Qed.

(** The trie is opened by [New] over the store that keeps the 7-byte root
    of the pair ("key", "v") under its root hash; the pair ("dog", "puppy")
    is inserted and deleted. *)
Lemma Hash_after_TryUpdate_TryDelete_witness :
  exists t0 h0 th t1 t2,
    New zeroHash smallRootHash (Some smallRootDatabase) = Ok smallRootTrie /\
    TryGet 10 smallRootTrie (ascii_bytes "dog") = Ok (None, t0) /\
    Hash smallRootTrie = Ok (h0, th) /\
    TryUpdate 10 th (ascii_bytes "dog") (ascii_bytes "puppy") = Ok t1 /\
    TryDelete 10 t1 (ascii_bytes "dog") = Ok t2 /\
    exists t2', Hash t2 = Ok (h0, t2').
Proof.
  eexists _, _, _, _, _.
  split; [vm_compute; reflexivity|].
  split; [vm_compute; reflexivity|].
  split; [vm_compute; reflexivity|].
  match goal with |- TryUpdate _ ?th _ _ = _ /\ _ => pose (thv := th) end.
  split; [vm_compute; reflexivity|].
  match goal with |- TryDelete _ ?t1 _ = _ /\ _ => pose (t1v := t1) end.
  split; [vm_compute; reflexivity|].
  refine (proj1 (Hash_after_TryUpdate_TryDelete 10 10 10 smallRootTrie thv thv _ t1v _
                   (ascii_bytes "dog") (ascii_bytes "puppy") _ _ _ _ _ _ _ _)).
  - exact smallRootTrie_wellFormed.
  - repeat constructor; vm_compute; congruence.
  - vm_compute. reflexivity.
  - vm_compute. reflexivity.
  - left. reflexivity.
  - vm_compute. reflexivity.
  - vm_compute. reflexivity.
Defined.

(** * Further properties of the code *)

(** ** Key encodings ([trie/encoding.go]) *)

Lemma pack2_sum (a b : Z) : is_nibble a -> is_nibble b -> pack2 a b = 16 * a + b.
Proof.
  intros Ha Hb. apply nibble_cases in Ha, Hb.
  repeat (destruct Ha as [-> | Ha]); try subst a;
    repeat (destruct Hb as [-> | Hb]); try subst b; reflexivity.
Qed.

Lemma pack2_byte (b : Z) : is_byte b -> pack2 (b / 16) (b mod 16) = b.
Proof.
  intros Hb. destruct (byte_nibbles b Hb) as [Ha Hc].
  rewrite pack2_sum by assumption. symmetry. apply Z.div_mod. lia.
Qed.

Lemma packNibbles_keybytesToHex (k : list Z) :
  Forall is_byte k -> packNibbles (keybytesToHex_nibbles k) = k.
Proof.
  induction 1 as [|b k Hb _ IH]; [reflexivity|].
  cbn [keybytesToHex_nibbles packNibbles]. rewrite pack2_byte, IH by assumption. reflexivity.
Qed.

Lemma keybytesToHex_nibbles_length (k : list Z) :
  length (keybytesToHex_nibbles k) = (2 * length k)%nat.
Proof. induction k as [|b k IH]; cbn [keybytesToHex_nibbles length]; lia. Qed.

Lemma keybytesToHex_nibbles_even (k : list Z) :
  Nat.even (length (keybytesToHex_nibbles k)) = true.
Proof. rewrite keybytesToHex_nibbles_length. apply Nat.even_spec. exists (length k). lia. Qed.

Lemma keybytesToHex_nibbles_Forall (k : list Z) :
  Forall is_byte k -> Forall is_nibble (keybytesToHex_nibbles k).
Proof.
  induction 1 as [|b k Hb _ IH]; [constructor|].
  cbn [keybytesToHex_nibbles]. destruct (byte_nibbles b Hb).
  repeat (apply List.Forall_cons; [assumption|]). exact IH.
Qed.

Lemma packNibbles_Forall (ns : list Z) :
  Forall is_nibble ns -> Forall is_byte (packNibbles ns).
Proof.
  induction ns as [|a|a b ns IH] using list_pair_ind; intros Hn.
  - constructor.
  - constructor.
  - inversion Hn as [|? ? Ha Hn']; subst. inversion Hn' as [|? ? Hb Hn'']; subst.
    cbn [packNibbles]. apply List.Forall_cons; [|auto].
    rewrite pack2_sum by assumption. unfold is_byte, is_nibble in *. lia.
Qed.

Lemma even_land (n : nat) : (Z.land (Z.of_nat n) 1 =? 0) = Nat.even n.
Proof.
  pose proof (odd_flag n) as H.
  assert (Hm : Z.land (Z.of_nat n) 1 = Z.of_nat n mod 2)
    by (apply (Z.land_ones _ 1); lia).
  pose proof (Z.mod_pos_bound (Z.of_nat n) 2 ltac:(lia)) as Hb.
  destruct (Nat.even n); cbn [negb] in H.
  - apply Z.eqb_neq in H. apply Z.eqb_eq. lia.
  - apply Z.eqb_eq in H. rewrite H. reflexivity.
Qed.

Lemma hasTerm_nibbles (ns : list Z) : Forall is_nibble ns -> hasTerm ns = false.
Proof.
  intros Hn. destruct (hasTerm ns) eqn:Ht; [|reflexivity]. exfalso.
  pose proof (hasTerm_split _ Ht) as Hs. rewrite Hs in Hn.
  apply Forall_app in Hn. destruct Hn as [_ Hn]. inversion Hn; subst.
  unfold is_nibble in *. lia.
Qed.

(** [hexToKeybytes] on the nibbles of a key, with or without terminator. *)
Lemma hexToKeybytes_nibbles (ns : list Z) (term : bool) :
  Forall is_nibble ns ->
  hexToKeybytes (if term then ns ++ [16] else ns) =
  if Nat.even (length ns) then Some (packNibbles ns) else None.
Proof.
  intros Hn. unfold hexToKeybytes.
  assert (Hstrip : (if hasTerm (if term then ns ++ [16] else ns)
                    then take (length (if term then ns ++ [16] else ns) - 1)
                              (if term then ns ++ [16] else ns)
                    else if term then ns ++ [16] else ns) = ns).
  { destruct term.
    - rewrite hasTerm_snoc, take_snoc. reflexivity.
    - rewrite hasTerm_nibbles by exact Hn. reflexivity. }
  rewrite Hstrip, even_land.
  destruct (Nat.even (length ns)) eqn:He; cbn [negb]; [|reflexivity].
  rewrite decodeNibbles_even by (rewrite ?length_replicate; auto).
  rewrite drop_ge by (rewrite length_replicate; lia).
  rewrite app_nil_r. reflexivity.
Qed.

(** X1. Round trip of the key bytes: [hexToKeybytes] gives back the bytes
    that [keybytesToHex] turned into nibbles. *)
Theorem hexToKeybytes_keybytesToHex (k : list Z) :
  Forall is_byte k -> hexToKeybytes (keybytesToHex k) = Some k.
Proof.
  intros Hk. unfold keybytesToHex.
  rewrite (hexToKeybytes_nibbles _ true) by (apply keybytesToHex_nibbles_Forall, Hk).
  rewrite keybytesToHex_nibbles_even, packNibbles_keybytesToHex by exact Hk. reflexivity.
Qed.

Lemma hexToKeybytes_keybytesToHex_witness :
  Forall is_byte [0x64; 0x6f; 0xff] /\
  hexToKeybytes (keybytesToHex [0x64; 0x6f; 0xff]) = Some [0x64; 0x6f; 0xff].
Proof.
  assert (H : Forall is_byte [0x64; 0x6f; 0xff])
    by (repeat constructor; vm_compute; congruence).
  split; [exact H | apply (hexToKeybytes_keybytesToHex _ H)].
Defined.

(** X2. [hexToKeybytes] on a key of nibbles [ns], with or without the
    terminator: it panics exactly when the number of nibbles is odd;
    otherwise it returns the bytes whose hex key is [ns] with the
    terminator. *)
Theorem keybytesToHex_hexToKeybytes (ns : list Z) (term : bool) :
  Forall is_nibble ns ->
  let hex := if term then ns ++ [16] else ns in
  (hexToKeybytes hex = None <-> Nat.odd (length ns) = true) /\
  (forall k, hexToKeybytes hex = Some k ->
     Forall is_byte k /\ keybytesToHex k = ns ++ [16]).
Proof.
  intros Hn hex. subst hex. rewrite hexToKeybytes_nibbles by exact Hn.
  rewrite <- Nat.negb_even. destruct (Nat.even (length ns)) eqn:He; cbn [negb].
  - split; [split; discriminate|]. intros k [= <-].
    split; [apply packNibbles_Forall, Hn|].
    unfold keybytesToHex. rewrite keybytesToHex_packNibbles by assumption. reflexivity.
  - split; [split; reflexivity|]. discriminate.
Qed.

Lemma keybytesToHex_hexToKeybytes_witness :
  Forall is_nibble [6; 4; 6; 15] /\
  (hexToKeybytes [6; 4; 6; 15] = None <-> Nat.odd 4 = true) /\
  (forall k, hexToKeybytes [6; 4; 6; 15] = Some k ->
     Forall is_byte k /\ keybytesToHex k = [6; 4; 6; 15; 16]).
Proof.
  assert (H : Forall is_nibble [6; 4; 6; 15])
    by (repeat constructor; vm_compute; congruence).
  split; [exact H | apply (keybytesToHex_hexToKeybytes [6; 4; 6; 15] false H)].
Defined.

(** [hexToCompact] on the nibbles of a key, with or without terminator. *)
Lemma hexToCompact_nibbles (ns : list Z) (term : bool) :
  Forall is_nibble ns ->
  hexToCompact (if term then ns ++ [16] else ns) =
  compactBody (if term then 1 else 0) ns.
Proof.
  intros Hn. rewrite hexToCompact_unfold. destruct term.
  - rewrite hasTerm_snoc, take_snoc. reflexivity.
  - rewrite hasTerm_nibbles by exact Hn. reflexivity.
Qed.

(** X3. The compact form of a whole key: [hexToCompact] of the hex form
    of the key bytes [k] is the flag byte 0x20 (terminator, even length)
    followed by [k] itself. *)
Theorem hexToCompact_keybytesToHex (k : list Z) :
  Forall is_byte k -> hexToCompact (keybytesToHex k) = Some (0x20 :: k).
Proof.
  intros Hk. unfold keybytesToHex.
  rewrite (hexToCompact_nibbles _ true) by (apply keybytesToHex_nibbles_Forall, Hk).
  rewrite compactBody_even by apply keybytesToHex_nibbles_even.
  rewrite packNibbles_keybytesToHex by exact Hk. reflexivity.
Qed.

Lemma hexToCompact_keybytesToHex_witness :
  Forall is_byte [0x64; 0x6f; 0x67] /\
  hexToCompact (keybytesToHex [0x64; 0x6f; 0x67]) = Some [0x20; 0x64; 0x6f; 0x67].
Proof.
  assert (H : Forall is_byte [0x64; 0x6f; 0x67])
    by (repeat constructor; vm_compute; congruence).
  split; [exact H | apply (hexToCompact_keybytesToHex _ H)].
Defined.

Lemma compactBody_length (term : Z) (hex : list Z) :
  exists c, compactBody term hex = Some c /\ length c = (length hex / 2 + 1)%nat.
Proof.
  destruct (Nat.even (length hex)) eqn:He.
  - rewrite compactBody_even by assumption. eexists. split; [reflexivity|].
    cbn [length]. rewrite packNibbles_length by assumption. lia.
  - destruct hex as [|x hex]; [discriminate|].
    cbn [length] in He. rewrite Nat.even_succ in He.
    assert (He' : Nat.even (length hex) = true).
    { rewrite <- Nat.negb_odd, He. reflexivity. }
    rewrite compactBody_odd by assumption. eexists. split; [reflexivity|].
    cbn [length]. rewrite packNibbles_length by assumption.
    apply Nat.even_spec in He'. destruct He' as [m Hm]. rewrite Hm.
    replace (S (2 * m)) with (1 + m * 2)%nat by lia.
    rewrite Nat.div_add by lia. rewrite (Nat.mul_comm 2 m), Nat.div_mul by lia.
    cbn. lia.
Qed.

(** X4. [hexToCompact] never panics, whatever the bytes of its argument,
    and the compact key has [n/2 + 1] bytes, [n] being the number of
    elements before the terminator (if any). *)
Theorem hexToCompact_length (hex : list Z) :
  exists c, hexToCompact hex = Some c /\
            length c = ((if hasTerm hex then length hex - 1 else length hex) / 2 + 1)%nat.
Proof.
  rewrite hexToCompact_unfold. destruct (hasTerm hex) eqn:Ht.
  - destruct (compactBody_length 1 (take (length hex - 1) hex)) as (c & Hc & Hl).
    exists c. split; [exact Hc|]. rewrite Hl, length_take.
    replace ((length hex - 1) `min` length hex)%nat with (length hex - 1)%nat by lia.
    reflexivity.
  - apply compactBody_length.
Qed.

Lemma flag_odd_value (t x : Z) :
  (t = 0 \/ t = 1) -> is_nibble x ->
  Z.lor (Z.lor (byte (Z.shiftl t 5)) (byte (Z.shiftl 1 4))) x = 32 * t + 16 + x.
Proof.
  intros Ht Hx. destruct (flag_odd_div t x Ht Hx) as [Hd Hm].
  rewrite (Z.div_mod (Z.lor _ x) 16) by lia. rewrite Hd, Hm. lia.
Qed.

(** X5. The round trip from the compact side: for a canonical compact
    key [c] (a flag byte with high nibble 0 to 3, whose low nibble is zero
    when the odd flag is clear, followed by bytes), [hexToCompact] of
    [compactToHex c] is [c] again. *)
Theorem hexToCompact_compactToHex (c : list Z) :
  validCompact c = true -> hexToCompact (compactToHex c) = Some c.
Proof.
  destruct c as [|f body]; [discriminate|]. cbn [validCompact].
  rewrite !andb_true_iff, orb_true_iff. intros [[[Hf Hhi] Hlo] Hbody].
  assert (Hb : Forall is_byte body).
  { apply List.Forall_forall. intros x Hx. rewrite forallb_forall in Hbody.
    specialize (Hbody x Hx). unfold is_byteb in Hbody. unfold is_byte.
    apply andb_true_iff in Hbody. lia. }
  unfold is_byteb in Hf. apply andb_true_iff in Hf. destruct Hf as [Hf0 Hf1].
  apply Z.leb_le in Hf0. apply Z.ltb_lt in Hf1, Hhi.
  pose proof (keybytesToHex_nibbles_Forall body Hb) as Hn.
  pose proof (keybytesToHex_nibbles_even body) as He.
  rewrite <- (packNibbles_keybytesToHex body Hb).
  set (ns := keybytesToHex_nibbles body) in *.
  pose proof (Z.div_mod f 16 ltac:(lia)) as Hdm.
  pose proof (Z.mod_pos_bound f 16 ltac:(lia)) as Hmb.
  assert (Hq : 0 <= f / 16) by (apply Z.div_pos; lia).
  assert (Hcases : f / 16 = 0 \/ f / 16 = 1 \/ f / 16 = 2 \/ f / 16 = 3) by lia.
  assert (Hx : is_nibble (f mod 16)) by (unfold is_nibble; lia).
  destruct Hcases as [Hq0 | [Hq1 | [Hq2 | Hq3]]].
  - rewrite Hq0 in Hlo. destruct Hlo as [Hlo | Hlo]; [discriminate|].
    apply Z.eqb_eq in Hlo. assert (Hf : f = byte (Z.shiftl 0 5)) by (change (byte (Z.shiftl 0 5)) with 0; lia).
    rewrite Hf.
    rewrite compactToHex_even by auto. cbn [Z.eqb].
    rewrite (hexToCompact_nibbles ns false) by exact Hn.
    apply compactBody_even, He.
  - replace f with (Z.lor (Z.lor (byte (Z.shiftl 0 5)) (byte (Z.shiftl 1 4))) (f mod 16))
      by (rewrite flag_odd_value by auto; lia).
    rewrite compactToHex_odd by auto. cbn [Z.eqb].
    rewrite (hexToCompact_nibbles (f mod 16 :: ns) false) by (constructor; assumption).
    apply compactBody_odd, He.
  - rewrite Hq2 in Hlo. destruct Hlo as [Hlo | Hlo]; [discriminate|].
    apply Z.eqb_eq in Hlo. assert (Hf : f = byte (Z.shiftl 1 5)) by (change (byte (Z.shiftl 1 5)) with 32; lia).
    rewrite Hf.
    rewrite compactToHex_even by auto. cbn [Z.eqb Pos.eqb].
    rewrite (hexToCompact_nibbles ns true) by exact Hn.
    apply compactBody_even, He.
  - replace f with (Z.lor (Z.lor (byte (Z.shiftl 1 5)) (byte (Z.shiftl 1 4))) (f mod 16))
      by (rewrite flag_odd_value by auto; lia).
    rewrite compactToHex_odd by auto. cbn [Z.eqb Pos.eqb]. rewrite app_comm_cons.
    rewrite (hexToCompact_nibbles (f mod 16 :: ns) true) by (constructor; assumption).
    apply compactBody_odd, He.
Qed.

Lemma hexToCompact_compactToHex_witness :
  validCompact [0x3f; 0x1c; 0xb8] = true /\
  hexToCompact (compactToHex [0x3f; 0x1c; 0xb8]) = Some [0x3f; 0x1c; 0xb8].
Proof.
  assert (H : validCompact [0x3f; 0x1c; 0xb8] = true) by reflexivity.
  split; [exact H | apply (hexToCompact_compactToHex _ H)].
Defined.

(** X6. [prefixLen] is the length of the longest common prefix: the two
    slices agree on their first [prefixLen a b] elements, which both have,
    and on no longer prefix. *)
Theorem prefixLen_longest (a b : list Z) :
  (prefixLen a b <= length a)%nat /\ (prefixLen a b <= length b)%nat /\
  take (prefixLen a b) a = take (prefixLen a b) b /\
  forall m, (m <= length a)%nat -> (m <= length b)%nat ->
            take m a = take m b -> (m <= prefixLen a b)%nat.
Proof.
  split; [apply prefixLen_le_l|]. split; [apply prefixLen_le_r|].
  split; [apply prefixLen_take|].
  revert b. induction a as [|x a IH]; intros [|y b] m Ha Hb Ht;
    cbn [prefixLen length] in *; try lia.
  destruct m as [|m]; [lia|]. cbn [take] in Ht. injection Ht as -> Ht.
  rewrite Z.eqb_refl. apply le_n_S, IH; [lia | lia | exact Ht].
Qed.

(** X7. The hex forms of the keys are prefix-free: when the hex form of
    one key is a prefix of the hex form of another, the two keys are the
    same.  So no key of the trie ends inside the path of another one. *)
Theorem keybytesToHex_prefix_free (k k' : list Z) :
  Forall is_byte k -> Forall is_byte k' ->
  keybytesToHex k `prefix_of` keybytesToHex k' -> k = k'.
Proof.
  intros Hk Hk' [rest Hp].
  destruct (decide (k = k')) as [|Hne]; [assumption|]. exfalso.
  destruct (keybytesToHex_incomparable k k' Hk Hk' Hne) as [Hl _].
  rewrite Hp in Hl. rewrite <- (app_nil_r (keybytesToHex k)) in Hl at 1.
  rewrite prefixLen_app in Hl. lia.
Qed.

Lemma keybytesToHex_prefix_free_witness :
  Forall is_byte [0x64; 0x6f] /\ [0x64; 0x6f] = [0x64; 0x6f].
Proof.
  assert (H : Forall is_byte [0x64; 0x6f])
    by (repeat constructor; vm_compute; congruence).
  split; [exact H|].
  apply (keybytesToHex_prefix_free [0x64; 0x6f] [0x64; 0x6f] H H).
  exists []. reflexivity.
Defined.

(** ** RLP headers, continued ([rlp/encode.go]) *)

Ltac split_ranges i :=
  destruct (Z.ltb_spec i (2 ^ 8)); [|
  destruct (Z.ltb_spec i (2 ^ 16)); [|
  destruct (Z.ltb_spec i (2 ^ 24)); [|
  destruct (Z.ltb_spec i (2 ^ 32)); [|
  destruct (Z.ltb_spec i (2 ^ 40)); [|
  destruct (Z.ltb_spec i (2 ^ 48)); [|
  destruct (Z.ltb_spec i (2 ^ 56))]]]]]].

(** The number of bytes of the big-endian form, by ranges. *)
Lemma bigEndian_length (i : Z) :
  0 < i < 2 ^ 64 ->
  let k := length (Rlp.bigEndian i) in
  (1 <= k <= 8)%nat /\ 256 ^ (Z.of_nat k - 1) <= i < 256 ^ Z.of_nat k.
Proof.
  intros Hi.
  replace (Rlp.bigEndian i) with (Rlp.bigEndian (i ≫ 0)) by (rewrite Z.shiftr_0_r; reflexivity).
  split_ranges i.
  all: be_unfold; cbn [length app]; cbn; norm_pow; lia.
Qed.

Lemma intsize_bigEndian (i : Z) :
  0 < i < 2 ^ 64 -> Rlp.intsize i = Some (length (Rlp.bigEndian i)).
Proof.
  intros Hi.
  replace (Rlp.bigEndian i) with (Rlp.bigEndian (i ≫ 0)) by (rewrite Z.shiftr_0_r; reflexivity).
  unfold Rlp.intsize. cbn [Rlp.intsizeLoop].
  rewrite !Z.shiftr_shiftr by lia. cbn [Z.add Pos.add Pos.succ].
  split_ranges i.
  all: be_unfold; cbn [length app].
  all: repeat match goal with
         | |- context [?x ≫ ?s =? 0] =>
             first [ rewrite (shiftr_zero x s) by be_side; cbn [Z.eqb]
                   | let H := fresh in
                     assert (H : 0 < x ≫ s) by be_side;
                     destruct (Z.eqb_spec (x ≫ s) 0); [lia|]; clear H ]
         end.
  all: reflexivity.
Qed.

Lemma putint_zero (b : list Z) :
  Rlp.putint b 0 = if (length b <? 1)%nat then None else Some (0 :: drop 1 b, 1%nat).
Proof. destruct b; reflexivity. Qed.

(** [putint] panics exactly when the buffer is shorter than the
    big-endian form; otherwise it puts that form at the beginning. *)
Lemma putint_exact (b : list Z) (i : Z) :
  0 < i < 2 ^ 64 ->
  let k := length (Rlp.bigEndian i) in
  Rlp.putint b i =
  if (length b <? k)%nat then None else Some (Rlp.bigEndian i ++ drop k b, k).
Proof.
  intros Hi.
  replace (Rlp.bigEndian i) with (Rlp.bigEndian (i ≫ 0)) by (rewrite Z.shiftr_0_r; reflexivity).
  unfold Rlp.putint.
  split_ranges i.
  all: be_unfold; cbn [length app].
  all: destruct b as [|b0 [|b1 [|b2 [|b3 [|b4 [|b5 [|b6 [|b7 rest]]]]]]]].
  all: reflexivity.
Qed.

Lemma puthead_small (buf : list Z) (smalltag largetag size : Z) :
  size < 56 ->
  Rlp.puthead buf smalltag largetag size =
  if (length buf <? 1)%nat then None
  else Some (byte (smalltag + byte size) :: drop 1 buf, 1%nat).
Proof.
  intros Hs. unfold Rlp.puthead.
  destruct (Z.ltb_spec size 56); [|lia]. destruct buf; reflexivity.
Qed.

Lemma puthead_large (buf : list Z) (smalltag largetag size : Z) :
  56 <= size < 2 ^ 64 ->
  let k := length (Rlp.bigEndian size) in
  Rlp.puthead buf smalltag largetag size =
  if (length buf <? 1 + k)%nat then None
  else Some (byte (largetag + byte (Z.of_nat k)) :: Rlp.bigEndian size ++ drop (1 + k) buf,
             (k + 1)%nat).
Proof.
  intros Hs k. unfold Rlp.puthead.
  destruct (Z.ltb_spec size 56); [lia|].
  destruct buf as [|b0 tl]; [reflexivity|].
  change (length (b0 :: tl) <? 1)%nat with false. cbv iota.
  change (drop 1 (b0 :: tl)) with tl. change (take 1 (b0 :: tl)) with [b0].
  rewrite putint_exact by lia. fold k.
  replace (length (b0 :: tl) <? 1 + k)%nat with (length tl <? k)%nat
    by (cbn [length]; destruct (Nat.ltb_spec (length tl) k),
          (Nat.ltb_spec (S (length tl)) (1 + k)); lia || reflexivity).
  destruct (length tl <? k)%nat; reflexivity.
Qed.

Lemma headsize_bigEndian (size : Z) :
  0 <= size < 2 ^ 64 ->
  Rlp.headsize size =
  Some (if size <? 56 then 1%nat else (1 + length (Rlp.bigEndian size))%nat).
Proof.
  intros Hs. unfold Rlp.headsize. destruct (Z.ltb_spec size 56); [reflexivity|].
  rewrite intsize_bigEndian by lia. reflexivity.
Qed.

(** X8. [intsize] returns the least number of bytes that hold a uint64:
    between 1 and 8, [i < 256^n], and [256^(n-1) <= i] unless [n] is 1. *)
Theorem intsize_minimal (i : Z) :
  0 <= i < 2 ^ 64 ->
  exists n, Rlp.intsize i = Some n /\ (1 <= n <= 8)%nat /\
            i < 256 ^ Z.of_nat n /\ (n = 1%nat \/ 256 ^ (Z.of_nat n - 1) <= i).
Proof.
  intros Hi. destruct (Z.eq_dec i 0) as [-> | Hz].
  - exists 1%nat. repeat split; try reflexivity; try lia.
  - pose proof (bigEndian_length i ltac:(lia)) as [Hk Hr].
    exists (length (Rlp.bigEndian i)). rewrite intsize_bigEndian by lia.
    repeat split; try lia.
Qed.

Lemma intsize_minimal_witness :
  0 <= 65536 < 2 ^ 64 /\
  exists n, Rlp.intsize 65536 = Some n /\ (1 <= n <= 8)%nat /\
            65536 < 256 ^ Z.of_nat n /\ (n = 1%nat \/ 256 ^ (Z.of_nat n - 1) <= 65536).
Proof.
  assert (H : 0 <= 65536 < 2 ^ 64) by lia.
  split; [exact H | apply (intsize_minimal 65536 H)].
Defined.

(** X9. [putint] and [intsize] agree: on a buffer shorter than
    [intsize i] bytes [putint] panics (index out of range); otherwise it
    returns [intsize i], the bytes it wrote are the big-endian digits of
    [i], and the rest of the buffer is untouched. *)
Theorem putint_intsize (b : list Z) (i : Z) :
  0 <= i < 2 ^ 64 ->
  exists n, Rlp.intsize i = Some n /\
    if (length b <? n)%nat then Rlp.putint b i = None
    else exists b', Rlp.putint b i = Some (b', n) /\
                    Rlp.fromBigEndian (take n b') = i /\
                    Forall is_byte (take n b') /\
                    length b' = length b /\
                    drop n b' = drop n b.
Proof.
  intros Hi. destruct (Z.eq_dec i 0) as [-> | Hz].
  - exists 1%nat. split; [reflexivity|]. rewrite putint_zero.
    destruct b as [|b0 tl]; [reflexivity|]. cbn [length Nat.ltb Nat.leb].
    eexists. split; [reflexivity|]. cbn [take drop length]. rewrite drop_0.
    repeat split; try reflexivity. repeat constructor; unfold is_byte; lia.
  - exists (length (Rlp.bigEndian i)). rewrite intsize_bigEndian by lia.
    split; [reflexivity|]. rewrite putint_exact by lia.
    destruct (Nat.ltb_spec (length b) (length (Rlp.bigEndian i))) as [|Hl]; [reflexivity|].
    eexists. split; [reflexivity|].
    rewrite take_app_length, drop_app_length.
    repeat split.
    + apply fromBigEndian_bigEndian. lia.
    + apply bigEndian_bytes. lia.
    + rewrite length_app, length_drop. lia.
Qed.

Lemma putint_intsize_witness :
  0 <= 1024 < 2 ^ 64 /\
  exists n, Rlp.intsize 1024 = Some n /\
    if (length [7; 7; 7] <? n)%nat then Rlp.putint [7; 7; 7] 1024 = None
    else exists b', Rlp.putint [7; 7; 7] 1024 = Some (b', n) /\
                    Rlp.fromBigEndian (take n b') = 1024 /\
                    Forall is_byte (take n b') /\
                    length b' = length [7; 7; 7] /\
                    drop n b' = drop n [7; 7; 7].
Proof.
  assert (H : 0 <= 1024 < 2 ^ 64) by lia.
  split; [exact H | apply (putint_intsize [7; 7; 7] 1024 H)].
Defined.

(** X10. [puthead] and [headsize] agree, for any tags: on a buffer
    shorter than [headsize size] bytes [puthead] panics; otherwise it
    returns [headsize size], at most 9, and changes nothing after the
    header. *)
Theorem puthead_headsize (buf : list Z) (smalltag largetag size : Z) :
  0 <= size < 2 ^ 64 ->
  exists n, Rlp.headsize size = Some n /\ (1 <= n <= 9)%nat /\
    if (length buf <? n)%nat then Rlp.puthead buf smalltag largetag size = None
    else exists buf', Rlp.puthead buf smalltag largetag size = Some (buf', n) /\
                      length buf' = length buf /\
                      drop n buf' = drop n buf.
Proof.
  intros Hs. rewrite headsize_bigEndian by exact Hs.
  eexists. split; [reflexivity|].
  destruct (Z.ltb_spec size 56) as [Hlt | Hge].
  - split; [lia|]. rewrite puthead_small by exact Hlt.
    destruct buf as [|b0 tl]; [reflexivity|]. cbn [length Nat.ltb Nat.leb].
    eexists. split; [reflexivity|]. cbn [drop length]. rewrite drop_0. split; reflexivity.
  - pose proof (bigEndian_length size ltac:(lia)) as [Hk _].
    split; [lia|]. rewrite puthead_large by lia.
    destruct (Nat.ltb_spec (length buf) (1 + length (Rlp.bigEndian size))) as [|Hl];
      [reflexivity|].
    eexists. split; [f_equal; f_equal; lia|].
    cbn [Nat.add drop length]. rewrite drop_app_length.
    split; [|reflexivity]. rewrite length_app, length_drop. lia.
Qed.

Lemma puthead_headsize_witness :
  0 <= 1024 < 2 ^ 64 /\
  exists n, Rlp.headsize 1024 = Some n /\ (1 <= n <= 9)%nat /\
    if (length [0; 0] <? n)%nat then Rlp.puthead [0; 0] 0x80 0xB7 1024 = None
    else exists buf', Rlp.puthead [0; 0] 0x80 0xB7 1024 = Some (buf', n) /\
                      length buf' = length [0; 0] /\
                      drop n buf' = drop n [0; 0].
Proof.
  assert (H : 0 <= 1024 < 2 ^ 64) by lia.
  split; [exact H | apply (puthead_headsize [0; 0] 0x80 0xB7 1024 H)].
Defined.

(** The header bytes [puthead] leaves at the beginning of the buffer. *)
Lemma puthead_bytes (buf buf' : list Z) (smalltag largetag size : Z) (n : nat) :
  0 <= size < 2 ^ 64 ->
  0 <= smalltag <= 0xC0 -> 0 <= largetag <= 0xF7 ->
  Rlp.puthead buf smalltag largetag size = Some (buf', n) ->
  Rlp.headsize size = Some n /\
  take n buf' = if size <? 56 then [smalltag + size]
                else largetag + Z.of_nat (length (Rlp.bigEndian size)) :: Rlp.bigEndian size.
Proof.
  intros Hs Hst Hlt Hp. rewrite headsize_bigEndian by exact Hs.
  destruct (Z.ltb_spec size 56) as [Hsm | Hge].
  - rewrite puthead_small in Hp by exact Hsm.
    destruct (length buf <? 1)%nat; [discriminate|]. injection Hp as <- <-.
    split; [reflexivity|]. cbn [take]. f_equal.
    unfold byte. rewrite (Z.mod_small size) by lia. apply Z.mod_small. lia.
  - pose proof (bigEndian_length size ltac:(lia)) as [Hk _].
    rewrite puthead_large in Hp by lia.
    destruct (length buf <? 1 + length (Rlp.bigEndian size))%nat; [discriminate|].
    injection Hp as <- <-.
    split; [f_equal; lia|].
    replace (length (Rlp.bigEndian size) + 1)%nat with (S (length (Rlp.bigEndian size))) by lia.
    cbn [take]. rewrite take_app_length. f_equal.
    unfold byte. rewrite (Z.mod_small (Z.of_nat _)) by lia. apply Z.mod_small. lia.
Qed.

(** X11. The headers of [puthead] form a prefix code: when the header
    written for one size, with the tags of strings ([0x80], [0xB7]) or of
    lists ([0xC0], [0xF7]), is a prefix of the header written for another,
    the kinds and the sizes are the same.  A decoder can tell where a header
    ends and what it says. *)
Theorem puthead_prefix_free (buf1 buf2 buf1' buf2' : list Z)
    (smalltag1 largetag1 smalltag2 largetag2 size1 size2 : Z) (n1 n2 : nat) :
  0 <= size1 < 2 ^ 64 -> 0 <= size2 < 2 ^ 64 ->
  (smalltag1 = 0x80 /\ largetag1 = 0xB7) \/ (smalltag1 = 0xC0 /\ largetag1 = 0xF7) ->
  (smalltag2 = 0x80 /\ largetag2 = 0xB7) \/ (smalltag2 = 0xC0 /\ largetag2 = 0xF7) ->
  Rlp.puthead buf1 smalltag1 largetag1 size1 = Some (buf1', n1) ->
  Rlp.puthead buf2 smalltag2 largetag2 size2 = Some (buf2', n2) ->
  take n1 buf1' `prefix_of` take n2 buf2' ->
  smalltag1 = smalltag2 /\ largetag1 = largetag2 /\ size1 = size2.
Proof.
  intros Hs1 Hs2 Ht1 Ht2 Hp1 Hp2 [rest Hpre].
  apply puthead_bytes in Hp1 as [_ Hh1]; [|lia..].
  apply puthead_bytes in Hp2 as [_ Hh2]; [|lia..].
  rewrite Hh1, Hh2 in Hpre. clear Hh1 Hh2.
  destruct (Z.ltb_spec size1 56) as [Hsm1 | Hge1], (Z.ltb_spec size2 56) as [Hsm2 | Hge2].
  - injection Hpre as Hb _. lia.
  - pose proof (bigEndian_length size2 ltac:(lia)) as [Hk _].
    injection Hpre as Hb _. lia.
  - pose proof (bigEndian_length size1 ltac:(lia)) as [Hk _].
    injection Hpre as Hb _. lia.
  - pose proof (bigEndian_length size1 ltac:(lia)) as [Hk1 _].
    pose proof (bigEndian_length size2 ltac:(lia)) as [Hk2 _].
    injection Hpre as Hb Hbe.
    assert (Hlen : length (Rlp.bigEndian size1) = length (Rlp.bigEndian size2)) by lia.
    assert (Hrest : rest = []).
    { apply (f_equal length) in Hbe. rewrite length_app in Hbe.
      destruct rest; [reflexivity | cbn [length] in Hbe; lia]. }
    subst rest. rewrite app_nil_r in Hbe.
    split; [lia|]. split; [lia|].
    rewrite <- (fromBigEndian_bigEndian size1), <- (fromBigEndian_bigEndian size2) by lia.
    rewrite Hbe. reflexivity.
Qed.

Lemma puthead_prefix_free_witness :
  0x80 = 0x80 /\ 0xB7 = 0xB7 /\ 1024 = 1024.
Proof.
  apply (puthead_prefix_free (replicate 9 0) (replicate 9 7)
           [0xB9; 4; 0; 0; 0; 0; 0; 0; 0] [0xB9; 4; 0; 7; 7; 7; 7; 7; 7]
           0x80 0xB7 0x80 0xB7 1024 1024 3 3).
  - lia.
  - lia.
  - left. split; reflexivity.
  - left. split; reflexivity.
  - reflexivity.
  - reflexivity.
  - exists []. reflexivity.
Defined.

(** X12. [listhead.encode] on a buffer of at least 9 bytes, for a size
    that fits an [int]: it never panics and returns exactly the header,
    [headsize] bytes long: the byte [0xC0 + size] when [size <= 55],
    otherwise [0xF7 + len(size_BE)] followed by the big-endian digits of the
    size. *)
Theorem listhead_encode_header (head : Rlp.listhead) (buf : list Z) :
  0 <= Rlp.size head < 2 ^ 63 -> (9 <= length buf)%nat ->
  exists h, Rlp.listhead_encode head buf = Some h /\
            Rlp.headsize (Rlp.size head) = Some (length h) /\
            (Rlp.size head <= 55 -> h = [0xC0 + Rlp.size head]) /\
            (55 < Rlp.size head ->
             exists bs, h = 0xF7 + Z.of_nat (length bs) :: bs /\
                        Rlp.fromBigEndian bs = Rlp.size head /\
                        Forall is_byte bs).
Proof.
  intros Hs Hb. unfold Rlp.listhead_encode.
  assert (Hs64 : 0 <= Rlp.size head < 2 ^ 64) by lia.
  rewrite Z.mod_small by exact Hs64.
  destruct (Rlp.puthead buf 0xC0 0xF7 (Rlp.size head)) as [[buf' n]|] eqn:Hp.
  - destruct (puthead_bytes buf buf' 0xC0 0xF7 (Rlp.size head) n Hs64 ltac:(lia) ltac:(lia) Hp)
      as [Hn Hh].
    cbn [mbind option_bind]. exists (take n buf'). split; [reflexivity|].
    assert (Hlen : length (take n buf') = n).
    { rewrite Hh. rewrite headsize_bigEndian in Hn by exact Hs64.
      injection Hn as <-. destruct (Rlp.size head <? 56); reflexivity. }
    rewrite Hlen. split; [exact Hn|]. rewrite Hh.
    destruct (Z.ltb_spec (Rlp.size head) 56); (split; [intros; try lia|intros; try lia]).
    + reflexivity.
    + exists (Rlp.bigEndian (Rlp.size head)). split; [reflexivity|].
      split; [apply fromBigEndian_bigEndian | apply bigEndian_bytes]; lia.
  - exfalso. destruct (Z.ltb_spec (Rlp.size head) 56) as [Hsm | Hge].
    + rewrite puthead_small in Hp by exact Hsm.
      destruct (Nat.ltb_spec (length buf) 1); [lia | discriminate].
    + pose proof (bigEndian_length (Rlp.size head) ltac:(lia)) as [Hk _].
      rewrite puthead_large in Hp by lia.
      destruct (Nat.ltb_spec (length buf) (1 + length (Rlp.bigEndian (Rlp.size head))));
        [lia | discriminate].
Qed.

Lemma listhead_encode_header_witness :
  exists h, Rlp.listhead_encode {| Rlp.offset := 0; Rlp.size := 1024 |} (replicate 9 0) = Some h /\
            h = [0xF9; 4; 0].
Proof.
  destruct (listhead_encode_header {| Rlp.offset := 0; Rlp.size := 1024 |} (replicate 9 0))
    as (h & He & _); [cbn; lia | cbn; lia |].
  exists h. split; [exact He|].
  vm_compute in He. injection He as <-. reflexivity.
Defined.

(** ** The root hash and the operations that change nothing *)

(** X13. [Hash] is idempotent: called again on the trie it leaves, it
    returns the same root hash and leaves that trie as it is. *)
Theorem Hash_idempotent (t th : Trie) (h0 : list Z) :
  Hash t = Ok (h0, th) -> Hash th = Ok (h0, th).
Proof.
  unfold Hash, hashRoot. destruct (isNil (root t)) eqn:Hnil.
  - cbn. intros [= <- <-]. cbn. reflexivity.
  - intros H. inv_bind H as [[hashed cached] t3] Hh. inv_bind Hh as [hashed' cached'] Hh'.
    injection Hh as -> -> <-. destruct hashed; try discriminate. injection H as <- <-.
    apply hash_again in Hh'. destruct Hh' as [Hn Hagain].
    cbn [root setRoot setUnhashed]. rewrite Hn, Hagain. cbn. reflexivity.
Qed.

Lemma Hash_idempotent_witness :
  exists h th,
    Hash (setRoot emptyTrie (shortNode [6; 4; 6; 15; 16] (valueNode [1])
                               {| flagHash := None; flagDirty := true |})) = Ok (h, th) /\
    Hash th = Ok (h, th).
Proof.
  destruct (Hash (setRoot emptyTrie (shortNode [6; 4; 6; 15; 16] (valueNode [1])
                               {| flagHash := None; flagDirty := true |})))
    as [[h th]| | |] eqn:E; [|vm_compute in E; discriminate..].
  exists h, th. split; [reflexivity | exact (Hash_idempotent _ th h E)].
Defined.

Lemma Hash_digest (t t2 : Trie) (h0 : list Z) (t0 : Trie) :
  isNil (root t) = false -> isNil (root t2) = false ->
  (forall hd, digest true (root t) = Ok hd -> digest true (root t2) = Ok hd) ->
  Hash t = Ok (h0, t0) ->
  exists t2', Hash t2 = Ok (h0, t2').
Proof.
  intros Hn Hn2 Hdig H. unfold Hash, hashRoot in H |- *. rewrite Hn in H. rewrite Hn2.
  inv_bind H as [[hashed cached] t3] Hh. inv_bind Hh as [hashed' cached'] Hh'.
  injection Hh as -> -> <-.
  assert (Hd : digest true (root t) = Ok hashed) by (eapply digest_hash_Ok; eauto).
  apply Hdig in Hd. destruct hashed; try discriminate. injection H as <- _.
  apply (digest_hash_Ok (newHasher (100 <=? unhashed t2))) in Hd.
  destruct Hd as [c2 ->]. cbn. eauto.
Qed.

(** X14. Reading does not change the root hash: on a well-formed trie
    (the empty trie, a trie [New] opens over a store that keeps its nodes
    under their hashes, also a small root, and what the operations leave),
    after [TryGet] (which may have put resolved nodes in place of
    references) [Hash] returns the root hash it returns before. *)
Theorem Hash_after_TryGet (fuel : nat) (t t' th : Trie) (k : list Z)
    (v : option (list Z)) (h0 : list Z) :
  wellFormed t ->
  TryGet fuel t k = Ok (v, t') ->
  Hash t = Ok (h0, th) ->
  exists th', Hash t' = Ok (h0, th').
Proof.
  intros (Hdb & Hroot & Hcache) Hget Hh. unfold TryGet in Hget.
  inv_bind Hget as [[value newroot] did] Hg. injection Hget as <- <-.
  assert (Hkind : Canon (db t) (root t) \/ isNil (root t) = true \/ isValue (root t) = true)
    by (destruct Hroot; auto).
  destruct (tryGet_HashOK _ _ _ _ _ _ _ _ true Hdb Hkind Hcache Hg)
    as (Hleaf & Hsame & Hnn & _ & Hdig).
  destruct did; [|eauto].
  destruct (isNil (root t)) eqn:Hn; [specialize (Hleaf (or_introl eq_refl)); discriminate|].
  eapply (Hash_digest t); eauto.
Qed.

Lemma Hash_after_TryGet_witness :
  exists v t' h0 th,
    New zeroHash smallRootHash (Some smallRootDatabase) = Ok smallRootTrie /\
    TryGet 10 smallRootTrie (ascii_bytes "key") = Ok (v, t') /\
    v = Some (ascii_bytes "v") /\
    Hash smallRootTrie = Ok (h0, th) /\
    exists th', Hash t' = Ok (h0, th').
Proof.
  eexists _, _, _, _.
  split; [vm_compute; reflexivity|].
  split; [vm_compute; reflexivity|].
  split; [reflexivity|].
  split; [vm_compute; reflexivity|].
  refine (Hash_after_TryGet 10 smallRootTrie _ _ (ascii_bytes "key") _ _ _ _ _).
  - exact smallRootTrie_wellFormed.
  - vm_compute. reflexivity.
  - vm_compute. reflexivity.
Defined.

(** X15. Deleting a key that is not in a well-formed trie (the empty
    trie, a trie [New] opens over a store that keeps its nodes under their
    hashes, also a small root, and what the operations leave) does not
    change the root hash. *)
Theorem Hash_after_TryDelete_absent (fuel0 fuel : nat) (t t0 t' th : Trie)
    (k h0 : list Z) :
  wellFormed t -> Forall is_byte k ->
  TryGet fuel0 t k = Ok (None, t0) ->
  TryDelete fuel t k = Ok t' ->
  Hash t = Ok (h0, th) ->
  exists th', Hash t' = Ok (h0, th').
Proof.
  intros (Hdb & Hroot & Hcache) Hk Hget Hdel Hh.
  apply TryGet_None_Absent in Hget. unfold TryDelete in Hdel.
  inv_bind Hdel as [d nn] Hd. injection Hdel as <-.
  set (tu := setUnhashed t (unhashed t + 1)) in *.
  change (root tu) with (root t) in Hd.
  destruct (delete_absent fuel tu _ _ _ _ _ Hdb Hroot (keybytesToHex_hexTerm k Hk) Hget Hd)
    as [_ Hnn].
  apply (Hash_Sim t _ h0 th); try assumption; [reflexivity|].
  cbn [root setRoot]. destruct Hnn as [-> | (h & Hn & Hres)].
  - apply sim_refl.
  - rewrite Hn. apply (sim_resolved _ h nn nn Hres). apply sim_refl.
Qed.

Lemma Hash_after_TryDelete_absent_witness :
  exists t0 t' h0 th,
    New zeroHash smallRootHash (Some smallRootDatabase) = Ok smallRootTrie /\
    TryGet 10 smallRootTrie (ascii_bytes "dog") = Ok (None, t0) /\
    TryDelete 10 smallRootTrie (ascii_bytes "dog") = Ok t' /\
    Hash smallRootTrie = Ok (h0, th) /\
    exists th', Hash t' = Ok (h0, th').
Proof.
  eexists _, _, _, _.
  split; [vm_compute; reflexivity|].
  split; [vm_compute; reflexivity|].
  split; [vm_compute; reflexivity|].
  split; [vm_compute; reflexivity|].
  refine (Hash_after_TryDelete_absent 10 10 smallRootTrie _ _ _ (ascii_bytes "dog")
            _ _ _ _ _ _).
  - exact smallRootTrie_wellFormed.
  - repeat constructor; vm_compute; congruence.
  - vm_compute. reflexivity.
  - vm_compute. reflexivity.
  - vm_compute. reflexivity.
Defined.

(** ** [Hash] never fails on a trie in canonical form *)

Lemma hashChildrenWith_total (f : node -> result (node * node)) (ch : list node) :
  Forall (fun c => isNil c = false -> exists r, f c = Ok r) ch ->
  forall i, exists r, hashChildrenWith f i ch = Ok r.
Proof.
  induction 1 as [|c rest Hc _ IH]; intros i; cbn [hashChildrenWith]; [eauto|].
  destruct (IH (S i)) as [[cols cacs] Hr].
  destruct (i <? 16)%nat.
  - destruct (isNil c) eqn:Hn.
    + cbn. rewrite Hr. cbn. eauto.
    + destruct (Hc eq_refl) as [[col cac] Hf]. rewrite Hf. cbn. rewrite Hr. cbn. eauto.
  - cbn. rewrite Hr. cbn. eauto.
Qed.

Lemma hash_total (dbo : option Database) (h : hasher) (n : node) :
  Canon dbo n \/ isValue n = true ->
  forall b, exists hd cached,
    hash h n b = Ok (hd, cached) /\
    (b = true -> isShortOrFull n = true -> isHash hd = true).
Proof.
  induction n as [| v | x | k c fl IH | ch fl IH] using node_induction; intros Hc b.
  - destruct Hc as [Hc | Hc]; [inversion Hc | discriminate].
  - cbn. eexists _, _. split; [reflexivity | discriminate].
  - cbn. eexists _, _. split; [reflexivity | discriminate].
  - cbn [hash]. destruct (flagHash fl) eqn:E.
    { eexists _, _. split; [reflexivity | reflexivity]. }
    assert (Hch : exists r, hashShortNodeChildrenWith (fun c0 => hash h c0 false) k c fl = Ok r).
    { unfold hashShortNodeChildrenWith.
      destruct (hexToCompact_total k) as [ck ->].
      assert (Hcc : isShortOrFull c = true -> Canon dbo c \/ isValue c = true).
      { intros Hsf. destruct Hc as [Hc | Hc]; [|discriminate].
        inversion Hc; subst; [discriminate | auto]. }
      destruct c; eauto.
      all: destruct (IH (Hcc eq_refl) false) as (hd & cached & -> & _); cbn; eauto. }
    destruct Hch as [[collapsed cached] ->]. cbn.
    unfold shortnodeToHash.
    destruct b.
    + rewrite andb_false_r. cbn. eexists _, _. split; [reflexivity | reflexivity].
    + destruct (_ && _); [|cbn; eexists _, _; split; [reflexivity | discriminate]].
      destruct collapsed; eexists _, _; (split; [reflexivity | discriminate]).
  - cbn [hash]. destruct (flagHash fl) eqn:E.
    { eexists _, _. split; [reflexivity | reflexivity]. }
    assert (Hch : exists r, hashFullNodeChildrenWith (fun c0 => hash h c0 false) ch fl = Ok r).
    { unfold hashFullNodeChildrenWith.
      destruct Hc as [Hc | Hc]; [|discriminate].
      inversion Hc as [| | |ch0 fl0 Hlen Hslots Hcount]; subst.
      rewrite Hlen. change (17 <? 16)%nat with false. cbv iota.
      destruct (hashChildrenWith_total (fun c0 => hash h c0 false) ch) with (i := 0%nat)
        as [[cols cacs] ->]; [|cbn; eauto].
      apply Forall_lookup. intros i c Hi Hnn.
      rewrite Forall_lookup in IH.
      destruct (Hslots i c Hi) as [Hn | [[_ Hv] | [_ Hcc]]]; [congruence | |].
      - destruct (IH i c Hi (or_intror Hv) false) as (hd & cached & -> & _). eauto.
      - destruct (IH i c Hi (or_introl Hcc) false) as (hd & cached & -> & _). eauto. }
    destruct Hch as [[collapsed cached] ->]. cbn.
    unfold fullnodeToHash.
    destruct b.
    + rewrite andb_false_r. cbn. eexists _, _. split; [reflexivity | reflexivity].
    + destruct (_ && _); [|cbn; eexists _, _; split; [reflexivity | discriminate]].
      destruct collapsed; eexists _, _; (split; [reflexivity | discriminate]).
Qed.

Lemma BytesToHash_length (b : list Z) : length (BytesToHash b) = 32%nat.
Proof.
  unfold BytesToHash. destruct (Nat.ltb_spec 32 (length b)).
  - rewrite length_app, length_replicate, length_drop. lia.
  - rewrite length_app, length_replicate. lia.
Qed.

(** X16. [Hash] never fails on a trie whose node graph is in canonical
    form (the empty trie, a trie [New] opens over a store of canonical
    nodes, also a small root, and what the operations leave): it returns a
    root hash of 32 bytes, without an error or a panic, and leaves a trie in
    canonical form over the same store, well-formed when the trie was. *)
Theorem Hash_returns (t : Trie) :
  CanonRoot (db t) (root t) ->
  exists h th, Hash t = Ok (h, th) /\ length h = 32%nat /\
               db th = db t /\ CanonRoot (db th) (root th) /\
               (wellFormed t -> wellFormed th).
Proof.
  intros Hroot.
  assert (Hex : exists h th, Hash t = Ok (h, th) /\ length h = 32%nat).
  { unfold Hash, hashRoot.
    destruct Hroot as [Hnil | Hc].
    - rewrite Hnil. cbn. eexists _, _. split; [reflexivity | reflexivity].
    - rewrite (Canon_not_nil _ _ Hc).
      destruct (hash_total (db t) (newHasher (100 <=? unhashed t)) (root t) (or_introl Hc) true)
        as (hd & cached & Hh & Hkind).
      rewrite Hh. cbn.
      assert (Hhd : isHash hd = true).
      { destruct (root t) eqn:Er; try (apply Hkind; reflexivity).
        - inversion Hc.
        - inversion Hc.
        - cbn in Hh. injection Hh as <- _. reflexivity. }
      destruct hd; try discriminate.
      eexists _, _. split; [reflexivity | apply BytesToHash_length]. }
  destruct Hex as (h & th & Hh & Hlen). exists h, th.
  split; [exact Hh|]. split; [exact Hlen|].
  pose proof (Hash_db _ _ _ Hh) as Hdbeq.
  split; [exact Hdbeq|]. split; [|eapply Hash_wellFormed; eauto].
  rewrite Hdbeq. apply (Hash_keeps _ _ _ Hh), Hroot.
Qed.

Lemma Hash_returns_witness :
  New zeroHash smallRootHash (Some smallRootDatabase) = Ok smallRootTrie /\
  exists h th, Hash smallRootTrie = Ok (h, th) /\ length h = 32%nat /\
               db th = db smallRootTrie /\ CanonRoot (db th) (root th) /\
               (wellFormed smallRootTrie -> wellFormed th).
Proof.
  split; [vm_compute; reflexivity|].
  apply (Hash_returns smallRootTrie).
  apply smallRootTrie_wellFormed.
Defined.

(** ** The errors of the operations *)

Lemma bind_Err {A B} (r : result A) (f : A -> result B) (e : MissingNodeError) :
  r ≫= f = Err e -> r = Err e \/ exists a, r = Ok a /\ f a = Err e.
Proof. destruct r; cbn; try discriminate; [eauto | intros [= ->]; auto]. Qed.

Lemma index_not_Err (s : list Z) (i : nat) (e : MissingNodeError) : index s i <> Err e.
Proof. unfold index. destruct (s !! i); discriminate. Qed.

Lemma child_not_Err (ch : list node) (i : Z) (e : MissingNodeError) : child ch i <> Err e.
Proof. unfold child. destruct (_ || _); [discriminate|]. destruct (ch !! _); discriminate. Qed.

Lemma setChild_not_Err (ch : list node) (i : Z) (x : node) (e : MissingNodeError) :
  setChild ch i x <> Err e.
Proof.
  unfold setChild. destruct (_ || _); [discriminate|]. destruct (_ <? _)%nat; discriminate.
Qed.

(** What a missing-node error of the handle [t] says. *)
Lemma resolveHash_Err (t : Trie) (h prefix : list Z) (e : MissingNodeError) :
  resolveHash t h prefix = Err e ->
  Owner e = owner t /\ Path e = prefix /\ NodeHash e = BytesToHash h /\
  exists d, db t = Some d /\
            (dbNode d (NodeHash e) = None \/ dbNode d (NodeHash e) = Some nilNode).
Proof.
  unfold resolveHash. destruct (db t) as [d|]; [|discriminate].
  destruct (dbNode d (BytesToHash h)) as [n|] eqn:E.
  - destruct n; try discriminate. intros [= <-]. cbn. eauto 10.
  - intros [= <-]. cbn. eauto 10.
Qed.

Lemma tryGet_Err (fuel : nat) : forall t n key pos e,
  tryGet fuel t n key pos = Err e ->
  Owner e = owner t /\ (exists p, Path e = take p key) /\
  length (NodeHash e) = 32%nat /\
  exists d, db t = Some d /\
            (dbNode d (NodeHash e) = None \/ dbNode d (NodeHash e) = Some nilNode).
Proof.
  induction fuel as [|fuel IH]; intros t n key pos e H; [discriminate|].
  destruct n as [| v | h | nKey nVal fl | ch fl]; cbn [tryGet] in H; try discriminate.
  - apply bind_Err in H as [H | (c & Hc & H)].
    + apply resolveHash_Err in H as (Ho & Hp & Hn & Hd).
      split; [exact Ho|]. split; [eauto|]. split; [|exact Hd].
      rewrite Hn. apply BytesToHash_length.
    + apply bind_Err in H as [H | ([[value newnode] did] & _ & H)]; [eauto | discriminate].
  - destruct (_ || _); [discriminate|].
    apply bind_Err in H as [H | ([[value newnode] did] & _ & H)]; [eauto | discriminate].
  - apply bind_Err in H as [H | (k & _ & H)]; [exfalso; eapply index_not_Err; eauto|].
    apply bind_Err in H as [H | (c & _ & H)]; [exfalso; eapply child_not_Err; eauto|].
    apply bind_Err in H as [H | ([[value newnode] did] & _ & H)]; [eauto|].
    destruct did; [|discriminate].
    apply bind_Err in H as [H | (ch' & _ & H)]; [exfalso; eapply setChild_not_Err; eauto|].
    discriminate.
Qed.

Lemma take_take_drop_add (m p : nat) (l : list Z) :
  take m l ++ take p (drop m l) = take (m + p) l.
Proof.
  revert l. induction m as [|m IH]; intros l; [reflexivity|].
  destruct l as [|x l]; [destruct p; reflexivity|].
  cbn [take drop app Nat.add]. f_equal. apply IH.
Qed.

Lemma insert_nil_not_Err (fuel : nat) (t : Trie) (prefix key : list Z) (value : node)
    (e : MissingNodeError) :
  insert fuel t nilNode prefix key value <> Err e.
Proof. destruct fuel; cbn; [discriminate|]. destruct (_ =? _)%nat; discriminate. Qed.

Ltac not_Err H :=
  exfalso;
  first [ eapply index_not_Err; exact H
        | eapply child_not_Err; exact H
        | eapply setChild_not_Err; exact H
        | eapply insert_nil_not_Err; exact H ].

Lemma insert_Err (fuel : nat) : forall t n prefix key value e,
  insert fuel t n prefix key value = Err e ->
  Owner e = owner t /\ (exists p, Path e = prefix ++ take p key) /\
  length (NodeHash e) = 32%nat /\
  exists d, db t = Some d /\
            (dbNode d (NodeHash e) = None \/ dbNode d (NodeHash e) = Some nilNode).
Proof.
  induction fuel as [|fuel IH]; intros t n prefix key value e H; [discriminate|].
  cbn [insert] in H. destruct (length key =? 0)%nat.
  { destruct n; try discriminate. destruct value; discriminate. }
  destruct n as [| v | h | nKey nVal fl | ch fl]; try discriminate.
  - apply bind_Err in H as [H | (rn & _ & H)].
    + apply resolveHash_Err in H as (Ho & Hp & Hn & Hd).
      split; [exact Ho|]. split; [exists 0%nat; rewrite take_0, app_nil_r; exact Hp|].
      split; [|exact Hd]. rewrite Hn. apply BytesToHash_length.
    + apply bind_Err in H as [H | ([d nn] & _ & H)]; [eauto|].
      destruct (negb d); discriminate.
  - destruct (_ =? _)%nat.
    + apply bind_Err in H as [H | ([d nn] & _ & H)].
      * apply IH in H as (Ho & [p Hp] & Hrest). split; [exact Ho|]. split; [|exact Hrest].
        exists (prefixLen key nKey + p)%nat.
        rewrite Hp, <- app_assoc, take_take_drop_add. reflexivity.
      * destruct (negb d); discriminate.
    + apply bind_Err in H as [H | (i1 & _ & H)]; [not_Err H|].
      apply bind_Err in H as [H | ([d1 c1] & _ & H)]; [not_Err H|].
      apply bind_Err in H as [H | (b1 & _ & H)]; [not_Err H|].
      apply bind_Err in H as [H | (i2 & _ & H)]; [not_Err H|].
      apply bind_Err in H as [H | ([d2 c2] & _ & H)]; [not_Err H|].
      apply bind_Err in H as [H | (b2 & _ & H)]; [not_Err H|].
      destruct (_ =? _)%nat; discriminate.
  - apply bind_Err in H as [H | (k & Hk & H)]; [not_Err H|].
    apply bind_Err in H as [H | (c & _ & H)]; [not_Err H|].
    apply bind_Err in H as [H | ([d nn] & _ & H)].
    + apply IH in H as (Ho & [p Hp] & Hrest). split; [exact Ho|]. split; [|exact Hrest].
      exists (1 + p)%nat. rewrite Hp, <- app_assoc. f_equal.
      apply index_Ok in Hk. destruct key as [|x key]; [discriminate|].
      injection Hk as ->. reflexivity.
    + destruct (negb d); [discriminate|].
      apply bind_Err in H as [H | (ch' & _ & H)]; [not_Err H | discriminate].
Qed.

Lemma delete_Err (fuel : nat) : forall t n prefix key e,
  delete fuel t n prefix key = Err e ->
  Owner e = owner t /\ (exists p, Path e = prefix ++ take p key) /\
  length (NodeHash e) = 32%nat /\
  exists d, db t = Some d /\
            (dbNode d (NodeHash e) = None \/ dbNode d (NodeHash e) = Some nilNode).
Proof.
  induction fuel as [|fuel IH]; intros t n prefix key e H; [discriminate|].
  cbn [delete] in H.
  destruct n as [| v | h | nKey nVal fl | ch fl]; try discriminate.
  - apply bind_Err in H as [H | (rn & _ & H)].
    + apply resolveHash_Err in H as (Ho & Hp & Hn & Hd).
      split; [exact Ho|]. split; [exists 0%nat; rewrite take_0, app_nil_r; exact Hp|].
      split; [|exact Hd]. rewrite Hn. apply BytesToHash_length.
    + apply bind_Err in H as [H | ([d nn] & _ & H)]; [eauto|].
      destruct (negb d); discriminate.
  - destruct (_ <? _)%nat; [discriminate|]. destruct (_ =? _)%nat; [discriminate|].
    apply bind_Err in H as [H | ([d c] & _ & H)].
    + apply IH in H as (Ho & [p Hp] & Hrest). split; [exact Ho|]. split; [|exact Hrest].
      exists (length nKey + p)%nat.
      rewrite Hp, <- app_assoc, take_take_drop_add. reflexivity.
    + destruct (negb d); [discriminate|]. destruct c; discriminate.
  - apply bind_Err in H as [H | (k & Hk & H)]; [not_Err H|].
    apply bind_Err in H as [H | (c & _ & H)]; [not_Err H|].
    apply bind_Err in H as [H | ([d nn] & _ & H)].
    + apply IH in H as (Ho & [p Hp] & Hrest). split; [exact Ho|]. split; [|exact Hrest].
      exists (1 + p)%nat. rewrite Hp, <- app_assoc. f_equal.
      apply index_Ok in Hk. destruct key as [|x key]; [discriminate|].
      injection Hk as ->. reflexivity.
    + destruct (negb d); [discriminate|].
      apply bind_Err in H as [H | (ch' & _ & H)]; [not_Err H|].
      destruct (negb (isNil nn)); [discriminate|].
      destruct (0 <=? _); [|discriminate].
      apply bind_Err in H as [H | (c' & _ & H)]; [not_Err H|].
      apply bind_Err in H as [H | (cnode & _ & H)].
      * destruct (negb _); [|discriminate].
        destruct c'; try discriminate. cbn [resolve] in H.
        apply resolveHash_Err in H as (Ho & Hp & Hn & Hd).
        split; [exact Ho|]. split; [exists 0%nat; rewrite take_0, app_nil_r; exact Hp|].
        split; [|exact Hd]. rewrite Hn. apply BytesToHash_length.
      * destruct (negb _); [|discriminate]. destruct cnode; discriminate.
Qed.

(** X17. The error of [TryGet] is a missing node of this trie: it carries
    the owner of the trie, a hash of 32 bytes under which the store of the
    trie holds no node, and as path a prefix of the hex form of the key. *)
Theorem TryGet_error (fuel : nat) (t : Trie) (k : list Z) (e : MissingNodeError) :
  TryGet fuel t k = Err e ->
  Owner e = owner t /\ Path e `prefix_of` keybytesToHex k /\
  length (NodeHash e) = 32%nat /\
  exists d, db t = Some d /\
            (dbNode d (NodeHash e) = None \/ dbNode d (NodeHash e) = Some nilNode).
Proof.
  unfold TryGet. intros H.
  apply bind_Err in H as [H | ([[value newroot] did] & _ & H)]; [|discriminate].
  apply tryGet_Err in H as (Ho & [p Hp] & Hrest).
  split; [exact Ho|]. split; [|exact Hrest].
  rewrite Hp. exists (drop p (keybytesToHex k)). symmetry. apply take_drop.
Qed.

Lemma TryGet_error_witness :
  exists e,
    TryGet 10 {| db := Some emptyDatabase; root := hashNode storedHash;
                 owner := zeroHash; unhashed := 0 |} [0x12] = Err e /\
    Owner e = zeroHash /\ NodeHash e = storedHash /\ Path e = [].
Proof.
  eexists. split; [vm_compute; reflexivity|].
  split; [|split; reflexivity].
  refine (proj1 (TryGet_error 10 {| db := Some emptyDatabase; root := hashNode storedHash;
                                    owner := zeroHash; unhashed := 0 |} [0x12] _ _)).
  vm_compute. reflexivity.
Defined.

(** X18. The error of [TryUpdate] and of [TryDelete] is a missing node of
    this trie as well: the owner of the trie, a hash of 32 bytes that the
    store does not hold, and a prefix of the hex form of the key as path;
    whether the key is inserted (a value that is not empty) or deleted. *)
Theorem TryUpdate_TryDelete_error (fuel : nat) (t : Trie) (k v : list Z)
    (e : MissingNodeError) :
  TryUpdate fuel t k v = Err e \/ TryDelete fuel t k = Err e ->
  Owner e = owner t /\ Path e `prefix_of` keybytesToHex k /\
  length (NodeHash e) = 32%nat /\
  exists d, db t = Some d /\
            (dbNode d (NodeHash e) = None \/ dbNode d (NodeHash e) = Some nilNode).
Proof.
  assert (Hfin : forall t' : Trie, db t' = db t -> owner t' = owner t ->
    (Owner e = owner t' /\ (exists p, Path e = [] ++ take p (keybytesToHex k)) /\
     length (NodeHash e) = 32%nat /\
     exists d, db t' = Some d /\
               (dbNode d (NodeHash e) = None \/ dbNode d (NodeHash e) = Some nilNode)) ->
    Owner e = owner t /\ Path e `prefix_of` keybytesToHex k /\
    length (NodeHash e) = 32%nat /\
    exists d, db t = Some d /\
              (dbNode d (NodeHash e) = None \/ dbNode d (NodeHash e) = Some nilNode)).
  { intros t' Hdb Hown (Ho & [p Hp] & Hlen & Hd). rewrite Hdb in Hd. rewrite Hown in Ho.
    split; [exact Ho|]. split; [|split; assumption].
    rewrite Hp. exists (drop p (keybytesToHex k)). symmetry. apply take_drop. }
  unfold TryUpdate, TryDelete. intros [H | H].
  - destruct (negb _).
    + apply bind_Err in H as [H | ([d nn] & _ & H)]; [|discriminate].
      apply insert_Err in H. revert H. apply Hfin; reflexivity.
    + apply bind_Err in H as [H | ([d nn] & _ & H)]; [|discriminate].
      apply delete_Err in H. revert H. apply Hfin; reflexivity.
  - apply bind_Err in H as [H | ([d nn] & _ & H)]; [|discriminate].
    apply delete_Err in H. revert H. apply Hfin; reflexivity.
Qed.

Lemma TryUpdate_TryDelete_error_witness :
  exists e,
    TryUpdate 10 {| db := Some emptyDatabase; root := hashNode storedHash;
                    owner := zeroHash; unhashed := 0 |} [0x12] [1] = Err e /\
    Owner e = zeroHash /\ NodeHash e = storedHash /\ Path e = [].
Proof.
  eexists. split; [vm_compute; reflexivity|].
  split; [|split; reflexivity].
  refine (proj1 (TryUpdate_TryDelete_error 10
                   {| db := Some emptyDatabase; root := hashNode storedHash;
                      owner := zeroHash; unhashed := 0 |} [0x12] [1] _ _)).
  left. vm_compute. reflexivity.
Defined.

(** ** Proof hashing *)

Lemma toHash_encode (h : hasher) (a b : node) (hn : list Z) :
  encode a = encode b ->
  shortnodeToHash h a false = hashNode hn ->
  isShortOrFull a = true ->
  shortnodeToHash h b false = hashNode hn.
Proof.
  unfold shortnodeToHash. intros <- H Ha.
  destruct (_ && _); [|exact H]. subst a. discriminate.
Qed.

(** What [hash] returns for a short or full node with no cached hash. *)
Lemma hash_uncached_collapse (h : hasher) (n : node) (b : bool) (hd cached : node) :
  isShortOrFull n = true -> fst (cache n) = None ->
  hash h n b = Ok (hd, cached) ->
  exists c, collapse h n = Ok c /\ hd = shortnodeToHash h c b.
Proof.
  destruct n as [| v | x | k c fl | ch fl]; try discriminate; intros _ Hfl H;
    cbn [cache fst] in Hfl; cbn [hash] in H; rewrite Hfl in H;
    inv_bind H as [collapsed cached0] Hc; cbn [collapse];
    unfold hashShortNodeChildren, hashFullNodeChildren; rewrite Hc; cbn;
    exists collapsed; (split; [reflexivity|]).
  - destruct (shortnodeToHash h collapsed b); injection H as <- _; reflexivity.
  - change (shortnodeToHash h collapsed b) with (fullnodeToHash h collapsed b).
    destruct (fullnodeToHash h collapsed b); injection H as <- _; reflexivity.
Qed.

(** X19. [proofHash] agrees with [hash]: for a node whose cached hashes
    are consistent, the hashed node [proofHash] returns is the one [hash]
    returns without [force], although [proofHash] does not read the cached
    hash of the node; for a short or full node it is the collapsed node
    itself when that encodes in fewer than 32 bytes, and the hash of the
    encoding otherwise. *)
Theorem proofHash_hash (h : hasher) (n hd cached : node) :
  CacheOK false n ->
  hash h n false = Ok (hd, cached) ->
  exists collapsed,
    proofHash h n = Ok (collapsed, hd) /\
    (isShortOrFull n = true ->
     hd = if (length (encode collapsed) <? 32)%nat then collapsed
          else hashData (encode collapsed)).
Proof.
  intros Hc Hh.
  destruct (isShortOrFull n) eqn:Hsf.
  2:{ destruct n; try discriminate; cbn in Hh |- *; injection Hh as <- _;
        eexists; (split; [reflexivity | discriminate]). }
  assert (Hp : forall c, collapse h n = Ok c ->
            proofHash h n = Ok (c, shortnodeToHash h c false)).
  { intros c Hcol. destruct n; try discriminate; cbn [collapse proofHash] in *;
      inv_bind Hcol as [col cac] Hcc; injection Hcol as <-; rewrite Hcc; reflexivity. }
  assert (Hunf : forall c, shortnodeToHash h c false =
            if (length (encode c) <? 32)%nat then c else hashData (encode c)).
  { intros c. unfold shortnodeToHash. rewrite andb_true_r. reflexivity. }
  destruct (fst (cache n)) as [hn|] eqn:Hfl.
  - assert (Hhd : hd = hashNode hn).
    { destruct n; try discriminate; cbn [cache fst] in Hfl; cbn [hash] in Hh;
        rewrite Hfl in Hh; injection Hh as <- _; reflexivity. }
    subst hd.
    assert (Hd : digest false (setFlagHash n None) = Ok (hashNode hn)).
    { apply digest_uncached; [exact Hc|]. eapply digest_hash_Ok; eauto. }
    apply (digest_hash_Ok h) in Hd. destruct Hd as [cached0 Hd].
    apply hash_uncached_collapse in Hd as (c0 & Hc0 & Hhd);
      [|destruct n; try discriminate; reflexivity..].
    destruct (collapse_uncached h n c0 Hc0) as (c & Hcol & Henc).
    assert (Hk0 : isShortOrFull c0 = true).
    { eapply collapse_kind; [|exact Hc0]. destruct n; try discriminate; reflexivity. }
    assert (Hto : shortnodeToHash h c false = hashNode hn).
    { apply (toHash_encode h c0 c hn); auto. }
    exists c. rewrite (Hp c Hcol), Hto. split; [reflexivity|]. intros _.
    rewrite <- Hunf. symmetry. exact Hto.
  - apply hash_uncached_collapse in Hh as (c & Hcol & Hhd); [|assumption..].
    exists c. rewrite (Hp c Hcol), Hhd. split; [reflexivity|]. intros _. apply Hunf.
Qed.

Lemma proofHash_hash_witness :
  exists collapsed,
    proofHash (newHasher false)
      (shortNode [6; 4; 6; 15; 16] (valueNode [1]) {| flagHash := None; flagDirty := true |})
    = Ok (collapsed, collapsed) /\
    collapsed = shortNode [0x20; 0x64; 0x6f] (valueNode [1])
                  {| flagHash := None; flagDirty := true |}.
Proof.
  destruct (proofHash_hash (newHasher false)
              (shortNode [6; 4; 6; 15; 16] (valueNode [1])
                 {| flagHash := None; flagDirty := true |})
              (shortNode [0x20; 0x64; 0x6f] (valueNode [1])
                 {| flagHash := None; flagDirty := true |})
              (shortNode [6; 4; 6; 15; 16] (valueNode [1])
                 {| flagHash := None; flagDirty := true |}))
    as (collapsed & Hp & _).
  - constructor; [constructor | discriminate].
  - vm_compute. reflexivity.
  - exists collapsed. vm_compute in Hp. injection Hp as <-. split; reflexivity.
Defined.

(** ** What [tryGet] finds is in the trie *)

(** The test of [tryGet] at a short node: the key goes on with the key of
    the node. *)
Lemma short_match (key nKey : list Z) (pos : nat) :
  (Z.of_nat (length key) - Z.of_nat pos <? Z.of_nat (length nKey))
  || negb (bytesEqual nKey (take (length nKey) (drop pos key))) = false ->
  drop pos key = nKey ++ drop (pos + length nKey) key.
Proof.
  intros H. apply orb_false_elim in H as [_ H]. apply negb_false_iff in H.
  apply bytesEqual_true in H. rewrite <- drop_drop.
  rewrite H at 1. symmetry. apply take_drop.
Qed.

Lemma tryGet_leaf (fuel : nat) (t : Trie) (n : node) (key : list Z) (pos : nat)
    (v : list Z) (newnode : node) (did : bool) :
  isNil n = true \/ isValue n = true ->
  tryGet fuel t n key pos = Ok (Some v, newnode, did) ->
  n = valueNode v.
Proof.
  destruct fuel; [discriminate|].
  intros [Hn | Hn]; destruct n; try discriminate; cbn; congruence.
Qed.

Lemma tryGet_sound (fuel : nat) : forall t n key pos v newnode did,
  dbCanon (db t) -> hexTerm (drop pos key) -> Canon (db t) n ->
  tryGet fuel t n key pos = Ok (Some v, newnode, did) ->
  HasPath (db t) n (drop pos key) v.
Proof.
  induction fuel as [|fuel IH]; intros t n key pos v newnode did Hdb Hkey Hc H;
    [discriminate|].
  cbn [tryGet] in H.
  inversion Hc as [h | k v0 fl Hk | k c fl Hk Hbr Hcc | ch fl Hlen Hslots Hcount]; subst.
  - inv_bind H as rn Hres. inv_bind H as [[value nn] did'] Hg. injection H as -> _ _.
    apply resolveHash_Ok in Hres. destruct (Hdb _ _ Hres) as [_ Hcr].
    eapply path_hash; eauto.
  - destruct (_ || _) eqn:Hm; [discriminate|].
    apply short_match in Hm.
    inv_bind H as [[value nn] did'] Hg. injection H as -> _ _.
    apply tryGet_leaf in Hg; [|right; reflexivity]. injection Hg as ->.
    rewrite Hm in Hkey. apply (hexTerm_app_term _ _ Hk) in Hkey.
    rewrite Hm, Hkey. apply path_short. constructor.
  - destruct (_ || _) eqn:Hm; [discriminate|].
    apply short_match in Hm.
    inv_bind H as [[value nn] did'] Hg. injection H as -> _ _.
    rewrite Hm in Hkey |- *. apply (hexTerm_app_body _ _ Hk) in Hkey.
    apply path_short. eapply IH; eauto.
  - inv_bind H as k Hk. inv_bind H as c Hch. inv_bind H as [[value nn] did'] Hg.
    assert (Hv : value = Some v).
    { destruct did'; [inv_bind H as ch' Hset|]; injection H as -> _ _; reflexivity. }
    subst value. clear H.
    apply index_Ok in Hk. apply child_Ok in Hch as [Hrange Hch].
    pose proof (drop_S _ _ _ Hk) as Hd. rewrite Hd in Hkey |- *.
    replace (pos + 1)%nat with (S pos) in Hg by lia.
    apply hexTerm_cons in Hkey.
    destruct (Hslots _ _ Hch) as [Hn | [[Hi Hval] | [Hi Hcc]]].
    + apply tryGet_leaf in Hg; [|auto]. subst c. discriminate.
    + apply tryGet_leaf in Hg; [|auto]. subst c.
      destruct Hkey as [[_ ->] | [Hnib _]].
      * eapply path_full; eauto. constructor.
      * exfalso. unfold is_nibble in Hnib. lia.
    + destruct Hkey as [[-> _] | [Hnib Hrest]]; [exfalso; apply Hi; reflexivity|].
      eapply path_full; eauto.
Qed.

(** ** [tryGet] returns *)

Lemma returns_bind {A B} (r : result A) (f : A -> result B) :
  returns r -> (forall a, r = Ok a -> returns (f a)) -> returns (r ≫= f).
Proof. destruct r; cbn; auto. Qed.

Lemma tryGet_leaf_returns (fuel : nat) (t : Trie) (n : node) (key : list Z) (pos : nat) :
  isNil n = true \/ isValue n = true -> (1 <= fuel)%nat ->
  returns (tryGet fuel t n key pos).
Proof.
  destruct fuel; [lia|]. intros [Hn | Hn] _; destruct n; try discriminate; exact I.
Qed.

Lemma resolveHash_returns (t : Trie) (h prefix : list Z) :
  db t <> None -> returns (resolveHash t h prefix).
Proof.
  intros Hdb. unfold resolveHash. destruct (db t) as [d|]; [|congruence].
  destruct (dbNode d _) as [[]|]; exact I.
Qed.

Lemma tryGet_returns (fuel : nat) : forall t n key pos,
  db t <> None -> dbCanon (db t) -> hexTerm (drop pos key) -> Canon (db t) n ->
  (4 * (length key - pos) + 4 <= fuel \/
   (isShortOrFull n = true /\ 4 * (length key - pos) + 3 <= fuel) \/
   (isBranch (db t) n /\ 4 * (length key - pos) + 2 <= fuel) \/
   (isFull n = true /\ 4 * (length key - pos) + 1 <= fuel))%nat ->
  returns (tryGet fuel t n key pos).
Proof.
  induction fuel as [|fuel IH]; intros t n key pos Hsome Hdb Hkey Hc Hw; [lia|].
  cbn [tryGet].
  assert (Hrem : (1 <= length key - pos)%nat).
  { rewrite <- length_drop. destruct (drop pos key); [|cbn; lia].
    exfalso. apply hexTerm_not_nil, Hkey. }
  inversion Hc as [h | k v0 fl Hk | k c fl Hk Hbr Hcc | ch fl Hlen Hslots Hcount]; subst.
  - apply returns_bind; [apply resolveHash_returns, Hsome|]. intros rn Hres.
    apply resolveHash_Ok in Hres. destruct (Hdb _ _ Hres) as [Hsf Hcr].
    apply returns_bind; [|intros [[value nn] did'] _; exact I].
    apply IH; try assumption.
    destruct Hw as [Hw | [[Hw _] | [[Hbr Hw] | [Hw _]]]]; try discriminate.
    + right. left. split; [exact Hsf | lia].
    + right. right. right. split; [apply (Hbr _ Hres) | lia].
  - destruct (_ || _) eqn:Hm; [exact I|].
    apply returns_bind; [|intros [[value nn] did'] _; exact I].
    apply tryGet_leaf_returns; [right; reflexivity|].
    destruct Hw as [Hw | [[_ Hw] | [[[] _] | [Hw _]]]]; try discriminate; lia.
  - destruct (_ || _) eqn:Hm; [exact I|].
    apply short_match in Hm.
    apply returns_bind; [|intros [[value nn] did'] _; exact I].
    rewrite Hm in Hkey. apply (hexTerm_app_body _ _ Hk) in Hkey.
    apply IH; try assumption.
    right. right. left. split; [exact Hbr|].
    destruct Hw as [Hw | [[_ Hw] | [[[] _] | [Hw _]]]]; try discriminate; lia.
  - assert (Hlt : (pos < length key)%nat) by lia.
    destruct (lookup_lt_is_Some_2 key pos Hlt) as [k Hk].
    assert (Hik : index key pos = Ok k) by (apply index_Ok, Hk). rewrite Hik. cbn.
    pose proof (drop_S _ _ _ Hk) as Hd. rewrite Hd in Hkey.
    apply hexTerm_cons in Hkey.
    assert (Hrange : 0 <= k < 17).
    { destruct Hkey as [[-> _] | [Hnib _]]; [lia | unfold is_nibble in Hnib; lia]. }
    destruct (lookup_lt_is_Some_2 ch (Z.to_nat k) ltac:(lia)) as [c Hch].
    assert (Hcc : child ch k = Ok c) by (apply child_Ok; auto). rewrite Hcc. cbn.
    replace (pos + 1)%nat with (S pos) by lia.
    assert (Hf : (4 * (length key - S pos) + 4 <= fuel)%nat).
    { destruct Hw as [Hw | [[_ Hw] | [[_ Hw] | [_ Hw]]]]; lia. }
    apply returns_bind.
    + destruct (Hslots _ _ Hch) as [Hn | [[Hi Hval] | [Hi Hcan]]].
      * apply tryGet_leaf_returns; [auto | lia].
      * apply tryGet_leaf_returns; [auto | lia].
      * destruct Hkey as [[-> _] | [Hnib Hrest]]; [exfalso; apply Hi; reflexivity|].
        apply IH; try assumption. left. exact Hf.
    + intros [[value nn] did'] _. destruct did'; [|exact I].
      assert (Hset : exists ch', setChild ch k nn = Ok ch').
      { eexists. apply setChild_Ok. split; [exact Hrange|]. split; [lia | reflexivity]. }
      destruct Hset as [ch' ->]. exact I.
Qed.

(** ** [delete] removes the key *)

Lemma Absent_unchanged (dbo : option Database) (n nn : node) (key : list Z) :
  nn = n \/ (exists h, n = hashNode h /\ resolves dbo h nn) ->
  Absent dbo nn key -> Absent dbo n key.
Proof.
  intros [-> | (h & -> & Hres)] Habs; [exact Habs|].
  intros v Hp. inversion Hp as [| | |h0 n0 key0 v0 Hr Hp0]; subst.
  pose proof (resolves_fun _ _ _ _ Hr Hres) as ->. eapply Habs; eauto.
Qed.

Lemma Absent_nil (dbo : option Database) (key : list Z) : Absent dbo nilNode key.
Proof. intros v Hp. inversion Hp. Qed.

Lemma prefixLen_app_l (k rest : list Z) : prefixLen (k ++ rest) k = length k.
Proof.
  rewrite <- (app_nil_r k) at 2. rewrite prefixLen_app.
  destruct rest; cbn; lia.
Qed.

Lemma HasPath_short_inv (dbo : option Database) (k : list Z) (c : node) (fl : nodeFlag)
    (key v : list Z) :
  HasPath dbo (shortNode k c fl) key v ->
  exists rest, key = k ++ rest /\ HasPath dbo c rest v.
Proof. intros Hp. inversion Hp; subst. eauto. Qed.

Lemma HasPath_full_inv (dbo : option Database) (ch : list node) (fl : nodeFlag)
    (key v : list Z) :
  HasPath dbo (fullNode ch fl) key v ->
  exists i c rest, key = i :: rest /\ 0 <= i < 17 /\ ch !! Z.to_nat i = Some c /\
                   HasPath dbo c rest v.
Proof. intros Hp. inversion Hp; subst. eauto 10. Qed.

Lemma delete_removes (fuel : nat) : forall t n prefix key d nn,
  dbCanon (db t) -> CanonRoot (db t) n -> hexTerm key ->
  delete fuel t n prefix key = Ok (d, nn) ->
  Absent (db t) nn key /\
  (d = false -> nn = n \/ exists h, n = hashNode h /\ resolves (db t) h nn).
Proof.
  induction fuel as [|fuel IH]; intros t n prefix key d nn Hdb Hn Hkey H;
    [discriminate|].
  cbn [delete] in H.
  destruct Hn as [Hnil | Hc].
  { destruct n; try discriminate. injection H as <- <-. split; [apply Absent_nil | auto]. }
  inversion Hc as [h | nKey v0 fl Hk | nKey c fl Hk Hb Hcc | ch fl Hlen Hslots Hcount];
    subst.
  - (* hash node *)
    inv_bind H as rn Hres. apply resolveHash_Ok in Hres.
    destruct (Hdb _ _ Hres) as [Hsf Hrn].
    inv_bind H as [dirty nn'] Hdel.
    eapply IH in Hdel; [|exact Hdb|right; exact Hrn|exact Hkey].
    destruct Hdel as [Habs Hun].
    destruct dirty; cbn [negb] in H; injection H as <- <-.
    + split; [exact Habs | discriminate].
    + split; [|intros _; right; eauto].
      destruct (Hun eq_refl) as [-> | (h' & -> & _)]; [exact Habs | discriminate].
  - (* leaf *)
    cbv zeta in H.
    destruct (Nat.ltb_spec (prefixLen key nKey) (length nKey)) as [Hlt | Hge].
    { injection H as <- <-. split; [|auto].
      intros v Hp. apply HasPath_short_inv in Hp as (r & -> & _).
      rewrite prefixLen_app_l in Hlt. lia. }
    assert (Hm : prefixLen key nKey = length nKey)
      by (pose proof (prefixLen_le_r key nKey); lia).
    pose proof (prefixLen_full_r _ _ Hm) as Hkey'.
    rewrite Hkey' in Hkey. apply hexTerm_app_term in Hkey; [|exact Hk].
    rewrite Hkey, app_nil_r in Hkey'.
    rewrite Hm, Hkey', Nat.eqb_refl in H. injection H as <- <-.
    split; [apply Absent_nil | discriminate].
  - (* extension *)
    cbv zeta in H.
    destruct (Nat.ltb_spec (prefixLen key nKey) (length nKey)) as [Hlt | Hge].
    { injection H as <- <-. split; [|auto].
      intros v Hp. apply HasPath_short_inv in Hp as (r & -> & _).
      rewrite prefixLen_app_l in Hlt. lia. }
    assert (Hm : prefixLen key nKey = length nKey)
      by (pose proof (prefixLen_le_r key nKey); lia).
    pose proof (prefixLen_full_r _ _ Hm) as Hkey'.
    assert (Hrest : hexTerm (drop (length nKey) key)).
    { rewrite Hkey' in Hkey. apply hexTerm_app_body in Hkey; [exact Hkey | exact Hk]. }
    assert (Hlk : length key <> length nKey).
    { rewrite Hkey' at 1. rewrite length_app.
      destruct (drop (length nKey) key); [exfalso; apply hexTerm_not_nil, Hrest|].
      cbn [length]. lia. }
    destruct (Nat.eqb_spec (prefixLen key nKey) (length key)) as [|_]; [lia|].
    inv_bind H as [dirty c'] Hdel.
    eapply IH in Hdel; [|exact Hdb|right; exact Hcc|exact Hrest].
    destruct Hdel as [Habs Hun].
    destruct dirty; cbn [negb] in H.
    + assert (Hnn : exists k' c'' fl', nn = shortNode (nKey ++ k') c'' fl' /\ d = true /\
                      forall r w, HasPath (db t) c'' r w -> HasPath (db t) c' (k' ++ r) w).
      { destruct c'; injection H as <- <-.
        1-3,5: eexists [], _, _; split; [rewrite app_nil_r; reflexivity|];
               (split; [reflexivity | intros r w Hp; exact Hp]).
        unfold concat. eexists _, _, _. split; [reflexivity|]. split; [reflexivity|].
        intros r w Hp. apply path_short, Hp. }
      destruct Hnn as (k' & c'' & fl' & -> & -> & Hsub).
      split; [|discriminate].
      intros v Hp. apply HasPath_short_inv in Hp as (r & Heq & Hp0).
      rewrite Hkey', <- app_assoc in Heq. apply app_inv_head in Heq.
      apply (Habs v). rewrite Heq. apply Hsub, Hp0.
    + injection H as <- <-. split; [|auto].
      intros v Hp. apply HasPath_short_inv in Hp as (r & Heq & Hp0).
      rewrite Hkey' in Heq. apply app_inv_head in Heq.
      apply (Absent_unchanged _ _ _ _ (Hun eq_refl) Habs v). rewrite Heq.
      exact Hp0.
  - (* full node *)
    destruct key as [|k0 key']; [exfalso; apply hexTerm_not_nil, Hkey|].
    inv_bind H as k Hk. inv_bind H as c Hch. inv_bind H as [dirty nn1] Hdel.
    apply index_Ok in Hk. cbn in Hk. injection Hk as <-.
    apply child_Ok in Hch. destruct Hch as [Hi Hch].
    cbn [drop] in Hdel. rewrite drop_0 in Hdel.
    assert (Hrec : Absent (db t) nn1 key' /\
                   (dirty = false ->
                    nn1 = c \/ exists h, c = hashNode h /\ resolves (db t) h nn1)).
    { apply hexTerm_cons in Hkey. destruct Hkey as [[-> ->] | [Hx Hkey]].
      - assert (Hkind : isNil c = true \/ isValue c = true).
        { destruct (Hslots _ _ Hch) as [Hnil | [[_ Hv] | [Hne _]]]; [auto | auto | lia]. }
        pose proof (delete_value_slot _ _ _ _ _ _ Hkind Hdel) as ->.
        split; [apply Absent_nil|]. intros ->.
        destruct fuel; [discriminate|].
        destruct c; destruct Hkind as [Hkind | Hkind]; try discriminate; auto.
      - eapply IH; [exact Hdb | | exact Hkey | exact Hdel].
        destruct (Hslots _ _ Hch) as [Hnil | [[H16 _] | [_ Hcc]]];
          [left; exact Hnil | | right; exact Hcc].
        unfold is_nibble in Hx. lia. }
    destruct Hrec as [Habs Hun].
    destruct dirty; cbn [negb] in H.
    + inv_bind H as ch' Hset. apply setChild_Ok in Hset as (_ & Hlt & ->).
      assert (Hat : <[Z.to_nat k0 := nn1]> ch !! Z.to_nat k0 = Some nn1)
        by (apply list_lookup_insert_eq, Hlt).
      assert (Hfull : forall fl', Absent (db t) (fullNode (<[Z.to_nat k0 := nn1]> ch) fl')
                                   (k0 :: key')).
      { intros fl' v Hp. apply HasPath_full_inv in Hp as (i & c0 & r & Heq & _ & Hci & Hp0).
        injection Heq as <- <-. rewrite Hat in Hci. injection Hci as <-. eapply Habs; eauto. }
      destruct (isNil nn1) eqn:Hnil1; cbn [negb] in H.
      2:{ injection H as <- <-. split; [apply Hfull | discriminate]. }
      destruct (Z.leb_spec 0 (remainingPos (<[Z.to_nat k0 := nn1]> ch) 0 (-1))) as [Hpos|Hneg].
      2:{ injection H as <- <-. split; [apply Hfull | discriminate]. }
      destruct (remainingPos_single _ 0 ltac:(lia) Hpos) as (j & cj & Hj & Hcj & Hnj & _).
      set (pos := remainingPos (<[Z.to_nat k0 := nn1]> ch) 0 (-1)) in *.
      inv_bind H as cp Hcp. apply child_Ok in Hcp as [Hrange Hcp].
      inv_bind H as cnode Hres.
      assert (Hne : byte pos <> k0).
      { rewrite byte_small by exact Hrange. intros Heq.
        assert (Hjk : j = Z.to_nat k0) by lia.
        rewrite Hjk, Hat in Hcj. injection Hcj as <-. congruence. }
      assert (Hnn : exists k' c'' fl', nn = shortNode (byte pos :: k') c'' fl' /\ d = true).
      { destruct (negb (pos =? 16)); [destruct cnode|]; injection H as <- <-; eauto. }
      destruct Hnn as (k' & c'' & fl' & -> & ->).
      split; [|discriminate].
      intros v Hp. apply HasPath_short_inv in Hp as (r & Heq & _).
      cbn [app] in Heq. injection Heq as Heq _. congruence.
    + injection H as <- <-. split; [|auto].
      intros v Hp. apply HasPath_full_inv in Hp as (i & c0 & r & Heq & _ & Hci & Hp0).
      injection Heq as <- <-. rewrite Hch in Hci. injection Hci as <-.
      apply (Absent_unchanged _ _ _ _ (Hun eq_refl) Habs v). exact Hp0.
Qed.

(** ** Lookups return, and find nothing after a deletion *)

Lemma keybytesToHex_length (k : list Z) : length (keybytesToHex k) = (2 * length k + 1)%nat.
Proof. unfold keybytesToHex. rewrite length_app, keybytesToHex_nibbles_length. cbn. lia. Qed.

Lemma TryGet_cases (fuel : nat) (t : Trie) (k : list Z) :
  db t <> None -> dbCanon (db t) -> CanonRoot (db t) (root t) -> Forall is_byte k ->
  (8 * length k + 8 <= fuel)%nat ->
  (exists v t', TryGet fuel t k = Ok (v, t') /\
                forall w, v = Some w -> HasPath (db t) (root t) (keybytesToHex k) w) \/
  (exists e, TryGet fuel t k = Err e).
Proof.
  intros Hsome Hdb Hroot Hk Hfuel. unfold TryGet.
  pose proof (keybytesToHex_hexTerm k Hk) as Hkey.
  assert (Hret : returns (tryGet fuel t (root t) (keybytesToHex k) 0)).
  { destruct Hroot as [Hnil | Hc].
    - apply tryGet_leaf_returns; [auto | lia].
    - apply tryGet_returns; try assumption. left.
      rewrite keybytesToHex_length. lia. }
  destruct (tryGet fuel t (root t) (keybytesToHex k) 0) as [[[v nn] did]|e| |] eqn:Hg;
    try contradiction.
  - left. cbn. eexists _, _. split; [reflexivity|]. intros w ->.
    destruct Hroot as [Hnil | Hc].
    + apply tryGet_leaf in Hg; [|auto]. rewrite Hg in Hnil. discriminate.
    + apply tryGet_sound in Hg; assumption.
  - right. cbn. eauto.
Qed.

(** X20. [TryGet] returns: on a trie in canonical form over a store of
    canonical nodes (the empty trie, a trie [New] opens over such a store,
    also a small root, and what the operations leave), for a key of bytes
    and fuel for [8 * len(key) + 8] calls, it gives a value (or nil) or a
    missing-node error; it does not panic and the recursion ends.  [Get]
    then always gives a value or nil. *)
Theorem TryGet_returns (fuel : nat) (t : Trie) (k : list Z) :
  dbCanon (db t) -> CanonRoot (db t) (root t) -> db t <> None -> Forall is_byte k ->
  (8 * length k + 8 <= fuel)%nat ->
  ((exists v t', TryGet fuel t k = Ok (v, t')) \/ (exists e, TryGet fuel t k = Err e)) /\
  exists v t', Get fuel t k = Ok (v, t').
Proof.
  intros Hdb Hroot Hsome Hk Hfuel. unfold Get.
  destruct (TryGet_cases fuel t k Hsome Hdb Hroot Hk Hfuel)
    as [(v & t' & -> & _) | (e & ->)]; split; eauto.
Qed.

Lemma TryGet_returns_witness :
  New zeroHash smallRootHash (Some smallRootDatabase) = Ok smallRootTrie /\
  exists v t', Get 40 smallRootTrie (ascii_bytes "doge") = Ok (v, t').
Proof.
  split; [vm_compute; reflexivity|].
  refine (proj2 (TryGet_returns 40 smallRootTrie (ascii_bytes "doge") _ _ _ _ _)).
  - exact smallRootDatabase_dbCanon.
  - exact smallRootTrie_CanonRoot.
  - discriminate.
  - repeat constructor; vm_compute; congruence.
  - vm_compute. lia.
Defined.

(** X21. Lookup after deletion: after [TryDelete] of a key on a trie in
    canonical form over a store of canonical nodes, [Get] of that key
    returns nil (with fuel for [8 * len(key) + 8] calls), whether the key
    was in the trie or not. *)
Theorem Get_after_TryDelete (fuel fuel' : nat) (t t' : Trie) (k : list Z) :
  dbCanon (db t) -> CanonRoot (db t) (root t) -> db t <> None -> Forall is_byte k ->
  TryDelete fuel t k = Ok t' ->
  (8 * length k + 8 <= fuel')%nat ->
  exists t'', Get fuel' t' k = Ok (None, t'').
Proof.
  intros Hdb Hroot Hsome Hk Hdel Hfuel.
  pose proof (keybytesToHex_hexTerm k Hk) as Hkey.
  unfold TryDelete in Hdel. inv_bind Hdel as [d nn] Hd. injection Hdel as <-.
  set (tu := setUnhashed t (unhashed t + 1)) in *.
  change (root tu) with (root t) in Hd.
  destruct (delete_removes fuel tu _ _ _ _ _ Hdb Hroot Hkey Hd) as [Habs _].
  destruct (delete_Canon fuel tu _ _ _ _ _ Hdb Hroot Hkey Hd) as [Hroot' _].
  unfold Get.
  destruct (TryGet_cases fuel' (setRoot tu nn) k Hsome Hdb Hroot' Hk Hfuel)
    as [(v & t'' & -> & Hv) | (e & ->)]; [|eauto].
  destruct v as [w|]; [|eauto].
  exfalso. apply (Habs w). apply (Hv w eq_refl).
Qed.

Lemma Get_after_TryDelete_witness :
  exists t',
    New zeroHash smallRootHash (Some smallRootDatabase) = Ok smallRootTrie /\
    TryDelete 10 smallRootTrie (ascii_bytes "key") = Ok t' /\
    exists t'', Get 40 t' (ascii_bytes "key") = Ok (None, t'').
Proof.
  eexists. split; [vm_compute; reflexivity|].
  split; [vm_compute; reflexivity|].
  refine (Get_after_TryDelete 10 40 smallRootTrie _ (ascii_bytes "key") _ _ _ _ _ _).
  - exact smallRootDatabase_dbCanon.
  - exact smallRootTrie_CanonRoot.
  - discriminate.
  - repeat constructor; vm_compute; congruence.
  - vm_compute. reflexivity.
  - vm_compute. lia.
Defined.

(** ** [insert] and [delete] return *)

Lemma hex_elem_range (k : list Z) (m : nat) (x : Z) :
  hexTerm k \/ hexBody k -> k !! m = Some x -> 0 <= x < 17.
Proof.
  intros [Hk | Hk] Hx.
  - destruct (hexTerm_lookup _ _ _ Hk Hx) as [_ [[-> _] | [Hn _]]];
      [lia | unfold is_nibble in Hn; lia].
  - pose proof (hexBody_lookup _ _ _ Hk Hx) as Hn. unfold is_nibble in Hn. lia.
Qed.

Lemma hexTerm_not_body (k : list Z) : hexTerm k -> ~ hexBody k.
Proof.
  intros (body & -> & _) Hb. apply Forall_app in Hb as [_ Hb].
  inversion Hb as [|? ? Hx _]; subst. unfold is_nibble in Hx. lia.
Qed.

(** Where a terminated key leaves the key of a node, it has an element
    of its own. *)
Lemma split_index (key nKey : list Z) :
  hexTerm key -> hexTerm nKey \/ hexBody nKey ->
  (prefixLen key nKey < length nKey)%nat ->
  (prefixLen key nKey < length key)%nat.
Proof.
  intros Hkey HnKey Hlt.
  pose proof (prefixLen_le_l key nKey) as Hle.
  destruct (decide (prefixLen key nKey = length key)) as [Heq|]; [|lia]. exfalso.
  pose proof (prefixLen_take key nKey) as Ht. rewrite Heq, take_ge in Ht by lia.
  assert (Hsplit : nKey = key ++ drop (length key) nKey).
  { rewrite Ht at 1. rewrite Ht at 2. rewrite length_take.
    replace (length key `min` length nKey)%nat with (length key) by lia.
    symmetry. apply take_drop. }
  destruct HnKey as [Hn | Hn]; rewrite Hsplit in Hn.
  - apply (hexTerm_app_term _ _ Hkey) in Hn.
    apply (f_equal length) in Hn. rewrite length_drop in Hn. cbn in Hn. lia.
  - apply Forall_app in Hn as [Hn _]. eapply hexTerm_not_body; eauto.
Qed.

Lemma insert_leaf_returns (fuel : nat) (t : Trie) (n : node) (prefix v : list Z) :
  (1 <= fuel)%nat -> returns (insert fuel t n prefix [] (valueNode v)).
Proof. destruct fuel; [lia|]. intros _. destruct n; exact I. Qed.

Lemma insert_nil_returns (fuel : nat) (t : Trie) (prefix key : list Z) (value : node) :
  (1 <= fuel)%nat -> returns (insert fuel t nilNode prefix key value).
Proof. destruct fuel; [lia|]. intros _. cbn. destruct (_ =? _)%nat; exact I. Qed.

Lemma setChild_returns (ch : list node) (i : Z) (x : node) :
  0 <= i < 17 -> length ch = 17%nat -> exists ch', setChild ch i x = Ok ch' /\ length ch' = 17%nat.
Proof.
  intros Hi Hlen. eexists. split.
  - apply setChild_Ok. split; [exact Hi|]. split; [lia | reflexivity].
  - rewrite length_insert. exact Hlen.
Qed.

(** The branch of [insert] that splits a short node. *)
Lemma insert_split_returns (fuel : nat) (t : Trie) (prefix key nKey v : list Z) (nVal : node) :
  (1 <= fuel)%nat -> hexTerm key -> hexTerm nKey \/ hexBody nKey ->
  (prefixLen key nKey < length nKey)%nat ->
  returns
    (i1 ← index nKey (prefixLen key nKey);
     '(_, c1) ← insert fuel t nilNode (prefix ++ take (prefixLen key nKey + 1) nKey)
                       (drop (prefixLen key nKey + 1) nKey) nVal;
     branch ← setChild emptyChildren i1 c1;
     i2 ← index key (prefixLen key nKey);
     '(_, c2) ← insert fuel t nilNode (prefix ++ take (prefixLen key nKey + 1) key)
                       (drop (prefixLen key nKey + 1) key) (valueNode v);
     branch ← setChild branch i2 c2;
     if (prefixLen key nKey =? 0)%nat then Ok (true, fullNode branch (newFlag t))
     else Ok (true, shortNode (take (prefixLen key nKey) key)
                              (fullNode branch (newFlag t)) (newFlag t))).
Proof.
  intros Hfuel Hkey HnKey Hlt.
  pose proof (split_index key nKey Hkey HnKey Hlt) as Hlt'.
  set (m := prefixLen key nKey) in *.
  destruct (lookup_lt_is_Some_2 nKey m Hlt) as [i1 Hi1].
  destruct (lookup_lt_is_Some_2 key m Hlt') as [i2 Hi2].
  rewrite (proj2 (index_Ok _ _ _) Hi1). cbn [mbind result_bind].
  apply returns_bind; [apply insert_nil_returns, Hfuel|]. intros [d1 c1] _. cbn beta iota.
  destruct (setChild_returns emptyChildren i1 c1) as (b1 & -> & Hb1);
    [apply (hex_elem_range nKey m); [exact HnKey | exact Hi1] | apply emptyChildren_length|]. cbn [mbind result_bind].
  rewrite (proj2 (index_Ok _ _ _) Hi2). cbn [mbind result_bind].
  apply returns_bind; [apply insert_nil_returns, Hfuel|]. intros [d2 c2] _. cbn beta iota.
  destruct (setChild_returns b1 i2 c2) as (b2 & -> & Hb2);
    [apply (hex_elem_range key m); [left; exact Hkey | exact Hi2] | exact Hb1|]. cbn [mbind result_bind].
  destruct (m =? 0)%nat; exact I.
Qed.

Lemma insert_returns (fuel : nat) : forall t n prefix key v,
  db t <> None -> dbCanon (db t) -> hexTerm key -> Canon (db t) n ->
  (4 * length key + 4 <= fuel \/
   (isShortOrFull n = true /\ 4 * length key + 3 <= fuel) \/
   (isBranch (db t) n /\ 4 * length key + 2 <= fuel) \/
   (isFull n = true /\ 4 * length key + 1 <= fuel))%nat ->
  returns (insert fuel t n prefix key (valueNode v)).
Proof.
  induction fuel as [|fuel IH]; intros t n prefix key v Hsome Hdb Hkey Hc Hw; [lia|].
  cbn [insert].
  assert (Hrem : (1 <= length key)%nat).
  { destruct key; [exfalso; apply hexTerm_not_nil, Hkey | cbn; lia]. }
  destruct (Nat.eqb_spec (length key) 0) as [|_]; [lia|].
  inversion Hc as [h | k v0 fl Hk | k c fl Hk Hbr Hcc | ch fl Hlen Hslots Hcount]; subst.
  - apply returns_bind; [apply resolveHash_returns, Hsome|]. intros rn Hres.
    apply resolveHash_Ok in Hres. destruct (Hdb _ _ Hres) as [Hsf Hcr].
    apply returns_bind; [|intros [d nn] _; destruct (negb d); exact I].
    apply IH; try assumption.
    destruct Hw as [Hw | [[Hw _] | [[Hbr Hw] | [Hw _]]]]; try discriminate.
    + right. left. split; [exact Hsf | lia].
    + right. right. right. split; [apply (Hbr _ Hres) | lia].
  - assert (Hf : (2 <= fuel)%nat).
    { destruct Hw as [Hw | [[_ Hw] | [[[] _] | [Hw _]]]]; try discriminate; lia. }
    cbv zeta. destruct (Nat.eqb_spec (prefixLen key k) (length k)) as [Hm | Hm].
    + apply returns_bind; [|intros [d nn] _; destruct (negb d); exact I].
      pose proof (prefixLen_full_r _ _ Hm) as Hkey'.
      rewrite Hkey' in Hkey. apply (hexTerm_app_term _ _ Hk) in Hkey.
      rewrite Hm, Hkey. apply insert_leaf_returns. lia.
    + apply insert_split_returns; auto; [lia|].
      pose proof (prefixLen_le_r key k). lia.
  - assert (Hf : (4 * length key + 2 <= fuel)%nat).
    { destruct Hw as [Hw | [[_ Hw] | [[[] _] | [Hw _]]]]; try discriminate; lia. }
    cbv zeta. destruct (Nat.eqb_spec (prefixLen key k) (length k)) as [Hm | Hm].
    + apply returns_bind; [|intros [d nn] _; destruct (negb d); exact I].
      pose proof (prefixLen_full_r _ _ Hm) as Hkey'.
      rewrite Hkey' in Hkey. apply (hexTerm_app_body _ _ Hk) in Hkey.
      rewrite Hm. apply IH; try assumption.
      right. right. left. split; [exact Hbr|]. rewrite length_drop. lia.
    + apply insert_split_returns; auto; [lia|].
      pose proof (prefixLen_le_r key k). lia.
  - destruct key as [|k key']; [cbn in Hrem; lia|].
    cbn [index lookup list_lookup mbind result_bind drop]. rewrite drop_0.
    apply hexTerm_cons in Hkey.
    assert (Hrange : 0 <= k < 17).
    { destruct Hkey as [[-> _] | [Hnib _]]; [lia | unfold is_nibble in Hnib; lia]. }
    destruct (lookup_lt_is_Some_2 ch (Z.to_nat k) ltac:(lia)) as [c Hch].
    assert (Hcc : child ch k = Ok c) by (apply child_Ok; auto). rewrite Hcc. cbn.
    assert (Hf : (4 * length key' + 4 <= fuel)%nat).
    { cbn [length] in Hw. destruct Hw as [Hw | [[_ Hw] | [[_ Hw] | [_ Hw]]]]; lia. }
    apply returns_bind.
    + destruct (Hslots _ _ Hch) as [Hn | [[Hi Hval] | [Hi Hcan]]].
      * destruct c; try discriminate. apply insert_nil_returns. lia.
      * destruct Hkey as [[_ ->] | [Hnib _]];
          [apply insert_leaf_returns; lia | unfold is_nibble in Hnib; lia].
      * destruct Hkey as [[-> _] | [Hnib Hrest]]; [exfalso; apply Hi; reflexivity|].
        apply IH; try assumption. left. exact Hf.
    + intros [d nn] _. cbn beta iota. destruct (negb d); [exact I|].
      destruct (setChild_returns ch k nn Hrange Hlen) as (ch' & -> & _). exact I.
Qed.

Lemma delete_leaf_returns (fuel : nat) (t : Trie) (n : node) (prefix key : list Z) :
  isNil n = true \/ isValue n = true -> (1 <= fuel)%nat ->
  returns (delete fuel t n prefix key).
Proof.
  destruct fuel; [lia|]. intros [Hn | Hn] _; destruct n; try discriminate; exact I.
Qed.

Lemma resolve_returns (t : Trie) (n : node) (prefix : list Z) :
  db t <> None -> returns (resolve t n prefix).
Proof. intros Hdb. destruct n; try exact I. apply resolveHash_returns, Hdb. Qed.

(** What [delete] does with a full node whose child has been removed. *)
Lemma delete_collapse_returns (t : Trie) (ch : list node) (prefix : list Z) :
  db t <> None -> length ch = 17%nat ->
  returns
    (let pos := remainingPos ch 0 (-1) in
     if 0 <=? pos then
       c ← child ch pos;
       cnode ← (if negb (pos =? 16) then resolve t c prefix else Ok nilNode);
       match negb (pos =? 16), cnode with
       | true, shortNode cKey cVal _ =>
           Ok (true, shortNode (byte pos :: cKey) cVal (newFlag t))
       | _, _ => Ok (true, shortNode [byte pos] c (newFlag t))
       end
     else Ok (true, fullNode ch (newFlag t))).
Proof.
  intros Hdb Hlen. cbv zeta.
  destruct (Z.leb_spec 0 (remainingPos ch 0 (-1))) as [Hpos|]; [|exact I].
  destruct (remainingPos_single _ 0 ltac:(lia) Hpos) as (j & cj & Hj & Hcj & _ & _).
  pose proof (lookup_lt_Some _ _ _ Hcj) as Hjlt.
  assert (Hc : child ch (remainingPos ch 0 (-1)) = Ok cj).
  { apply child_Ok. split; [lia|]. rewrite Hj. replace (Z.to_nat (0 + Z.of_nat j)) with j by lia.
    exact Hcj. }
  rewrite Hc. cbn [mbind result_bind].
  destruct (negb (remainingPos ch 0 (-1) =? 16)).
  - apply returns_bind; [apply resolve_returns, Hdb|]. intros cnode _.
    destruct cnode; exact I.
  - exact I.
Qed.

Lemma delete_returns (fuel : nat) : forall t n prefix key,
  db t <> None -> dbCanon (db t) -> hexTerm key -> Canon (db t) n ->
  (4 * length key + 4 <= fuel \/
   (isShortOrFull n = true /\ 4 * length key + 3 <= fuel) \/
   (isBranch (db t) n /\ 4 * length key + 2 <= fuel) \/
   (isFull n = true /\ 4 * length key + 1 <= fuel))%nat ->
  returns (delete fuel t n prefix key).
Proof.
  induction fuel as [|fuel IH]; intros t n prefix key Hsome Hdb Hkey Hc Hw; [lia|].
  cbn [delete].
  assert (Hrem : (1 <= length key)%nat).
  { destruct key; [exfalso; apply hexTerm_not_nil, Hkey | cbn; lia]. }
  inversion Hc as [h | k v0 fl Hk | k c fl Hk Hbr Hcc | ch fl Hlen Hslots Hcount]; subst.
  - apply returns_bind; [apply resolveHash_returns, Hsome|]. intros rn Hres.
    apply resolveHash_Ok in Hres. destruct (Hdb _ _ Hres) as [Hsf Hcr].
    apply returns_bind; [|intros [d nn] _; cbn beta iota; destruct (negb d); exact I].
    apply IH; try assumption.
    destruct Hw as [Hw | [[Hw _] | [[Hbr Hw] | [Hw _]]]]; try discriminate.
    + right. left. split; [exact Hsf | lia].
    + right. right. right. split; [apply (Hbr _ Hres) | lia].
  - assert (Hf : (2 <= fuel)%nat).
    { destruct Hw as [Hw | [[_ Hw] | [[[] _] | [Hw _]]]]; try discriminate; lia. }
    cbv zeta. destruct (_ <? _)%nat; [exact I|]. destruct (_ =? _)%nat; [exact I|].
    apply returns_bind; [apply delete_leaf_returns; [right; reflexivity | lia]|].
    intros [d c] _. cbn beta iota. destruct (negb d); [exact I|]. destruct c; exact I.
  - assert (Hf : (4 * length key + 2 <= fuel)%nat).
    { destruct Hw as [Hw | [[_ Hw] | [[[] _] | [Hw _]]]]; try discriminate; lia. }
    cbv zeta.
    destruct (Nat.ltb_spec (prefixLen key k) (length k)) as [|Hge]; [exact I|].
    destruct (_ =? _)%nat; [exact I|].
    assert (Hm : prefixLen key k = length k)
      by (pose proof (prefixLen_le_r key k); lia).
    pose proof (prefixLen_full_r _ _ Hm) as Hkey'.
    rewrite Hkey' in Hkey. apply (hexTerm_app_body _ _ Hk) in Hkey.
    apply returns_bind.
    + apply IH; try assumption.
      right. right. left. split; [exact Hbr|]. rewrite length_drop. lia.
    + intros [d c'] _. cbn beta iota. destruct (negb d); [exact I|]. destruct c'; exact I.
  - destruct key as [|k key']; [cbn in Hrem; lia|].
    cbn [index lookup list_lookup mbind result_bind drop]. rewrite drop_0.
    apply hexTerm_cons in Hkey.
    assert (Hrange : 0 <= k < 17).
    { destruct Hkey as [[-> _] | [Hnib _]]; [lia | unfold is_nibble in Hnib; lia]. }
    destruct (lookup_lt_is_Some_2 ch (Z.to_nat k) ltac:(lia)) as [c Hch].
    assert (Hcc : child ch k = Ok c) by (apply child_Ok; auto). rewrite Hcc.
    cbn [mbind result_bind].
    assert (Hf : (4 * length key' + 4 <= fuel)%nat).
    { cbn [length] in Hw. destruct Hw as [Hw | [[_ Hw] | [[_ Hw] | [_ Hw]]]]; lia. }
    apply returns_bind.
    + destruct (Hslots _ _ Hch) as [Hn | [[Hi Hval] | [Hi Hcan]]].
      * apply delete_leaf_returns; [auto | lia].
      * apply delete_leaf_returns; [auto | lia].
      * destruct Hkey as [[-> _] | [Hnib Hrest]]; [exfalso; apply Hi; reflexivity|].
        apply IH; try assumption. left. exact Hf.
    + intros [d nn] _. cbn beta iota. destruct (negb d); [exact I|].
      destruct (setChild_returns ch k nn Hrange Hlen) as (ch' & -> & Hlen').
      cbn [mbind result_bind]. destruct (negb (isNil nn)); [exact I|].
      apply (delete_collapse_returns t ch' prefix Hsome Hlen').
Qed.

(** X22. [TryUpdate] and [TryDelete] return: on a trie in canonical form
    over a store of canonical nodes (the empty trie, a trie [New] opens
    over such a store, also a small root, and what the operations leave),
    for a key of bytes and fuel for [8 * len(key) + 8] calls, each gives
    the new trie or a missing-node error; neither panics and the recursion
    ends.  The new trie is over the same store and in canonical form again,
    and well-formed when the trie was. *)
Theorem TryUpdate_TryDelete_return (fuel : nat) (t : Trie) (k v : list Z) :
  dbCanon (db t) -> CanonRoot (db t) (root t) -> db t <> None -> Forall is_byte k ->
  (8 * length k + 8 <= fuel)%nat ->
  ((exists t', TryUpdate fuel t k v = Ok t' /\ db t' = db t /\
               CanonRoot (db t') (root t') /\ (wellFormed t -> wellFormed t')) \/
   (exists e, TryUpdate fuel t k v = Err e)) /\
  ((exists t', TryDelete fuel t k = Ok t' /\ db t' = db t /\
               CanonRoot (db t') (root t') /\ (wellFormed t -> wellFormed t')) \/
   (exists e, TryDelete fuel t k = Err e)).
Proof.
  intros Hdb Hroot Hsome Hk Hfuel.
  pose proof (keybytesToHex_hexTerm k Hk) as Hkey.
  pose proof (keybytesToHex_length k) as Hlen.
  set (tu := setUnhashed t (unhashed t + 1)).
  assert (Hdel : returns (delete fuel tu (root t) [] (keybytesToHex k))).
  { destruct Hroot as [Hnil | Hc].
    - apply delete_leaf_returns; [auto | lia].
    - apply delete_returns; try assumption. left. lia. }
  assert (Hins : returns (insert fuel tu (root t) [] (keybytesToHex k) (valueNode v))).
  { destruct Hroot as [Hnil | Hc].
    - destruct (root t); try discriminate. apply insert_nil_returns. lia.
    - apply insert_returns; try assumption. left. lia. }
  assert (Hres : forall (r : result Trie) (o : operation),
            returns r -> opKey o = k -> applyOp fuel t o = r ->
            (exists t', r = Ok t' /\ db t' = db t /\
                        CanonRoot (db t') (root t') /\ (wellFormed t -> wellFormed t')) \/
            (exists e, r = Err e)).
  { intros [t'|e| |] o Hr Hkey' Hop; try contradiction; [left | right; eauto].
    exists t'. split; [reflexivity|].
    split; [apply (applyOp_db _ _ _ _ Hop)|].
    split; [apply (applyOp_Canon _ _ _ _ Hop Hdb Hroot); rewrite Hkey'; exact Hk|].
    apply (applyOp_wellFormed _ _ _ _ Hop). rewrite Hkey'. exact Hk. }
  split.
  - apply (Hres _ (OpUpdate k v)); [|reflexivity|reflexivity].
    unfold TryUpdate. fold tu. change (root tu) with (root t).
    destruct (negb _); (apply returns_bind; [assumption | intros [d n] _; exact I]).
  - apply (Hres _ (OpDelete k)); [|reflexivity|reflexivity].
    unfold TryDelete. fold tu. change (root tu) with (root t).
    apply returns_bind; [assumption | intros [d n] _; exact I].
Qed.

Lemma TryUpdate_TryDelete_return_witness :
  New zeroHash smallRootHash (Some smallRootDatabase) = Ok smallRootTrie /\
  ((exists t', TryUpdate 40 smallRootTrie (ascii_bytes "doge") (ascii_bytes "coin") = Ok t' /\
               db t' = db smallRootTrie /\ CanonRoot (db t') (root t') /\
               (wellFormed smallRootTrie -> wellFormed t')) \/
   (exists e, TryUpdate 40 smallRootTrie (ascii_bytes "doge") (ascii_bytes "coin") = Err e)) /\
  ((exists t', TryDelete 40 smallRootTrie (ascii_bytes "doge") = Ok t' /\
               db t' = db smallRootTrie /\ CanonRoot (db t') (root t') /\
               (wellFormed smallRootTrie -> wellFormed t')) \/
   (exists e, TryDelete 40 smallRootTrie (ascii_bytes "doge") = Err e)).
Proof.
  split; [vm_compute; reflexivity|].
  refine (TryUpdate_TryDelete_return 40 smallRootTrie (ascii_bytes "doge")
            (ascii_bytes "coin") _ _ _ _ _).
  - exact smallRootDatabase_dbCanon.
  - exact smallRootTrie_CanonRoot.
  - discriminate.
  - repeat constructor; vm_compute; congruence.
  - vm_compute. lia.
Defined.

(** ** Operations on other keys add no path *)

Lemma HasPath_value_inv (dbo : option Database) (v0 key v : list Z) :
  HasPath dbo (valueNode v0) key v -> key = [] /\ v = v0.
Proof. intros Hp. inversion Hp; subst. auto. Qed.

Lemma HasPath_hash_inv (dbo : option Database) (h key v : list Z) :
  HasPath dbo (hashNode h) key v ->
  exists rn, resolves dbo h rn /\ HasPath dbo rn key v.
Proof. intros Hp. inversion Hp; subst. eauto. Qed.

Lemma incomparable_prefix_r (key' rest : list Z) : ~ incomparable (key' ++ rest) key'.
Proof. unfold incomparable. rewrite prefixLen_app_l. lia. Qed.

Lemma incomparable_irrefl (key : list Z) : ~ incomparable key key.
Proof. unfold incomparable. rewrite prefixLen_refl. lia. Qed.

Lemma insert_nil_HasPath_rev (fuel : nat) (t : Trie) (prefix key r v : list Z) (c : node)
    (d : bool) (nn : node) :
  insert fuel t nilNode prefix key c = Ok (d, nn) ->
  HasPath (db t) nn r v ->
  exists rest, r = key ++ rest /\ HasPath (db t) c rest v.
Proof.
  intros H%insert_nil Hp. subst nn. destruct key; [exists r; auto|].
  apply HasPath_short_inv in Hp. exact Hp.
Qed.

Lemma insert_frame_rev (fuel : nat) : forall t n prefix key' v' d nn key v,
  insert fuel t n prefix key' (valueNode v') = Ok (d, nn) ->
  HasPath (db t) nn key v -> incomparable key key' ->
  HasPath (db t) n key v.
Proof.
  induction fuel as [|fuel IH]; intros t n prefix key' v' d nn key v H Hp Hinc;
    [discriminate|].
  cbn [insert] in H.
  destruct key' as [|k0 key'']; [exfalso; eapply incomparable_nil_r; eauto|].
  cbn [length Nat.eqb] in H.
  destruct n as [| v0 | h | nKey nVal fl | ch fl]; try discriminate.
  - injection H as <- <-. apply HasPath_short_inv in Hp as (rest & -> & _).
    exfalso. eapply incomparable_prefix_r; eauto.
  - (* hash node *)
    inv_bind H as rn Hres. apply resolveHash_Ok in Hres.
    inv_bind H as [dirty nn'] Hins.
    destruct dirty; cbn [negb] in H; injection H as <- <-.
    + eapply path_hash; [exact Hres|]. eapply IH; eauto.
    + eapply path_hash; eauto.
  - (* short node *)
    cbv zeta in H.
    destruct (Nat.eqb_spec (prefixLen (k0 :: key'') nKey) (length nKey)) as [Hm | Hm].
    + inv_bind H as [dirty nn'] Hins.
      pose proof (prefixLen_full_r _ _ Hm) as Hkey. rewrite Hm in Hins.
      destruct dirty; cbn [negb] in H; injection H as <- <-; [|exact Hp].
      apply HasPath_short_inv in Hp as (rest & -> & Hp).
      rewrite Hkey in Hinc. apply incomparable_app in Hinc.
      apply path_short. eapply IH; eauto.
    + inv_bind H as i1 Hi1. inv_bind H as [d1 c1] Hc1. inv_bind H as br1 Hbr1.
      inv_bind H as i2 Hi2. inv_bind H as [d2 c2] Hc2. inv_bind H as br2 Hbr2.
      apply index_Ok in Hi1, Hi2.
      apply setChild_Ok in Hbr1, Hbr2.
      destruct Hbr1 as (Hr1 & Hl1 & ->). destruct Hbr2 as (Hr2 & Hl2 & ->).
      pose proof (prefixLen_differ _ _ _ _ Hi2 Hi1) as Hne.
      set (m := prefixLen (k0 :: key'') nKey) in *.
      assert (Hfull : exists keyr fl',
                key = take m (k0 :: key'') ++ keyr /\
                HasPath (db t)
                  (fullNode (<[Z.to_nat i2 := c2]> (<[Z.to_nat i1 := c1]> emptyChildren)) fl')
                  keyr v).
      { destruct (m =? 0)%nat eqn:Hz; injection H as <- <-.
        - apply Nat.eqb_eq in Hz. rewrite Hz. exists key. eauto.
        - apply HasPath_short_inv in Hp as (rest & -> & Hp). eauto. }
      destruct Hfull as (keyr & fl' & -> & Hfull).
      apply HasPath_full_inv in Hfull as (i & c & r & -> & Hi & Hci & Hc).
      rewrite Nat.add_1_r in Hc1, Hc2.
      destruct (Z.eq_dec i i2) as [-> | Hne2].
      * exfalso. rewrite list_lookup_insert_eq in Hci by exact Hl2. injection Hci as <-.
        destruct (insert_nil_HasPath_rev _ _ _ _ _ _ _ _ _ Hc2 Hc) as (rest & -> & Hv).
        apply HasPath_value_inv in Hv as [-> _]. rewrite app_nil_r in Hinc.
        rewrite <- (key_split _ _ _ Hi2) in Hinc. eapply incomparable_irrefl; eauto.
      * rewrite list_lookup_insert_ne in Hci by lia.
        destruct (Z.eq_dec i i1) as [-> | Hne1].
        -- rewrite list_lookup_insert_eq in Hci by exact Hl1. injection Hci as <-.
           destruct (insert_nil_HasPath_rev _ _ _ _ _ _ _ _ _ Hc1 Hc) as (rest & -> & Hv).
           unfold m. rewrite prefixLen_take. fold m.
           replace (take m nKey ++ i1 :: drop (S m) nKey ++ rest) with (nKey ++ rest).
           ++ apply path_short, Hv.
           ++ rewrite (key_split _ _ _ Hi1) at 1. rewrite <- app_assoc. reflexivity.
        -- exfalso. rewrite list_lookup_insert_ne in Hci by lia.
           apply emptyChildren_lookup in Hci. subst c. inversion Hc.
  - (* full node *)
    inv_bind H as k Hk. inv_bind H as c' Hc'. inv_bind H as [dirty nn'] Hins.
    apply index_Ok in Hk. cbn in Hk. injection Hk as <-.
    apply child_Ok in Hc'. destruct Hc' as [Hi' Hc'].
    cbn [drop] in Hins. rewrite drop_0 in Hins.
    destruct dirty; cbn [negb] in H; [|injection H as <- <-; exact Hp].
    inv_bind H as ch' Hset. injection H as <- <-.
    apply setChild_Ok in Hset. destruct Hset as (_ & Hlen & ->).
    apply HasPath_full_inv in Hp as (i & c & r & -> & Hi & Hci & Hc).
    destruct (Z.eq_dec k0 i) as [-> | Hne].
    + rewrite list_lookup_insert_eq in Hci by exact Hlen. injection Hci as <-.
      apply incomparable_cons in Hinc.
      eapply path_full; [exact Hi | exact Hc' |]. eapply IH; eauto.
    + rewrite list_lookup_insert_ne in Hci by lia.
      eapply path_full; eauto.
Qed.

Lemma resolve_HasPath (t : Trie) (c cnode : node) (prefix key v : list Z) :
  resolve t c prefix = Ok cnode -> HasPath (db t) cnode key v -> HasPath (db t) c key v.
Proof.
  destruct c; cbn [resolve]; try (intros [= <-]; auto).
  intros Hres%resolveHash_Ok Hp. eapply path_hash; eauto.
Qed.

Lemma delete_frame_rev (fuel : nat) : forall t n prefix key' d nn key v,
  delete fuel t n prefix key' = Ok (d, nn) ->
  HasPath (db t) nn key v -> incomparable key key' ->
  HasPath (db t) n key v.
Proof.
  induction fuel as [|fuel IH]; intros t n prefix key' d nn key v H Hp Hinc;
    [discriminate|].
  cbn [delete] in H.
  destruct n as [| v0 | h | nKey nVal fl | ch fl].
  - injection H as <- <-. exact Hp.
  - injection H as <- <-. inversion Hp.
  - (* hash node *)
    inv_bind H as rn Hres. apply resolveHash_Ok in Hres.
    inv_bind H as [dirty nn'] Hdel.
    destruct dirty; cbn [negb] in H; injection H as <- <-.
    + eapply path_hash; [exact Hres|]. eapply IH; eauto.
    + eapply path_hash; eauto.
  - (* short node *)
    cbv zeta in H.
    destruct (Nat.ltb_spec (prefixLen key' nKey) (length nKey)) as [Hlt | Hge].
    { injection H as <- <-. exact Hp. }
    destruct (_ =? _)%nat; [injection H as <- <-; inversion Hp|].
    assert (Hm : prefixLen key' nKey = length nKey)
      by (pose proof (prefixLen_le_r key' nKey); lia).
    pose proof (prefixLen_full_r _ _ Hm) as Hkey.
    inv_bind H as [dirty c'] Hdel.
    destruct dirty; cbn [negb] in H; [|injection H as <- <-; exact Hp].
    assert (Hsub : exists r, key = nKey ++ r /\ HasPath (db t) c' r v).
    { destruct c'; injection H as <- <-; apply HasPath_short_inv in Hp as (r & -> & Hp);
        try (exists r; split; [reflexivity | exact Hp]).
      unfold concat. rewrite <- app_assoc. eexists. split; [reflexivity|].
      apply path_short, Hp. }
    destruct Hsub as (r & -> & Hsub).
    rewrite Hkey in Hinc. apply incomparable_app in Hinc.
    apply path_short. eapply IH; eauto.
  - (* full node *)
    destruct key' as [|k0 key'']; [discriminate|].
    inv_bind H as k Hk. inv_bind H as c' Hc'. inv_bind H as [dirty nn'] Hdel.
    apply index_Ok in Hk. cbn in Hk. injection Hk as <-.
    apply child_Ok in Hc'. destruct Hc' as [Hi' Hc'].
    cbn [drop] in Hdel. rewrite drop_0 in Hdel.
    destruct dirty; cbn [negb] in H; [|injection H as <- <-; exact Hp].
    inv_bind H as ch' Hset.
    apply setChild_Ok in Hset. destruct Hset as (_ & Hlen & ->).
    assert (Hslot : forall i c r,
              <[Z.to_nat k0 := nn']> ch !! Z.to_nat i = Some c -> 0 <= i < 17 ->
              HasPath (db t) c r v -> incomparable (i :: r) (k0 :: key'') ->
              HasPath (db t) (fullNode ch fl) (i :: r) v).
    { intros i c r Hci Hi Hc Hinc'. destruct (Z.eq_dec k0 i) as [-> | Hne].
      - rewrite list_lookup_insert_eq in Hci by exact Hlen. injection Hci as <-.
        apply incomparable_cons in Hinc'.
        eapply path_full; [exact Hi | exact Hc' |]. eapply IH; eauto.
      - rewrite list_lookup_insert_ne in Hci by lia. eapply path_full; eauto. }
    assert (Hfull : forall fl', HasPath (db t) (fullNode (<[Z.to_nat k0 := nn']> ch) fl') key v ->
                                HasPath (db t) (fullNode ch fl) key v).
    { intros fl' Hp'. apply HasPath_full_inv in Hp' as (i & c & r & -> & Hi & Hci & Hc).
      eapply Hslot; eauto. }
    destruct (isNil nn') eqn:Hnil; cbn [negb] in H;
      [|injection H as <- <-; eapply Hfull; eauto].
    cbv zeta in H.
    destruct (Z.leb_spec 0 (remainingPos (<[Z.to_nat k0:=nn']> ch) 0 (-1))) as [Hpos | Hneg];
      [|injection H as <- <-; eapply Hfull; eauto].
    set (pos := remainingPos (<[Z.to_nat k0:=nn']> ch) 0 (-1)) in *.
    inv_bind H as cp Hcp. apply child_Ok in Hcp. destruct Hcp as [Hrange Hcp].
    inv_bind H as cnode Hcn. rewrite byte_small in H by exact Hrange.
    assert (Hsub : exists r, key = pos :: r /\ HasPath (db t) cp r v).
    { destruct (negb (pos =? 16)) eqn:H16.
      - assert (Hrev : forall r, HasPath (db t) cnode r v -> HasPath (db t) cp r v)
          by (intros r; eapply resolve_HasPath; eauto).
        destruct cnode; injection H as <- <-;
          apply HasPath_short_inv in Hp as (r & -> & Hp);
          try (exists r; split; [reflexivity | exact Hp]).
        eexists. split; [reflexivity|]. apply Hrev, path_short, Hp.
      - injection H as <- <-. apply HasPath_short_inv in Hp as (r & -> & Hp).
        exists r. split; [reflexivity | exact Hp]. }
    destruct Hsub as (r & -> & Hsub). eapply Hslot; eauto.
Qed.

(** ** A lookup that finds nothing *)

Lemma Miss_short_inv (dbo : option Database) (k : list Z) (c : node) (fl : nodeFlag)
    (key : list Z) :
  Miss dbo (shortNode k c fl) key ->
  take (length k) key <> k \/ exists rest, key = k ++ rest /\ Miss dbo c rest.
Proof. intros H. inversion H; subst; eauto. Qed.

Lemma Miss_full_inv (dbo : option Database) (ch : list node) (fl : nodeFlag) (key : list Z) :
  Miss dbo (fullNode ch fl) key ->
  exists i c rest, key = i :: rest /\ 0 <= i < 17 /\ ch !! Z.to_nat i = Some c /\
                   Miss dbo c rest.
Proof. intros H. inversion H; subst. eauto 10. Qed.

Lemma Miss_hash_inv (dbo : option Database) (h key : list Z) :
  Miss dbo (hashNode h) key -> exists rn, resolves dbo h rn /\ Miss dbo rn key.
Proof. intros H. inversion H; subst. eauto. Qed.

(** The rest of a key below a short node whose key goes on with [K]. *)
Lemma Miss_short_cut (dbo : option Database) (P K : list Z) (c : node) (fl fl' : nodeFlag)
    (key : list Z) :
  Miss dbo (shortNode (P ++ K) c fl) (P ++ key) ->
  Miss dbo (match K with [] => c | _ => shortNode K c fl' end) key.
Proof.
  intros [Hd | (rest & Heq & Hc)]%Miss_short_inv.
  - assert (Hk : take (length K) key <> K).
    { intros Heq. apply Hd. rewrite length_app, take_app_add'; [|reflexivity].
      rewrite Heq. reflexivity. }
    destruct K; [exfalso; apply Hk; apply take_0|]. apply miss_diverge, Hk.
  - rewrite <- app_assoc in Heq. apply app_inv_head in Heq. subst key.
    destruct K; [exact Hc|]. apply miss_short, Hc.
Qed.

(** The rest of a key joined to the key of a short node. *)
Lemma Miss_short_join (dbo : option Database) (P : list Z) (c : node) (fl : nodeFlag)
    (key : list Z) :
  Miss dbo c key ->
  Miss dbo (match c with
            | shortNode K cv _ => shortNode (P ++ K) cv fl
            | _ => shortNode P c fl
            end) (P ++ key).
Proof.
  intros Hc. destruct c; try (apply miss_short, Hc).
  apply Miss_short_inv in Hc as [Hd | (rest & -> & Hc)].
  - apply miss_diverge. intros Heq. apply Hd.
    rewrite length_app, take_app_add' in Heq by reflexivity.
    apply app_inv_head in Heq. exact Heq.
  - rewrite app_assoc. apply miss_short, Hc.
Qed.

Lemma incomparable_take (a b : list Z) : incomparable a b -> take (length b) a <> b.
Proof.
  intros [_ H] Heq. rewrite <- (take_drop (length b) a), Heq, prefixLen_app_l in H. lia.
Qed.

Lemma resolve_Miss (t : Trie) (c cnode : node) (prefix key : list Z) :
  resolve t c prefix = Ok cnode -> Miss (db t) c key -> Miss (db t) cnode key.
Proof.
  destruct c; cbn [resolve]; try (intros [= <-]; auto).
  intros Hres%resolveHash_Ok (rn & Hr & Hm)%Miss_hash_inv.
  rewrite (resolves_fun _ _ _ _ Hres Hr). exact Hm.
Qed.

(** What [tryGet] does not find is a miss. *)
Lemma tryGet_Miss_sound (fuel : nat) : forall t n key pos newnode did,
  (pos <= length key)%nat ->
  tryGet fuel t n key pos = Ok (None, newnode, did) ->
  Miss (db t) n (drop pos key).
Proof.
  induction fuel as [|fuel IH]; intros t n key pos newnode did Hpos H; [discriminate|].
  cbn [tryGet] in H.
  destruct n as [| v | h | nKey nVal fl | ch fl].
  - constructor.
  - discriminate.
  - inv_bind H as rn Hres. inv_bind H as [[value nn] did'] Hg. injection H as -> _ _.
    apply resolveHash_Ok in Hres. eapply miss_hash; eauto.
  - destruct (_ || _) eqn:Hm.
    + apply miss_diverge. apply orb_true_iff in Hm as [Hm | Hm].
      * apply Z.ltb_lt in Hm. intros Heq.
        apply (f_equal length) in Heq. rewrite length_take, length_drop in Heq. lia.
      * apply negb_true_iff, bytesEqual_false in Hm. congruence.
    + pose proof Hm as Hlen. apply orb_false_elim in Hlen as [Hlen _].
      apply Z.ltb_ge in Hlen.
      apply short_match in Hm.
      inv_bind H as [[value nn] did'] Hg. injection H as -> _ _.
      rewrite Hm. apply miss_short. eapply IH; [|exact Hg]. lia.
  - inv_bind H as k Hk. inv_bind H as c Hch. inv_bind H as [[value nn] did'] Hg.
    assert (Hv : value = None).
    { destruct did'; [inv_bind H as ch' Hset|]; injection H as -> _ _; reflexivity. }
    subst value. clear H.
    apply index_Ok in Hk. apply child_Ok in Hch as [Hrange Hch].
    pose proof (drop_S _ _ _ Hk) as Hd. rewrite Hd.
    replace (pos + 1)%nat with (S pos) in Hg by lia.
    apply lookup_lt_Some in Hk.
    eapply miss_full; [exact Hrange | exact Hch |]. eapply IH; [|exact Hg]. lia.
Qed.

(** A miss is what [tryGet] follows: with enough fuel it returns nil,
    without an error. *)
Lemma tryGet_Miss (dbo : option Database) (n : node) (rest : list Z) :
  Miss dbo n rest ->
  forall t key pos, db t = dbo -> (pos <= length key)%nat -> drop pos key = rest ->
  exists fuel0, forall fuel, (fuel0 <= fuel)%nat ->
    exists newnode didResolve, tryGet fuel t n key pos = Ok (None, newnode, didResolve).
Proof.
  induction 1 as [key0 | k c fl key0 Hd | k c fl rest Hp IH
                  | ch fl i c rest Hi Hc Hp IH | h n key0 Hr Hp IH];
    intros t key pos Hdb Hpos Hdrop.
  - exists 1%nat. intros [|fuel] Hf; [lia|]. cbn [tryGet]. eauto.
  - exists 1%nat. intros [|fuel] Hf; [lia|]. cbn [tryGet].
    destruct (_ || _) eqn:Hm; [eauto|]. exfalso. apply Hd.
    apply orb_false_elim in Hm as [_ Hm]. apply negb_false_iff, bytesEqual_true in Hm.
    rewrite <- Hdrop. congruence.
  - pose proof (drop_length_eq _ _ _ Hpos Hdrop) as Hlen. rewrite length_app in Hlen.
    destruct (IH t key (pos + length k)%nat Hdb) as (fuel0 & Hget); [lia| |].
    { rewrite <- drop_drop, Hdrop. apply drop_app_length. }
    exists (S fuel0). intros [|fuel] Hf; [lia|]. cbn [tryGet].
    destruct (Z.ltb_spec (Z.of_nat (length key) - Z.of_nat pos) (Z.of_nat (length k)));
      [lia|].
    rewrite Hdrop, take_app_length, bytesEqual_refl. cbn [orb negb].
    destruct (Hget fuel ltac:(lia)) as (newnode & didResolve & ->).
    cbn [mbind result_bind]. eauto.
  - destruct (drop_cons_lookup _ _ _ _ Hdrop) as [Hk Hd].
    pose proof (drop_length_eq _ _ _ Hpos Hdrop) as Hlen. cbn [length] in Hlen.
    destruct (IH t key (pos + 1)%nat Hdb) as (fuel0 & Hget); [lia | exact Hd |].
    exists (S fuel0). intros [|fuel] Hf; [lia|]. cbn [tryGet].
    apply index_Ok in Hk. rewrite Hk. cbn [mbind result_bind].
    pose proof (proj2 (child_Ok ch i c) (conj Hi Hc)) as Hch. rewrite Hch.
    cbn [mbind result_bind].
    destruct (Hget fuel ltac:(lia)) as (newnode & didResolve & ->).
    cbn [mbind result_bind].
    destruct didResolve; [|eauto].
    assert (Hl : (Z.to_nat i < length ch)%nat) by (eapply lookup_lt_Some; eauto).
    rewrite (proj2 (setChild_Ok ch i newnode _) (conj Hi (conj Hl eq_refl))).
    cbn [mbind result_bind]. eauto.
  - destruct (IH t key pos Hdb Hpos Hdrop) as (fuel0 & Hget).
    exists (S fuel0). intros [|fuel] Hf; [lia|]. cbn [tryGet].
    subst dbo.
    rewrite (proj2 (resolveHash_Ok t h (take pos key) n) Hr). cbn [mbind result_bind].
    destruct (Hget fuel ltac:(lia)) as (newnode & didResolve & ->).
    cbn [mbind result_bind]. eauto.
Qed.

(** *** Operations on other keys keep the miss *)

Lemma take_app_prefix (a b key : list Z) :
  take (length (a ++ b)) key = a ++ b -> take (length a) key = a.
Proof.
  intros H. apply (f_equal (take (length a))) in H.
  rewrite take_take, take_app_length, length_app in H.
  rewrite Nat.min_l in H by lia. exact H.
Qed.

Lemma incomparable_prefix_l (key rest : list Z) : ~ incomparable key (key ++ rest).
Proof. intros H. apply incomparable_sym in H. eapply incomparable_prefix_r; eauto. Qed.

Lemma insert_frame_Miss (fuel : nat) : forall t n prefix key' value d nn key,
  insert fuel t n prefix key' value = Ok (d, nn) ->
  Miss (db t) n key -> incomparable key key' ->
  Forall (fun x => 0 <= x < 17) key ->
  Miss (db t) nn key.
Proof.
  induction fuel as [|fuel IH]; intros t n prefix key' value d nn key H Hm Hinc Hrange;
    [discriminate|].
  cbn [insert] in H.
  destruct key' as [|k0 key'']; [exfalso; eapply incomparable_nil_r; eauto|].
  cbn [length Nat.eqb] in H.
  destruct n as [| v0 | h | nKey nVal fl | ch fl].
  - injection H as <- <-. apply miss_diverge, incomparable_take, Hinc.
  - discriminate.
  - apply Miss_hash_inv in Hm as (rn & Hr & Hm).
    inv_bind H as rn' Hres. apply resolveHash_Ok in Hres.
    pose proof (resolves_fun _ _ _ _ Hr Hres) as <-.
    inv_bind H as [dirty nn'] Hins.
    destruct dirty; cbn [negb] in H; injection H as <- <-.
    + eapply IH; eauto.
    + exact Hm.
  - (* short node *)
    cbv zeta in H.
    destruct (Nat.eqb_spec (prefixLen (k0 :: key'') nKey) (length nKey)) as [Hl | Hl].
    + inv_bind H as [dirty nn'] Hins.
      pose proof (prefixLen_full_r _ _ Hl) as Hkey. rewrite Hl in Hins.
      destruct dirty; cbn [negb] in H; injection H as <- <-; [|exact Hm].
      apply Miss_short_inv in Hm as [Hd | (rest & -> & Hc)]; [apply miss_diverge, Hd|].
      apply miss_short. rewrite Hkey in Hinc. apply incomparable_app in Hinc.
      apply Forall_app in Hrange as [_ Hrange].
      eapply IH; eauto.
    + inv_bind H as i1 Hi1. inv_bind H as [d1 c1] Hc1. inv_bind H as br1 Hbr1.
      inv_bind H as i2 Hi2. inv_bind H as [d2 c2] Hc2. inv_bind H as br2 Hbr2.
      apply index_Ok in Hi1, Hi2.
      apply setChild_Ok in Hbr1, Hbr2.
      destruct Hbr1 as (Hr1 & Hl1 & ->). destruct Hbr2 as (Hr2 & Hl2 & ->).
      pose proof (prefixLen_differ _ _ _ _ Hi2 Hi1) as Hne.
      apply insert_nil in Hc1, Hc2.
      rewrite Nat.add_1_r in Hc1, Hc2.
      set (m := prefixLen (k0 :: key'') nKey) in *.
      set (P := take m (k0 :: key'')) in *.
      assert (HP : length P = m).
      { unfold P. rewrite length_take. apply lookup_lt_Some in Hi2. lia. }
      assert (HnKey : nKey = P ++ i1 :: drop (S m) nKey).
      { unfold P, m. rewrite prefixLen_take. apply key_split, Hi1. }
      assert (Hkey' : k0 :: key'' = P ++ i2 :: drop (S m) (k0 :: key'')).
      { unfold P. apply key_split, Hi2. }
      set (K1 := drop (S m) nKey) in *. set (K2 := drop (S m) (k0 :: key'')) in *.
      set (branch := <[Z.to_nat i2 := c2]> (<[Z.to_nat i1 := c1]> emptyChildren)).
      assert (Hres : Miss (db t) (if (m =? 0)%nat then fullNode branch (newFlag t)
                                  else shortNode P (fullNode branch (newFlag t)) (newFlag t))
                          key).
      { destruct (decide (take m key = P)) as [Ht | Ht].
        2:{ destruct (Nat.eqb_spec m 0) as [Hz | Hz].
            - exfalso. apply Ht. unfold P. rewrite Hz. reflexivity.
            - apply miss_diverge. rewrite HP. exact Ht. }
        assert (Hk : key = P ++ drop m key) by (rewrite <- Ht; symmetry; apply take_drop).
        destruct (drop m key) as [|i rest] eqn:Hdrop.
        { exfalso. rewrite app_nil_r in Hk. rewrite Hkey', Hk in Hinc.
          eapply incomparable_prefix_l; eauto. }
        rewrite Hk in Hrange. apply Forall_app in Hrange as [_ Hrange].
        apply Forall_cons in Hrange as [Hi _].
        rewrite Hkey' in Hinc. rewrite Hk in Hinc at 1. apply incomparable_app in Hinc.
        assert (Hfull : Miss (db t) (fullNode branch (newFlag t)) (i :: rest)).
        { destruct (Z.eq_dec i i2) as [-> | Hn2].
          - apply incomparable_cons in Hinc.
            eapply miss_full; [exact Hi | apply list_lookup_insert_eq, Hl2 |].
            rewrite Hc2. destruct K2 as [|x K2'] eqn:HK2.
            + exfalso. eapply incomparable_nil_r; eauto.
            + apply miss_diverge, incomparable_take, Hinc.
          - destruct (Z.eq_dec i i1) as [-> | Hn1].
            + eapply miss_full; [exact Hi | |].
              { unfold branch. rewrite list_lookup_insert_ne by lia.
                apply list_lookup_insert_eq. exact Hl1. }
              rewrite Hc1. apply (Miss_short_cut _ (P ++ [i1]) K1 nVal fl).
              rewrite <- !app_assoc. cbn [app]. rewrite <- HnKey, <- Hk. exact Hm.
            + eapply miss_full; [exact Hi | | apply miss_nil].
              unfold branch. rewrite !list_lookup_insert_ne by lia.
              apply lookup_replicate. split; [reflexivity | lia]. }
        rewrite Hk. destruct (m =? 0)%nat eqn:Hz.
        - apply Nat.eqb_eq in Hz.
          assert (HP0 : P = []) by (unfold P; rewrite Hz; reflexivity).
          rewrite HP0. exact Hfull.
        - apply miss_short, Hfull. }
      destruct (m =? 0)%nat; injection H as <- <-; exact Hres.
  - (* full node *)
    apply Miss_full_inv in Hm as (i & c & rest & -> & Hi & Hl & Hc).
    inv_bind H as k Hk. inv_bind H as c' Hc'. inv_bind H as [dirty nn'] Hins.
    apply index_Ok in Hk. cbn in Hk. injection Hk as <-.
    apply child_Ok in Hc'. destruct Hc' as [Hi' Hc'].
    cbn [drop] in Hins. rewrite drop_0 in Hins.
    destruct dirty; cbn [negb] in H.
    + inv_bind H as ch' Hset. injection H as <- <-.
      apply setChild_Ok in Hset. destruct Hset as (_ & Hlen & ->).
      destruct (Z.eq_dec k0 i) as [-> | Hne].
      * apply incomparable_cons in Hinc.
        assert (c' = c) by congruence. subst c'.
        apply Forall_cons in Hrange as [_ Hrange].
        eapply IH in Hins; [|exact Hc|exact Hinc|exact Hrange].
        eapply miss_full; [exact Hi | | exact Hins]. apply list_lookup_insert_eq, Hlen.
      * eapply miss_full; [exact Hi | | exact Hc].
        rewrite list_lookup_insert_ne by lia. exact Hl.
    + injection H as <- <-. eapply miss_full; eauto.
Qed.

Lemma delete_frame_Miss (fuel : nat) : forall t n prefix key' d nn key,
  delete fuel t n prefix key' = Ok (d, nn) ->
  Miss (db t) n key -> incomparable key key' ->
  Miss (db t) nn key.
Proof.
  induction fuel as [|fuel IH]; intros t n prefix key' d nn key H Hm Hinc;
    [discriminate|].
  cbn [delete] in H.
  destruct n as [| v0 | h | nKey nVal fl | ch fl].
  - injection H as <- <-. exact Hm.
  - inversion Hm.
  - apply Miss_hash_inv in Hm as (rn & Hr & Hm).
    inv_bind H as rn' Hres. apply resolveHash_Ok in Hres.
    pose proof (resolves_fun _ _ _ _ Hr Hres) as <-.
    inv_bind H as [dirty nn'] Hdel.
    destruct dirty; cbn [negb] in H; injection H as <- <-.
    + eapply IH; eauto.
    + exact Hm.
  - (* short node *)
    cbv zeta in H.
    destruct (Nat.ltb_spec (prefixLen key' nKey) (length nKey)) as [Hlt | Hge].
    { injection H as <- <-. exact Hm. }
    assert (Hl : prefixLen key' nKey = length nKey)
      by (pose proof (prefixLen_le_r key' nKey); lia).
    pose proof (prefixLen_full_r _ _ Hl) as Hkey.
    destruct (Nat.eqb_spec (prefixLen key' nKey) (length key')) as [He | Hne].
    { injection H as <- <-. apply miss_nil. }
    inv_bind H as [dirty c'] Hdel.
    destruct dirty; cbn [negb] in H; [|injection H as <- <-; exact Hm].
    apply Miss_short_inv in Hm as [Hd | (rest & -> & Hc)].
    + destruct c'; injection H as <- <-; apply miss_diverge; try exact Hd.
      unfold concat. intros Heq. apply Hd. eapply take_app_prefix; eauto.
    + rewrite Hkey in Hinc. apply incomparable_app in Hinc.
      eapply IH in Hdel; [|exact Hc|exact Hinc].
      apply (Miss_short_join _ nKey _ (newFlag t)) in Hdel.
      destruct c'; injection H as <- <-; exact Hdel.
  - (* full node *)
    apply Miss_full_inv in Hm as (i & c & rest & -> & Hi & Hl & Hc).
    destruct key' as [|k0 key'']; [exfalso; eapply incomparable_nil_r; eauto|].
    inv_bind H as k Hk. inv_bind H as c' Hc'. inv_bind H as [dirty nn'] Hdel.
    apply index_Ok in Hk. cbn in Hk. injection Hk as <-.
    apply child_Ok in Hc'. destruct Hc' as [Hi' Hc'].
    cbn [drop] in Hdel. rewrite drop_0 in Hdel.
    destruct dirty; cbn [negb] in H; [|injection H as <- <-; eapply miss_full; eauto].
    inv_bind H as ch' Hset.
    apply setChild_Ok in Hset. destruct Hset as (_ & Hlen & ->).
    assert (Hslot : exists c1, <[Z.to_nat k0 := nn']> ch !! Z.to_nat i = Some c1 /\
                               Miss (db t) c1 rest).
    { destruct (Z.eq_dec k0 i) as [-> | Hne].
      - apply incomparable_cons in Hinc.
        assert (c' = c) by congruence. subst c'.
        eapply IH in Hdel; [|exact Hc|exact Hinc].
        exists nn'. split; [apply list_lookup_insert_eq, Hlen | exact Hdel].
      - exists c. split; [|exact Hc].
        rewrite list_lookup_insert_ne by lia. exact Hl. }
    destruct Hslot as (c1 & Hlk & Hc1).
    assert (Hfull : forall fl', Miss (db t) (fullNode (<[Z.to_nat k0 := nn']> ch) fl')
                                     (i :: rest))
      by (intros fl'; eapply miss_full; eauto).
    destruct (isNil nn') eqn:Hnil; cbn [negb] in H;
      [|injection H as <- <-; apply Hfull].
    cbv zeta in H.
    destruct (Z.leb_spec 0 (remainingPos (<[Z.to_nat k0:=nn']> ch) 0 (-1))) as [Hpos | Hneg];
      [|injection H as <- <-; apply Hfull].
    destruct (remainingPos_single _ 0 ltac:(lia) Hpos) as (j & cj & Heq & Hj & Hnn & Huniq).
    rewrite Heq in H.
    inv_bind H as cp Hcp. apply child_Ok in Hcp. destruct Hcp as [Hprange Hcp].
    inv_bind H as cnode Hcn. rewrite byte_small in H by exact Hprange.
    destruct (Z.eq_dec i (0 + Z.of_nat j)) as [Hij | Hij].
    + rewrite <- Hij in *. assert (cp = c1) by congruence. subst cp.
      destruct (negb (i =? 16)) eqn:H16.
      * apply (resolve_Miss _ _ _ _ _ Hcn) in Hc1 as Hcnode.
        apply (Miss_short_join _ [i] _ (newFlag t)) in Hcnode.
        destruct cnode; injection H as <- <-;
          try (change (i :: rest) with ([i] ++ rest); apply miss_short, Hc1).
        exact Hcnode.
      * injection H as <- <-. change (i :: rest) with ([i] ++ rest). apply miss_short, Hc1.
    + assert (Hnn2 : exists k' c'' fl', nn = shortNode ((0 + Z.of_nat j) :: k') c'' fl').
      { destruct (negb (_ =? 16)); [destruct cnode|]; injection H as <- <-; eauto. }
      destruct Hnn2 as (k' & c'' & fl' & ->).
      apply miss_diverge. cbn [length take]. congruence.
Qed.

(** *** [hash] keeps the miss *)

Lemma hash_Miss_cached (dbo : option Database) (n : node) : forall b hd cached key,
  hash (newHasher false) n b = Ok (hd, cached) ->
  Miss dbo n key -> Miss dbo cached key.
Proof.
  induction n as [| v0 | x | k c fl IH | ch fl IH] using node_induction;
    intros b hd cached key H Hp.
  - discriminate.
  - injection H as <- <-. exact Hp.
  - injection H as <- <-. exact Hp.
  - destruct (flagHash fl) as [hn|] eqn:Hfl.
    { cbn [hash] in H. rewrite Hfl in H. injection H as <- <-. exact Hp. }
    destruct (hash_short_inv _ _ _ _ _ _ _ Hfl H) as (ck & cv & cc & Hck & Hcv & Hhd & ->).
    apply Miss_short_inv in Hp as [Hd | (rest & -> & Hpc)]; [apply miss_diverge, Hd|].
    apply miss_short.
    destruct (isShortOrFull c).
    + eapply IH; eauto.
    + destruct Hcv as [_ ->]. exact Hpc.
  - destruct (flagHash fl) as [hn|] eqn:Hfl.
    { cbn [hash] in H. rewrite Hfl in H. injection H as <- <-. exact Hp. }
    destruct (hash_full_inv _ _ _ _ _ _ Hfl H) as (cols & cacs & Hlen & Hcs & Hhd & ->).
    destruct (hashChildrenWith_inv _ _ _ _ _ Hcs) as [Hlc Hall].
    apply Miss_full_inv in Hp as (i & c & rest & -> & Hi & Hj & Hpc).
    destruct (Hall _ c Hj) as (col & cac & _ & Hcac & Hr). cbn [Nat.add] in Hr.
    apply (miss_full _ _ _ _ cac); [exact Hi | exact Hcac |].
    destruct (Z.to_nat i <? 16)%nat.
    + destruct (isNil c).
      * destruct Hr as [_ ->]. exact Hpc.
      * rewrite Forall_lookup in IH. eapply IH; eauto.
    + destruct Hr as [_ ->]. exact Hpc.
Qed.

Lemma Hash_Miss (t t' : Trie) (h key : list Z) :
  Hash t = Ok (h, t') ->
  Miss (db t) (root t) key -> Miss (db t) (root t') key.
Proof.
  unfold Hash, hashRoot. destruct (isNil (root t)) eqn:Hnil.
  - cbn. intros [= _ <-]. cbn [root setRoot]. intros _. apply miss_nil.
  - intros H Hp. inv_bind H as [[hashed cached] t3] Hh. inv_bind Hh as [hashed' cached'] Hh'.
    injection Hh as -> -> <-. destruct hashed; try discriminate. injection H as _ <-.
    cbn [root setRoot setUnhashed].
    rewrite (hash_hasher _ (newHasher false)) in Hh'.
    eapply hash_Miss_cached; eauto.
Qed.

(** ** Writing one key leaves the other keys as they are *)

Lemma TryGet_Some_HasPath (fuel : nat) (t t' : Trie) (k w : list Z) :
  dbCanon (db t) -> CanonRoot (db t) (root t) -> Forall is_byte k ->
  TryGet fuel t k = Ok (Some w, t') ->
  HasPath (db t) (root t) (keybytesToHex k) w.
Proof.
  intros Hdb Hroot Hk H. unfold TryGet in H.
  inv_bind H as [[value nn] did] Hg. injection H as -> _.
  destruct Hroot as [Hnil | Hc].
  - apply tryGet_leaf in Hg; [|auto]. rewrite Hg in Hnil. discriminate.
  - apply tryGet_sound in Hg; try assumption. apply keybytesToHex_hexTerm, Hk.
Qed.

(** What [TryGet] returns is what the lookup finds. *)
Lemma TryGet_Finds (fuel : nat) (t t' : Trie) (k : list Z) (r : option (list Z)) :
  dbCanon (db t) -> CanonRoot (db t) (root t) -> Forall is_byte k ->
  TryGet fuel t k = Ok (r, t') ->
  Finds (db t) (root t) (keybytesToHex k) r.
Proof.
  intros Hdb Hroot Hk H. destruct r as [w|]; cbn [Finds].
  - eapply TryGet_Some_HasPath; eauto.
  - unfold TryGet in H. inv_bind H as [[value nn] did] Hg. injection H as -> _.
    apply tryGet_Miss_sound in Hg; [exact Hg | lia].
Qed.

(** What the lookup finds is what [TryGet] returns, with enough fuel. *)
Lemma Finds_TryGet (t : Trie) (k : list Z) (r : option (list Z)) :
  Finds (db t) (root t) (keybytesToHex k) r ->
  exists fuel0, forall fuel, (fuel0 <= fuel)%nat ->
    exists t', TryGet fuel t k = Ok (r, t').
Proof.
  intros H. unfold TryGet. destruct r as [w|]; cbn [Finds] in H.
  - destruct (tryGet_HasPath _ _ _ _ H t (keybytesToHex k) 0 eq_refl ltac:(lia) eq_refl)
      as (fuel0 & Hf).
    exists fuel0. intros fuel Hfuel.
    destruct (Hf fuel Hfuel) as (nn & did & -> & _). cbn. eauto.
  - destruct (tryGet_Miss _ _ _ H t (keybytesToHex k) 0 eq_refl ltac:(lia) eq_refl)
      as (fuel0 & Hf).
    exists fuel0. intros fuel Hfuel.
    destruct (Hf fuel Hfuel) as (nn & did & ->). cbn. eauto.
Qed.

Lemma keybytesToHex_range (k : list Z) :
  Forall is_byte k -> Forall (fun x => 0 <= x < 17) (keybytesToHex k).
Proof.
  intros Hk. apply Forall_lookup. intros m x Hx.
  apply (hex_elem_range (keybytesToHex k) m); [|exact Hx].
  left. apply keybytesToHex_hexTerm, Hk.
Qed.

Lemma insert_frame_Finds (fuel : nat) (t : Trie) (n : node) (prefix key' : list Z)
    (value : node) (d : bool) (nn : node) (key : list Z) (r : option (list Z)) :
  insert fuel t n prefix key' value = Ok (d, nn) ->
  Finds (db t) n key r -> incomparable key key' ->
  Forall (fun x => 0 <= x < 17) key ->
  Finds (db t) nn key r.
Proof.
  destruct r; cbn [Finds]; intros; [eapply insert_frame | eapply insert_frame_Miss]; eauto.
Qed.

Lemma delete_frame_Finds (fuel : nat) (t : Trie) (n : node) (prefix key' : list Z)
    (d : bool) (nn : node) (key : list Z) (r : option (list Z)) :
  delete fuel t n prefix key' = Ok (d, nn) ->
  Finds (db t) n key r -> incomparable key key' ->
  Finds (db t) nn key r.
Proof.
  destruct r; cbn [Finds]; intros; [eapply delete_frame | eapply delete_frame_Miss]; eauto.
Qed.

Lemma Hash_Finds (t t' : Trie) (h key : list Z) (r : option (list Z)) :
  Hash t = Ok (h, t') ->
  Finds (db t) (root t) key r -> Finds (db t) (root t') key r.
Proof.
  destruct r; cbn [Finds]; intros; [eapply Hash_HasPath | eapply Hash_Miss]; eauto.
Qed.

(** X23. Writing one key leaves the other keys as they are: on a trie in
    canonical form over a store of canonical nodes (the empty trie, a trie
    [New] opens over such a store, also a small root, and what the
    operations leave), when [TryGet] of a key [k] gives a value or nil,
    then after [TryUpdate] or [TryDelete] of another key [k'] [TryGet] of
    [k] returns, with enough fuel, the same value or nil, and no error. *)
Theorem TryGet_other_key (fuel f1 : nat) (t t' t1 : Trie) (k k' v : list Z)
    (r : option (list Z)) :
  dbCanon (db t) -> CanonRoot (db t) (root t) ->
  Forall is_byte k -> Forall is_byte k' -> k <> k' ->
  TryUpdate fuel t k' v = Ok t' \/ TryDelete fuel t k' = Ok t' ->
  TryGet f1 t k = Ok (r, t1) ->
  exists fuel0, forall f2, (fuel0 <= f2)%nat ->
    exists t2, TryGet f2 t' k = Ok (r, t2).
Proof.
  intros Hdb Hroot Hk Hk' Hne Hop Hg.
  pose proof (keybytesToHex_incomparable k k' Hk Hk' Hne) as Hinc.
  pose proof (keybytesToHex_range k Hk) as Hrange.
  apply TryGet_Finds in Hg; try assumption.
  set (tu := setUnhashed t (unhashed t + 1)) in *.
  apply Finds_TryGet.
  assert (Hdel : forall d nn, delete fuel tu (root t) [] (keybytesToHex k') = Ok (d, nn) ->
            Finds (db t) nn (keybytesToHex k) r).
  { intros d nn Hd. apply (delete_frame_Finds fuel tu _ _ _ _ _ _ _ Hd Hg Hinc). }
  destruct Hop as [Hop | Hop].
  - unfold TryUpdate in Hop. fold tu in Hop. change (root tu) with (root t) in Hop.
    destruct (negb _); inv_bind Hop as [d nn] Hi; injection Hop as <-;
      cbn [db root setRoot setUnhashed tu]; [|apply (Hdel d nn Hi)].
    apply (insert_frame_Finds fuel tu _ _ _ _ _ _ _ _ Hi Hg Hinc Hrange).
  - unfold TryDelete in Hop. fold tu in Hop. change (root tu) with (root t) in Hop.
    inv_bind Hop as [d nn] Hi. injection Hop as <-.
    cbn [db root setRoot setUnhashed tu]. apply (Hdel d nn Hi).
Qed.

Lemma TryGet_other_key_witness :
  exists t' t1,
    New zeroHash smallRootHash (Some smallRootDatabase) = Ok smallRootTrie /\
    TryUpdate 10 smallRootTrie (ascii_bytes "dog") (ascii_bytes "puppy") = Ok t' /\
    TryGet 10 smallRootTrie (ascii_bytes "key") = Ok (Some (ascii_bytes "v"), t1) /\
    exists fuel0, forall f2, (fuel0 <= f2)%nat ->
      exists t2, TryGet f2 t' (ascii_bytes "key") = Ok (Some (ascii_bytes "v"), t2).
Proof.
  eexists _, _. split; [vm_compute; reflexivity|].
  split; [vm_compute; reflexivity|].
  split; [vm_compute; reflexivity|].
  refine (TryGet_other_key 10 10 smallRootTrie _ _ (ascii_bytes "key") (ascii_bytes "dog")
            (ascii_bytes "puppy") _ _ _ _ _ _ _ _).
  - exact smallRootDatabase_dbCanon.
  - exact smallRootTrie_CanonRoot.
  - repeat constructor; vm_compute; congruence.
  - repeat constructor; vm_compute; congruence.
  - vm_compute. congruence.
  - left. vm_compute. reflexivity.
  - vm_compute. reflexivity.
Defined.

(** ** Writing the value a key has, and reading after [Hash] *)

Lemma insert_value_same (fuel : nat) (t : Trie) (prefix v : list Z) (d : bool) (nn : node) :
  insert fuel t (valueNode v) prefix [] (valueNode v) = Ok (d, nn) ->
  d = false /\ nn = valueNode v.
Proof.
  destruct fuel; [discriminate|]. cbn. rewrite bytesEqual_refl. intros [= <- <-]. auto.
Qed.

Lemma insert_same (fuel : nat) : forall t n prefix key v d nn,
  dbCanon (db t) -> hexTerm key -> Canon (db t) n ->
  HasPath (db t) n key v ->
  insert fuel t n prefix key (valueNode v) = Ok (d, nn) ->
  d = false /\ (nn = n \/ exists h, n = hashNode h /\ resolves (db t) h nn).
Proof.
  induction fuel as [|fuel IH]; intros t n prefix key v d nn Hdb Hkey Hc Hp H;
    [discriminate|].
  cbn [insert] in H.
  assert (Hrem : (1 <= length key)%nat).
  { destruct key; [exfalso; apply hexTerm_not_nil, Hkey | cbn; lia]. }
  destruct (Nat.eqb_spec (length key) 0) as [|_]; [lia|].
  inversion Hc as [h | k v0 fl Hk | k c fl Hk Hbr Hcc | ch fl Hlen Hslots Hcount]; subst.
  - apply HasPath_hash_inv in Hp as (rn' & Hres' & Hp).
    inv_bind H as rn Hres. apply resolveHash_Ok in Hres.
    pose proof (resolves_fun _ _ _ _ Hres' Hres) as ->.
    destruct (Hdb _ _ Hres) as [Hsf Hcr].
    inv_bind H as [dirty nn'] Hins.
    destruct (IH _ _ _ _ _ _ _ Hdb Hkey Hcr Hp Hins) as [-> _].
    cbn [negb] in H. injection H as <- <-. split; [reflexivity|]. right. eauto.
  - apply HasPath_short_inv in Hp as (rest & -> & Hp).
    apply HasPath_value_inv in Hp as [-> ->]. rewrite app_nil_r in *.
    cbv zeta in H. rewrite prefixLen_refl, Nat.eqb_refl in H.
    inv_bind H as [dirty nn'] Hins.
    rewrite drop_all in Hins. apply insert_value_same in Hins as [-> _].
    cbn [negb] in H. injection H as <- <-. auto.
  - apply HasPath_short_inv in Hp as (rest & -> & Hp).
    cbv zeta in H. rewrite prefixLen_app_l, Nat.eqb_refl in H.
    inv_bind H as [dirty nn'] Hins.
    rewrite drop_app_length in Hins.
    apply (hexTerm_app_body _ _ Hk) in Hkey.
    destruct (IH _ _ _ _ _ _ _ Hdb Hkey Hcc Hp Hins) as [-> _].
    cbn [negb] in H. injection H as <- <-. auto.
  - apply HasPath_full_inv in Hp as (i & c & rest & -> & Hi & Hci & Hp).
    inv_bind H as k Hk. inv_bind H as c' Hc'. inv_bind H as [dirty nn'] Hins.
    apply index_Ok in Hk. cbn in Hk. injection Hk as <-.
    apply child_Ok in Hc'. destruct Hc' as [_ Hc']. rewrite Hci in Hc'. injection Hc' as <-.
    cbn [drop] in Hins. rewrite drop_0 in Hins.
    assert (Hd : dirty = false).
    { apply hexTerm_cons in Hkey.
      destruct (Hslots _ _ Hci) as [Hn | [[Hi16 Hval] | [Hi16 Hcan]]].
      - destruct c; try discriminate. inversion Hp.
      - destruct c; try discriminate. apply HasPath_value_inv in Hp as [-> ->].
        apply insert_value_same in Hins. tauto.
      - destruct Hkey as [[-> _] | [_ Hrest]]; [exfalso; apply Hi16; reflexivity|].
        eapply IH; eauto. }
    subst dirty. cbn [negb] in H. injection H as <- <-. auto.
Qed.

(** X24. Writing the value a key already has changes nothing: on a
    well-formed trie (the empty trie, a trie [New] opens over a store that
    keeps its nodes under their hashes, also a small root, and what the
    operations leave), after [TryUpdate] of a key with the value (not
    empty) that [TryGet] returns for it, [Hash] returns the same root hash
    as before. *)
Theorem Hash_after_TryUpdate_same (f fuel : nat) (t t0 t' th : Trie) (k v h0 : list Z) :
  wellFormed t -> Forall is_byte k -> v <> [] ->
  TryGet f t k = Ok (Some v, t0) ->
  TryUpdate fuel t k v = Ok t' ->
  Hash t = Ok (h0, th) ->
  exists th', Hash t' = Ok (h0, th').
Proof.
  intros (Hdb & Hroot & Hcache) Hk Hv Hget Hup Hh.
  apply TryGet_Some_HasPath in Hget; try assumption.
  assert (Hc : Canon (db t) (root t)).
  { destruct Hroot as [Hnil | Hc]; [|exact Hc].
    apply HasPath_not_nil in Hget. congruence. }
  unfold TryUpdate in Hup.
  destruct (Nat.eqb_spec (length v) 0) as [Hz | _];
    [destruct v; [congruence | discriminate]|].
  cbn [negb] in Hup. inv_bind Hup as [d nn] Hins. injection Hup as <-.
  set (tu := setUnhashed t (unhashed t + 1)) in *.
  change (root tu) with (root t) in Hins.
  destruct (insert_same fuel tu _ _ _ _ _ _ Hdb (keybytesToHex_hexTerm k Hk) Hc Hget Hins)
    as [_ Hnn].
  apply (Hash_Sim t _ h0 th); try assumption; [reflexivity|].
  cbn [root setRoot]. destruct Hnn as [-> | (h & Hn & Hres)].
  - apply sim_refl.
  - rewrite Hn. apply (sim_resolved _ h nn nn Hres). apply sim_refl.
Qed.

Lemma Hash_after_TryUpdate_same_witness :
  exists t0 t' h0 th,
    New zeroHash smallRootHash (Some smallRootDatabase) = Ok smallRootTrie /\
    TryGet 10 smallRootTrie (ascii_bytes "key") = Ok (Some (ascii_bytes "v"), t0) /\
    TryUpdate 10 smallRootTrie (ascii_bytes "key") (ascii_bytes "v") = Ok t' /\
    Hash smallRootTrie = Ok (h0, th) /\
    exists th', Hash t' = Ok (h0, th').
Proof.
  eexists _, _, _, _.
  split; [vm_compute; reflexivity|].
  split; [vm_compute; reflexivity|].
  split; [vm_compute; reflexivity|].
  split; [vm_compute; reflexivity|].
  refine (Hash_after_TryUpdate_same 10 10 smallRootTrie _ _ _ (ascii_bytes "key")
            (ascii_bytes "v") _ _ _ _ _ _ _).
  - exact smallRootTrie_wellFormed.
  - repeat constructor; vm_compute; congruence.
  - discriminate.
  - vm_compute. reflexivity.
  - vm_compute. reflexivity.
  - vm_compute. reflexivity.
Defined.

(** X25. [Hash] changes nothing that can be read: on a trie in canonical
    form over a store of canonical nodes (the empty trie, a trie [New]
    opens over such a store, also a small root, and what the operations
    leave), when [TryGet] of a key gives a value or nil, then on the trie
    [Hash] leaves [TryGet] of the key returns, with enough fuel, the same
    value or nil, and no error. *)
Theorem TryGet_after_Hash (f1 : nat) (t th t1 : Trie) (k h0 : list Z)
    (r : option (list Z)) :
  dbCanon (db t) -> CanonRoot (db t) (root t) -> Forall is_byte k ->
  Hash t = Ok (h0, th) ->
  TryGet f1 t k = Ok (r, t1) ->
  exists fuel0, forall f2, (fuel0 <= f2)%nat ->
    exists t2, TryGet f2 th k = Ok (r, t2).
Proof.
  intros Hdb Hroot Hk Hh Hg.
  apply TryGet_Finds in Hg; try assumption.
  apply Finds_TryGet. rewrite (Hash_db _ _ _ Hh).
  eapply Hash_Finds; eauto.
Qed.

Lemma TryGet_after_Hash_witness :
  exists h0 th t1,
    New zeroHash smallRootHash (Some smallRootDatabase) = Ok smallRootTrie /\
    Hash smallRootTrie = Ok (h0, th) /\
    TryGet 10 smallRootTrie (ascii_bytes "key") = Ok (Some (ascii_bytes "v"), t1) /\
    exists fuel0, forall f2, (fuel0 <= f2)%nat ->
      exists t2, TryGet f2 th (ascii_bytes "key") = Ok (Some (ascii_bytes "v"), t2).
Proof.
  eexists _, _, _. split; [vm_compute; reflexivity|].
  split; [vm_compute; reflexivity|].
  split; [vm_compute; reflexivity|].
  refine (TryGet_after_Hash 10 smallRootTrie _ _ (ascii_bytes "key") _ _ _ _ _ _ _).
  - exact smallRootDatabase_dbCanon.
  - exact smallRootTrie_CanonRoot.
  - repeat constructor; vm_compute; congruence.
  - vm_compute. reflexivity.
  - vm_compute. reflexivity.
Defined.
